(** * yoloair: models/yolo.py

    A shallow embedding of the graph builder ([parse_model]), the execution
    engine ([Model._forward_once]), the detection head ([Detect]) and the
    augmentation decoder ([Model._forward_augment]) of models/yolo.py,
    followed by the properties established about them.

    Conventions of the embedding.
    - Python integers are [Z].  A Python float is the rational [Q] that it
      holds; [to_float] rounds a rational to the nearest float, as reading
      a literal and multiplying two floats do (the depth gain).  The width
      gain, which is modelled from the specification, multiplies exactly.
    - Python exceptions are the constructors of [exn]; code that may raise
      returns [result].
    - Class objects compared with [is] / [in] are identified by the name
      under which yolo.py refers to them (the string that the YAML holds and
      [eval] resolves). *)

From Stdlib Require Import ZArith QArith Qround Qabs Qpower Lia Lqa.
From stdpp Require Import base option list sorting strings.

Set Warnings "-register-all".
Local Open Scope Z_scope.

(** ** Python exceptions and the error monad *)

Inductive exn : Type :=
| IndexError
| TypeError
| ValueError
| ZeroDivisionError
| RuntimeError.

Inductive result (A : Type) : Type :=
| Ok (a : A)
| Err (e : exn).
Arguments Ok {A} a.
Arguments Err {A} e.

#[global] Instance result_ret : MRet result := fun A a => Ok a.
#[global] Instance result_bind : MBind result := fun A B k r =>
  match r with
  | Ok a => k a
  | Err e => Err e
  end.
#[global] Instance result_fmap : FMap result := fun A B g r =>
  match r with
  | Ok a => Ok (g a)
  | Err e => Err e
  end.

Definition is_Err {A} (r : result A) : Prop := ∃ e, r = Err e.

(** [mapM] for [result], left to right, stopping at the first exception. *)
Fixpoint traverse {A B} (g : A → result B) (l : list A) : result (list B) :=
  match l with
  | [] => Ok []
  | a :: l => b ← g a; bs ← traverse g l; Ok (b :: bs)
  end.

(** ** Python built-ins used by the builder *)

(** [l[i]] on a list: negative indices count from the end. *)
Definition py_index {A} (l : list A) (i : Z) : result A :=
  let n := Z.of_nat (length l) in
  let j := if i <? 0 then n + i else i in
  if (0 <=? j) && (j <? n) then
    match l !! Z.to_nat j with
    | Some a => Ok a
    | None => Err IndexError
    end
  else Err IndexError.

(** [x % i] on integers: the result takes the sign of the divisor. *)
Definition py_mod (x i : Z) : result Z :=
  if i =? 0 then Err ZeroDivisionError else Ok (x mod i).

(** [x // i] on integers: floor division. *)
Definition py_floordiv (x i : Z) : result Z :=
  if i =? 0 then Err ZeroDivisionError else Ok (x / i).

(** [round(q)]: to the nearest integer, ties to the even one. *)
Definition py_round (q : Q) : Z :=
  let f := Qfloor q in
  match Qcompare (q - inject_Z f) (1 # 2) with
  | Lt => f
  | Gt => f + 1
  | Eq => if Z.even f then f else f + 1
  end.

(** [floor(log2(q))] for [0 < q]. *)
Definition Qlog2 (q : Q) : Z :=
  let k := Z.log2 (Qnum q) - Z.log2 (Zpos (Qden q)) in
  if Qle_bool (2 ^ k) q then k else k - 1.

(** The exponent of the last binary digit that a Python float (an IEEE 754
    double: 53 digits, least exponent -1074) keeps of [q]. *)
Definition float_ulp (q : Q) : Z := Z.max (Qlog2 (Qabs q) - 52) (-1074).

(** The Python float nearest to [q], ties to the even last digit: the value
    of a decimal literal and of [float(n)].  (At 2^1024 and beyond Python
    has no finite float; such values are not met here.) *)
Definition to_float (q : Q) : Q :=
  if Qeq_bool q 0 then 0
  else
    let e := float_ulp q in
    Qred (inject_Z (py_round (q * 2 ^ (- e))) * 2 ^ e).

(** [a * b] on floats: the float nearest to the product. *)
Definition float_mul (a b : Q) : Q := to_float (a * b).

(** [l.insert(i, x)] for [0 <= i]. *)
Definition py_insert {A} (i : nat) (x : A) (l : list A) : list A :=
  take i l ++ x :: drop i l.

(** [max(l)]: [ValueError] on an empty sequence. *)
Definition py_max (l : list Z) : result Z :=
  match l with
  | [] => Err ValueError
  | x :: l => Ok (foldl Z.max x l)
  end.

(** [sum(l)]. *)
Definition py_sum (l : list Z) : Z := foldl Z.add 0 l.

(** [sorted(l)] on integers. *)
Definition sorted (l : list Z) : list Z := merge_sort Z.le l.

(** [list(range(k))]. *)
Definition py_range (k : Z) : list Z := Z.of_nat <$> seq 0 (Z.to_nat k).

(** ** utils.general.make_divisible *)

(** Modelled from the spec: [make_divisible] is imported from utils.general,
    whose body is not among the sources.  The specification describes it as
    the standard rounding that takes the nearest multiple of the divisor,
    never below the divisor, and then moves one multiple up when the rounding
    dropped below 90% of the raw value. *)
Definition make_divisible (x : Q) (divisor : Z) : Z :=
  let new_v :=
    Z.max divisor (Qfloor ((x + inject_Z divisor / 2) / inject_Z divisor) * divisor) in
  if Qle_bool ((9 # 10) * x) (inject_Z new_v) then new_v else new_v + divisor.

(** ** Layer specifications *)

(** Values that occur as layer arguments once the strings are evaluated. *)
Inductive value : Type :=
| VInt (z : Z)
| VFloat (q : Q)
| VBool (b : bool)
| VStr (s : string)
| VNone
| VList (l : list value).

(** The [from] field: one index, or a list of indices. *)
Inductive source : Type :=
| FInt (f : Z)
| FList (fs : list Z).

(** One entry [f, n, m, args] of the backbone or head list. *)
Record LayerSpec : Type := mkSpec {
  spec_f : source;
  spec_n : Z;
  spec_m : string;
  spec_args : list value
}.

(** The [anchors] entry: explicit per-scale lists, or a count. *)
Inductive anchors_cfg : Type :=
| AnchorList (l : list (list Z))
| AnchorCount (k : Z).

(** The model dictionary [d]. *)
Record config : Type := mkConfig {
  anchors : anchors_cfg;
  nc : Z;
  depth_multiple : Q;
  width_multiple : Q;
  backbone : list LayerSpec;
  head : list LayerSpec
}.

(** A constructed module [m_]: the attributes [i] and [f] attached to it,
    and what it was constructed from, the class [m] applied to the resolved
    arguments, repeated [n] times when [n > 1].  The display string [type]
    (cut out of [str(m)]), the parameter count [np] and the log line only
    report and are left out. *)
Record BuiltLayer : Type := mkBuilt {
  built_i : Z;
  built_f : source;
  built_m : string;
  built_args : list value;
  built_n : Z
}.

(** ** parse_model *)

(** The class lists of the [if]/[elif] chain, in the order of the source. *)
Definition standard_modules : list string :=
  ["Conv"; "GhostConv"; "Bottleneck"; "GhostBottleneck"; "SPP"; "SPPF"; "DWConv";
   "MixConv2d"; "Focus"; "CrossConv"; "BottleneckCSP"; "C3"; "C3TR"; "C3SPP";
   "C3Ghost"; "C3HB"; "C3RFEM"; "MultiSEAM"; "SEAM"; "C3STR"].
Definition standard_repeat_modules : list string :=
  ["BottleneckCSP"; "C3"; "C3TR"; "C3Ghost"; "C3HB"; "C3RFEM"; "C3STR"].
Definition research_modules : list string :=
  ["CARAFE"; "SPPCSPC"; "SPPFCSPC"; "RepConv"; "BoT3"; "CA"; "CBAM"; "NAMAttention";
   "GAMAttention"; "Involution"; "Stem"; "ResCSPC"; "ResCSPB"; "ResXCSPB"; "ResXCSPC";
   "BottleneckCSPB"; "BottleneckCSPC"; "ASPP"; "BasicRFB"; "SPPCSPC_group"; "HorBlock";
   "CNeB"; "C3GC"; "C3C2"; "nn.ConvTranspose2d"].
Definition research_repeat_modules : list string :=
  ["C3RFEM"; "SPPCSPC"; "BoT3"; "ResCSPC"; "ResCSPB"; "ResXCSPB"; "ResXCSPC";
   "BottleneckCSPB"; "BottleneckCSPC"; "HorBlock"; "CNeB"; "C3GC"; "C3C2"].
Definition light_modules : list string :=
  ["CBH"; "ES_Bottleneck"; "DWConvblock"; "RepVGGBlock"; "LC_Block"; "Dense";
   "conv_bn_relu_maxpool"; "Shuffle_Block"; "stem"; "mobilev3_bneck"; "conv_bn_hswish";
   "MobileNetV3_InvertedResidual"; "DepthSepConv"; "ShuffleNetV2_Model"; "Conv_maxpool";
   "CoT3"; "ConvNextBlock"; "RepBlock"].
Definition light_repeat_modules : list string := ["CoT3"; "ConvNextBlock"].
Definition yolov4_modules : list string :=
  ["SPPCSP"; "BottleneckCSP2"; "DownC"; "BottleneckCSPF"; "RepVGGBlockv6"; "VoVGSCSP";
   "GSConv"].
Definition yolov4_repeat_modules : list string :=
  ["SPPCSP"; "BottleneckCSP2"; "DownC"; "BottleneckCSPF"; "VoVGSCSP"].
Definition reorg_modules : list string := ["ReOrg"; "DWT"].
Definition attention_modules : list string :=
  ["S2Attention"; "SimSPPF"; "ACmix"; "CrissCrossAttention"; "SOCA"; "ShuffleAttention";
   "SEAttention"; "SimAM"; "SKAttention"].
Definition replknet_modules : list string :=
  ["RepLKNet_Stem"; "RepLKNet_stage1"; "RepLKNet_stage2"; "RepLKNet_stage3";
   "RepLKNet_stage4"].
Definition idetect_modules : list string := ["IDetect"; "IAuxDetect"].
Definition detectx_modules : list string := ["DetectX"; "DetectYoloX"].
Definition regnet_modules : list string := ["RegNet1"; "RegNet2"; "RegNet3"].
Definition efficient_modules : list string := ["Efficient1"; "Efficient2"; "Efficient3"].
Definition mobilenet_modules : list string := ["MobileNet1"; "MobileNet2"; "MobileNet3"].

(** [m in [...]] and [m is C]. *)
Definition isin (m : string) (l : list string) : bool := bool_decide (m ∈ l).
Definition is_ (m c : string) : bool := bool_decide (m = c).

(** [ch[f]] for the [from] field: a list is not an index. *)
Definition ch_at (ch : list Z) (f : source) : result Z :=
  match f with
  | FInt z => py_index ch z
  | FList _ => Err TypeError
  end.

(** [[ch[x] for x in f]]: an integer is not iterable. *)
Definition ch_all (ch : list Z) (f : source) : result (list Z) :=
  match f with
  | FInt _ => Err TypeError
  | FList fs => traverse (py_index ch) fs
  end.

(** [len(f)] for the [from] field. *)
Definition len_source (f : source) : result Z :=
  match f with
  | FInt _ => Err TypeError
  | FList fs => Ok (Z.of_nat (length fs))
  end.

(** An argument used as a channel count or factor.  Channel arguments are
    integers in the model; any other value there counts as a [TypeError]. *)
Definition as_int (v : value) : result Z :=
  match v with
  | VInt z => Ok z
  | _ => Err TypeError
  end.

(** [args[k]] used as a number. *)
Definition arg_int (args : list value) (k : Z) : result Z :=
  v ← py_index args k; as_int v.

(** The width gain [if c2 != no: c2 = make_divisible(c2 * gw, 8)]. *)
Definition width_gain (no : Z) (gw : Q) (c2 : Z) : Z :=
  if bool_decide (c2 ≠ no) then make_divisible (inject_Z c2 * gw) 8 else c2.

(** [c1, c2 = ch[f], args[0]] followed by the width gain. *)
Definition scaled_channels (no : Z) (gw : Q) (ch : list Z) (f : source)
    (args : list value) : result (Z * Z) :=
  c1 ← ch_at ch f;
  c2 ← arg_int args 0;
  Ok (c1, width_gain no gw c2).

(** The detection-head arms: append the source channels and expand an
    anchor count into per-scale index lists. *)
Definition detect_args (ch : list Z) (f : source) (args : list value) :
    result (list value) :=
  cs ← ch_all ch f;
  let args := args ++ [VList (VInt <$> cs)] in
  a ← py_index args 1;
  let expand k :=
    nf ← len_source f;
    Ok (<[1%nat := VList (replicate (Z.to_nat nf) (VList (VInt <$> py_range (k * 2))))]> args) in
  match a with
  | VInt k => expand k
  | VBool b => expand (Z.b2z b)
  | _ => Ok args
  end.

(** The [if]/[elif] chain of the loop body: from the class [m], the [from]
    field, the depth-gained repeat count [n], the raw arguments, the channel
    trace [ch] and the running [c2], the resolved arguments, the new [c2]
    and the repeat count left for the sequence-level loop. *)
Definition resolve_layer (no : Z) (gw : Q) (m : string) (f : source) (n : Z)
    (args : list value) (ch : list Z) (c2 : Z) : result (list value * Z * Z) :=
  if isin m standard_modules then
    '(c1, c2) ← scaled_channels no gw ch f args;
    let args := VInt c1 :: VInt c2 :: drop 1 args in
    if isin m standard_repeat_modules then Ok (py_insert 2 (VInt n) args, c2, 1)
    else Ok (args, c2, n)
  else if isin m research_modules then
    '(c1, c2) ← scaled_channels no gw ch f args;
    let args := VInt c1 :: VInt c2 :: drop 1 args in
    if isin m research_repeat_modules then Ok (py_insert 2 (VInt n) args, c2, 1)
    else if is_ m "nn.ConvTranspose2d" then
      if 7 <=? Z.of_nat (length args) then
        a6 ← arg_int args 6;
        Ok (<[6%nat := VInt (make_divisible (inject_Z a6 * gw) 8)]> args, c2, n)
      else Ok (args, c2, n)
    else Ok (args, c2, n)
  else if isin m light_modules then
    '(c1, c2) ← scaled_channels no gw ch f args;
    let args := VInt c1 :: VInt c2 :: drop 1 args in
    if isin m light_repeat_modules then Ok (py_insert 2 (VInt n) args, c2, 1)
    else Ok (args, c2, n)
  else if isin m yolov4_modules then
    '(c1, c2) ← scaled_channels no gw ch f args;
    let args := VInt c1 :: VInt c2 :: drop 1 args in
    if isin m yolov4_repeat_modules then Ok (py_insert 2 (VInt n) args, c2, 1)
    else Ok (args, c2, n)
  else if isin m reorg_modules then
    c ← ch_at ch f; Ok (args, c * 4, n)
  else if isin m attention_modules then
    '(c1, c2) ← scaled_channels no gw ch f args;
    Ok (VInt c1 :: drop 1 args, c2, n)
  else if is_ m "nn.BatchNorm2d" then
    c ← ch_at ch f; Ok ([VInt c], c2, n)
  else if is_ m "Concat" then
    cs ← ch_all ch f; Ok (args, py_sum cs, n)
  else if is_ m "ConvNeXt" then
    c2 ← arg_int args 0; Ok (drop 1 args, c2, n)
  else if isin m replknet_modules then
    c2 ← arg_int args 0; Ok (drop 1 args, c2, n)
  else if is_ m "ADD" then
    cs ← ch_all ch f; Ok (args, py_sum cs / 2, n)
  else if is_ m "Concat_bifpn" then
    cs ← ch_all ch f; c2 ← py_max cs; Ok (args, c2, n)
  else if is_ m "RepBlock" then
    Ok (py_insert 2 (VInt n) args, c2, 1)
  else if is_ m "ConvNeXt" then
    c2 ← arg_int args 0; Ok (drop 1 args, c2, n)
  else if is_ m "Detect" then
    args ← detect_args ch f args; Ok (args, c2, n)
  else if is_ m "space_to_depth" then
    c ← ch_at ch f; Ok (args, 4 * c, n)
  else if is_ m "ASFF_Detect" then
    args ← detect_args ch f args; Ok (args, c2, n)
  else if is_ m "Decoupled_Detect" then
    args ← detect_args ch f args; Ok (args, c2, n)
  else if isin m idetect_modules then
    args ← detect_args ch f args; Ok (args, c2, n)
  else if isin m detectx_modules then
    cs ← ch_all ch f; Ok (args ++ [VList (VInt <$> cs)], c2, n)
  else if is_ m "Contract" then
    c ← ch_at ch f; a ← arg_int args 0; Ok (args, c * a ^ 2, n)
  else if is_ m "MobileOne" then
    c1 ← ch_at ch f;
    c2 ← arg_int args 0;
    let c2 := make_divisible (inject_Z c2 * gw) 8 in
    Ok (VInt c1 :: VInt c2 :: VInt n :: drop 1 args, c2, n)
  else if is_ m "HorNet" then
    c2 ← arg_int args 0; Ok (drop 1 args, c2, n)
  else if isin m regnet_modules then
    c2 ← arg_int args 0; Ok (args, c2, n)
  else if isin m efficient_modules then
    c2 ← arg_int args 0; Ok (args, c2, n)
  else if isin m mobilenet_modules then
    c2 ← arg_int args 0; Ok (args, c2, n)
  else if is_ m "Expand" then
    c ← ch_at ch f; a ← arg_int args 0; c2 ← py_floordiv c (a ^ 2); Ok (args, c2, n)
  else
    c ← ch_at ch f; Ok (args, c, n).

(** [[f] if isinstance(f, int) else f]. *)
Definition source_list (f : source) : list Z :=
  match f with
  | FInt z => [z]
  | FList fs => fs
  end.

(** The generator handed to [save.extend]:
    [x % i for x in ... if x != -1]. *)
Definition save_refs (i : Z) (f : source) : result (list Z) :=
  traverse (λ x, py_mod x i) (filter (λ x, x ≠ -1) (source_list f)).

(** The variables the loop carries from one layer to the next. *)
Record build_state : Type := mkState {
  st_layers : list BuiltLayer;
  st_save : list Z;
  st_c2 : Z;
  st_ch : list Z
}.

(** The depth gain [max(round(n * gd), 1) if n > 1 else n]: [gd] is the
    number written in the configuration, held as a float, and [n * gd] is
    the product of floats. *)
Definition depth_gain (gd : Q) (n : Z) : Z :=
  if 1 <? n
  then Z.max (py_round (float_mul (to_float (inject_Z n)) (to_float gd))) 1
  else n.

(** One iteration of the loop over [enumerate(d['backbone'] + d['head'])]. *)
Definition parse_layer (no : Z) (gd gw : Q) (i : Z) (sp : LayerSpec)
    (st : build_state) : result build_state :=
  let f := spec_f sp in
  let m := spec_m sp in
  let n := depth_gain gd (spec_n sp) in
  '(args, c2, n) ← resolve_layer no gw m f n (spec_args sp) (st_ch st) (st_c2 st);
  let m_ := mkBuilt i f m args n in
  refs ← save_refs i f;
  let ch := if i =? 0 then [] else st_ch st in
  Ok (mkState (st_layers st ++ [m_]) (st_save st ++ refs) c2 (ch ++ [c2])).

Fixpoint parse_layers (no : Z) (gd gw : Q) (i : Z) (specs : list LayerSpec)
    (st : build_state) : result build_state :=
  match specs with
  | [] => Ok st
  | sp :: specs =>
      st ← parse_layer no gd gw i sp st;
      parse_layers no gd gw (i + 1) specs st
  end.

(** [na = (len(anchors[0]) // 2) if isinstance(anchors, list) else anchors]. *)
Definition number_of_anchors (a : anchors_cfg) : result Z :=
  match a with
  | AnchorList l => a0 ← py_index l 0; Ok (Z.of_nat (length a0) / 2)
  | AnchorCount k => Ok k
  end.

Definition parse_model (d : config) (ch : list Z) :
    result (list BuiltLayer * list Z) :=
  na ← number_of_anchors (anchors d);
  let no := na * (nc d + 5) in
  c2 ← py_index ch (-1);
  st ← parse_layers no (depth_multiple d) (width_multiple d) 0
         (backbone d ++ head d) (mkState [] [] c2 ch);
  Ok (st_layers st, sorted (st_save st)).

(** ** Specification-side notions for the builder *)

(** The source indices of the specs from position [i] on, without [-1],
    each taken modulo the position of the layer that names it. *)
Fixpoint normalized_refs (i : Z) (specs : list LayerSpec) : list Z :=
  match specs with
  | [] => []
  | sp :: specs =>
      ((λ x, x mod i) <$> filter (λ x, x ≠ -1) (source_list (spec_f sp)))
        ++ normalized_refs (i + 1) specs
  end.

(** The save list as a duplicate-free ascending set of what later layers
    reference. *)
Definition save_is_sorted_set (d : config) (save : list Z) : Prop :=
  Sorted Z.le save ∧
  NoDup save ∧
  ∀ (i : nat) sp x,
    (backbone d ++ head d) !! i = Some sp →
    x ∈ source_list (spec_f sp) → x ≠ -1 → x mod Z.of_nat i ∈ save.




(** The classes whose declared width goes through the guarded width gain. *)
Definition width_scaled (m : string) : bool :=
  isin m standard_modules || isin m research_modules || isin m light_modules ||
  isin m yolov4_modules || isin m attention_modules.



(** ** Example configurations *)

Definition upsample_spec : LayerSpec :=
  mkSpec (FInt (-1)) 1 "nn.Upsample" [VNone; VInt 2; VStr "nearest"].

(** Layers 2 and 3 both concatenate the previous output with the output of
    layer 0. *)
Definition cfg_two_concats : config :=
  mkConfig (AnchorCount 3) 80 1 1
    [upsample_spec; upsample_spec;
     mkSpec (FList [-1; 0]) 1 "Concat" [VInt 1];
     mkSpec (FList [-1; 0]) 1 "Concat" [VInt 1]] [].

(** Layer 1 names layer 5, which does not exist. *)
Definition cfg_forward_mobilenet : config :=
  mkConfig (AnchorCount 3) 80 1 1
    [upsample_spec; mkSpec (FInt 5) 1 "MobileNet1" [VInt 24]] [].


(** * The execution engine: Model._forward_once *)

(** What flows between layers: a tensor, [None], or a list or tuple of such
    values.  [T] is the type of tensors. *)
Inductive pyval (T : Type) : Type :=
| PTensor (t : T)
| PNone
| PList (l : list (pyval T))
| PTuple (l : list (pyval T)).
Arguments PTensor {T} t.
Arguments PNone {T}.
Arguments PList {T} l.
Arguments PTuple {T} l.

Section engine.
(** [St] is whatever the layers keep between calls (caches, buffers); a
    layer's [forward] may read and update it and may raise. *)
Context {St T : Type}.

(** A module of [self.model] with the attributes [parse_model] attaches:
    its index [i] and its [from] field [f]; [nl] is the number of detection
    layers, read from the last module by the augmentation decoder. *)
Record Module : Type := mkModule {
  m_i : Z;
  m_f : source;
  m_nl : Z;
  m_forward : pyval T → St → result (pyval T * St)
}.

(** One call [m(x)] as the engine issued it. *)
Record call : Type := mkCall {
  call_input : pyval T;
  call_output : pyval T
}.

(** The input of layer [m]: [x] itself when [m.f == -1], else
    [y[m.f]] for an integer and
    [[x if j == -1 else y[j] for j in m.f]] for a list. *)
Definition layer_input (m : Module) (x : pyval T) (y : list (pyval T)) :
    result (pyval T) :=
  match m_f m with
  | FInt f => if f =? -1 then Ok x else py_index y f
  | FList fs => PList <$> traverse (λ j, if j =? -1 then Ok x else py_index y j) fs
  end.

(** The loop of [_forward_once] with [profile] and [visualize] off, from the
    current [x], the history [y] and the layers' state [s].  The calls made
    are logged next to the result. *)
Fixpoint run_layers (save : list Z) (ms : list Module) (x : pyval T)
    (y : list (pyval T)) (log : list call) (s : St) :
    result (pyval T * list (pyval T) * list call * St) :=
  match ms with
  | [] => Ok (x, y, log, s)
  | m :: ms =>
      xin ← layer_input m x y;
      '(xout, s) ← m_forward m xin s;
      let y := y ++ [if bool_decide (m_i m ∈ save) then xout else PNone] in
      run_layers save ms xout y (log ++ [mkCall xin xout]) s
  end.

Definition _forward_once (model : list Module) (save : list Z) (x : pyval T)
    (s : St) : result (pyval T * St) :=
  '(x, _, _, s) ← run_layers save model x [] [] s;
  Ok (x, s).

(** What the layer at position [k] is fed, in terms of the output [prev] of
    the layer before it and the history [hist] at that moment. *)
Definition fed_from (f : source) (prev : pyval T) (hist : list (pyval T))
    (xin : pyval T) : Prop :=
  match f with
  | FInt f => if bool_decide (f = -1) then xin = prev else py_index hist f = Ok xin
  | FList fs =>
      ∃ l, xin = PList l ∧
        Forall2 (λ j v, if bool_decide (j = -1) then v = prev
                        else py_index hist j = Ok v) fs l
  end.

(** The output of the call before position [k], or the input of the run. *)
Definition previous_output (x0 : pyval T) (log : list call) (k : nat) : pyval T :=
  match k with
  | O => x0
  | S k => default x0 (call_output <$> log !! k)
  end.

End engine.
Arguments Module : clear implicits.
Arguments call : clear implicits.

(** ** Example model for the engine *)

(** Layer 0 doubles, layer 1 adds one, layer 2 gathers the previous output
    and the output of layer 0; tensors are plain integers here. *)
Definition toy_double (v : pyval Z) (s : unit) : result (pyval Z * unit) :=
  match v with
  | PTensor t => Ok (PTensor (2 * t), s)
  | _ => Err TypeError
  end.
Definition toy_succ (v : pyval Z) (s : unit) : result (pyval Z * unit) :=
  match v with
  | PTensor t => Ok (PTensor (t + 1), s)
  | _ => Err TypeError
  end.
Definition toy_gather (v : pyval Z) (s : unit) : result (pyval Z * unit) :=
  Ok (PTuple [v], s).
Definition toy_model : list (Module unit Z) :=
  [mkModule 0 (FInt (-1)) 0 toy_double;
   mkModule 1 (FInt (-1)) 0 toy_succ;
   mkModule 2 (FList [-1; 0]) 0 toy_gather].

(** * Tensors *)

(** The element type of floating tensors with the operations yolo.py
    applies to elements.  Nothing is assumed about them: what is proved
    holds for any arithmetic that implements them. *)
Class Scalar (T : Type) : Type := {
  s_lit : Q → T;
  s_add : T → T → T;
  s_sub : T → T → T;
  s_mul : T → T → T;
  s_div : T → T → T;
  s_pow : T → Z → T;
  s_sigmoid : T → T;
  s_log : T → T;
  s_max : T → T → T;
  s_int : T → Z
}.

Declare Scope scalar_scope.
Delimit Scope scalar_scope with sc.
Infix "+" := s_add : scalar_scope.
Infix "-" := s_sub : scalar_scope.
Infix "*" := s_mul : scalar_scope.
Infix "/" := s_div : scalar_scope.
Infix "^" := s_pow : scalar_scope.

(** A contiguous tensor: its shape and its elements in row-major order. *)
Record tensor (T : Type) : Type := mkTensor {
  shape : list nat;
  data : list T
}.
Arguments mkTensor {T} shape data.
Arguments shape {T} t.
Arguments data {T} t.

(** Number of elements of a shape. *)
Definition numel (sh : list nat) : nat := foldr Nat.mul 1%nat sh.

(** Row-major offset of a multi-index, and the multi-index of an offset. *)
Fixpoint ravel (sh idx : list nat) : nat :=
  match sh, idx with
  | _ :: sh, i :: idx => (i * numel sh + ravel sh idx)%nat
  | _, _ => 0%nat
  end.

Fixpoint unravel (sh : list nat) (j : nat) : list nat :=
  match sh with
  | [] => []
  | _ :: sh => (j / numel sh)%nat :: unravel sh (j mod numel sh)%nat
  end.

(** [idx] addresses an element of a tensor of shape [sh]. *)
Definition in_range (sh idx : list nat) : Prop :=
  Forall2 (λ d i, (i < d)%nat) sh idx.

Definition wf_tensor {T} (t : tensor T) : Prop :=
  length (data t) = numel (shape t).

Section tensor_ops.
Context {T : Type} `{!Scalar T}.

(** The element at a multi-index (a placeholder outside the tensor; the
    operations below check shapes before they read). *)
Definition tref (t : tensor T) (idx : list nat) : T :=
  default (s_lit 0) (data t !! ravel (shape t) idx).

(** The tensor of shape [sh] whose element at [idx] is [f idx]. *)
Definition tabulate (sh : list nat) (f : list nat → T) : tensor T :=
  mkTensor sh ((λ j, f (unravel sh j)) <$> seq 0 (numel sh)).

(** Elementwise application. *)
Definition tmap (f : T → T) (t : tensor T) : tensor T :=
  mkTensor (shape t) (f <$> data t).

(** [t.view(sh)] with every size given. *)
Definition view (sh : list nat) (t : tensor T) : result (tensor T) :=
  if bool_decide (numel sh = numel (shape t)) then Ok (mkTensor sh (data t))
  else Err RuntimeError.

(** [t.view(a, -1, c)]: the middle size is inferred. *)
Definition view_infer (a c : nat) (t : tensor T) : result (tensor T) :=
  let n := numel (shape t) in
  if bool_decide ((a * c)%nat ≠ 0%nat ∧ (n mod (a * c))%nat = 0%nat)
  then Ok (mkTensor [a; (n / (a * c))%nat; c] (data t))
  else Err RuntimeError.

(** Broadcasting: a shape [sh] stretches to [target] when, aligned at the
    right, each of its sizes is 1 or the target's. *)
Definition broadcastable_to (sh target : list nat) : bool :=
  bool_decide
    ((length sh ≤ length target)%nat ∧
     Forall2 (λ d e, d = 1%nat ∨ d = e) sh (drop (length target - length sh) target)).

(** The index into a tensor of shape [sh] that an index of the stretched
    shape reads. *)
Definition bcast_index (sh idx : list nat) : list nat :=
  zip_with (λ d i, if bool_decide (d = 1%nat) then 0%nat else i)
    sh (drop (length idx - length sh) idx).

(** [t.expand(target)]. *)
Definition expand (target : list nat) (t : tensor T) : result (tensor T) :=
  if broadcastable_to (shape t) target
  then Ok (tabulate target (λ idx, tref t (bcast_index (shape t) idx)))
  else Err RuntimeError.

(** [t[i]]: the sub-tensor at index [i] of the first axis. *)
Definition select0 (i : nat) (t : tensor T) : result (tensor T) :=
  match shape t with
  | d :: sh =>
      if bool_decide (i < d)%nat then Ok (tabulate sh (λ idx, tref t (i :: idx)))
      else Err IndexError
  | [] => Err IndexError
  end.

(** [torch.arange(n)], as floats. *)
Definition arange (n : nat) : tensor T :=
  tabulate [n] (λ idx, s_lit (inject_Z (Z.of_nat (default 0%nat (idx !! 0%nat))))).

(** [torch.meshgrid([a, b])] with matrix indexing, for one-dimensional
    [a] and [b]. *)
Definition meshgrid (a b : tensor T) : tensor T * tensor T :=
  let sh := [numel (shape a); numel (shape b)] in
  (tabulate sh (λ idx, tref a (take 1 idx)),
   tabulate sh (λ idx, tref b (drop 1 idx))).

(** [torch.stack((u, v), 2)] for two-dimensional [u] and [v] of one shape. *)
Definition stack2 (u v : tensor T) : result (tensor T) :=
  if bool_decide (shape u = shape v ∧ length (shape u) = 2%nat)
  then Ok (tabulate (shape u ++ [2%nat])
             (λ idx, if bool_decide (idx !! 2%nat = Some 0%nat)
                     then tref u (take 2 idx) else tref v (take 2 idx)))
  else Err RuntimeError.

(** Python slice bounds [start:stop] on an axis of size [n]; an absent bound
    is [None], a negative one counts from the end. *)
Definition slice_bound (n : nat) (b : Z) : nat :=
  Z.to_nat (Z.min (Z.of_nat n) (Z.max 0 (if b <? 0 then Z.of_nat n + b else b))).
Definition slice_range (n : nat) (start stop : option Z) : nat * nat :=
  let lo := from_option (slice_bound n) 0%nat start in
  let hi := from_option (slice_bound n) n stop in
  (lo, Nat.max lo hi).

(** [t[:, start:stop]]: a slice of the second axis. *)
Definition slice1 (start stop : option Z) (t : tensor T) : result (tensor T) :=
  match shape t with
  | d0 :: n :: rest =>
      let '(lo, hi) := slice_range n start stop in
      Ok (tabulate (d0 :: (hi - lo)%nat :: rest)
            (λ idx, match idx with
                    | b :: p :: r => tref t (b :: (p + lo)%nat :: r)
                    | _ => s_lit 0
                    end))
  | _ => Err IndexError
  end.

(** The last axis: its size, and an index split into the leading part and
    the position on the last axis. *)
Definition last_dim (sh : list nat) : result nat :=
  match last sh with
  | Some n => Ok n
  | None => Err IndexError
  end.
Definition lead (idx : list nat) : list nat := take (length idx - 1) idx.
Definition pos_last (idx : list nat) : nat := default 0%nat (last idx).

(** [t[..., start:stop]]: a slice of the last axis. *)
Definition slice_last (start stop : option Z) (t : tensor T) : result (tensor T) :=
  n ← last_dim (shape t);
  let '(lo, hi) := slice_range n start stop in
  Ok (tabulate (lead (shape t) ++ [(hi - lo)%nat])
        (λ idx, tref t (lead idx ++ [(pos_last idx + lo)%nat]))).

(** [t[..., k]]: one position of the last axis. *)
Definition index_last (k : nat) (t : tensor T) : result (tensor T) :=
  n ← last_dim (shape t);
  if bool_decide (k < n)%nat
  then Ok (tabulate (lead (shape t)) (λ idx, tref t (idx ++ [k])))
  else Err IndexError.
End tensor_ops.

Notation "t .[ idx ]" := (tref t idx) (at level 1, format "t .[ idx ]").

(** ** The free arithmetic

    An instance of [Scalar] in which every operation builds the expression
    it stands for; it serves for the worked examples. *)
Inductive sexpr : Type :=
| SLit (q : Q)
| SAdd (a b : sexpr)
| SSub (a b : sexpr)
| SMul (a b : sexpr)
| SDiv (a b : sexpr)
| SPow (a : sexpr) (n : Z)
| SSigmoid (a : sexpr)
| SLog (a : sexpr)
| SMax (a b : sexpr).

Fixpoint sexpr_int (e : sexpr) : Z :=
  match e with
  | SLit q => if Qle_bool 0 q then Qfloor q else Qceiling q
  | SMax a b => Z.max (sexpr_int a) (sexpr_int b)
  | _ => 0
  end.

#[global] Instance sexpr_scalar : Scalar sexpr := {|
  s_lit := SLit;
  s_add := SAdd;
  s_sub := SSub;
  s_mul := SMul;
  s_div := SDiv;
  s_pow := SPow;
  s_sigmoid := SSigmoid;
  s_log := SLog;
  s_max := SMax;
  s_int := sexpr_int
|}.

(** The tensor of shape [sh] that holds 0, 1, 2, ... in row-major order. *)
Definition iota (sh : list nat) : tensor sexpr :=
  mkTensor sh ((λ j, SLit (inject_Z (Z.of_nat j))) <$> seq 0 (numel sh)).

(** * The augmentation decoder *)

Section augment.
Context {T : Type} `{!Scalar T}.

(** [timap f t]: the tensor of the shape of [t] whose element at [idx] is
    [f idx t[idx]]. *)
Definition timap (f : list nat → T → T) (t : tensor T) : tensor T :=
  tabulate (shape t) (λ idx, f idx t.[idx]).

(** [torch.cat(ts, -1)]: the tensors agree on all sizes but the last. *)
Fixpoint cat_pick_last (ts : list (tensor T)) (l : list nat) (k : nat) : T :=
  match ts with
  | [] => s_lit 0
  | t :: ts =>
      let n := pos_last (shape t) in
      if bool_decide (k < n)%nat then t.[l ++ [k]]
      else cat_pick_last ts l (k - n)
  end.

Definition cat_last (ts : list (tensor T)) : result (tensor T) :=
  match ts with
  | [] => Err RuntimeError
  | t0 :: _ =>
      if bool_decide (Forall (λ t, shape t ≠ [] ∧ lead (shape t) = lead (shape t0)) ts)
      then Ok (tabulate (lead (shape t0) ++ [sum_list (pos_last ∘ shape <$> ts)])
                 (λ idx, cat_pick_last ts (lead idx) (pos_last idx)))
      else Err RuntimeError
  end.

(** [torch.cat(ts, 1)]: the tensors agree on all sizes but the second. *)
Definition dim1 (sh : list nat) : nat := default 0%nat (sh !! 1%nat).

Fixpoint cat_pick1 (ts : list (tensor T)) (b p : nat) (r : list nat) : T :=
  match ts with
  | [] => s_lit 0
  | t :: ts =>
      let n := dim1 (shape t) in
      if bool_decide (p < n)%nat then t.[b :: p :: r]
      else cat_pick1 ts b (p - n) r
  end.

Definition cat1 (ts : list (tensor T)) : result (tensor T) :=
  match ts with
  | [] => Err RuntimeError
  | t0 :: _ =>
      if bool_decide
           (Forall (λ t, (2 ≤ length (shape t))%nat ∧
                         <[1%nat := 0%nat]> (shape t) = <[1%nat := 0%nat]> (shape t0)) ts)
      then Ok (tabulate (<[1%nat := sum_list (dim1 ∘ shape <$> ts)]> (shape t0))
                 (λ idx, match idx with
                         | b :: p :: r => cat_pick1 ts b p r
                         | _ => s_lit 0
                         end))
      else Err RuntimeError
  end.

(** [t.flip(d)]: reverse the axis [d]. *)
Definition flip (d : Z) (t : tensor T) : result (tensor T) :=
  n ← py_index (shape t) d;
  let k := Z.to_nat (if d <? 0 then Z.of_nat (length (shape t)) + d else d) in
  Ok (tabulate (shape t)
        (λ idx, t.[<[k := (n - 1 - default 0%nat (idx !! k))%nat]> idx])).

(** [p[..., lo:hi] = f(p[..., lo:hi])] for a literal range [lo:hi]. *)
Definition map_last (lo hi : nat) (f : T → T) (p : tensor T) : result (tensor T) :=
  _ ← last_dim (shape p);
  Ok (timap (λ idx v,
        if bool_decide (lo ≤ pos_last idx < hi)%nat then f v else v) p).

(** [p[..., k] = f(p[..., k])]. *)
Definition map_at_last (k : nat) (f : T → T) (p : tensor T) : result (tensor T) :=
  n ← last_dim (shape p);
  if bool_decide (k < n)%nat
  then Ok (timap (λ idx v, if bool_decide (pos_last idx = k) then f v else v) p)
  else Err IndexError.

(** [img_size[k]] for [img_size = x.shape[-2:]], as a number. *)
Definition img_size_at (sh : list nat) (k : Z) : result T :=
  n ← py_index (drop (length sh - 2) sh) k;
  Ok (s_lit (inject_Z (Z.of_nat n))).

(** [Model._descale_pred]: [flips] is [None], 2 (up-down) or 3
    (left-right); [img_sh] is the shape of the input image. *)
Definition _descale_pred (inplace : bool) (p : tensor T) (flips : option Z)
    (scale : Q) (img_sh : list nat) : result (tensor T) :=
  let sc := s_lit scale in
  if inplace then
    p ← map_last 0 4 (λ v, (v / sc)%sc) p;
    if bool_decide (flips = Some 2) then
      h ← img_size_at img_sh 0;
      map_at_last 1 (λ v, (h - v)%sc) p
    else if bool_decide (flips = Some 3) then
      w ← img_size_at img_sh 1;
      map_at_last 0 (λ v, (w - v)%sc) p
    else Ok p
  else
    x ← slice_last (Some 0) (Some 1) p;
    y ← slice_last (Some 1) (Some 2) p;
    wh ← slice_last (Some 2) (Some 4) p;
    let x := tmap (λ v, (v / sc)%sc) x in
    let y := tmap (λ v, (v / sc)%sc) y in
    let wh := tmap (λ v, (v / sc)%sc) wh in
    '(x, y) ←
      (if bool_decide (flips = Some 2) then
         h ← img_size_at img_sh 0; Ok (x, tmap (λ v, (h - v)%sc) y)
       else if bool_decide (flips = Some 3) then
         w ← img_size_at img_sh 1; Ok (tmap (λ v, (w - v)%sc) x, y)
       else Ok (x, y));
    rest ← slice_last (Some 4) None p;
    cat_last [x; y; wh; rest].

(** [t.shape[k]]. *)
Definition shape_at (t : tensor T) (k : Z) : result Z :=
  Z.of_nat <$> py_index (shape t) k.

(** [sum(4 ** x for x in range(nl))] and its companions. *)
Definition grid_points (nl : Z) : Z := py_sum ((λ x, 4 ^ x) <$> py_range nl).

(** [Model._clip_augmented]: [nl] is [self.model[-1].nl]. *)
Definition _clip_augmented (nl : Z) (y : list (tensor T)) : result (list (tensor T)) :=
  let g := grid_points nl in
  let e := 1 in
  y0 ← py_index y 0;
  n0 ← shape_at y0 1;
  q0 ← py_floordiv n0 g;
  let i := q0 * py_sum ((λ x, 4 ^ x) <$> py_range e) in
  y0 ← slice1 None (Some (- i)) y0;
  let y := <[0%nat := y0]> y in
  yl ← py_index y (-1);
  nl_ ← shape_at yl 1;
  ql ← py_floordiv nl_ g;
  let i := ql * py_sum ((λ x, 4 ^ (nl - 1 - x)) <$> py_range e) in
  yl ← slice1 (Some i) None yl;
  Ok (<[(length y - 1)%nat := yl]> y).

(** [self._forward_once(xi)[0]]. *)
Definition first_output (v : pyval (tensor T)) : result (pyval (tensor T)) :=
  match v with
  | PTuple l | PList l => py_index l 0
  | PTensor t => PTensor <$> select0 0 t
  | PNone => Err TypeError
  end.

(** A value used where a tensor is required. *)
Definition as_tensor (v : pyval (tensor T)) : result (tensor T) :=
  match v with
  | PTensor t => Ok t
  | _ => Err TypeError
  end.

(** [int(self.stride.max())]. *)
Definition stride_max (stride : tensor T) : result Z :=
  match data stride with
  | [] => Err RuntimeError
  | s :: ss => Ok (s_int (foldl s_max s ss))
  end.

Section model.
Context {St : Type}.
(** [utils.torch_utils.scale_img(img, ratio, gs=...)] is not among the
    sources; it is a parameter of the decoder. *)
Context (scale_img : tensor T → Q → Z → tensor T).

(** The attributes of [Model] the decoder uses. *)
Record Model : Type := mkModel {
  model : list (Module St (tensor T));
  save : list Z;
  stride : tensor T;
  inplace : bool
}.

(** The body of the loop over [zip(s, f)] of [_forward_augment]. *)
Definition augment_pass (mdl : Model) (x : tensor T) (si : Q) (fi : option Z)
    (st : St) : result (tensor T * St) :=
  xf ← match fi with
       | Some d => if bool_decide (d ≠ 0) then flip d x else Ok x
       | None => Ok x
       end;
  gs ← stride_max (stride mdl);
  let xi := scale_img xf si gs in
  '(out, st) ← _forward_once (model mdl) (save mdl) (PTensor xi) st;
  yi ← first_output out;
  yi ← as_tensor yi;
  yi ← _descale_pred (inplace mdl) yi fi si (shape x);
  Ok (yi, st).

(** The loop, over the schedule still to run. *)
Fixpoint augment_passes (mdl : Model) (x : tensor T)
    (sched : list (Q * option Z)) (st : St) : result (list (tensor T) * St) :=
  match sched with
  | [] => Ok ([], st)
  | (si, fi) :: sched =>
      '(yi, st) ← augment_pass mdl x si fi st;
      '(y, st) ← augment_passes mdl x sched st;
      Ok (yi :: y, st)
  end.

Definition _forward_augment (mdl : Model) (x : tensor T) (st : St) :
    result (tensor T * pyval (tensor T) * St) :=
  let s := [1; 83 # 100; 67 # 100]%Q in
  let f := [None; Some 3; None] in
  '(y, st) ← augment_passes mdl x (zip s f) st;
  last_m ← py_index (model mdl) (-1);
  y ← _clip_augmented (m_nl last_m) y;
  out ← cat1 y;
  Ok (out, PNone, st).

End model.
End augment.
Arguments Model : clear implicits.

(** ** Specification-side notions for the decoder *)

Section augment_spec.
Context {T : Type} `{!Scalar T}.

(** The clipping in the words of the specification, for three passes: the
    count [(shape[1] // g) * 1] taken on the first pass is removed from the
    head of the first pass and from the tail of the last one. *)
Definition clip_head_then_tail (nl : Z) (y : list (tensor T)) :
    result (list (tensor T)) :=
  match y with
  | [a; b; c] =>
      n0 ← shape_at a 1;
      q ← py_floordiv n0 (grid_points nl);
      let i := q * 1 in
      a' ← slice1 (Some i) None a;
      n2 ← shape_at c 1;
      c' ← slice1 None (Some (n2 - i)) c;
      Ok [a'; b; c']
  | _ => Err ValueError
  end.

(** What [_descale_pred] is to leave at index [idx] of a prediction tensor:
    the first four entries of the last axis divided by the scale, with x
    (entry 0) reflected about the width [w] for a left-right flip and y
    (entry 1) about the height [h] for an up-down flip. *)
Definition descaled (p : tensor T) (flips : option Z) (scale : Q) (h w : T)
    (idx : list nat) : T :=
  let sc := s_lit scale in
  let k := pos_last idx in
  let v := p.[idx] in
  if bool_decide (4 ≤ k)%nat then v
  else if bool_decide (flips = Some 3 ∧ k = 0%nat) then (w - v / sc)%sc
  else if bool_decide (flips = Some 2 ∧ k = 1%nat) then (h - v / sc)%sc
  else (v / sc)%sc.

(** [y] is [p] de-scaled and de-flipped. *)
Definition descales_to (p : tensor T) (flips : option Z) (scale : Q) (h w : T)
    (y : tensor T) : Prop :=
  shape y = shape p ∧
  ∀ idx, in_range (shape p) idx → y.[idx] = descaled p flips scale h w idx.

End augment_spec.

(** ** Example predictions *)

(** Three passes of one image with 21 predictions of one entry each. *)
Definition passes_21 : list (tensor sexpr) :=
  [iota [1; 21; 1]; iota [1; 21; 1]; iota [1; 21; 1]]%nat.

(** A head in one module: whatever it is given, it answers with 21
    predictions of six entries for one image; rescaling is the identity. *)
Definition toy_scale_img (x : tensor sexpr) (ratio : Q) (gs : Z) : tensor sexpr := x.
Definition toy_head (v : pyval (tensor sexpr)) (s : unit) :
    result (pyval (tensor sexpr) * unit) :=
  match v with
  | PTensor _ => Ok (PTuple [PTensor (iota [1; 21; 6]%nat); PList []], s)
  | _ => Err TypeError
  end.
Definition toy_detector : Model sexpr unit :=
  mkModel [mkModule 0 (FInt (-1)) 3 toy_head] []
    (mkTensor [3%nat] [SLit 8; SLit 16; SLit 32]) true.
Definition toy_image : tensor sexpr := iota [1; 3; 4; 4]%nat.

(** * Bias initialisation: Model._initialize_biases *)

Section biases.
Context {T : Type} `{!Scalar T}.

(** [bias.view(na, -1)]. *)
Definition view_rows (na : nat) (t : tensor T) : result (tensor T) :=
  let n := numel (shape t) in
  if bool_decide (na ≠ 0%nat ∧ (n mod na)%nat = 0%nat)
  then Ok (mkTensor [na; (n / na)%nat] (data t))
  else Err RuntimeError.

(** [b.data[:, k] += c] on a two-dimensional [b]. *)
Definition add_to_column (k : nat) (c : T) (b : tensor T) : result (tensor T) :=
  match shape b with
  | [_; n] =>
      if bool_decide (k < n)%nat
      then Ok (timap (λ idx v, if bool_decide (idx !! 1%nat = Some k)
                               then (v + c)%sc else v) b)
      else Err IndexError
  | _ => Err IndexError
  end.

(** [b.data[:, k:] += r] on a two-dimensional [b], where [r] is broadcast
    to the columns from [k] on. *)
Definition add_to_columns_from (k : nat) (r : tensor T) (b : tensor T) :
    result (tensor T) :=
  match shape b with
  | [rows; n] =>
      if broadcastable_to (shape r) [rows; (n - k)%nat]
      then Ok (timap (λ idx v,
                 match idx with
                 | [a; j] =>
                     if bool_decide (k ≤ j)%nat
                     then (v + r.[bcast_index (shape r) [a; (j - k)%nat]])%sc
                     else v
                 | _ => v
                 end) b)
      else Err RuntimeError
  | _ => Err IndexError
  end.

(** A number as a zero-dimensional tensor. *)
Definition scalar_tensor (c : T) : tensor T := mkTensor [] [c].

(** [cf.sum()]. *)
Definition tsum (t : tensor T) : T := foldl s_add (s_lit 0) (data t).

(** [math.log(8 / (640 / s) ** 2)]. *)
Definition objectness_prior (s : T) : T :=
  s_log (s_lit 8 / (s_lit 640 / s) ^ 2)%sc.

(** [math.log(0.6 / (m.nc - 0.999999))]. *)
Definition class_prior (nc : Z) : T :=
  s_log (s_lit (6 # 10) / (s_lit (inject_Z nc) - s_lit (999999 # 1000000)))%sc.

(** [torch.log(cf / cf.sum())]. *)
Definition class_frequency_prior (cf : tensor T) : tensor T :=
  tmap s_log (tmap (λ v, (v / tsum cf)%sc) cf).

(** The body of the loop for one output convolution with bias [bias] and
    stride [s]; the result is the new [mi.bias]. *)
Definition initialize_bias (na : nat) (nc : Z) (cf : option (tensor T))
    (bias : tensor T) (s : T) : result (tensor T) :=
  b ← view_rows na bias;
  b ← add_to_column 4 (objectness_prior s) b;
  b ← add_to_columns_from 5
        (match cf with
         | None => scalar_tensor (class_prior nc)
         | Some cf => class_frequency_prior cf
         end) b;
  Ok (mkTensor [numel (shape b)] (data b)).

(** [_initialize_biases]: [biases] are the biases of [m.m] in order and
    [stride] the elements of [m.stride]; [zip] stops at the shorter. *)
Definition _initialize_biases (na : nat) (nc : Z) (cf : option (tensor T))
    (biases : list (tensor T)) (stride : list T) : result (list (tensor T)) :=
  new ← traverse (λ '(bias, s), initialize_bias na nc cf bias s) (zip biases stride);
  Ok (new ++ drop (length new) biases).

(** The offset the specification gives for entry [k] of an anchor's block
    of the bias: the objectness prior at 4, the class prior from 5 on. *)
Definition bias_offset (nc : Z) (cf : option (tensor T)) (s : T) (k : nat) :
    option T :=
  if bool_decide (k = 4%nat) then Some (objectness_prior s)
  else if bool_decide (5 ≤ k)%nat then
    Some (match cf with
          | None => class_prior nc
          | Some cf =>
              s_log (cf.[[if bool_decide (shape cf = [1%nat]) then 0%nat
                          else (k - 5)%nat]] / tsum cf)%sc
          end)
  else None.

End biases.

(** ** Example head biases *)

(** One output convolution for two anchors and one class (so twelve bias
    entries), at stride 8. *)
Definition toy_biases : list (tensor sexpr) := [iota [12%nat]].
Definition toy_strides : list sexpr := [SLit 8].

(** * The detection head: Detect *)

(** A tensor object refers to a storage; views of a tensor share its
    storage.  The heap maps storage locations to their elements. *)
Record handle : Type := mkHandle {
  h_loc : nat;
  h_shape : list nat
}.

(** The heap: storage locations are positions of the list. *)
Abbreviation heap T := (list (list T)) (only parsing).

Section detect.
Context {T : Type} `{!Scalar T}.

(** The value a tensor object currently has. *)
Definition deref (h : heap T) (p : handle) : result (tensor T) :=
  match h !! h_loc p with
  | Some d => Ok (mkTensor (h_shape p) d)
  | None => Err RuntimeError
  end.

(** A new tensor object with a storage of its own. *)
Definition alloc (h : heap T) (t : tensor T) : heap T * handle :=
  (h ++ [data t], mkHandle (length h) (shape t)).

(** Writing a tensor's elements in place. *)
Definition store (h : heap T) (p : handle) (t : tensor T) : heap T :=
  <[h_loc p := data t]> h.

(** [p.view(a, -1, c)] on a tensor object: same storage, new shape. *)
Definition view_infer_handle (a c : nat) (p : handle) : result handle :=
  let n := numel (h_shape p) in
  if bool_decide ((a * c)%nat ≠ 0%nat ∧ (n mod (a * c))%nat = 0%nat)
  then Ok (mkHandle (h_loc p) [a; (n / (a * c))%nat; c])
  else Err RuntimeError.

(** The attributes of a [Detect] module.  [det_m] holds the output
    convolutions, each a function of its input that may raise;
    [det_stride] is [None] until the model is built. *)
Record Detect : Type := mkDetect {
  det_no : nat;
  det_nl : nat;
  det_na : nat;
  det_anchors : tensor T;
  det_m : list (tensor T → result (tensor T));
  det_stride : option (tensor T);
  det_inplace : bool;
  det_training : bool;
  det_onnx_dynamic : bool;
  det_grid : list (tensor T);
  det_anchor_grid : list (tensor T)
}.

(** [l[i]] for [0 <= i]. *)
Definition item {A} (l : list A) (i : nat) : result A :=
  match l !! i with
  | Some a => Ok a
  | None => Err IndexError
  end.

(** [self.stride[i]]. *)
Definition stride_at (d : Detect) (i : nat) : result T :=
  match det_stride d with
  | None => Err TypeError
  | Some s => item (data s) i
  end.

(** [Detect._make_grid(nx, ny, i)]. *)
Definition _make_grid (d : Detect) (nx ny i : nat) : result (tensor T * tensor T) :=
  ai ← select0 i (det_anchors d);
  let '(yv, xv) := meshgrid (arange ny) (arange nx) in
  st ← stack2 xv yv;
  grid ← expand [1%nat; det_na d; ny; nx; 2%nat] st;
  si ← stride_at d i;
  a ← view [1%nat; det_na d; 1%nat; 1%nat; 2%nat] (tmap (λ v, (v * si)%sc) ai);
  anchor_grid ← expand [1%nat; det_na d; ny; nx; 2%nat] a;
  Ok (grid, anchor_grid).

(** [bs, _, ny, nx = x[i].shape]. *)
Definition unpack4 (sh : list nat) : result (nat * nat * nat) :=
  match sh with
  | [bs; _; ny; nx] => Ok (bs, ny, nx)
  | _ => Err ValueError
  end.

(** [t.permute(0, 1, 3, 4, 2).contiguous()] for a five-dimensional [t]. *)
Definition permute_01342 (t : tensor T) : result (tensor T) :=
  match shape t with
  | [bs; na; no; ny; nx] =>
      Ok (tabulate [bs; na; ny; nx; no]
            (λ idx, match idx with
                    | [b; a; y; x; k] => t.[[b; a; k; y; x]]
                    | _ => s_lit 0
                    end))
  | _ => Err RuntimeError
  end.

(** [y[..., lo:hi] = f(y[..., lo:hi], g)] where [g] is broadcast against the
    slice. *)
Definition assign_last (lo hi : nat) (f : T → T → T) (g y : tensor T) :
    result (tensor T) :=
  n ← last_dim (shape y);
  let '(lo', hi') := slice_range n (Some (Z.of_nat lo)) (Some (Z.of_nat hi)) in
  if broadcastable_to (shape g) (lead (shape y) ++ [(hi' - lo')%nat])
  then Ok (timap (λ idx v,
             let k := pos_last idx in
             if bool_decide (lo' ≤ k < hi')%nat
             then f v g.[bcast_index (shape g) (lead idx ++ [(k - lo')%nat])]
             else v) y)
  else Err RuntimeError.

(** [f(a, g)] elementwise with [g] broadcast to the shape of [a] (the case
    in which [a] is stretched as well is treated as an error). *)
Definition zip_bcast (f : T → T → T) (g a : tensor T) : result (tensor T) :=
  if broadcastable_to (shape g) (shape a)
  then Ok (timap (λ idx v, f v g.[bcast_index (shape g) idx]) a)
  else Err RuntimeError.

(** [(v * 2 - 0.5 + g) * s] and [(v * 2) ** 2 * a]. *)
Definition decode_xy (s : T) (v g : T) : T :=
  ((v * s_lit 2 - s_lit (1 # 2) + g) * s)%sc.
Definition decode_wh (v a : T) : T :=
  ((v * s_lit 2) ^ 2 * a)%sc.

(** [self.onnx_dynamic or self.grid[i].shape[2:4] != x[i].shape[2:4]]. *)
Definition grid_stale (d : Detect) (grid : list (tensor T)) (i : nat)
    (xi : tensor T) : result bool :=
  if det_onnx_dynamic d then Ok true
  else
    gi ← item grid i;
    Ok (bool_decide (take 2 (drop 2 (shape gi)) ≠ take 2 (drop 2 (shape xi)))).

(** The variables of [forward] while the loop runs: the heap, the list [x]
    of tensor objects, the list [z], and the two caches. *)
Record fwd : Type := mkFwd {
  f_heap : heap T;
  f_x : list handle;
  f_z : list handle;
  f_grid : list (tensor T);
  f_anchor_grid : list (tensor T)
}.

(** The body of the loop of [forward] for scale [i]. *)
Definition forward_scale (d : Detect) (i : nat) (st : fwd) : result fwd :=
  mi ← item (det_m d) i;
  xi ← item (f_x st) i;
  vin ← deref (f_heap st) xi;
  c ← mi vin;
  let '(h, hc) := alloc (f_heap st) c in
  '(bs, ny, nx) ← unpack4 (shape c);
  v ← view [bs; det_na d; det_no d; ny; nx] c;
  r ← permute_01342 v;
  let '(h, hr) := alloc h r in
  let x := <[i := hr]> (f_x st) in
  if det_training d then Ok (mkFwd h x (f_z st) (f_grid st) (f_anchor_grid st))
  else
    stale ← grid_stale d (f_grid st) i r;
    '(grid, agrid) ←
      (if (stale : bool)
       then '(g, a) ← _make_grid d nx ny i;
            Ok (<[i := g]> (f_grid st), <[i := a]> (f_anchor_grid st))
       else Ok (f_grid st, f_anchor_grid st));
    let '(h, hy) := alloc h (tmap s_sigmoid r) in
    gi ← item grid i;
    ai ← item agrid i;
    si ← stride_at d i;
    if det_inplace d then
      y ← deref h hy;
      y ← assign_last 0 2 (decode_xy si) gi y;
      let h := store h hy y in
      y ← deref h hy;
      y ← assign_last 2 4 decode_wh ai y;
      let h := store h hy y in
      zi ← view_infer_handle bs (det_no d) hy;
      Ok (mkFwd h x (f_z st ++ [zi]) grid agrid)
    else
      y ← deref h hy;
      sxy ← slice_last (Some 0) (Some 2) y;
      xy ← zip_bcast (decode_xy si) gi sxy;
      swh ← slice_last (Some 2) (Some 4) y;
      wh ← zip_bcast decode_wh ai swh;
      rest ← slice_last (Some 4) None y;
      y ← cat_last [xy; wh; rest];
      let '(h, hy) := alloc h y in
      zi ← view_infer_handle bs (det_no d) hy;
      Ok (mkFwd h x (f_z st ++ [zi]) grid agrid).

(** The loop [for i in range(self.nl)], over the scales still to do. *)
Fixpoint forward_scales (d : Detect) (scales : list nat) (st : fwd) : result fwd :=
  match scales with
  | [] => Ok st
  | i :: scales => st ← forward_scale d i st; forward_scales d scales st
  end.

(** What [forward] returns: [x] in training, [(torch.cat(z, 1), x)] in
    inference. *)
Inductive forward_result : Type :=
| Training (x : list handle)
| Inference (pred : handle) (x : list handle).

(** [Detect.forward(x)], from the heap [h]; the module comes back with its
    caches as the call left them. *)
Definition forward (d : Detect) (x : list handle) (h : heap T) :
    result (forward_result * Detect * heap T) :=
  st ← forward_scales d (seq 0 (det_nl d))
         (mkFwd h x [] (det_grid d) (det_anchor_grid d));
  let d' :=
    mkDetect (det_no d) (det_nl d) (det_na d) (det_anchors d) (det_m d) (det_stride d)
      (det_inplace d) (det_training d) (det_onnx_dynamic d)
      (f_grid st) (f_anchor_grid st) in
  if det_training d then Ok (Training (f_x st), d', f_heap st)
  else
    zs ← traverse (deref (f_heap st)) (f_z st);
    pred ← cat1 zs;
    let '(h, hp) := alloc (f_heap st) pred in
    Ok (Inference hp (f_x st), d', h).

(** The module switched to training or to inference. *)
Definition set_training (b : bool) (d : Detect) : Detect :=
  mkDetect (det_no d) (det_nl d) (det_na d) (det_anchors d) (det_m d) (det_stride d)
    (det_inplace d) b (det_onnx_dynamic d) (det_grid d) (det_anchor_grid d).

(** [torch.zeros(1)], the placeholder in the caches of a new module. *)
Definition zeros1 : tensor T := mkTensor [1%nat] [s_lit 0].

(** ** Specification-side notions for the head *)

(** The raw tensor of scale [i]: the convolution output viewed as
    (bs, na, no, ny, nx) and permuted to (bs, na, ny, nx, no). *)
Definition raw_scale (d : Detect) (i : nat) (vin : tensor T) : result (tensor T) :=
  mi ← item (det_m d) i;
  c ← mi vin;
  '(bs, ny, nx) ← unpack4 (shape c);
  v ← view [bs; det_na d; det_no d; ny; nx] c;
  permute_01342 v.

(** The decoded value at [idx] of a scale with raw tensor [r], grid [g],
    anchor grid [ag] and stride [s]; the grids are read by broadcasting. *)
Definition decoded (r g ag : tensor T) (s : T) (idx : list nat) : T :=
  let v := s_sigmoid r.[idx] in
  let k := pos_last idx in
  if bool_decide (k < 2)%nat
  then decode_xy s v g.[bcast_index (shape g) idx]
  else if bool_decide (k < 4)%nat
  then decode_wh v ag.[bcast_index (shape ag) (lead idx ++ [(k - 2)%nat])]
  else v.

(** [g] is the coordinate grid of a [ny] by [nx] map: for every anchor it
    holds (x, y) at position (y, x). *)
Definition is_grid (d : Detect) (ny nx : nat) (g : tensor T) : Prop :=
  shape g = [1%nat; det_na d; ny; nx; 2%nat] ∧
  ∀ an y x, (an < det_na d)%nat → (y < ny)%nat → (x < nx)%nat →
    g.[[0%nat; an; y; x; 0%nat]] = s_lit (inject_Z (Z.of_nat x)) ∧
    g.[[0%nat; an; y; x; 1%nat]] = s_lit (inject_Z (Z.of_nat y)).

(** [a] is the anchor grid of scale [i] for a [ny] by [nx] map: at every
    position it holds each anchor's (width, height) times the stride [s]. *)
Definition is_anchor_grid (d : Detect) (i : nat) (s : T) (ny nx : nat)
    (a : tensor T) : Prop :=
  shape a = [1%nat; det_na d; ny; nx; 2%nat] ∧
  ∀ an y x c, (an < det_na d)%nat → (y < ny)%nat → (x < nx)%nat → (c < 2)%nat →
    a.[[0%nat; an; y; x; c]] = ((det_anchors d).[[i; an; c]] * s)%sc.

(** Every tensor object of the list refers to a storage of the heap. *)
Definition handles_in (h : heap T) (x : list handle) : Prop :=
  Forall (λ p, (h_loc p < length h)%nat) x.

(** The output convolutions return tensors with as many elements as their
    shape says. *)
Definition convs_wf (d : Detect) : Prop :=
  Forall (λ m, ∀ v c, m v = Ok c → wf_tensor c) (det_m d).

End detect.
Arguments Detect : clear implicits.
Arguments fwd : clear implicits.

(** ** Example head *)

(** One scale, one anchor (10, 13), one class, stride 8; the output
    convolution is the identity.  The input is a 2x2 feature map with six
    channels holding 0..23. *)
Definition toy_conv (v : tensor sexpr) : result (tensor sexpr) := Ok v.
Definition toy_detect (training inplace : bool) : Detect sexpr :=
  mkDetect 6 1 1 (mkTensor [1; 1; 2]%nat [SLit 10; SLit 13]) [toy_conv]
    (Some (mkTensor [1%nat] [SLit 8])) inplace training false [zeros1] [zeros1].
Definition toy_fwd : fwd sexpr :=
  mkFwd [data (iota [1; 6; 2; 2]%nat)] [mkHandle 0 [1; 6; 2; 2]%nat] []
    [zeros1] [zeros1].
Definition toy_heap : heap sexpr := [data (iota [1; 6; 2; 2]%nat)].
Definition toy_x : list handle := [mkHandle 0 [1; 6; 2; 2]%nat].

(** * Further notions for the builder and the engine *)

(** The local variable [ch] of [parse_model] when its loop ends: the
    output-channel count recorded for every layer. *)
Definition channel_trace (d : config) (ch : list Z) : result (list Z) :=
  na ← number_of_anchors (anchors d);
  let no := na * (nc d + 5) in
  c2 ← py_index ch (-1);
  st ← parse_layers no (depth_multiple d) (width_multiple d) 0
         (backbone d ++ head d) (mkState [] [] c2 ch);
  Ok (st_ch st).

(** The classes whose arm of the chain assigns nothing to [c2]: batch
    normalisation and the detection heads. *)
Definition keeps_running_width (m : string) : bool :=
  is_ m "nn.BatchNorm2d" || is_ m "Detect" || is_ m "ASFF_Detect" ||
  is_ m "Decoupled_Detect" || isin m idetect_modules || isin m detectx_modules.

(** The classes whose arm puts [ch[f]] first among the arguments. *)
Definition takes_input_width (m : string) : bool :=
  width_scaled m || is_ m "MobileOne".

(** The classes that receive the depth-gained count [n] as their third
    argument and are then constructed once. *)
Definition takes_repeat_count (m : string) : bool :=
  isin m standard_repeat_modules || isin m research_repeat_modules ||
  isin m light_repeat_modules || isin m yolov4_repeat_modules.

(** The channel trace as layer [k] finds it: the input channels before
    layer 0, the counts of the [k] layers before it afterwards. *)
Definition trace_before (ch chs : list Z) (k : nat) : list Z :=
  match k with
  | O => ch
  | S _ => take k chs
  end.

Section built_model.
Context {St T : Type}.

(** The module [m_] that [parse_model] appends for a built layer, as the
    engine sees it: the attributes [i] and [f] attached to what
    the class applied to the resolved arguments (or the sequence of [n] such
    modules) constructs.  The classes
    and their forward methods come from models.common and the other
    imports, which are not among the sources: [instantiate] stands for the
    forward method of the constructed module and [nl_of] for its attribute
    [nl]. *)
Definition as_module
    (instantiate : BuiltLayer → pyval T → St → result (pyval T * St))
    (nl_of : BuiltLayer → Z) (b : BuiltLayer) : Module St T :=
  mkModule (built_i b) (built_f b) (nl_of b) (instantiate b).

(** The value that the source index [j] of the layer at position [k]
    stands for, in a pass with input [x0] and calls [log]: the previous
    output for -1, else the output of the layer that [j] names, counted
    from the end for a negative [j]. *)
Definition source_value (x0 : pyval T) (log : list (call T)) (k : nat) (j : Z) :
    option (pyval T) :=
  if bool_decide (j = -1) then Some (previous_output x0 log k)
  else if bool_decide (- Z.of_nat k ≤ j < Z.of_nat k)
  then call_output <$> log !! Z.to_nat (j mod Z.of_nat k)
  else None.

(** The input [xin] of the layer at position [k] consists of the values
    its sources stand for. *)
Definition reads_outputs (f : source) (x0 : pyval T) (log : list (call T))
    (k : nat) (xin : pyval T) : Prop :=
  match f with
  | FInt j => source_value x0 log k j = Some xin
  | FList js => ∃ l, xin = PList l ∧ Forall2 (λ j v, source_value x0 log k j = Some v) js l
  end.

(** Some source of the layer at position [k] other than -1 lies outside
    the [k] layers before it. *)
Definition names_no_earlier_layer (f : source) (k : nat) : Prop :=
  ∃ j, j ∈ source_list f ∧ j ≠ -1 ∧ (j < - Z.of_nat k ∨ Z.of_nat k ≤ j).

End built_model.

(** ** Example configurations and models *)

(** A convolution, a second one, a concatenation of the second with the
    first, a batch normalisation that names layer 0 and a detection head
    with two anchors on layers 2 and 3. *)
Definition cfg_small : config :=
  mkConfig (AnchorCount 2) 1 1 1
    [mkSpec (FInt (-1)) 1 "Conv" [VInt 16; VInt 3];
     mkSpec (FInt (-1)) 1 "Conv" [VInt 32; VInt 3];
     mkSpec (FList [-1; 0]) 1 "Concat" [VInt 1];
     mkSpec (FInt 0) 1 "nn.BatchNorm2d" []]
    [mkSpec (FList [2; 3]) 1 "Detect" [VInt 1; VInt 2]].

(** Every layer answers with the number of the layer, whatever it is fed. *)
Definition toy_instantiate (b : BuiltLayer) (v : pyval Z) (s : unit) :
    result (pyval Z * unit) :=
  Ok (PTensor (built_i b), s).
Definition toy_nl_of (b : BuiltLayer) : Z := 0.

(** The modules of the model that [parse_model] builds from [d], each
    answering with its own number. *)
Definition toy_built_model (d : config) : list (Module unit Z) :=
  match parse_model d [3] with
  | Ok (layers, _) => as_module toy_instantiate toy_nl_of <$> layers
  | Err _ => []
  end.

(** A convolution and a C3 block declared with five repeats, at depth
    multiple 0.5: the count becomes round(2.5) = 2. *)
Definition cfg_c3 : config :=
  mkConfig (AnchorCount 3) 80 (1 # 2) (1 # 2)
    [mkSpec (FInt (-1)) 1 "Conv" [VInt 64; VInt 3];
     mkSpec (FInt (-1)) 5 "C3" [VInt 128]] [].

(** A convolution and a RepBlock declared with three repeats. *)
Definition cfg_repblock : config :=
  mkConfig (AnchorCount 3) 80 1 1
    [mkSpec (FInt (-1)) 1 "Conv" [VInt 64; VInt 3];
     mkSpec (FInt (-1)) 3 "RepBlock" [VInt 128; VInt 3]] [].

(** The example head after a first inference call on the example input,
    and the example head before the model has set its strides. *)
Definition toy_detect_warm : Detect sexpr :=
  match forward (toy_detect false true) toy_x toy_heap with
  | Ok (_, d1, _) => d1
  | Err _ => toy_detect false true
  end.
Definition toy_detect_unbuilt : Detect sexpr :=
  mkDetect 6 1 1 (mkTensor [1; 1; 2]%nat [SLit 10; SLit 13]) [toy_conv]
    None true false false [zeros1] [zeros1].

(** * Further notions for the augmentation decoder *)

(** What is kept of a pass of [n] predictions when [i] are to be cut from
    its end by [[:, :-i]]: nothing when [i] is 0. *)
Definition kept_before_tail (n i : nat) : nat :=
  match i with
  | O => 0%nat
  | S _ => (n - i)%nat
  end.

(** * Bias initialisation of the auxiliary head: Model._initialize_aux_biases *)

Section aux_biases.
Context {T : Type} `{!Scalar T}.

(** [math.log(0.6 / (m.nc - 0.99))]. *)
Definition class_prior_aux (nc : Z) : T :=
  s_log (s_lit (6 # 10) / (s_lit (inject_Z nc) - s_lit (99 # 100)))%sc.

(** The four statements applied to the bias of [mi], and again to the bias
    of [mi2], at stride [s]; the result is the new bias. *)
Definition initialize_aux_bias (na : nat) (nc : Z) (cf : option (tensor T))
    (bias : tensor T) (s : T) : result (tensor T) :=
  b ← view_rows na bias;
  b ← add_to_column 4 (objectness_prior s) b;
  b ← add_to_columns_from 5
        (match cf with
         | None => scalar_tensor (class_prior_aux nc)
         | Some cf => class_frequency_prior cf
         end) b;
  Ok (mkTensor [numel (shape b)] (data b)).

(** [_initialize_aux_biases]: [biases] are the biases of [m.m], [biases2]
    those of [m.m2] and [stride] the elements of [m.stride]; [zip] stops at
    the shortest of the three. *)
Definition _initialize_aux_biases (na : nat) (nc : Z) (cf : option (tensor T))
    (biases biases2 : list (tensor T)) (stride : list T) :
    result (list (tensor T) * list (tensor T)) :=
  new ← traverse (λ '(bias, bias2, s),
                    b ← initialize_aux_bias na nc cf bias s;
                    b2 ← initialize_aux_bias na nc cf bias2 s;
                    Ok (b, b2))
          (zip (zip biases biases2) stride);
  Ok ((fst <$> new) ++ drop (length new) biases,
      (snd <$> new) ++ drop (length new) biases2).

(** The offset of entry [k] of an anchor's block in the auxiliary head: as
    [bias_offset], with 0.99 in the class prior. *)
Definition bias_offset_aux (nc : Z) (cf : option (tensor T)) (s : T) (k : nat) :
    option T :=
  if bool_decide (k = 4%nat) then Some (objectness_prior s)
  else if bool_decide (5 ≤ k)%nat then
    Some (match cf with
          | None => class_prior_aux nc
          | Some cf =>
              s_log (cf.[[if bool_decide (shape cf = [1%nat]) then 0%nat
                          else (k - 5)%nat]] / tsum cf)%sc
          end)
  else None.

End aux_biases.

(** ** Example biases for the auxiliary head *)

Definition toy_biases2 : list (tensor sexpr) := [iota [12%nat]; iota [12%nat]].

(** * Further notions for the detection head *)

Section detect_more.
Context {T : Type} `{!Scalar T}.

(** The caches [grid] and [agrid] serve a [ny] by [nx] map at scale [i]:
    both have an entry [i], and either that entry is going to be replaced
    (dynamic shapes, or a grid of another size) or both entries have the
    shape that [_make_grid] gives them. *)
Definition cache_usable (d : Detect T) (grid agrid : list (tensor T))
    (i ny nx : nat) : Prop :=
  ∃ g a, grid !! i = Some g ∧ agrid !! i = Some a ∧
    (det_onnx_dynamic d = true ∨
     take 2 (drop 2 (shape g)) ≠ [ny; nx] ∨
     shape g = [1%nat; det_na d; ny; nx; 2%nat] ∧
     shape a = [1%nat; det_na d; ny; nx; 2%nat]).

(** The module with the flag [inplace] set or cleared. *)
Definition set_inplace (b : bool) (d : Detect T) : Detect T :=
  mkDetect (det_no d) (det_nl d) (det_na d) (det_anchors d) (det_m d) (det_stride d)
    b (det_training d) (det_onnx_dynamic d) (det_grid d) (det_anchor_grid d).

(** Two tensor objects, each in its heap, have one shape and hold the same
    element at every index. *)
Definition same_values (h1 h2 : heap T) (z1 z2 : handle) : Prop :=
  h_shape z1 = h_shape z2 ∧
  ∃ dat1 dat2,
    h1 !! h_loc z1 = Some dat1 ∧ h2 !! h_loc z2 = Some dat2 ∧
    ∀ idx, in_range (h_shape z1) idx →
      (mkTensor (h_shape z1) dat1).[idx] = (mkTensor (h_shape z1) dat2).[idx].

(** Two tensors have one shape and the same element at every index. *)
Definition same_elements (t1 t2 : tensor T) : Prop :=
  shape t1 = shape t2 ∧ ∀ idx, in_range (shape t1) idx → t1.[idx] = t2.[idx].

End detect_more.

(** * The constructor of the detection head and its strides *)

Section detect_init.
Context {T : Type} `{!Scalar T} {A : Type}.

(** The numbers of the configuration have a type [A]; [float] is the
    conversion of [.float()].  [Conv2d c1 c2 k] is the constructor
    [nn.Conv2d(c1, c2, k)] of the framework: it gives the forward function
    of the new convolution, or raises. *)
Variable float : A → T.
Variable Conv2d : nat → nat → nat → result (tensor T → result (tensor T)).

(** [torch.tensor(rows).float()] on a sequence of sequences of numbers: the
    rows must all have the length of the first. *)
Definition torch_tensor (rows : list (list A)) : result (tensor T) :=
  match rows with
  | [] => Ok (mkTensor [0%nat] [])
  | r0 :: _ =>
      if bool_decide (Forall (λ r, length r = length r0) rows)
      then Ok (mkTensor [length rows; length r0] (float <$> concat rows))
      else Err ValueError
  end.

(** [Detect.__init__(nc, anchors, ch, inplace)].  A new module is in training
    mode; [stride] and [onnx_dynamic] are the class attributes [None] and
    [False]. *)
Definition Detect_init (nc : nat) (anchors : list (list A)) (ch : list nat)
    (inplace : bool) : result (Detect T) :=
  let no := (nc + 5)%nat in
  let nl := length anchors in
  a0 ← item anchors 0;
  let na := (length a0 / 2)%nat in
  let grid := replicate nl zeros1 in
  let anchor_grid := replicate nl zeros1 in
  t ← torch_tensor anchors;
  a ← view_infer nl 2 t;
  m ← traverse (λ x, Conv2d x (no * na) 1) ch;
  Ok (mkDetect no nl na a m None inplace true false grid anchor_grid).

(** Four sizes of a batch of maps, none of them zero. *)
Definition nonempty_maps (bs c ny nx : nat) : Prop :=
  (0 < bs)%nat ∧ (0 < c)%nat ∧ (0 < ny)%nat ∧ (0 < nx)%nat.

(** What [nn.Conv2d(c1, c2, 1)] computes on a batch of maps with [c1]
    channels (none of the four sizes being zero): a batch of maps of the
    same sizes with [c2] channels. *)
Definition pointwise_convs : Prop :=
  ∀ c1 c2 f, Conv2d c1 c2 1 = Ok f →
    ∀ v bs ny nx, shape v = [bs; c1; ny; nx] → nonempty_maps bs c1 ny nx →
      ∃ c, f v = Ok c ∧ shape c = [bs; c2; ny; nx].

End detect_init.

Section head_stride.
Context {T : Type} `{!Scalar T}.

(** [torch.tensor([s / x.shape[-2] for x in outs])], the strides that
    [Model.__init__] reads off a forward pass. *)
Definition head_stride (s : Z) (outs : list (tensor T)) : result (tensor T) :=
  vals ← traverse (λ x : tensor T,
            n ← py_index (shape x) (-2);
            if bool_decide (n = 0%nat) then Err ZeroDivisionError
            else Ok (s_lit (inject_Z s / inject_Z (Z.of_nat n)))) outs;
  Ok (mkTensor [length vals] vals).

(** [m.stride = stride; m.anchors /= m.stride.view(-1, 1, 1)]: the division
    is in place, so the anchors are not stretched. *)
Definition set_head_stride (d : Detect T) (stride : tensor T) : result (Detect T) :=
  sv ← view [numel (shape stride); 1%nat; 1%nat] stride;
  a ← zip_bcast s_div sv (det_anchors d);
  Ok (mkDetect (det_no d) (det_nl d) (det_na d) a (det_m d) (Some stride)
        (det_inplace d) (det_training d) (det_onnx_dynamic d)
        (det_grid d) (det_anchor_grid d)).

End head_stride.

(** ** A head to run the constructor on *)

(** A pointwise convolution that answers with zeros. *)
Definition toy_Conv2d (c1 c2 k : nat) : result (tensor sexpr → result (tensor sexpr)) :=
  Ok (λ v,
    match shape v with
    | [bs; c; ny; nx] =>
        if bool_decide (c = c1) then Ok (tabulate [bs; c2; ny; nx] (λ _, SLit 0))
        else Err RuntimeError
    | _ => Err RuntimeError
    end).
Definition toy_float (z : Z) : sexpr := SLit (inject_Z z).
Definition toy_anchors : list (list Z) := [[10; 13; 16; 30]].
Definition toy_maps_heap : heap sexpr := [data (iota [1; 3; 2; 2]%nat)].
Definition toy_maps : list handle := [mkHandle 0 [1; 3; 2; 2]%nat].

(** The head that the constructor builds from one row of two anchors, one
    class and a map of three channels; its strides as read off one output
    of width 2; the head with these strides. *)
Definition toy_new_head : Detect sexpr :=
  mkDetect 6 1 2 (mkTensor [1; 2; 2]%nat (toy_float <$> concat toy_anchors))
    (match toy_Conv2d 3 12 1 with Ok f => [f] | Err _ => [] end)
    None true true false [zeros1] [zeros1].
Definition toy_stride : tensor sexpr :=
  mkTensor [1%nat] [SLit (inject_Z 256 / inject_Z (Z.of_nat 2))].
Definition toy_configured_head : Detect sexpr :=
  match set_head_stride toy_new_head toy_stride with
  | Ok d => d
  | Err _ => toy_new_head
  end.

(** * Properties of the graph builder *)

Lemma bind_Ok {A B} (r : result A) (k : A → result B) b :
  r ≫= k = Ok b → ∃ a, r = Ok a ∧ k a = Ok b.
Proof. destruct r as [a|e]; simpl; [eauto | discriminate]. Qed.

Lemma bind_Ok_l {A B} (a : A) (k : A → result B) : Ok a ≫= k = k a.
Proof. done. Qed.

Lemma bind_Err_l {A B} (r : result A) (k : A → result B) :
  is_Err r → is_Err (r ≫= k).
Proof. intros [e ->]. by exists e. Qed.

Lemma bind_Err_r {A B} (r : result A) (k : A → result B) :
  (∀ a, is_Err (k a)) → is_Err (r ≫= k).
Proof. intros Hk. destruct r as [a|e]; simpl; [apply Hk | by exists e]. Qed.

Lemma traverse_Err {A B} (g : A → result B) l x :
  x ∈ l → is_Err (g x) → is_Err (traverse g l).
Proof.
  induction l as [|a l IH]; intros Hx Hg; [by apply elem_of_nil in Hx|].
  apply elem_of_cons in Hx as [->|Hx]; simpl.
  - by apply bind_Err_l.
  - apply bind_Err_r; intros b. apply bind_Err_l. auto.
Qed.

Lemma not_is_Err_Ok {A} (a : A) : ¬ is_Err (Ok a).
Proof. intros [e He]. discriminate. Qed.

(** ** The save list *)

Lemma traverse_py_mod i l r :
  traverse (λ x, py_mod x i) l = Ok r → r = (λ x, x mod i) <$> l.
Proof.
  revert r. induction l as [|x l IH]; intros r; simpl.
  - by intros [= <-].
  - intros (y & Hy & (ys & Hys & [= <-])%bind_Ok)%bind_Ok.
    unfold py_mod in Hy. destruct (i =? 0); [discriminate|].
    injection Hy as <-. by rewrite (IH ys).
Qed.

Lemma parse_layer_save no gd gw i sp st st' :
  parse_layer no gd gw i sp st = Ok st' →
  st_save st' =
    st_save st ++ ((λ x, x mod i) <$> filter (λ x, x ≠ -1) (source_list (spec_f sp))).
Proof.
  unfold parse_layer.
  intros ([[args c2] n] & _ & (refs & Hrefs & [= <-])%bind_Ok)%bind_Ok.
  simpl. by rewrite (traverse_py_mod _ _ _ Hrefs).
Qed.

Lemma parse_layers_save no gd gw specs : ∀ i st st',
  parse_layers no gd gw i specs st = Ok st' →
  st_save st' = st_save st ++ normalized_refs i specs.
Proof.
  induction specs as [|sp specs IH]; intros i st st'; simpl.
  - intros [= <-]. by rewrite app_nil_r.
  - intros (st1 & H1 & H2)%bind_Ok.
    rewrite (IH _ _ _ H2), (parse_layer_save _ _ _ _ _ _ _ H1).
    by rewrite <- app_assoc.
Qed.

Lemma normalized_refs_elem specs : ∀ (i0 : Z) (k : nat) sp x,
  specs !! k = Some sp →
  x ∈ source_list (spec_f sp) → x ≠ -1 →
  x mod (i0 + Z.of_nat k) ∈ normalized_refs i0 specs.
Proof.
  induction specs as [|sp0 specs IH]; intros i0 k sp x Hk Hx Hne; [done|].
  simpl. apply elem_of_app. destruct k as [|k]; simpl in Hk.
  - injection Hk as ->. left. replace (i0 + Z.of_nat 0) with i0 by lia.
    apply (list_elem_of_fmap_2 (λ x, x mod i0)).
    by apply list_elem_of_filter.
  - right. replace (i0 + Z.of_nat (S k)) with ((i0 + 1) + Z.of_nat k) by lia.
    by eapply IH.
Qed.

Lemma parse_model_save d ch layers save :
  parse_model d ch = Ok (layers, save) →
  save = sorted (normalized_refs 0 (backbone d ++ head d)).
Proof.
  unfold parse_model.
  intros (na & _ & (c2 & _ & (st & Hst & [= <- <-])%bind_Ok)%bind_Ok)%bind_Ok.
  by rewrite (parse_layers_save _ _ _ _ _ _ _ Hst).
Qed.

#[local] Instance Zle_total : Total Z.le.
Proof. intros x y. lia. Qed.

Lemma twice_referenced_build :
  ∃ layers, parse_model cfg_two_concats [3] = Ok (layers, [0; 0]).
Proof. eexists. vm_compute. reflexivity. Qed.

(** C4, as stated, fails: on a valid spec list whose layers 2 and 3 both
    name layer 0, the returned save list is [0; 0], so it is not a set in
    which each index appears exactly once. *)
Lemma save_list_not_duplicate_free :
  ¬ (∀ d ch layers save,
       parse_model d ch = Ok (layers, save) → save_is_sorted_set d save).
Proof.
  intros H. destruct twice_referenced_build as [layers Hb].
  destruct (H _ _ _ _ Hb) as (_ & Hnd & _).
  apply NoDup_cons in Hnd as [Hnotin _]. apply Hnotin. constructor.
Qed.

(** C4, amended: for every spec list on which the build succeeds, the save
    list is sorted ascending and is a rearrangement of all source indices
    other than -1, each taken modulo the index of the layer that names it;
    hence every index referenced by a layer is present, once per reference. *)
Theorem save_list_sorted_refs d ch layers save :
  parse_model d ch = Ok (layers, save) →
  Sorted Z.le save ∧
  save ≡ₚ normalized_refs 0 (backbone d ++ head d) ∧
  ∀ (i : nat) sp x,
    (backbone d ++ head d) !! i = Some sp →
    x ∈ source_list (spec_f sp) → x ≠ -1 → x mod Z.of_nat i ∈ save.
Proof.
  intros ->%parse_model_save. unfold sorted. split; [|split].
  - apply Sorted_merge_sort; apply _.
  - apply merge_sort_Permutation.
  - intros i sp x Hi Hx Hne. rewrite merge_sort_Permutation.
    by apply (normalized_refs_elem _ 0 i sp).
Qed.

Lemma save_list_sorted_refs_witness :
  Sorted Z.le [0; 0] ∧
  [0; 0] ≡ₚ normalized_refs 0 (backbone cfg_two_concats ++ head cfg_two_concats) ∧
  ∀ (i : nat) sp x,
    (backbone cfg_two_concats ++ head cfg_two_concats) !! i = Some sp →
    x ∈ source_list (spec_f sp) → x ≠ -1 → x mod Z.of_nat i ∈ [0; 0].
Proof.
  eapply (save_list_sorted_refs cfg_two_concats [3]).
  vm_compute. reflexivity.
Defined.

(** ** Forward references *)













(** ** Width scaling *)














(** * Properties of the execution engine *)

Section engine_facts.
Context {St T : Type}.
Implicit Types (m : Module St T) (x : pyval T) (y : list (pyval T)).

Lemma traverse_Forall2 {A B} (g : A → result B) (P : A → B → Prop) l r :
  (∀ a b, g a = Ok b → P a b) →
  traverse g l = Ok r → Forall2 P l r.
Proof.
  intros HP. revert r. induction l as [|a l IH]; intros r; simpl.
  - intros [= <-]. constructor.
  - intros (b & Hb & (bs & Hbs & [= <-])%bind_Ok)%bind_Ok.
    constructor; auto.
Qed.

Lemma layer_input_fed m x y xin :
  layer_input m x y = Ok xin → fed_from (m_f m) x y xin.
Proof.
  unfold layer_input, fed_from. destruct (m_f m) as [f|fs].
  - case_bool_decide as Hf.
    + subst f. simpl. by intros [= <-].
    + destruct (f =? -1) eqn:E; [lia|done].
  - destruct (traverse _ fs) as [l|e] eqn:Hl; simpl; [|discriminate].
    intros [= <-]. exists l. split; [done|].
    eapply traverse_Forall2; [|exact Hl]. intros j v. simpl.
    case_bool_decide as Hj.
    + subst j. simpl. by intros [= <-].
    + destruct (j =? -1) eqn:E; [lia|done].
Qed.

(** What one successful run of the loop establishes about every layer. *)
Lemma run_layers_inv save (ms : list (Module St T)) : ∀ x y log s xf yf logf sf,
  run_layers save ms x y log s = Ok (xf, yf, logf, sf) →
  ∃ ys cs,
    yf = y ++ ys ∧ logf = log ++ cs ∧
    length ys = length ms ∧ length cs = length ms ∧
    xf = previous_output x cs (length ms) ∧
    ∀ (k : nat) m, ms !! k = Some m →
      ∃ c, cs !! k = Some c ∧
        fed_from (m_f m) (previous_output x cs k) (y ++ take k ys) (call_input c) ∧
        (∃ s1 s2, m_forward m (call_input c) s1 = Ok (call_output c, s2)) ∧
        ys !! k = Some (if bool_decide (m_i m ∈ save) then call_output c else PNone).
Proof.
  induction ms as [|m ms IH]; intros x y log s xf yf logf sf; simpl.
  - intros [= <- <- <- <-]. exists [], []. rewrite !app_nil_r. by repeat split.
  - intros (xin & Hin & ([xout s'] & Hfw & Hrun)%bind_Ok)%bind_Ok.
    apply IH in Hrun as (ys & cs & -> & -> & Hlys & Hlcs & -> & Hk).
    exists ((if bool_decide (m_i m ∈ save) then xout else PNone) :: ys),
           (mkCall xin xout :: cs).
    rewrite <- !app_assoc. simpl. repeat split; [lia|lia| |].
    + destruct ms as [|m1 ms]; simpl in *; [done|].
      destruct (cs !! length ms) as [c|] eqn:Hc; [done|].
      apply lookup_ge_None in Hc. lia.
    + intros [|k] m' Hm'; simpl in Hm'.
      * injection Hm' as <-. exists (mkCall xin xout). simpl.
        rewrite app_nil_r. repeat split; [|by eauto].
        by apply layer_input_fed.
      * destruct (Hk k m' Hm') as (c & Hc & Hfed & Hcall & Hys).
        exists c. simpl. repeat split; [done| |done|done].
        rewrite <- app_assoc in Hfed. simpl in Hfed.
        destruct k as [|k]; simpl in *; [done|].
        destruct (cs !! k) as [c'|] eqn:Hc'; [done|].
        apply lookup_ge_None in Hc'. apply lookup_lt_Some in Hc. lia.
Qed.

(** C7: in a forward pass that completes, the layer at position [k] is fed
    the previous layer's output when its source is -1, the history entry
    [y[f]] when its source is the integer [f], and for a list source the
    list that holds the previous output at each -1 and the history entry
    elsewhere; the history has one slot per layer, holding the layer's
    output when its index is in the save list and [None] otherwise; and the
    pass returns the output of the last layer. *)
Theorem forward_once_routing (model : list (Module St T)) save x0 s0 xf yf log sf :
  run_layers save model x0 [] [] s0 = Ok (xf, yf, log, sf) →
  _forward_once model save x0 s0 = Ok (xf, sf) ∧
  length yf = length model ∧ length log = length model ∧
  xf = previous_output x0 log (length model) ∧
  ∀ (k : nat) m, model !! k = Some m →
    ∃ c, log !! k = Some c ∧
      fed_from (m_f m) (previous_output x0 log k) (take k yf) (call_input c) ∧
      (∃ s1 s2, m_forward m (call_input c) s1 = Ok (call_output c, s2)) ∧
      yf !! k = Some (if bool_decide (m_i m ∈ save) then call_output c else PNone).
Proof.
  intros Hrun. split; [unfold _forward_once; by rewrite Hrun|].
  apply run_layers_inv in Hrun as (ys & cs & -> & -> & Hlys & Hlcs & -> & Hk).
  simpl. repeat split; done.
Qed.

End engine_facts.

Lemma forward_once_routing_witness :
  let xf := PTuple [PList [PTensor 11; PTensor 10]] in
  let yf := [PTensor 10; PNone; PNone] in
  let log :=
    [mkCall (PTensor 5) (PTensor 10); mkCall (PTensor 10) (PTensor 11);
     mkCall (PList [PTensor 11; PTensor 10]) xf] in
  _forward_once toy_model [0] (PTensor 5) () = Ok (xf, ()) ∧
  length yf = length toy_model ∧ length log = length toy_model ∧
  xf = previous_output (PTensor 5) log (length toy_model) ∧
  ∀ (k : nat) m, toy_model !! k = Some m →
    ∃ c, log !! k = Some c ∧
      fed_from (m_f m) (previous_output (PTensor 5) log k) (take k yf) (call_input c) ∧
      (∃ s1 s2, m_forward m (call_input c) s1 = Ok (call_output c, s2)) ∧
      yf !! k = Some (if bool_decide (m_i m ∈ [0]) then call_output c else PNone).
Proof.
  intros xf yf log.
  apply (forward_once_routing toy_model [0] (PTensor 5) () xf yf log ()).
  vm_compute. reflexivity.
Defined.

(** * Indexing of tensors *)

Lemma in_range_length sh idx : in_range sh idx → length idx = length sh.
Proof. intros H. symmetry. by eapply Forall2_length. Qed.

Lemma ravel_lt sh : ∀ idx, in_range sh idx → (ravel sh idx < numel sh)%nat.
Proof.
  induction sh as [|d sh IH]; intros idx H; inversion H; subst; simpl; [lia|].
  match goal with Hi : (_ < d)%nat, Ht : Forall2 _ sh _ |- _ =>
    specialize (IH _ Ht); nia end.
Qed.

Lemma unravel_ravel sh : ∀ idx, in_range sh idx → unravel sh (ravel sh idx) = idx.
Proof.
  induction sh as [|d sh IH]; intros idx H; inversion H; subst; simpl; [done|].
  match goal with Ht : Forall2 _ sh ?l |- _ =>
    pose proof (ravel_lt sh l Ht) as Hlt; pose proof (IH _ Ht) as Hun end.
  f_equal.
  - rewrite Nat.div_add_l by lia. rewrite Nat.div_small by done. lia.
  - rewrite Nat.add_comm, Nat.Div0.mod_add. rewrite Nat.mod_small by done. done.
Qed.

Section tensor_facts.
Context {T : Type} `{!Scalar T}.
Implicit Types (t : tensor T) (sh idx : list nat).

Lemma shape_tabulate sh (f : list nat → T) : shape (tabulate sh f) = sh.
Proof. done. Qed.

Lemma wf_tabulate sh (f : list nat → T) : wf_tensor (tabulate sh f).
Proof. unfold wf_tensor. simpl. by rewrite length_fmap, length_seq. Qed.

(** Reading back what [tabulate] wrote. *)
Lemma lookup_tabulate sh (f : list nat → T) idx :
  in_range sh idx → data (tabulate sh f) !! ravel sh idx = Some (f idx).
Proof.
  intros H. simpl.
  rewrite list_lookup_fmap, lookup_seq_lt by by apply ravel_lt.
  simpl. by rewrite unravel_ravel.
Qed.

Lemma tref_tabulate sh (f : list nat → T) idx :
  in_range sh idx → (tabulate sh f).[idx] = f idx.
Proof. intros H. unfold tref. by rewrite shape_tabulate, lookup_tabulate. Qed.

Lemma tref_tmap (g : T → T) t idx :
  wf_tensor t → in_range (shape t) idx → (tmap g t).[idx] = g t.[idx].
Proof.
  intros Hwf H. unfold tref. simpl. rewrite list_lookup_fmap.
  destruct (data t !! ravel (shape t) idx) as [v|] eqn:E; [done|].
  apply lookup_ge_None in E. apply ravel_lt in H. unfold wf_tensor in Hwf. lia.
Qed.

Lemma wf_tmap (g : T → T) t : wf_tensor t → wf_tensor (tmap g t).
Proof. unfold wf_tensor. simpl. by rewrite length_fmap. Qed.

Lemma tref_timap (g : list nat → T → T) t idx :
  in_range (shape t) idx → (timap g t).[idx] = g idx t.[idx].
Proof. intros H. unfold timap. by rewrite tref_tabulate. Qed.

End tensor_facts.

(** Splitting an index of a non-scalar shape at the last axis. *)
Lemma in_range_snoc sh n idx k :
  in_range (sh ++ [n]) (idx ++ [k]) ↔ in_range sh idx ∧ (k < n)%nat.
Proof.
  unfold in_range. split.
  - intros H. pose proof (Forall2_length _ _ _ H) as Hl.
    rewrite !length_app in Hl. simpl in Hl.
    apply Forall2_app_inv in H; [|lia]. destruct H as [H1 H2].
    split; [done|]. by inversion H2.
  - intros [H1 H2]. apply Forall2_app; [done|]. by repeat constructor.
Qed.

Lemma lead_snoc {A} (l : list A) x : take (length (l ++ [x]) - 1) (l ++ [x]) = l.
Proof.
  rewrite length_app. simpl. replace (length l + 1 - 1)%nat with (length l) by lia.
  by rewrite take_app_length.
Qed.

Lemma lead_app idx k : lead (idx ++ [k]) = idx.
Proof. apply lead_snoc. Qed.

Lemma pos_last_app idx k : pos_last (idx ++ [k]) = k.
Proof. unfold pos_last. by rewrite last_snoc. Qed.

Lemma snoc_lead_last (idx : list nat) :
  idx ≠ [] → idx = lead idx ++ [pos_last idx].
Proof.
  intros H. destruct (decide (idx = [])) as [|_]; [done|].
  induction idx as [|a idx' _] using rev_ind; [done|].
  by rewrite lead_app, pos_last_app.
Qed.

(** * Properties of the augmentation decoder *)

Lemma py_index_nat {A} (l : list A) (k : nat) a :
  l !! k = Some a → py_index l (Z.of_nat k) = Ok a.
Proof.
  intros H. pose proof (lookup_lt_Some _ _ _ H) as Hlt. unfold py_index.
  destruct (Z.of_nat k <? 0) eqn:E1; [lia|].
  destruct (0 <=? Z.of_nat k) eqn:E2; [|lia].
  destruct (Z.of_nat k <? Z.of_nat (length l)) eqn:E3; [|lia].
  simpl. by rewrite Nat2Z.id, H.
Qed.

Lemma py_index_last {A} (l : list A) a : py_index (l ++ [a]) (-1) = Ok a.
Proof.
  unfold py_index. change (-1 <? 0) with true. cbv iota.
  assert (Hn : Z.of_nat (length (l ++ [a])) + -1 = Z.of_nat (length l)).
  { rewrite length_app. change (length [a]) with 1%nat. lia. }
  rewrite Hn.
  destruct ((0 <=? Z.of_nat (length l)) &&
            (Z.of_nat (length l) <? Z.of_nat (length (l ++ [a])))) eqn:E.
  - rewrite Nat2Z.id. by rewrite lookup_app_r, Nat.sub_diag by lia.
  - exfalso. apply andb_false_iff in E as [E|E]; [lia|].
    rewrite length_app in E. change (length [a]) with 1%nat in E.
    apply Z.ltb_ge in E. lia.
Qed.

Lemma py_index_Ok {A} (l : list A) i a :
  py_index l i = Ok a →
  ∃ k : nat, l !! k = Some a ∧
    Z.of_nat k = (if i <? 0 then Z.of_nat (length l) + i else i).
Proof.
  unfold py_index.
  set (j := if i <? 0 then Z.of_nat (length l) + i else i).
  destruct ((0 <=? j) && (j <? Z.of_nat (length l))) eqn:E; [|discriminate].
  apply andb_true_iff in E as [E1 E2].
  destruct (l !! Z.to_nat j) as [b|] eqn:Hb; [|discriminate].
  intros [= <-]. exists (Z.to_nat j). split; [done|lia].
Qed.

Section clip_facts.
Context {T : Type} `{!Scalar T}.
Implicit Types (t : tensor T).

Lemma grid_points_3 : grid_points 3 = 21.
Proof. reflexivity. Qed.

(** [t[:, :-i]] for [1 <= i <= n] keeps the first [n - i] entries. *)
Lemma slice1_drop_tail t d0 n r (i : nat) :
  shape t = d0 :: n :: r → (1 ≤ i ≤ n)%nat →
  ∃ t', slice1 None (Some (- Z.of_nat i)) t = Ok t' ∧
    shape t' = d0 :: (n - i)%nat :: r ∧
    ∀ b p idx, in_range (d0 :: (n - i)%nat :: r) (b :: p :: idx) →
      t'.[b :: p :: idx] = t.[b :: p :: idx].
Proof.
  intros Hsh Hi. unfold slice1. rewrite Hsh.
  assert (Hr : slice_range n None (Some (- Z.of_nat i)) = (0, n - i)%nat).
  { unfold slice_range, slice_bound. simpl.
    destruct (- Z.of_nat i <? 0) eqn:E; [|lia]. f_equal. lia. }
  rewrite Hr. eexists. split; [reflexivity|]. split.
  - simpl. do 2 f_equal. lia.
  - intros b p idx Hin. rewrite tref_tabulate.
    + by rewrite Nat.add_0_r.
    + by replace (n - i - 0)%nat with (n - i)%nat by lia.
Qed.

(** [t[:, i:]] for [i <= n] drops the first [i] entries. *)
Lemma slice1_drop_head t d0 n r (i : nat) :
  shape t = d0 :: n :: r → (i ≤ n)%nat →
  ∃ t', slice1 (Some (Z.of_nat i)) None t = Ok t' ∧
    shape t' = d0 :: (n - i)%nat :: r ∧
    ∀ b p idx, in_range (d0 :: (n - i)%nat :: r) (b :: p :: idx) →
      t'.[b :: p :: idx] = t.[b :: (p + i)%nat :: idx].
Proof.
  intros Hsh Hi. unfold slice1. rewrite Hsh.
  assert (Hr : slice_range n (Some (Z.of_nat i)) None = (i, n)).
  { unfold slice_range, slice_bound. simpl.
    destruct (Z.of_nat i <? 0) eqn:E; [lia|]. f_equal; lia. }
  rewrite Hr. eexists. split; [reflexivity|]. split; [done|].
  intros b p idx Hin. by rewrite tref_tabulate.
Qed.

Lemma shape_at_1 t d0 n r :
  shape t = d0 :: n :: r → shape_at t 1 = Ok (Z.of_nat n).
Proof.
  intros Hsh. unfold shape_at. rewrite Hsh.
  change 1 with (Z.of_nat 1). by rewrite (py_index_nat (d0 :: n :: r) 1 n).
Qed.

(** C1, amended: for 3 detection scales and three passes, of which the
    first holds at least 21 predictions, clipping removes the last
    [(n0 // 21) * 1] entries of the prediction axis of the first
    (original-scale) pass and the first [(n2 // 21) * 16] entries of the
    prediction axis of the last (smallest-scale) pass, and leaves the middle
    pass as it is. *)
Theorem clip_augmented_three_scales (a b c : tensor T) d0 n0 r0 d2 n2 r2 :
  shape a = d0 :: n0 :: r0 →
  shape c = d2 :: n2 :: r2 →
  (21 ≤ n0)%nat →
  ∃ a' c',
    _clip_augmented 3 [a; b; c] = Ok [a'; b; c'] ∧
    shape a' = d0 :: (n0 - n0 / 21 * 1)%nat :: r0 ∧
    (∀ i p idx, in_range (shape a') (i :: p :: idx) →
       a'.[i :: p :: idx] = a.[i :: p :: idx]) ∧
    shape c' = d2 :: (n2 - n2 / 21 * 16)%nat :: r2 ∧
    (∀ i p idx, in_range (shape c') (i :: p :: idx) →
       c'.[i :: p :: idx] = c.[i :: (p + n2 / 21 * 16)%nat :: idx]).
Proof.
  intros Ha Hc Hn0.
  assert (Hq0 : (1 ≤ n0 / 21)%nat) by (apply Nat.div_le_lower_bound; lia).
  assert (Hq0' : (n0 / 21 * 1 ≤ n0)%nat).
  { pose proof (Nat.Div0.mul_div_le n0 21). lia. }
  assert (Hq2 : (n2 / 21 * 16 ≤ n2)%nat).
  { pose proof (Nat.Div0.mul_div_le n2 21). lia. }
  destruct (slice1_drop_tail a d0 n0 r0 (n0 / 21 * 1) Ha) as (a' & Ha' & Hsa & Hra);
    [lia|].
  destruct (slice1_drop_head c d2 n2 r2 (n2 / 21 * 16) Hc Hq2) as (c' & Hc' & Hsc & Hrc).
  exists a', c'. split; [|rewrite Hsa, Hsc; by repeat split].
  assert (Hi0 : Z.of_nat n0 / 21 * py_sum ((λ x : Z, 4 ^ x) <$> py_range 1)
                = Z.of_nat (n0 / 21 * 1)).
  { change (py_sum _) with 1. by rewrite Nat2Z.inj_mul, Nat2Z.inj_div. }
  assert (Hi2 : Z.of_nat n2 / 21 * py_sum ((λ x : Z, 4 ^ (3 - 1 - x)) <$> py_range 1)
                = Z.of_nat (n2 / 21 * 16)).
  { change (py_sum _) with 16. by rewrite Nat2Z.inj_mul, Nat2Z.inj_div. }
  unfold _clip_augmented. rewrite grid_points_3.
  change (py_index [a; b; c] 0) with (Ok a). rewrite bind_Ok_l. cbv beta.
  rewrite (shape_at_1 a d0 n0 r0 Ha), bind_Ok_l. cbv beta.
  change (py_floordiv (Z.of_nat n0) 21) with (Ok (Z.of_nat n0 / 21)).
  rewrite bind_Ok_l. cbv beta zeta. rewrite Hi0, Ha', bind_Ok_l. cbv beta.
  change (py_index (<[0%nat:=a']> [a; b; c]) (-1)) with (Ok c).
  rewrite bind_Ok_l. cbv beta.
  rewrite (shape_at_1 c d2 n2 r2 Hc), bind_Ok_l. cbv beta.
  change (py_floordiv (Z.of_nat n2) 21) with (Ok (Z.of_nat n2 / 21)).
  rewrite bind_Ok_l. cbv beta zeta. rewrite Hi2, Hc', bind_Ok_l. done.
Qed.

End clip_facts.

Lemma clip_augmented_passes_21 :
  _clip_augmented 3 passes_21 =
    Ok [mkTensor [1; 20; 1]%nat (take 20 (data (iota [1; 21; 1]%nat)));
        iota [1; 21; 1]%nat;
        mkTensor [1; 5; 1]%nat (drop 16 (data (iota [1; 21; 1]%nat)))].
Proof. vm_compute. reflexivity. Qed.

(** C1, as stated, fails: on three passes of 21 predictions each the code
    keeps entries 0..19 of the first pass and entries 16..20 of the last,
    whereas removing one entry from the head of the first pass and one from
    the tail of the last would keep 1..20 and 0..19. *)
Lemma clip_is_not_head_then_tail :
  _clip_augmented 3 passes_21 ≠ clip_head_then_tail 3 passes_21.
Proof. vm_compute. discriminate. Qed.

Lemma clip_augmented_three_scales_witness :
  ∃ a' c',
    _clip_augmented 3 passes_21 = Ok [a'; iota [1; 21; 1]%nat; c'] ∧
    shape a' = [1; 21 - 21 / 21 * 1; 1]%nat ∧
    (∀ i p idx, in_range (shape a') (i :: p :: idx) →
       a'.[i :: p :: idx] = (iota [1; 21; 1]%nat).[i :: p :: idx]) ∧
    shape c' = [1; 21 - 21 / 21 * 16; 1]%nat ∧
    (∀ i p idx, in_range (shape c') (i :: p :: idx) →
       c'.[i :: p :: idx] = (iota [1; 21; 1]%nat).[i :: (p + 21 / 21 * 16)%nat :: idx]).
Proof.
  apply (clip_augmented_three_scales (iota [1; 21; 1]%nat) (iota [1; 21; 1]%nat)
           (iota [1; 21; 1]%nat) 1%nat 21%nat [1%nat] 1%nat 21%nat [1%nat]).
  - reflexivity.
  - reflexivity.
  - lia.
Defined.

(** ** De-scaling and de-flipping *)

Lemma last_dim_Ok sh n : last_dim sh = Ok n → sh = lead sh ++ [n].
Proof.
  unfold last_dim. destruct (last sh) as [m|] eqn:E; [|discriminate].
  intros [= <-]. destruct sh as [|d sh _] using rev_ind; [done|].
  rewrite last_snoc in E. injection E as <-. by rewrite lead_app.
Qed.

Lemma last_dim_snoc sh n : last_dim (sh ++ [n]) = Ok n.
Proof. unfold last_dim. by rewrite last_snoc. Qed.

(** An index into a shape with a last axis splits at that axis. *)
Lemma in_range_split sh n idx :
  in_range (sh ++ [n]) idx →
  ∃ l k, idx = l ++ [k] ∧ in_range sh l ∧ (k < n)%nat.
Proof.
  intros H. destruct idx as [|k l _] using rev_ind.
  - apply Forall2_length in H. rewrite length_app in H. simpl in H. lia.
  - exists l, k. apply in_range_snoc in H. by destruct H.
Qed.

Lemma slice_range_nat n (lo hi : nat) :
  (lo ≤ hi)%nat →
  slice_range n (Some (Z.of_nat lo)) (Some (Z.of_nat hi)) = (Nat.min lo n, Nat.min hi n).
Proof.
  intros H. unfold slice_range, slice_bound. cbn [from_option].
  destruct (Z.of_nat lo <? 0) eqn:E1; [apply Z.ltb_lt in E1; lia|].
  destruct (Z.of_nat hi <? 0) eqn:E2; [apply Z.ltb_lt in E2; lia|]. f_equal; lia.
Qed.

Lemma slice_range_from n (lo : nat) :
  slice_range n (Some (Z.of_nat lo)) None = (Nat.min lo n, n).
Proof.
  unfold slice_range, slice_bound. cbn [from_option].
  destruct (Z.of_nat lo <? 0) eqn:E1; [apply Z.ltb_lt in E1; lia|]. f_equal; lia.
Qed.

Section descale_facts.
Context {T : Type} `{!Scalar T}.
Implicit Types (p y : tensor T).

Lemma slice_last_nat p sh n (lo hi : nat) :
  shape p = sh ++ [n] → (lo ≤ hi)%nat →
  ∃ s, slice_last (Some (Z.of_nat lo)) (Some (Z.of_nat hi)) p = Ok s ∧
    wf_tensor s ∧
    shape s = sh ++ [(Nat.min hi n - Nat.min lo n)%nat] ∧
    ∀ l k, in_range sh l → (k < Nat.min hi n - Nat.min lo n)%nat →
      s.[l ++ [k]] = p.[l ++ [(k + Nat.min lo n)%nat]].
Proof.
  intros Hsh Hle. unfold slice_last. rewrite Hsh, last_dim_snoc, bind_Ok_l.
  rewrite slice_range_nat by done. rewrite lead_app.
  eexists. split; [reflexivity|]. split; [apply wf_tabulate|]. split; [done|].
  intros l k Hl Hk. rewrite tref_tabulate by (by apply in_range_snoc).
  by rewrite lead_app, pos_last_app.
Qed.

Lemma slice_last_from p sh n (lo : nat) :
  shape p = sh ++ [n] →
  ∃ s, slice_last (Some (Z.of_nat lo)) None p = Ok s ∧
    wf_tensor s ∧
    shape s = sh ++ [(n - Nat.min lo n)%nat] ∧
    ∀ l k, in_range sh l → (k < n - Nat.min lo n)%nat →
      s.[l ++ [k]] = p.[l ++ [(k + Nat.min lo n)%nat]].
Proof.
  intros Hsh. unfold slice_last. rewrite Hsh, last_dim_snoc, bind_Ok_l.
  rewrite slice_range_from. rewrite lead_app.
  eexists. split; [reflexivity|]. split; [apply wf_tabulate|]. split; [done|].
  intros l k Hl Hk. rewrite tref_tabulate by (by apply in_range_snoc).
  by rewrite lead_app, pos_last_app.
Qed.

Lemma map_last_Ok lo hi (f : T → T) p y :
  map_last lo hi f p = Ok y →
  shape y = shape p ∧
  ∀ idx, in_range (shape p) idx →
    y.[idx] = if bool_decide (lo ≤ pos_last idx < hi)%nat then f p.[idx] else p.[idx].
Proof.
  unfold map_last. intros (n & _ & [= <-])%bind_Ok. split; [done|].
  intros idx H. by rewrite tref_timap.
Qed.

Lemma map_at_last_Ok k (f : T → T) p y :
  map_at_last k f p = Ok y →
  shape y = shape p ∧
  ∀ idx, in_range (shape p) idx →
    y.[idx] = if bool_decide (pos_last idx = k) then f p.[idx] else p.[idx].
Proof.
  unfold map_at_last. intros (n & _ & H)%bind_Ok.
  case_bool_decide; [|discriminate]. injection H as <-. split; [done|].
  intros idx Hi. by rewrite tref_timap.
Qed.

Lemma descale_pred_inplace p flips scale img_sh y :
  _descale_pred true p flips scale img_sh = Ok y →
  ∃ h w,
    (flips = Some 2 → img_size_at img_sh 0 = Ok h) ∧
    (flips = Some 3 → img_size_at img_sh 1 = Ok w) ∧
    shape y = shape p ∧
    ∀ idx, in_range (shape p) idx → y.[idx] = descaled p flips scale h w idx.
Proof.
  unfold _descale_pred.
  intros (p1 & (Hs1 & Hp1)%map_last_Ok & H)%bind_Ok.
  assert (Hbase : ∀ idx, in_range (shape p) idx →
    p1.[idx] = if bool_decide (4 ≤ pos_last idx)%nat then p.[idx]
               else (p.[idx] / s_lit scale)%sc).
  { intros idx Hi. rewrite Hp1 by done.
    repeat case_bool_decide; done || lia. }
  case_bool_decide as F2; [|case_bool_decide as F3].
  - apply bind_Ok in H as (h & Hh & (Hs2 & Hp2)%map_at_last_Ok).
    exists h, (s_lit 0). split; [done|]. split; [by rewrite F2|].
    split; [congruence|]. intros idx Hi.
    rewrite Hp2, Hbase by congruence. unfold descaled. subst flips.
    repeat case_bool_decide; try done; try lia; naive_solver lia.
  - apply bind_Ok in H as (w & Hw & (Hs2 & Hp2)%map_at_last_Ok).
    exists (s_lit 0), w. split; [by rewrite F3|]. split; [done|].
    split; [congruence|]. intros idx Hi.
    rewrite Hp2, Hbase by congruence. unfold descaled. subst flips.
    repeat case_bool_decide; try done; try lia; naive_solver lia.
  - injection H as <-. exists (s_lit 0), (s_lit 0).
    split; [done|]. split; [done|]. split; [done|]. intros idx Hi.
    rewrite Hbase by done. unfold descaled.
    repeat case_bool_decide; try done; try lia; naive_solver.
Qed.

Lemma shape_tmap (f : T → T) p : shape (tmap f p) = shape p.
Proof. done. Qed.

Lemma cat_last_Ok (t0 : tensor T) ts out :
  cat_last (t0 :: ts) = Ok out →
  shape out = lead (shape t0) ++ [sum_list (pos_last ∘ shape <$> t0 :: ts)] ∧
  ∀ l k, in_range (lead (shape t0)) l →
    (k < sum_list (pos_last ∘ shape <$> t0 :: ts))%nat →
    out.[l ++ [k]] = cat_pick_last (t0 :: ts) l k.
Proof.
  unfold cat_last. case_bool_decide; [|discriminate]. intros [= <-].
  split; [done|]. intros l k Hl Hk.
  rewrite tref_tabulate by (by apply in_range_snoc).
  by rewrite lead_app, pos_last_app.
Qed.

Lemma descale_pred_copy p flips scale img_sh y :
  _descale_pred false p flips scale img_sh = Ok y →
  ∃ h w,
    (flips = Some 2 → img_size_at img_sh 0 = Ok h) ∧
    (flips = Some 3 → img_size_at img_sh 1 = Ok w) ∧
    shape y = shape p ∧
    ∀ idx, in_range (shape p) idx → y.[idx] = descaled p flips scale h w idx.
Proof.
  unfold _descale_pred.
  intros (x0 & Hx0 & H)%bind_Ok.
  assert (∃ sh n, shape p = sh ++ [n]) as (sh & n & Hsh).
  { unfold slice_last in Hx0. apply bind_Ok in Hx0 as (n & Hn%last_dim_Ok & _).
    by exists (lead (shape p)), n. }
  destruct (slice_last_nat p sh n 0 1 Hsh) as (x0' & Ex & Wx & Sx & Rx); [lia|].
  change (Z.of_nat 0) with 0 in Ex. change (Z.of_nat 1) with 1 in Ex.
  rewrite Ex in Hx0. injection Hx0 as ->.
  destruct (slice_last_nat p sh n 1 2 Hsh) as (y0 & Ey & Wy & Sy & Ry); [lia|].
  change (Z.of_nat 1) with 1 in Ey. change (Z.of_nat 2) with 2 in Ey.
  rewrite Ey, bind_Ok_l in H.
  destruct (slice_last_nat p sh n 2 4 Hsh) as (wh0 & Ew & Ww & Sw & Rw); [lia|].
  change (Z.of_nat 2) with 2 in Ew. change (Z.of_nat 4) with 4 in Ew.
  rewrite Ew, bind_Ok_l in H. cbv zeta in H.
  destruct (slice_last_from p sh n 4 Hsh) as (rest & Er & Wr & Sr & Rr).
  change (Z.of_nat 4) with 4 in Er.
  apply bind_Ok in H as ([x y'] & Hflip & H).
  rewrite Er, bind_Ok_l in H.
  apply cat_last_Ok in H as [Hso Hro].
  set (sc := s_lit scale) in *.
  set (dv := λ v : T, (v / sc)%sc) in *.
  assert (Hxy : ∃ h w,
    (flips = Some 2 → img_size_at img_sh 0 = Ok h) ∧
    (flips = Some 3 → img_size_at img_sh 1 = Ok w) ∧
    shape x = sh ++ [(Nat.min 1 n - Nat.min 0 n)%nat] ∧
    shape y' = sh ++ [(Nat.min 2 n - Nat.min 1 n)%nat] ∧
    (∀ l, in_range sh l → (0 < n)%nat →
       x.[l ++ [0%nat]] = if bool_decide (flips = Some 3)
                          then (w - dv p.[l ++ [0%nat]])%sc else dv p.[l ++ [0%nat]]) ∧
    (∀ l, in_range sh l → (1 < n)%nat →
       y'.[l ++ [0%nat]] = if bool_decide (flips = Some 2)
                           then (h - dv p.[l ++ [1%nat]])%sc else dv p.[l ++ [1%nat]])).
  { assert (Hx1 : ∀ l, in_range sh l → (0 < n)%nat →
                    (tmap dv x0).[l ++ [0%nat]] = dv p.[l ++ [0%nat]]).
    { intros l Hl Hn. rewrite tref_tmap; [|done|].
      - rewrite Rx by (done || lia). by replace (0 + Nat.min 0 n)%nat with 0%nat by lia.
      - rewrite Sx. apply in_range_snoc. split; [done|lia]. }
    assert (Hy1 : ∀ l, in_range sh l → (1 < n)%nat →
                    (tmap dv y0).[l ++ [0%nat]] = dv p.[l ++ [1%nat]]).
    { intros l Hl Hn. rewrite tref_tmap; [|done|].
      - rewrite Ry by (done || lia). by replace (0 + Nat.min 1 n)%nat with 1%nat by lia.
      - rewrite Sy. apply in_range_snoc. split; [done|lia]. }
    case_bool_decide as F2; [|case_bool_decide as F3].
    - apply bind_Ok in Hflip as (h & Hh & [= <- <-]).
      exists h, (s_lit 0). subst flips.
      split; [done|]. split; [done|]. split; [done|]. split; [done|]. split.
      + intros l Hl Hn. try rewrite bool_decide_eq_false_2 by done. by apply Hx1.
      + intros l Hl Hn. try rewrite bool_decide_eq_true_2 by done.
        rewrite tref_tmap; [by rewrite Hy1|by apply wf_tmap|].
        rewrite shape_tmap, Sy. apply in_range_snoc. split; [done|lia].
    - apply bind_Ok in Hflip as (w & Hw & [= <- <-]).
      exists (s_lit 0), w. subst flips.
      split; [done|]. split; [done|]. split; [done|]. split; [done|]. split.
      + intros l Hl Hn. try rewrite bool_decide_eq_true_2 by done.
        rewrite tref_tmap; [by rewrite Hx1|by apply wf_tmap|].
        rewrite shape_tmap, Sx. apply in_range_snoc. split; [done|lia].
      + intros l Hl Hn. try rewrite bool_decide_eq_false_2 by done. by apply Hy1.
    - injection Hflip as <- <-. exists (s_lit 0), (s_lit 0).
      split; [done|]. split; [done|]. split; [done|]. split; [done|]. split.
      + intros l Hl Hn. try rewrite bool_decide_eq_false_2 by done. by apply Hx1.
      + intros l Hl Hn. try rewrite bool_decide_eq_false_2 by done. by apply Hy1. }
  destruct Hxy as (h & w & Hh & Hw & Hsx & Hsy & Hrx & Hry).
  exists h, w. split; [done|]. split; [done|].
  assert (Hsum : sum_list (pos_last ∘ shape <$> [x; y'; tmap dv wh0; rest]) = n).
  { simpl. rewrite Hsx, Hsy, Sw, Sr, !pos_last_app. lia. }
  rewrite Hsx, lead_app in Hso, Hro. rewrite Hsum in Hso, Hro.
  split; [by rewrite Hso, Hsh|].
  intros idx Hi. rewrite Hsh in Hi.
  apply in_range_split in Hi as (l & k & -> & Hl & Hk).
  rewrite Hro by done. unfold descaled. rewrite pos_last_app. fold sc.
  simpl cat_pick_last. rewrite Hsx, Hsy, Sw, Sr, !pos_last_app.
  destruct (decide (k = 0%nat)) as [->|K0].
  { rewrite (bool_decide_eq_true_2 (0 < _)%nat) by lia.
    rewrite (bool_decide_eq_false_2 (4 ≤ 0)%nat) by lia.
    rewrite Hrx by (done || lia).
    repeat case_bool_decide; try done; naive_solver lia. }
  rewrite (bool_decide_eq_false_2 (k < Nat.min 1 n - Nat.min 0 n)%nat) by lia.
  destruct (decide (k = 1%nat)) as [->|K1].
  { rewrite (bool_decide_eq_true_2 (_ < Nat.min 2 n - _)%nat) by lia.
    rewrite (bool_decide_eq_false_2 (4 ≤ 1)%nat) by lia.
    replace (1 - (Nat.min 1 n - Nat.min 0 n))%nat with 0%nat by lia.
    rewrite Hry by (done || lia).
    repeat case_bool_decide; try done; naive_solver lia. }
  rewrite (bool_decide_eq_false_2 (_ < Nat.min 2 n - Nat.min 1 n)%nat) by lia.
  destruct (decide (k < 4)%nat) as [K4|K4].
  { rewrite (bool_decide_eq_true_2 (_ < Nat.min 4 n - _)%nat) by lia.
    rewrite (bool_decide_eq_false_2 (4 ≤ k)%nat) by lia.
    rewrite tref_tmap; [|done|].
    - rewrite Rw by (done || lia).
      replace (k - (Nat.min 1 n - Nat.min 0 n) - (Nat.min 2 n - Nat.min 1 n)
               + Nat.min 2 n)%nat with k by lia.
      repeat case_bool_decide; try done; naive_solver lia.
    - rewrite Sw. apply in_range_snoc. split; [done|lia]. }
  rewrite (bool_decide_eq_false_2 (_ < Nat.min 4 n - Nat.min 2 n)%nat) by lia.
  rewrite (bool_decide_eq_true_2 (_ < n - _)%nat) by lia.
  rewrite (bool_decide_eq_true_2 (4 ≤ k)%nat) by lia.
  rewrite Rr by (done || lia).
  by replace (k - (Nat.min 1 n - Nat.min 0 n) - (Nat.min 2 n - Nat.min 1 n)
              - (Nat.min 4 n - Nat.min 2 n) + Nat.min 4 n)%nat with k by lia.
Qed.

(** Both branches of [_descale_pred] leave the same tensor. *)
Lemma descale_pred_Ok inplace p flips scale img_sh y :
  _descale_pred inplace p flips scale img_sh = Ok y →
  ∃ h w,
    (flips = Some 2 → img_size_at img_sh 0 = Ok h) ∧
    (flips = Some 3 → img_size_at img_sh 1 = Ok w) ∧
    shape y = shape p ∧
    ∀ idx, in_range (shape p) idx → y.[idx] = descaled p flips scale h w idx.
Proof.
  destruct inplace; [apply descale_pred_inplace|apply descale_pred_copy].
Qed.

End descale_facts.

(** ** The schedule of passes *)

Section augment_facts.
Context {T : Type} `{!Scalar T} {St : Type}.
Context (scale_img : tensor T → Q → Z → tensor T).
Implicit Types (mdl : Model T St) (x p y : tensor T).

Lemma as_tensor_Ok (v : pyval (tensor T)) p : as_tensor v = Ok p → v = PTensor p.
Proof. destruct v; simpl; congruence. Qed.

(** What one iteration of the loop of [_forward_augment] does. *)
Lemma augment_pass_Ok mdl x si fi st yi st' :
  augment_pass scale_img mdl x si fi st = Ok (yi, st') →
  ∃ xf gs out p,
    (match fi with
     | Some d => if bool_decide (d ≠ 0) then flip d x else Ok x
     | None => Ok x
     end) = Ok xf ∧
    stride_max (stride mdl) = Ok gs ∧
    _forward_once (model mdl) (save mdl) (PTensor (scale_img xf si gs)) st
      = Ok (out, st') ∧
    first_output out = Ok (PTensor p) ∧
    _descale_pred (inplace mdl) p fi si (shape x) = Ok yi.
Proof.
  unfold augment_pass.
  intros (xf & Hxf & (gs & Hgs & ([out s1] & Hfw &
    (v & Hv & (p & ->%as_tensor_Ok & (y & Hy & [= <- <-])%bind_Ok)%bind_Ok)%bind_Ok
    )%bind_Ok)%bind_Ok)%bind_Ok.
  by exists xf, gs, out, p.
Qed.

(** [img_size[k]] for [img_size = x.shape[-2:]] is entry [k] of the last
    two sizes, as a number. *)
Lemma img_size_at_Ok (sh : list nat) (k : nat) (w : T) :
  img_size_at sh (Z.of_nat k) = Ok w →
  ∃ n : nat, drop (length sh - 2) sh !! k = Some n ∧
    w = s_lit (inject_Z (Z.of_nat n)).
Proof.
  unfold img_size_at. intros (n & Hn & [= <-])%bind_Ok.
  apply py_index_Ok in Hn as (j & Hj & Ej).
  destruct (Z.of_nat k <? 0) eqn:E; [lia|].
  assert (j = k) as -> by lia. by exists n.
Qed.

(** [int(self.stride.max())] is the integer part of the largest stride. *)
Lemma stride_max_Ok (stride : tensor T) (gs : Z) :
  stride_max stride = Ok gs →
  ∃ s0 ss, data stride = s0 :: ss ∧ gs = s_int (foldl s_max s0 ss).
Proof.
  unfold stride_max. destruct (data stride) as [|s0 ss]; [discriminate|].
  intros [= <-]. by exists s0, ss.
Qed.

(** [x.flip(3)] reverses the fourth axis and nothing else. *)
Lemma flip_lr_Ok (t t2 : tensor T) :
  flip 3 t = Ok t2 →
  ∃ n3 : nat, shape t !! 3%nat = Some n3 ∧ shape t2 = shape t ∧
    ∀ pre (i3 : nat) post, length pre = 3%nat →
      in_range (shape t) (pre ++ i3 :: post) →
      t2.[pre ++ i3 :: post] = t.[pre ++ (n3 - 1 - i3)%nat :: post].
Proof.
  unfold flip. intros (n & Hn & [= <-])%bind_Ok.
  apply py_index_Ok in Hn as (j & Hj & Ej).
  change (3 <? 0) with false in *. cbv iota in *.
  assert (j = 3%nat) as -> by lia.
  exists n. split; [done|]. split; [done|].
  intros pre i3 post Hpre Hin.
  rewrite tref_tabulate by done.
  change (Z.to_nat 3) with 3%nat. rewrite <- Hpre.
  rewrite list_lookup_middle by done. simpl.
  by rewrite insert_app_r_alt, Nat.sub_diag by lia.
Qed.

(** C6: [_descale_pred] divides the four box entries by the scale and then
    reflects x about the image width for a left-right flip (3) and y about
    the image height for an up-down flip (2), in either inplace mode; the
    height and the width are the last two sizes of the image.  An
    augmented inference that completes has run exactly three passes, in
    this order: scale 1 on the image, scale 0.83 on the image [x2] with
    its fourth axis (the columns) reversed, scale 0.67 on the image, each
    rescaled with the integer part [gs] of the largest stride as grid
    size; the predictions of each pass are de-scaled, those of the second
    pass reflected about the width [wn] of the image, before the three
    results are clipped and concatenated. *)
Theorem forward_augment_schedule mdl x st out none st' :
  _forward_augment scale_img mdl x st = Ok (out, none, st') →
  (∀ inpl p flips scale img_sh y,
     _descale_pred inpl p flips scale img_sh = Ok y →
     ∃ h w,
       (flips = Some 2 →
        ∃ hn : nat, drop (length img_sh - 2) img_sh !! 0%nat = Some hn ∧
          h = s_lit (inject_Z (Z.of_nat hn))) ∧
       (flips = Some 3 →
        ∃ wn : nat, drop (length img_sh - 2) img_sh !! 1%nat = Some wn ∧
          w = s_lit (inject_Z (Z.of_nat wn))) ∧
       descales_to p flips scale h w y) ∧
  none = PNone ∧
  ∃ s0 ss gs x2 (n3 wn : nat) w o1 o2 o3 s1 s2 p1 p2 p3 y1 y2 y3 last_m yc,
    data (stride mdl) = s0 :: ss ∧ gs = s_int (foldl s_max s0 ss) ∧
    shape x !! 3%nat = Some n3 ∧ shape x2 = shape x ∧
    (∀ pre (i3 : nat) post, length pre = 3%nat →
       in_range (shape x) (pre ++ i3 :: post) →
       x2.[pre ++ i3 :: post] = x.[pre ++ (n3 - 1 - i3)%nat :: post]) ∧
    drop (length (shape x) - 2) (shape x) !! 1%nat = Some wn ∧
    w = s_lit (inject_Z (Z.of_nat wn)) ∧
    _forward_once (model mdl) (save mdl) (PTensor (scale_img x 1 gs)) st
      = Ok (o1, s1) ∧
    _forward_once (model mdl) (save mdl) (PTensor (scale_img x2 (83 # 100) gs)) s1
      = Ok (o2, s2) ∧
    _forward_once (model mdl) (save mdl) (PTensor (scale_img x (67 # 100) gs)) s2
      = Ok (o3, st') ∧
    first_output o1 = Ok (PTensor p1) ∧
    first_output o2 = Ok (PTensor p2) ∧
    first_output o3 = Ok (PTensor p3) ∧
    descales_to p1 None 1 w w y1 ∧
    descales_to p2 (Some 3) (83 # 100) w w y2 ∧
    descales_to p3 None (67 # 100) w w y3 ∧
    py_index (model mdl) (-1) = Ok last_m ∧
    _clip_augmented (m_nl last_m) [y1; y2; y3] = Ok yc ∧
    cat1 yc = Ok out.
Proof.
  intros H. split; [|split].
  - intros inpl p flips scale img_sh y Hy.
    apply descale_pred_Ok in Hy as (h & w & Hh & Hw & Hs & Hr).
    exists h, w. split; [|split; [|done]].
    + intros Hf. exact (img_size_at_Ok img_sh 0%nat h (Hh Hf)).
    + intros Hf. exact (img_size_at_Ok img_sh 1%nat w (Hw Hf)).
  - unfold _forward_augment in H. cbv zeta in H.
    apply bind_Ok in H as ([y s3] & _ & (lm & _ & (yc & _ & (o & _ & H)%bind_Ok
      )%bind_Ok)%bind_Ok).
    by injection H as _ <- _.
  - unfold _forward_augment in H. cbv zeta in H.
    apply bind_Ok in H as ([y s3] & Hp & (lm & Hlm & (yc & Hyc & (o & Ho & H)%bind_Ok
      )%bind_Ok)%bind_Ok).
    injection H as -> _ ->. simpl in Hp.
    apply bind_Ok in Hp as ([y1 s1] & H1 & Hp).
    apply bind_Ok in Hp as ([ys1 s1'] & Hp & [= <- <-]).
    apply bind_Ok in Hp as ([y2 s2] & H2 & Hp).
    apply bind_Ok in Hp as ([ys2 s2'] & Hp & [= <- <-]).
    apply bind_Ok in Hp as ([y3 s3'] & H3 & [= <- <-]).
    apply augment_pass_Ok in H1 as (xf1 & gs & o1 & p1 & [= <-] & Hgs & F1 & O1 & D1).
    apply augment_pass_Ok in H2 as (x2 & gs2 & o2 & p2 & Hx2 & Hgs2 & F2 & O2 & D2).
    apply augment_pass_Ok in H3 as (xf3 & gs3 & o3 & p3 & [= <-] & Hgs3 & F3 & O3 & D3).
    rewrite Hgs in Hgs2, Hgs3. injection Hgs2 as <-. injection Hgs3 as <-.
    rewrite bool_decide_eq_true_2 in Hx2 by done.
    apply descale_pred_Ok in D1 as (h1 & w1 & _ & _ & E1).
    apply descale_pred_Ok in D2 as (h2 & w & _ & Hw & E2).
    apply descale_pred_Ok in D3 as (h3 & w3 & _ & _ & E3).
    destruct (flip_lr_Ok _ _ Hx2) as (n3 & Hn3 & Sx2 & Rx2).
    destruct (img_size_at_Ok _ 1%nat _ (Hw eq_refl)) as (wn & Hwn & Ew).
    destruct (stride_max_Ok _ _ Hgs) as (s0 & ss & Hs0 & Egs).
    exists s0, ss, gs, x2, n3, wn, w, o1, o2, o3, s1, s2, p1, p2, p3, y1, y2, y3,
      lm, yc.
    repeat split; try done.
    + apply E1.
    + intros idx Hi. destruct E1 as [_ E1]. rewrite E1 by done.
      unfold descaled. repeat case_bool_decide; naive_solver.
    + apply E2.
    + intros idx Hi. destruct E2 as [_ E2]. rewrite E2 by done.
      unfold descaled. repeat case_bool_decide; naive_solver.
    + apply E3.
    + intros idx Hi. destruct E3 as [_ E3]. rewrite E3 by done.
      unfold descaled. repeat case_bool_decide; naive_solver.
Qed.

End augment_facts.

Lemma forward_augment_schedule_witness :
  ∃ out,
    _forward_augment toy_scale_img toy_detector toy_image () = Ok (out, PNone, ()) ∧
    ∃ s0 ss gs x2 (n3 wn : nat) w o1 o2 o3 s1 s2 p1 p2 p3 y1 y2 y3 last_m yc,
      data (stride toy_detector) = s0 :: ss ∧ gs = s_int (foldl s_max s0 ss) ∧
      shape toy_image !! 3%nat = Some n3 ∧ shape x2 = shape toy_image ∧
      (∀ pre (i3 : nat) post, length pre = 3%nat →
         in_range (shape toy_image) (pre ++ i3 :: post) →
         x2.[pre ++ i3 :: post] = toy_image.[pre ++ (n3 - 1 - i3)%nat :: post]) ∧
      drop (length (shape toy_image) - 2) (shape toy_image) !! 1%nat = Some wn ∧
      w = s_lit (inject_Z (Z.of_nat wn)) ∧
      _forward_once (model toy_detector) (save toy_detector)
        (PTensor (toy_scale_img toy_image 1 gs)) () = Ok (o1, s1) ∧
      _forward_once (model toy_detector) (save toy_detector)
        (PTensor (toy_scale_img x2 (83 # 100) gs)) s1 = Ok (o2, s2) ∧
      _forward_once (model toy_detector) (save toy_detector)
        (PTensor (toy_scale_img toy_image (67 # 100) gs)) s2 = Ok (o3, ()) ∧
      first_output o1 = Ok (PTensor p1) ∧
      first_output o2 = Ok (PTensor p2) ∧
      first_output o3 = Ok (PTensor p3) ∧
      descales_to p1 None 1 w w y1 ∧
      descales_to p2 (Some 3) (83 # 100) w w y2 ∧
      descales_to p3 None (67 # 100) w w y3 ∧
      py_index (model toy_detector) (-1) = Ok last_m ∧
      _clip_augmented (m_nl last_m) [y1; y2; y3] = Ok yc ∧
      cat1 yc = Ok out.
Proof.
  assert (E : ∃ out,
    _forward_augment toy_scale_img toy_detector toy_image () = Ok (out, PNone, ())).
  { eexists. vm_compute. reflexivity. }
  destruct E as [out E]. exists out. split; [exact E|].
  exact (proj2 (proj2 (forward_augment_schedule toy_scale_img toy_detector toy_image
                         () out PNone () E))).
Defined.

(** * Properties of the bias initialisation *)

Lemma traverse_length {A B} (g : A → result B) l r :
  traverse g l = Ok r → length r = length l.
Proof.
  revert r. induction l as [|a l IH]; intros r; simpl.
  - by intros [= <-].
  - intros (b & _ & (bs & Hbs & [= <-])%bind_Ok)%bind_Ok. simpl. by rewrite (IH bs).
Qed.

Lemma traverse_lookup {A B} (g : A → result B) l r (i : nat) a :
  traverse g l = Ok r → l !! i = Some a → ∃ b, r !! i = Some b ∧ g a = Ok b.
Proof.
  revert r i. induction l as [|a0 l IH]; intros r i; simpl; [done|].
  intros (b & Hb & (bs & Hbs & [= <-])%bind_Ok)%bind_Ok Hi.
  destruct i as [|i]; simpl in *.
  - injection Hi as ->. eauto.
  - eauto.
Qed.

Lemma in_range_2 (d0 d1 a k : nat) :
  (a < d0)%nat → (k < d1)%nat → in_range [d0; d1] [a; k].
Proof. intros. by repeat constructor. Qed.

Lemma ravel_2 (d0 d1 a k : nat) : ravel [d0; d1] [a; k] = (a * d1 + k)%nat.
Proof. simpl. lia. Qed.

Section bias_facts.
Context {T : Type} `{!Scalar T}.
Implicit Types (bias b cf : tensor T).

Lemma lookup_timap_2 (g : list nat → T → T) b d0 d1 a k :
  shape b = [d0; d1] → (a < d0)%nat → (k < d1)%nat →
  data (timap g b) !! (a * d1 + k)%nat = Some (g [a; k] b.[[a; k]]).
Proof.
  intros Hsh Ha Hk. unfold timap. rewrite Hsh, <- (ravel_2 d0 d1).
  apply (lookup_tabulate [d0; d1] (λ idx, g idx b.[idx])). by apply in_range_2.
Qed.

Lemma tref_class_frequency_prior cf m j :
  wf_tensor cf → shape cf = [m] → (j < m)%nat →
  (class_frequency_prior cf).[[j]] = s_log (cf.[[j]] / tsum cf)%sc.
Proof.
  intros Hwf Hsh Hj. unfold class_frequency_prior.
  assert (Hin : in_range (shape cf) [j]) by (rewrite Hsh; by repeat constructor).
  rewrite tref_tmap; [|by apply wf_tmap|done].
  by rewrite tref_tmap.
Qed.

(** What the loop body leaves in one bias. *)
Lemma initialize_bias_Ok na nc cfo bias s b' :
  (∀ cf, cfo = Some cf → wf_tensor cf ∧ ∃ m, shape cf = [m]) →
  initialize_bias na nc cfo bias s = Ok b' →
  let no := (numel (shape bias) / na)%nat in
  length (data b') = (na * no)%nat ∧
  ∀ a k v, (a < na)%nat → (k < no)%nat →
    data bias !! (a * no + k)%nat = Some v →
    data b' !! (a * no + k)%nat =
      Some (match bias_offset nc cfo s k with
            | Some o => (v + o)%sc
            | None => v
            end).
Proof.
  intros Hcf H no. unfold initialize_bias in H.
  apply bind_Ok in H as (b0 & H0 & (b1 & H1 & (b2 & H2 & [= <-])%bind_Ok)%bind_Ok).
  unfold view_rows in H0. case_bool_decide as Hna; [|discriminate].
  injection H0 as <-. fold no in H1.
  unfold add_to_column in H1. cbn [shape] in H1.
  case_bool_decide as H4; [|discriminate]. injection H1 as <-.
  unfold add_to_columns_from in H2. cbn [shape timap tabulate] in H2.
  destruct (broadcastable_to _ _) eqn:Hbc; [|discriminate]. injection H2 as <-.
  cbn [data]. split.
  { unfold timap, tabulate. cbn [data shape]. rewrite length_fmap, length_seq.
    simpl. lia. }
  intros a k v Ha Hk Hv.
  pose proof (in_range_2 na no a k Ha Hk) as Hin.
  rewrite (lookup_timap_2 _ _ na no) by done.
  f_equal. rewrite tref_timap by done.
  assert (Hb : (mkTensor [na; no] (data bias)).[[a; k]] = v).
  { unfold tref. cbn [shape data]. by rewrite ravel_2, Hv. }
  rewrite Hb. change ([a; k] !! 1%nat) with (Some k). unfold bias_offset.
  destruct (decide (k = 4%nat)) as [->|K4].
  { rewrite (bool_decide_eq_true_2 (Some 4%nat = Some 4%nat)) by done.
    rewrite (bool_decide_eq_false_2 (5 ≤ 4)%nat) by lia.
    by rewrite (bool_decide_eq_true_2 (4%nat = 4%nat)). }
  rewrite (bool_decide_eq_false_2 (Some k = Some 4%nat)) by congruence.
  rewrite (bool_decide_eq_false_2 (k = 4%nat)) by done.
  case_bool_decide as K5; [|done]. do 2 f_equal.
  destruct cfo as [cf|].
  - destruct (Hcf cf eq_refl) as (Hwf & m & Hm).
    assert (Hsh : shape (class_frequency_prior cf) = [m]) by done.
    rewrite Hsh. rewrite Hsh in Hbc.
    unfold broadcastable_to in Hbc. apply bool_decide_eq_true in Hbc as [_ Hbc].
    simpl in Hbc. apply Forall2_cons_1 in Hbc as [Hbc _].
    unfold bcast_index. simpl.
    rewrite tref_class_frequency_prior with (m := m); [|done|done|].
    + rewrite Hm. repeat case_bool_decide; congruence.
    + case_bool_decide; lia.
  - unfold bcast_index, scalar_tensor, tref. by simpl.
Qed.

(** The offsets, entry by entry. *)
Lemma bias_offset_cases nc cfo (s : T) (k : nat) (v : T) :
  let v' := match bias_offset nc cfo s k with
            | Some o => (v + o)%sc
            | None => v
            end in
  (k = 4%nat → v' = (v + s_log (s_lit 8 / (s_lit 640 / s) ^ 2))%sc) ∧
  ((5 ≤ k)%nat → cfo = None →
   v' = (v + s_log (s_lit (6 # 10)
                        / (s_lit (inject_Z nc) - s_lit (999999 # 1000000))))%sc) ∧
  ((5 ≤ k)%nat → ∀ cf, cfo = Some cf →
   v' = (v + s_log (cf.[[if bool_decide (shape cf = [1%nat]) then 0%nat
                         else (k - 5)%nat]]
                    / foldl s_add (s_lit 0) (data cf)))%sc) ∧
  ((k < 4)%nat → v' = v).
Proof.
  intros v'. subst v'. unfold bias_offset, objectness_prior, class_prior, tsum.
  repeat split; intros; subst; repeat case_bool_decide; try lia; done.
Qed.

(** C9: bias initialisation that completes adds, in the bias of the output
    convolution of each scale and for each anchor, [log(8 / (640/stride)^2)]
    to entry 4 and, to each entry from 5 on, [log(0.6 / (nc - 0.999999))]
    when no class frequencies are given and [log(cf / cf.sum())] of the
    entry's class when they are (a single frequency serves every class);
    every other entry, and every bias without a stride, is left as it
    was. *)
Theorem initialize_biases_offsets na nc cfo (biases : list (tensor T)) stride out :
  (∀ cf, cfo = Some cf → wf_tensor cf ∧ ∃ m, shape cf = [m]) →
  _initialize_biases na nc cfo biases stride = Ok out →
  length out = length biases ∧
  (∀ (i : nat) bias s,
     biases !! i = Some bias → stride !! i = Some s →
     ∃ b', out !! i = Some b' ∧
       let no := (numel (shape bias) / na)%nat in
       length (data b') = (na * no)%nat ∧
       ∀ a k v, (a < na)%nat → (k < no)%nat →
         data bias !! (a * no + k)%nat = Some v →
         ∃ v', data b' !! (a * no + k)%nat = Some v' ∧
           (k = 4%nat → v' = (v + s_log (s_lit 8 / (s_lit 640 / s) ^ 2))%sc) ∧
           ((5 ≤ k)%nat → cfo = None →
            v' = (v + s_log (s_lit (6 # 10)
                                 / (s_lit (inject_Z nc) - s_lit (999999 # 1000000))))%sc) ∧
           ((5 ≤ k)%nat → ∀ cf, cfo = Some cf →
            v' = (v + s_log (cf.[[if bool_decide (shape cf = [1%nat]) then 0%nat
                                  else (k - 5)%nat]]
                             / foldl s_add (s_lit 0) (data cf)))%sc) ∧
           ((k < 4)%nat → v' = v)) ∧
  (∀ i : nat, (length stride ≤ i)%nat → out !! i = biases !! i).
Proof.
  intros Hcf. unfold _initialize_biases.
  intros (new & Hnew & [= <-])%bind_Ok.
  pose proof (traverse_length _ _ _ Hnew) as Hlen.
  rewrite length_zip in Hlen.
  split; [|split].
  - rewrite length_app, length_drop. lia.
  - intros i bias s Hb Hs.
    assert (Hz : zip biases stride !! i = Some (bias, s)).
    { rewrite lookup_zip_with. by rewrite Hb, Hs. }
    destruct (traverse_lookup _ _ _ _ _ Hnew Hz) as (b' & Hb' & Hinit).
    exists b'. split; [by rewrite lookup_app_l by by eapply lookup_lt_Some|].
    destruct (initialize_bias_Ok _ _ _ _ _ _ Hcf Hinit) as [Hl Hv].
    cbv zeta. split; [exact Hl|].
    intros a k v Ha Hk Hbv. eexists. split; [by apply Hv|].
    apply bias_offset_cases.
  - intros i Hi.
    destruct (decide (i < length biases)%nat) as [Hlt|Hge].
    + rewrite lookup_app_r by lia. rewrite lookup_drop. f_equal. lia.
    + rewrite !lookup_ge_None_2; [done|lia|].
      rewrite length_app, length_drop. lia.
Qed.

End bias_facts.

Lemma initialize_biases_offsets_witness :
  ∃ out,
    _initialize_biases 2 1 None toy_biases toy_strides = Ok out ∧
    length out = length toy_biases ∧
    (∀ (i : nat) bias s,
       toy_biases !! i = Some bias → toy_strides !! i = Some s →
       ∃ b', out !! i = Some b' ∧
         let no := (numel (shape bias) / 2)%nat in
         length (data b') = (2 * no)%nat ∧
         ∀ a k v, (a < 2)%nat → (k < no)%nat →
           data bias !! (a * no + k)%nat = Some v →
           ∃ v', data b' !! (a * no + k)%nat = Some v' ∧
             (k = 4%nat → v' = (v + s_log (s_lit 8 / (s_lit 640 / s) ^ 2))%sc) ∧
             ((5 ≤ k)%nat → (@None (tensor sexpr)) = None →
              v' = (v + s_log (s_lit (6 # 10)
                                   / (s_lit (inject_Z 1) - s_lit (999999 # 1000000))))%sc) ∧
             ((5 ≤ k)%nat → ∀ cf, (@None (tensor sexpr)) = Some cf →
              v' = (v + s_log (cf.[[if bool_decide (shape cf = [1%nat]) then 0%nat
                                    else (k - 5)%nat]]
                               / foldl s_add (s_lit 0) (data cf)))%sc) ∧
             ((k < 4)%nat → v' = v)) ∧
    (∀ i : nat, (length toy_strides ≤ i)%nat → out !! i = toy_biases !! i).
Proof.
  assert (E : ∃ out, _initialize_biases 2 1 None toy_biases toy_strides = Ok out).
  { eexists. vm_compute. reflexivity. }
  destruct E as [out E]. exists out. split; [exact E|].
  apply (initialize_biases_offsets 2 1 None toy_biases toy_strides out); [|exact E].
  intros cf Hcf. discriminate.
Defined.

(** * Properties of the detection head *)

Section decode_facts.
Context {T : Type} `{!Scalar T}.
Implicit Types (r g ag y : tensor T).

Lemma assign_last_Ok (lo hi : nat) (f : T → T → T) g y y' sh n :
  shape y = sh ++ [n] → (lo ≤ hi)%nat →
  assign_last lo hi f g y = Ok y' →
  shape y' = shape y ∧ wf_tensor y' ∧
  ∀ l k, in_range sh l → (k < n)%nat →
    y'.[l ++ [k]] =
      if bool_decide (lo ≤ k < hi)%nat
      then f y.[l ++ [k]] g.[bcast_index (shape g) (l ++ [(k - lo)%nat])]
      else y.[l ++ [k]].
Proof.
  intros Hsh Hle. unfold assign_last.
  rewrite Hsh, last_dim_snoc, bind_Ok_l, slice_range_nat by done.
  destruct (broadcastable_to _ _); [|discriminate]. intros [= <-].
  split; [done|]. split; [apply wf_tabulate|].
  intros l k Hl Hk.
  rewrite tref_timap by (rewrite Hsh; by apply in_range_snoc).
  rewrite pos_last_app, lead_app.
  repeat case_bool_decide; try done; try lia.
  by replace (k - Nat.min lo n)%nat with (k - lo)%nat by lia.
Qed.

Lemma zip_bcast_Ok (f : T → T → T) g y y' :
  zip_bcast f g y = Ok y' →
  shape y' = shape y ∧ wf_tensor y' ∧
  ∀ idx, in_range (shape y) idx →
    y'.[idx] = f y.[idx] g.[bcast_index (shape g) idx].
Proof.
  unfold zip_bcast. destruct (broadcastable_to _ _); [|discriminate].
  intros [= <-]. split; [done|]. split; [apply wf_tabulate|].
  intros idx Hi. by rewrite tref_timap.
Qed.

(** The in-place branch of the decoding. *)
Lemma decode_inplace r g ag s y1 y2 sh n :
  wf_tensor r → shape r = sh ++ [n] →
  assign_last 0 2 (decode_xy s) g (tmap s_sigmoid r) = Ok y1 →
  assign_last 2 4 decode_wh ag y1 = Ok y2 →
  shape y2 = shape r ∧ wf_tensor y2 ∧
  ∀ idx, in_range (shape r) idx → y2.[idx] = decoded r g ag s idx.
Proof.
  intros Hwf Hsh H1 H2.
  apply (assign_last_Ok _ _ _ _ _ _ sh n) in H1 as (S1 & W1 & R1); [|done|lia].
  apply (assign_last_Ok _ _ _ _ _ _ sh n) in H2 as (S2 & W2 & R2);
    [|by rewrite S1|lia].
  split; [by rewrite S2, S1|]. split; [done|].
  intros idx Hi. rewrite Hsh in Hi.
  apply in_range_split in Hi as (l & k & -> & Hl & Hk).
  rewrite R2, R1 by done.
  rewrite tref_tmap by (done || rewrite Hsh; by apply in_range_snoc).
  unfold decoded. rewrite pos_last_app, lead_app.
  replace (k - 0)%nat with k by lia.
  repeat case_bool_decide; try done; lia.
Qed.

(** The branch of the decoding that builds a new tensor. *)
Lemma decode_copy r g ag s sxy xy swh wh rest y sh n :
  wf_tensor r → shape r = sh ++ [n] →
  slice_last (Some 0) (Some 2) (tmap s_sigmoid r) = Ok sxy →
  zip_bcast (decode_xy s) g sxy = Ok xy →
  slice_last (Some 2) (Some 4) (tmap s_sigmoid r) = Ok swh →
  zip_bcast decode_wh ag swh = Ok wh →
  slice_last (Some 4) None (tmap s_sigmoid r) = Ok rest →
  cat_last [xy; wh; rest] = Ok y →
  shape y = shape r ∧
  ∀ idx, in_range (shape r) idx → y.[idx] = decoded r g ag s idx.
Proof.
  intros Hwf Hsh Hsxy Hxy Hswh Hwh Hrest Hy.
  assert (Hs : shape (tmap s_sigmoid r) = sh ++ [n]) by done.
  destruct (slice_last_nat _ sh n 0 2 Hs) as (s1 & E1 & W1 & S1 & R1); [lia|].
  change (Z.of_nat 0) with 0 in E1. change (Z.of_nat 2) with 2 in E1.
  rewrite E1 in Hsxy. injection Hsxy as ->.
  destruct (slice_last_nat _ sh n 2 4 Hs) as (s2 & E2 & W2 & S2 & R2); [lia|].
  change (Z.of_nat 2) with 2 in E2. change (Z.of_nat 4) with 4 in E2.
  rewrite E2 in Hswh. injection Hswh as ->.
  destruct (slice_last_from _ sh n 4 Hs) as (s3 & E3 & W3 & S3 & R3).
  change (Z.of_nat 4) with 4 in E3.
  rewrite E3 in Hrest. injection Hrest as ->.
  apply zip_bcast_Ok in Hxy as (Sxy & Wxy & Rxy).
  apply zip_bcast_Ok in Hwh as (Swh & Wwh & Rwh).
  apply cat_last_Ok in Hy as [Hso Hro].
  assert (Hsum : sum_list (pos_last ∘ shape <$> [xy; wh; rest]) = n).
  { simpl. rewrite Sxy, Swh, S1, S2, S3, !pos_last_app. lia. }
  rewrite Sxy, S1, lead_app, Hsum in Hso, Hro.
  split; [by rewrite Hso, Hsh|].
  intros idx Hi. rewrite Hsh in Hi.
  apply in_range_split in Hi as (l & k & -> & Hl & Hk).
  rewrite Hro by done. unfold decoded. rewrite pos_last_app, lead_app.
  simpl cat_pick_last. rewrite Sxy, Swh, S1, S2, S3, !pos_last_app.
  assert (Hr : ∀ j, (j < n)%nat →
            (tmap s_sigmoid r).[l ++ [j]] = s_sigmoid r.[l ++ [j]]).
  { intros j Hj. apply tref_tmap; [done|]. rewrite Hsh. by apply in_range_snoc. }
  destruct (decide (k < 2)%nat) as [K2|K2].
  { rewrite (bool_decide_eq_true_2 (k < Nat.min 2 n - Nat.min 0 n)%nat) by lia.
    rewrite (bool_decide_eq_true_2 (k < 2)%nat) by done.
    rewrite Rxy by (rewrite S1; apply in_range_snoc; split; [done|lia]).
    rewrite R1 by (done || lia).
    replace (k + Nat.min 0 n)%nat with k by lia. by rewrite Hr. }
  rewrite (bool_decide_eq_false_2 (k < Nat.min 2 n - Nat.min 0 n)%nat) by lia.
  rewrite (bool_decide_eq_false_2 (k < 2)%nat) by done.
  destruct (decide (k < 4)%nat) as [K4|K4].
  { rewrite (bool_decide_eq_true_2 (_ < Nat.min 4 n - Nat.min 2 n)%nat) by lia.
    rewrite (bool_decide_eq_true_2 (k < 4)%nat) by done.
    rewrite Rwh by (rewrite S2; apply in_range_snoc; split; [done|lia]).
    rewrite R2 by (done || lia).
    replace (k - (Nat.min 2 n - Nat.min 0 n) + Nat.min 2 n)%nat with k by lia.
    replace (k - (Nat.min 2 n - Nat.min 0 n))%nat with (k - 2)%nat by lia.
    by rewrite Hr. }
  rewrite (bool_decide_eq_false_2 (_ < Nat.min 4 n - Nat.min 2 n)%nat) by lia.
  rewrite (bool_decide_eq_false_2 (k < 4)%nat) by done.
  rewrite (bool_decide_eq_true_2 (_ < n - Nat.min 4 n)%nat) by lia.
  rewrite R3 by (done || lia).
  replace (k - (Nat.min 2 n - Nat.min 0 n) - (Nat.min 4 n - Nat.min 2 n)
           + Nat.min 4 n)%nat with k by lia.
  by rewrite Hr.
Qed.

End decode_facts.

(** ** The heap *)

Section heap_facts.
Context {T : Type} `{!Scalar T}.
Implicit Types (h : heap T) (p : handle) (t : tensor T).

Lemma tensor_eta t : mkTensor (shape t) (data t) = t.
Proof. by destruct t. Qed.

Lemma deref_app h cells p :
  (h_loc p < length h)%nat → deref (h ++ cells) p = deref h p.
Proof. intros H. unfold deref. by rewrite lookup_app_l. Qed.

Lemma deref_Ok h p t :
  deref h p = Ok t → h !! h_loc p = Some (data t) ∧ shape t = h_shape p.
Proof.
  unfold deref. destruct (h !! h_loc p) as [d|]; [|discriminate].
  by intros [= <-].
Qed.

Lemma deref_lookup h p d :
  h !! h_loc p = Some d → deref h p = Ok (mkTensor (h_shape p) d).
Proof. intros H. unfold deref. by rewrite H. Qed.

Lemma item_Ok {A} (l : list A) i a : item l i = Ok a ↔ l !! i = Some a.
Proof. unfold item. destruct (l !! i); split; congruence. Qed.

Lemma store_last h d p t :
  h_loc p = length h → store (h ++ [d]) p t = h ++ [data t].
Proof.
  intros Hp. unfold store. rewrite Hp.
  rewrite insert_app_r_alt by lia. by rewrite Nat.sub_diag.
Qed.

Lemma view_infer_handle_Ok a c p z :
  view_infer_handle a c p = Ok z →
  h_loc z = h_loc p ∧
  h_shape z = [a; (numel (h_shape p) / (a * c))%nat; c] ∧
  (a * c)%nat ≠ 0%nat ∧ (numel (h_shape p) mod (a * c))%nat = 0%nat.
Proof.
  unfold view_infer_handle. case_bool_decide as H; [|discriminate].
  intros [= <-]. by destruct H.
Qed.

End heap_facts.

(** ** The raw tensor of a scale *)

Section raw_facts.
Context {T : Type} `{!Scalar T}.
Implicit Types (d : Detect T) (r c : tensor T).

Lemma unpack4_Ok sh bs ny nx :
  unpack4 sh = Ok (bs, ny, nx) → ∃ ch, sh = [bs; ch; ny; nx].
Proof.
  destruct sh as [|a [|b [|c [|e [|? ?]]]]]; simpl; try discriminate.
  intros [= <- <- <-]. by eexists.
Qed.

Lemma in_range_5 (d0 d1 d2 d3 d4 i0 i1 i2 i3 i4 : nat) :
  in_range [d0; d1; d2; d3; d4] [i0; i1; i2; i3; i4] ↔
  (i0 < d0 ∧ i1 < d1 ∧ i2 < d2 ∧ i3 < d3 ∧ i4 < d4)%nat.
Proof.
  unfold in_range. split.
  - intros H. repeat (apply Forall2_cons_1 in H as [? H]). done.
  - intros (?&?&?&?&?). by repeat constructor.
Qed.

Lemma permute_01342_Ok v r bs na no ny nx :
  shape v = [bs; na; no; ny; nx] →
  permute_01342 v = Ok r →
  shape r = [bs; na; ny; nx; no] ∧ wf_tensor r ∧
  ∀ b a y x k, (b < bs ∧ a < na ∧ y < ny ∧ x < nx ∧ k < no)%nat →
    r.[[b; a; y; x; k]] = v.[[b; a; k; y; x]].
Proof.
  intros Hsh. unfold permute_01342. rewrite Hsh. intros [= <-].
  split; [done|]. split; [apply wf_tabulate|].
  intros b a y x k H. rewrite tref_tabulate; [done|]. by apply in_range_5.
Qed.

(** The raw tensor of a scale, element by element: channel [a * no + k] of
    the convolution output, read as (bs, na, no, ny, nx). *)
Lemma raw_scale_Ok d i vin r :
  raw_scale d i vin = Ok r →
  ∃ mi c bs ch ny nx,
    det_m d !! i = Some mi ∧ mi vin = Ok c ∧
    shape c = [bs; ch; ny; nx] ∧
    shape r = [bs; det_na d; ny; nx; det_no d] ∧ wf_tensor r ∧
    ∀ b a y x k, (b < bs ∧ a < det_na d ∧ y < ny ∧ x < nx ∧ k < det_no d)%nat →
      r.[[b; a; y; x; k]] =
        (mkTensor [bs; det_na d; det_no d; ny; nx] (data c)).[[b; a; k; y; x]].
Proof.
  unfold raw_scale.
  intros (mi & Hmi%item_Ok & (c & Hc & ([[bs ny] nx] & Hu & (v & Hv & Hp)%bind_Ok
    )%bind_Ok)%bind_Ok)%bind_Ok.
  apply unpack4_Ok in Hu as [ch Hch].
  unfold view in Hv. case_bool_decide; [|discriminate]. injection Hv as <-.
  apply (permute_01342_Ok _ _ bs (det_na d) (det_no d) ny nx) in Hp
    as (Hs & Hw & Hr); [|done].
  by exists mi, c, bs, ch, ny, nx.
Qed.

End raw_facts.

(** ** One scale of the loop *)

Section step_facts.
Context {T : Type} `{!Scalar T}.
Implicit Types (d : Detect T) (st : fwd T) (r c y : tensor T).

(** Every iteration starts the same way, in training and in inference. *)
Lemma forward_scale_prefix d i st st' :
  forward_scale d i st = Ok st' →
  ∃ xi vin c r,
    f_x st !! i = Some xi ∧
    deref (f_heap st) xi = Ok vin ∧
    raw_scale d i vin = Ok r ∧
    (∃ mi, det_m d !! i = Some mi ∧ mi vin = Ok c) ∧
    f_x st' = <[i := mkHandle (S (length (f_heap st))) (shape r)]> (f_x st) ∧
    ∃ cells, f_heap st' = f_heap st ++ data c :: data r :: cells ∧
      (det_training d = true →
         cells = [] ∧ f_z st' = f_z st ∧
         f_grid st' = f_grid st ∧ f_anchor_grid st' = f_anchor_grid st).
Proof.
  unfold forward_scale. cbv beta iota zeta delta [alloc].
  intros (mi & Hmi & (xi & Hxi%item_Ok & (vin & Hvin & (c & Hc &
    ([[bs ny] nx] & Hu & (v & Hv & (r & Hr & H)%bind_Ok)%bind_Ok)%bind_Ok
    )%bind_Ok)%bind_Ok)%bind_Ok)%bind_Ok.
  assert (Hraw : raw_scale d i vin = Ok r).
  { unfold raw_scale. by rewrite Hmi, bind_Ok_l, Hc, bind_Ok_l, Hu, bind_Ok_l, Hv. }
  exists xi, vin, c, r. split; [done|]. split; [done|]. split; [done|].
  split; [exists mi; split; [by apply item_Ok|done]|].
  rewrite length_app in H. simpl length in H.
  replace (length (f_heap st) + 1)%nat with (S (length (f_heap st))) in H by lia.
  rewrite <- app_assoc in H. simpl app in H.
  destruct (det_training d) eqn:Htr.
  - injection H as <-. simpl. split; [done|]. exists []. by split.
  - apply bind_Ok in H as (stale & _ & ([grid agrid] & _ & H)%bind_Ok).
    rewrite <- app_assoc in H. simpl app in H.
    apply bind_Ok in H as (gi & _ & (ai & _ & (si & _ & H)%bind_Ok)%bind_Ok).
    destruct (det_inplace d).
    + apply bind_Ok in H as (y0 & _ & (y1 & _ & H)%bind_Ok).
      apply bind_Ok in H as (y1' & _ & (y2 & _ & (zi & _ & H)%bind_Ok)%bind_Ok).
      injection H as <-. simpl. split; [done|].
      unfold store. simpl h_loc.
      rewrite !length_app. simpl length.
      rewrite !(insert_app_r (f_heap st) _ 2). simpl.
      eexists. split; [reflexivity|]. intros; discriminate.
    + apply bind_Ok in H as (y0 & _ & (sxy & _ & (xy & _ & (swh & _ & (wh & _ &
        (rest & _ & (y & _ & H)%bind_Ok)%bind_Ok)%bind_Ok)%bind_Ok)%bind_Ok
        )%bind_Ok).
      rewrite <- app_assoc in H. simpl app in H.
      apply bind_Ok in H as (zi & _ & [= <-]). simpl. split; [done|].
      eexists. split; [reflexivity|]. intros; discriminate.
Qed.

Lemma deref_third (h : list (list T)) a b e sh :
  deref (h ++ [a; b; e]) (mkHandle (length h + 2) sh) = Ok (mkTensor sh e).
Proof.
  unfold deref. simpl h_loc. rewrite lookup_app_r by lia.
  by replace (length h + 2 - length h)%nat with 2%nat by lia.
Qed.

Lemma store_third (h : list (list T)) a b e sh (t : tensor T) :
  store (h ++ [a; b; e]) (mkHandle (length h + 2) sh) t = h ++ [a; b; data t].
Proof. unfold store. simpl h_loc. by rewrite insert_app_r. Qed.

Lemma grid_refresh_Ok d i nx ny st (stale : bool) grid agrid :
  (if stale
   then '(g, a) ← _make_grid d nx ny i;
        Ok (<[i := g]> (f_grid st), <[i := a]> (f_anchor_grid st))
   else Ok (f_grid st, f_anchor_grid st)) = Ok (grid, agrid) →
  if stale
  then ∃ g a, _make_grid d nx ny i = Ok (g, a) ∧
         grid = <[i := g]> (f_grid st) ∧ agrid = <[i := a]> (f_anchor_grid st)
  else grid = f_grid st ∧ agrid = f_anchor_grid st.
Proof.
  destruct stale.
  - intros ([g a] & Hg & [= <- <-])%bind_Ok. by exists g, a.
  - by intros [= <- <-].
Qed.

(** One iteration in inference: the caches are refreshed when stale, the
    raw tensor is kept in a storage of its own, and the decoded copy goes to
    another storage, which the new entry of [z] views. *)
Lemma forward_scale_inference d i st st' :
  det_training d = false →
  forward_scale d i st = Ok st' →
  ∃ xi vin c r bs ch ny nx (stale : bool) gi ai si y zi cells,
    f_x st !! i = Some xi ∧
    deref (f_heap st) xi = Ok vin ∧
    raw_scale d i vin = Ok r ∧
    (∃ mi, det_m d !! i = Some mi ∧ mi vin = Ok c) ∧
    shape c = [bs; ch; ny; nx] ∧
    grid_stale d (f_grid st) i r = Ok stale ∧
    (if stale
     then ∃ g a, _make_grid d nx ny i = Ok (g, a) ∧
            f_grid st' = <[i := g]> (f_grid st) ∧
            f_anchor_grid st' = <[i := a]> (f_anchor_grid st)
     else f_grid st' = f_grid st ∧ f_anchor_grid st' = f_anchor_grid st) ∧
    f_grid st' !! i = Some gi ∧
    f_anchor_grid st' !! i = Some ai ∧
    stride_at d i = Ok si ∧
    f_heap st' = f_heap st ++ data c :: data r :: cells ∧
    f_x st' = <[i := mkHandle (S (length (f_heap st))) (shape r)]> (f_x st) ∧
    f_z st' = f_z st ++ [zi] ∧
    f_heap st' !! h_loc zi = Some (data y) ∧
    h_shape zi = [bs; (numel (shape r) / (bs * det_no d))%nat; det_no d] ∧
    (bs * det_no d)%nat ≠ 0%nat ∧
    (numel (shape r) mod (bs * det_no d))%nat = 0%nat ∧
    shape y = shape r ∧
    ∀ idx, in_range (shape r) idx → y.[idx] = decoded r gi ai si idx.
Proof.
  intros Htr. unfold forward_scale. cbv beta iota zeta delta [alloc]. rewrite Htr.
  intros (mi & Hmi & (xi & Hxi%item_Ok & (vin & Hvin & (c & Hc &
    ([[bs ny] nx] & Hu & (v & Hv & (r & Hr & H)%bind_Ok)%bind_Ok)%bind_Ok
    )%bind_Ok)%bind_Ok)%bind_Ok)%bind_Ok.
  assert (Hraw : raw_scale d i vin = Ok r).
  { unfold raw_scale. by rewrite Hmi, bind_Ok_l, Hc, bind_Ok_l, Hu, bind_Ok_l, Hv. }
  destruct (raw_scale_Ok _ _ _ _ Hraw)
    as (mi' & c' & bs' & ch & ny' & nx' & Hmi' & Hc' & Hsc & Hsr & Hwr & _).
  apply item_Ok in Hmi. rewrite Hmi in Hmi'. injection Hmi' as <-.
  rewrite Hc in Hc'. injection Hc' as <-.
  rewrite Hsc in Hu. injection Hu as -> -> ->.
  rewrite !length_app in H. simpl length in H.
  rewrite <- !app_assoc in H. simpl app in H.
  apply bind_Ok in H as (stale & Hstale & ([grid agrid] & Hg%grid_refresh_Ok & H)%bind_Ok).
  apply bind_Ok in H
    as (gi & Hgi%item_Ok & (ai & Hai%item_Ok & (si & Hsi & H)%bind_Ok)%bind_Ok).
  replace (length (f_heap st) + 1 + 1)%nat with (length (f_heap st) + 2)%nat in H by lia.
  replace (length (f_heap st) + 1)%nat with (S (length (f_heap st))) in H by lia.
  change (shape (tmap s_sigmoid r)) with (shape r) in H.
  change (data (tmap s_sigmoid r)) with (s_sigmoid <$> data r) in H.
  rewrite deref_third, !bind_Ok_l in H.
  change (mkTensor (shape r) (s_sigmoid <$> data r)) with (tmap s_sigmoid r) in H.
  assert (Hsplit : shape r = [bs; det_na d; ny; nx] ++ [det_no d]) by done.
  destruct (det_inplace d).
  - apply bind_Ok in H as (y1 & Hy1 & H).
    rewrite !store_third, deref_third, bind_Ok_l in H.
    apply bind_Ok in H as (y2 & Hy2 & (zi & Hzi & [= <-])%bind_Ok).
    apply view_infer_handle_Ok in Hzi as (Hzl & Hzs & Hne & Hmod).
    simpl in Hzl, Hzs, Hmod.
    pose proof Hy1 as Hy1'.
    assert (Hsplit' : shape (tmap s_sigmoid r) = [bs; det_na d; ny; nx] ++ [det_no d])
      by done.
    apply (assign_last_Ok _ _ _ _ _ _ _ _ Hsplit') in Hy1' as (S1 & _ & _); [|lia].
    change (shape (tmap s_sigmoid r)) with (shape r) in S1.
    replace (mkTensor (shape r) (data y1)) with y1 in Hy2
      by (rewrite <- S1; by destruct y1).
    destruct (decode_inplace r gi ai si y1 y2 _ _ Hwr Hsplit Hy1 Hy2)
      as (S2 & _ & R2).
    exists xi, vin, c, r, bs, ch, ny, nx, stale, gi, ai, si, y2, zi,
      [data y2].
    simpl. rewrite store_third. repeat split; try done.
    + by exists mi.
    + rewrite Hzl. rewrite lookup_app_r by lia.
      by replace (length (f_heap st) + 2 - length (f_heap st))%nat with 2%nat by lia.
  - apply bind_Ok in H as (sxy & Hsxy & (xy & Hxy & (swh & Hswh & (wh & Hwh &
      (rest & Hrest & (y & Hy & H)%bind_Ok)%bind_Ok)%bind_Ok)%bind_Ok)%bind_Ok).
    rewrite <- !app_assoc in H. simpl app in H.
    apply bind_Ok in H as (zi & Hzi & [= <-]).
    apply view_infer_handle_Ok in Hzi as (Hzl & Hzs & Hne & Hmod).
    simpl in Hzl, Hzs, Hmod.
    destruct (decode_copy r gi ai si _ _ _ _ _ _ _ _ Hwr Hsplit
                Hsxy Hxy Hswh Hwh Hrest Hy) as (Sy & Ry).
    rewrite Sy in Hzs, Hmod.
    exists xi, vin, c, r, bs, ch, ny, nx, stale, gi, ai, si, y, zi,
      [s_sigmoid <$> data r; data y].
    simpl. repeat split; try done.
    + by exists mi.
    + rewrite Hzl. rewrite lookup_app_r by lia.
      by replace (length (f_heap st) + 2 + 1 - length (f_heap st))%nat
        with 3%nat by lia.
Qed.

End step_facts.

(** ** The grid and the anchor grid *)

Section grid_facts.
Context {T : Type} `{!Scalar T}.
Implicit Types (d : Detect T) (g a : tensor T).

Lemma in_range_1 (n i : nat) : (i < n)%nat → in_range [n] [i].
Proof. intros. by repeat constructor. Qed.

Lemma in_range_3 (d0 d1 d2 i0 i1 i2 : nat) :
  (i0 < d0)%nat → (i1 < d1)%nat → (i2 < d2)%nat →
  in_range [d0; d1; d2] [i0; i1; i2].
Proof. intros. by repeat constructor. Qed.

Lemma tref_arange (n i : nat) :
  (i < n)%nat → (arange n).[[i]] = s_lit (inject_Z (Z.of_nat i)) :> T.
Proof. intros H. unfold arange. by rewrite tref_tabulate by by apply in_range_1. Qed.

Lemma expand_Ok (target : list nat) (t t' : tensor T) :
  expand target t = Ok t' →
  shape t' = target ∧
  ∀ idx, in_range target idx → t'.[idx] = t.[bcast_index (shape t) idx].
Proof.
  unfold expand. destruct (broadcastable_to _ _); [|discriminate].
  intros [= <-]. split; [done|]. intros idx Hi. by rewrite tref_tabulate.
Qed.

Lemma bcast_same (n i : nat) :
  (i < n)%nat → (if bool_decide (n = 1%nat) then 0%nat else i) = i.
Proof. intros. case_bool_decide; lia. Qed.

(** What [_make_grid] builds: the grid holds (x, y) at every position
    (y, x) for every anchor, and the anchor grid holds the anchor's
    (width, height) times the stride of the scale. *)
Lemma make_grid_Ok d nx ny i g a n :
  shape (det_anchors d) = [n; det_na d; 2%nat] →
  wf_tensor (det_anchors d) →
  _make_grid d nx ny i = Ok (g, a) →
  shape g = [1%nat; det_na d; ny; nx; 2%nat] ∧
  shape a = [1%nat; det_na d; ny; nx; 2%nat] ∧
  ∃ si, stride_at d i = Ok si ∧
    ∀ an y x, (an < det_na d)%nat → (y < ny)%nat → (x < nx)%nat →
      g.[[0%nat; an; y; x; 0%nat]] = s_lit (inject_Z (Z.of_nat x)) ∧
      g.[[0%nat; an; y; x; 1%nat]] = s_lit (inject_Z (Z.of_nat y)) ∧
      ∀ c, (c < 2)%nat →
        a.[[0%nat; an; y; x; c]] = ((det_anchors d).[[i; an; c]] * si)%sc.
Proof.
  intros Hsa Hwa. unfold _make_grid.
  intros (ai & Hai & H)%bind_Ok. unfold meshgrid in H.
  apply bind_Ok in H as (st & Hst & (grid & Hgrid & (si & Hsi & (av & Hav &
    (ag & Hag & [= <- <-])%bind_Ok)%bind_Ok)%bind_Ok)%bind_Ok).
  apply expand_Ok in Hgrid as [Sg Rg]. apply expand_Ok in Hag as [Sa Ra].
  split; [done|]. split; [done|]. exists si. split; [done|].
  intros an y x Han Hy Hx.
  assert (Hin : ∀ c, (c < 2)%nat →
            in_range [1%nat; det_na d; ny; nx; 2%nat] [0%nat; an; y; x; c]).
  { intros c Hc. apply in_range_5. lia. }
  (* the grid *)
  unfold stack2 in Hst. case_bool_decide as Hsh; [|discriminate].
  injection Hst as <-. simpl shape in Rg.
  rewrite !Nat.mul_1_r in Rg.
  assert (Hg : ∀ c, (c < 2)%nat →
            grid.[[0%nat; an; y; x; c]] =
              if bool_decide (c = 0%nat) then s_lit (inject_Z (Z.of_nat x))
              else s_lit (inject_Z (Z.of_nat y))).
  { intros c Hc. rewrite Rg by by apply Hin.
    unfold bcast_index. simpl. rewrite !bcast_same by done.
    rewrite tref_tabulate by (apply in_range_3; lia).
    change ([y; x; c] !! 2%nat) with (Some c). change (take 2 [y; x; c]) with [y; x].
    destruct c as [|c].
    - rewrite (bool_decide_eq_true_2 (Some 0%nat = Some 0%nat)) by done.
      rewrite (bool_decide_eq_true_2 (0%nat = 0%nat)) by done.
      rewrite tref_tabulate by (by apply in_range_2).
      change (drop 1 [y; x]) with [x]. by apply tref_arange.
    - rewrite (bool_decide_eq_false_2 (Some (S c) = Some 0%nat)) by done.
      rewrite (bool_decide_eq_false_2 (S c = 0%nat)) by done.
      rewrite tref_tabulate by (by apply in_range_2).
      change (take 1 [y; x]) with [y]. by apply tref_arange. }
  split; [by rewrite (Hg 0%nat) by lia|]. split; [by rewrite (Hg 1%nat) by lia|].
  (* the anchor grid *)
  intros c Hc. rewrite Ra by by apply Hin.
  unfold view in Hav. case_bool_decide as Hnv; [|discriminate].
  injection Hav as <-. simpl shape.
  unfold bcast_index. simpl.
  rewrite bcast_same by done.
  unfold select0 in Hai. rewrite Hsa in Hai.
  case_bool_decide as Hi; [|discriminate]. injection Hai as <-.
  unfold tref at 1. cbn [shape data].
  replace (ravel [1%nat; det_na d; 1%nat; 1%nat; 2%nat] [0%nat; an; 0%nat; 0%nat; c])
    with (ravel [det_na d; 2%nat] [an; c]) by (simpl; lia).
  rewrite list_lookup_fmap.
  rewrite (lookup_tabulate [det_na d; 2%nat]) by (by apply in_range_2).
  done.
Qed.

Lemma grid_stale_Ok d grid i r (stale : bool) bs na ny nx no :
  shape r = [bs; na; ny; nx; no] →
  grid_stale d grid i r = Ok stale →
  (stale = true ↔
     det_onnx_dynamic d = true ∨
     ∃ g, grid !! i = Some g ∧ take 2 (drop 2 (shape g)) ≠ [ny; nx]) ∧
  (det_onnx_dynamic d = false → ∃ g, grid !! i = Some g).
Proof.
  intros Hsr. unfold grid_stale. rewrite Hsr. simpl take.
  destruct (det_onnx_dynamic d).
  - intros [= <-]. split; [|done]. split; [by left|done].
  - intros (g & Hg%item_Ok & [= <-])%bind_Ok. split; [|by exists g].
    rewrite bool_decide_eq_true. split.
    + intros H. right. by exists g.
    + intros [?|(g' & Hg' & H)]; [done|]. congruence.
Qed.

End grid_facts.

Section cache_facts.
Context {T : Type} `{!Scalar T}.
Implicit Types (d : Detect T) (st : fwd T).

(** C5: in inference, for the scale whose convolution output has spatial
    size (ny, nx): when dynamic-shape inference is off and the cached grid
    has these sizes at axes 2 and 3, both caches are left as they are; when
    dynamic-shape inference is on or the cached grid has other sizes, both
    caches of the scale are replaced, the grid by one that holds (x, y) at
    every position (y, x) of [0, ny) x [0, nx) for every anchor, the anchor
    grid by one that holds each anchor's (width, height) times the stride of
    the scale. *)
Theorem grid_cache d i st st' n :
  det_training d = false →
  shape (det_anchors d) = [n; det_na d; 2%nat] →
  wf_tensor (det_anchors d) →
  forward_scale d i st = Ok st' →
  ∃ xi vin mi c bs ch ny nx,
    f_x st !! i = Some xi ∧ deref (f_heap st) xi = Ok vin ∧
    det_m d !! i = Some mi ∧ mi vin = Ok c ∧ shape c = [bs; ch; ny; nx] ∧
    (det_onnx_dynamic d = false →
     (∃ g, f_grid st !! i = Some g ∧ take 2 (drop 2 (shape g)) = [ny; nx]) →
     f_grid st' = f_grid st ∧ f_anchor_grid st' = f_anchor_grid st) ∧
    (det_onnx_dynamic d = true ∨
     (∃ g, f_grid st !! i = Some g ∧ take 2 (drop 2 (shape g)) ≠ [ny; nx]) →
     ∃ g a si,
       stride_at d i = Ok si ∧
       f_grid st' = <[i := g]> (f_grid st) ∧
       f_anchor_grid st' = <[i := a]> (f_anchor_grid st) ∧
       is_grid d ny nx g ∧ is_anchor_grid d i si ny nx a).
Proof.
  intros Htr Hsa Hwa H.
  apply forward_scale_inference in H
    as (xi & vin & c & r & bs & ch & ny & nx & stale & gi & ai & si & y & zi & cells &
        Hxi & Hvin & Hraw & (mi & Hmi & Hc) & Hsc & Hstale & Hcache & _); [|done].
  destruct (raw_scale_Ok _ _ _ _ Hraw)
    as (mi' & c' & bs' & ch' & ny' & nx' & Hmi' & Hc' & Hsc' & Hsr & _).
  rewrite Hmi in Hmi'. injection Hmi' as <-.
  rewrite Hc in Hc'. injection Hc' as <-.
  rewrite Hsc in Hsc'. injection Hsc' as <- <- <- <-.
  destruct (grid_stale_Ok _ _ _ _ _ _ _ _ _ _ Hsr Hstale) as [Hiff _].
  exists xi, vin, mi, c, bs, ch, ny, nx.
  do 5 (split; [done|]). split.
  - intros Hdyn (g & Hg & Hsame).
    destruct stale; [|done]. destruct Hiff as [Hiff _].
    destruct (Hiff eq_refl) as [?|(g' & Hg' & Hne)]; congruence.
  - intros Hmiss. destruct Hiff as [_ Hiff]. rewrite (Hiff Hmiss) in Hcache.
    destruct Hcache as (g & a & Hmk & Hg & Ha).
    destruct (make_grid_Ok _ _ _ _ _ _ _ Hsa Hwa Hmk) as (Sg & Sa & si' & Hsi' & Hv).
    exists g, a, si'. do 3 (split; [done|]). split; (split; [done|]).
    + intros an y0 x0 Han Hy Hx. by destruct (Hv an y0 x0 Han Hy Hx) as (? & ? & _).
    + intros an y0 x0 c0 Han Hy Hx Hc0.
      destruct (Hv an y0 x0 Han Hy Hx) as (_ & _ & Hva). by apply Hva.
Qed.

End cache_facts.

Lemma grid_cache_witness :
  ∃ st',
    forward_scale (toy_detect false true) 0 toy_fwd = Ok st' ∧
    ∃ xi vin mi c bs ch ny nx,
      f_x toy_fwd !! 0%nat = Some xi ∧ deref (f_heap toy_fwd) xi = Ok vin ∧
      det_m (toy_detect false true) !! 0%nat = Some mi ∧ mi vin = Ok c ∧
      shape c = [bs; ch; ny; nx] ∧
      (det_onnx_dynamic (toy_detect false true) = false →
       (∃ g, f_grid toy_fwd !! 0%nat = Some g ∧
             take 2 (drop 2 (shape g)) = [ny; nx]) →
       f_grid st' = f_grid toy_fwd ∧ f_anchor_grid st' = f_anchor_grid toy_fwd) ∧
      (det_onnx_dynamic (toy_detect false true) = true ∨
       (∃ g, f_grid toy_fwd !! 0%nat = Some g ∧
             take 2 (drop 2 (shape g)) ≠ [ny; nx]) →
       ∃ g a si,
         stride_at (toy_detect false true) 0 = Ok si ∧
         f_grid st' = <[0%nat := g]> (f_grid toy_fwd) ∧
         f_anchor_grid st' = <[0%nat := a]> (f_anchor_grid toy_fwd) ∧
         is_grid (toy_detect false true) ny nx g ∧
         is_anchor_grid (toy_detect false true) 0 si ny nx a).
Proof.
  assert (E : ∃ st', forward_scale (toy_detect false true) 0 toy_fwd = Ok st').
  { eexists. vm_compute. reflexivity. }
  destruct E as [st' E]. exists st'. split; [exact E|].
  apply (grid_cache (toy_detect false true) 0 toy_fwd st' 1);
    [reflexivity|reflexivity|reflexivity|exact E].
Defined.

(** ** The loop over the scales *)

Section loop_facts.
Context {T : Type} `{!Scalar T}.
Implicit Types (d : Detect T) (st : fwd T) (r c y : tensor T).

Lemma handles_in_app (h cells : list (list T)) x :
  handles_in h x → handles_in (h ++ cells) x.
Proof.
  unfold handles_in. intros H. eapply Forall_impl; [exact H|].
  intros p Hp. simpl in *. rewrite length_app. lia.
Qed.

Lemma handles_in_lookup (h : list (list T)) x (j : nat) p :
  handles_in h x → x !! j = Some p → (h_loc p < length h)%nat.
Proof. unfold handles_in. rewrite Forall_lookup. eauto. Qed.

Lemma handles_in_insert (h : list (list T)) x (i : nat) p :
  handles_in h x → (h_loc p < length h)%nat → handles_in h (<[i := p]> x).
Proof. intros Hx Hp. by apply Forall_insert. Qed.

Lemma raw_scale_set_training b d i vin :
  raw_scale (set_training b d) i vin = raw_scale d i vin.
Proof. done. Qed.

(** What the loop leaves in [x], in training and in inference: the entry of
    every scale it went through refers to a storage that holds the raw
    tensor of the scale, and every other entry is the one it was. *)
Lemma forward_scales_x d scales : ∀ st st',
  forward_scales d scales st = Ok st' →
  NoDup scales →
  handles_in (f_heap st) (f_x st) →
  (∃ cells, f_heap st' = f_heap st ++ cells) ∧
  length (f_x st') = length (f_x st) ∧
  handles_in (f_heap st') (f_x st') ∧
  (∀ j : nat, j ∉ scales → f_x st' !! j = f_x st !! j) ∧
  (∀ j : nat, j ∈ scales →
     ∃ xj vin r p,
       f_x st !! j = Some xj ∧ deref (f_heap st) xj = Ok vin ∧
       raw_scale d j vin = Ok r ∧
       f_x st' !! j = Some p ∧ deref (f_heap st') p = Ok r).
Proof.
  induction scales as [|i scales IH]; intros st st' H Hnd Hin; simpl in H.
  - injection H as <-. split; [exists []; by rewrite app_nil_r|].
    split; [done|]. split; [done|]. split; [done|].
    intros j Hj. by apply elem_of_nil in Hj.
  - apply bind_Ok in H as (st1 & H1 & H).
    apply NoDup_cons in Hnd as [Hi Hnd].
    apply forward_scale_prefix in H1
      as (xi & vin & c & r & Hxi & Hvin & Hraw & _ & Hx1 & cells1 & Hh1 & _).
    assert (Hnew : (S (length (f_heap st)) < length (f_heap st1))%nat).
    { rewrite Hh1, length_app. simpl. lia. }
    assert (Hin1 : handles_in (f_heap st1) (f_x st1)).
    { rewrite Hx1. apply handles_in_insert; [|done].
      rewrite Hh1. by apply handles_in_app. }
    destruct (IH _ _ H Hnd Hin1) as ((cells & Hh) & Hlen & Hin' & Hout & Hins).
    split; [exists (data c :: data r :: cells1 ++ cells);
            by rewrite Hh, Hh1, <- app_assoc|].
    split; [by rewrite Hlen, Hx1, length_insert|]. split; [done|]. split.
    + intros j Hj. apply not_elem_of_cons in Hj as [Hji Hj].
      rewrite (Hout j Hj), Hx1. by rewrite list_lookup_insert_ne.
    + intros j Hj. apply elem_of_cons in Hj as [->|Hj].
      * exists xi, vin, r, (mkHandle (S (length (f_heap st))) (shape r)).
        split; [done|]. split; [done|]. split; [done|].
        assert (Hp : f_x st1 !! i = Some (mkHandle (S (length (f_heap st))) (shape r))).
        { rewrite Hx1. apply list_lookup_insert_eq. by eapply lookup_lt_Some. }
        split; [by rewrite (Hout i Hi)|].
        rewrite Hh, deref_app by done.
        unfold deref. simpl h_loc. rewrite Hh1.
        rewrite lookup_app_r by lia.
        replace (S (length (f_heap st)) - length (f_heap st))%nat with 1%nat by lia.
        simpl. by rewrite tensor_eta.
      * destruct (Hins j Hj) as (xj & vj & rj & p & Hxj & Hvj & Hrj & Hp & Hdp).
        assert (Hji : i ≠ j) by (intros ->; done).
        rewrite Hx1, list_lookup_insert_ne in Hxj by done.
        exists xj, vj, rj, p. split; [done|].
        split; [|done].
        rewrite Hh1, deref_app in Hvj; [done|].
        by eapply handles_in_lookup.
Qed.

(** A scale leaves the caches of the other scales alone. *)
Lemma forward_scale_other_grid d i st st' (j : nat) :
  forward_scale d i st = Ok st' → i ≠ j →
  f_grid st' !! j = f_grid st !! j ∧ f_anchor_grid st' !! j = f_anchor_grid st !! j.
Proof.
  intros H Hij. destruct (det_training d) eqn:Htr.
  - apply forward_scale_prefix in H
      as (? & ? & ? & ? & _ & _ & _ & _ & _ & cells & _ & Hc).
    destruct (Hc Htr) as (_ & _ & -> & ->). done.
  - apply forward_scale_inference in H
      as (xi & vin & c & r & bs & ch & ny & nx & stale & gi & ai & si & y & zi & cells &
          _ & _ & _ & _ & _ & _ & Hcache & _); [|done].
    destruct stale.
    + destruct Hcache as (g & a & _ & -> & ->).
      by rewrite !list_lookup_insert_ne.
    + by destruct Hcache as [-> ->].
Qed.

Lemma forward_scales_other_grid d scales : ∀ st st' (j : nat),
  forward_scales d scales st = Ok st' → j ∉ scales →
  f_grid st' !! j = f_grid st !! j ∧ f_anchor_grid st' !! j = f_anchor_grid st !! j.
Proof.
  induction scales as [|i scales IH]; intros st st' j H Hj; simpl in H.
  - by injection H as <-.
  - apply bind_Ok in H as (st1 & H1 & H).
    apply not_elem_of_cons in Hj as [Hji Hj].
    destruct (IH _ _ _ H Hj) as [-> ->].
    by apply (forward_scale_other_grid d i).
Qed.

End loop_facts.

(** ** Training and inference on the same input *)

Section raw_output_facts.
Context {T : Type} `{!Scalar T}.
Implicit Types (d : Detect T) (st : fwd T) (r c y : tensor T).

(** In training an iteration succeeds as soon as the raw tensor exists. *)
Lemma forward_scale_training_Ok d i st xi vin r :
  f_x st !! i = Some xi →
  deref (f_heap st) xi = Ok vin →
  raw_scale d i vin = Ok r →
  ∃ st', forward_scale (set_training true d) i st = Ok st'.
Proof.
  intros Hxi Hvin Hraw. unfold raw_scale in Hraw.
  apply bind_Ok in Hraw as (mi & Hmi & (c & Hc & ([[bs ny] nx] & Hu &
    (v & Hv & Hp)%bind_Ok)%bind_Ok)%bind_Ok).
  apply item_Ok in Hxi.
  unfold forward_scale. cbv beta iota zeta delta [alloc].
  change (det_m (set_training true d)) with (det_m d).
  change (det_na (set_training true d)) with (det_na d).
  change (det_no (set_training true d)) with (det_no d).
  change (det_training (set_training true d)) with true.
  rewrite Hmi, bind_Ok_l, Hxi, bind_Ok_l, Hvin, bind_Ok_l, Hc, bind_Ok_l.
  rewrite Hu, bind_Ok_l, Hv, bind_Ok_l, Hp, bind_Ok_l.
  by eexists.
Qed.

(** The states of the two runs agree on the entries still to be processed. *)
Lemma forward_scales_training_runs d scales : ∀ st_i st_i' st_t,
  forward_scales d scales st_i = Ok st_i' →
  NoDup scales →
  handles_in (f_heap st_i) (f_x st_i) →
  handles_in (f_heap st_t) (f_x st_t) →
  (∀ j : nat, j ∈ scales →
     f_x st_t !! j = f_x st_i !! j ∧
     ∀ p, f_x st_i !! j = Some p → deref (f_heap st_t) p = deref (f_heap st_i) p) →
  ∃ st_t', forward_scales (set_training true d) scales st_t = Ok st_t'.
Proof.
  induction scales as [|i scales IH]; intros st_i st_i' st_t H Hnd Hin_i Hin_t Hrel;
    simpl in *.
  - by eexists.
  - apply bind_Ok in H as (st_i1 & H1 & H).
    apply NoDup_cons in Hnd as [Hi Hnd].
    apply forward_scale_prefix in H1
      as (xi & vin & c & r & Hxi & Hvin & Hraw & _ & Hx1 & cells1 & Hh1 & _).
    destruct (Hrel i) as [Hxt Hdt]; [by left|].
    rewrite Hxi in Hxt. specialize (Hdt _ Hxi). rewrite Hvin in Hdt.
    destruct (forward_scale_training_Ok d i st_t xi vin r Hxt Hdt Hraw) as [st_t1 Ht1].
    rewrite Ht1, bind_Ok_l.
    apply forward_scale_prefix in Ht1
      as (xi' & vin' & c' & r' & _ & _ & _ & _ & Hxt1 & cellst & Hht1 & _).
    apply (IH st_i1 st_i'); [done|done| | |].
    + rewrite Hx1. apply handles_in_insert.
      * rewrite Hh1. by apply handles_in_app.
      * rewrite Hh1, length_app. simpl. lia.
    + rewrite Hxt1. apply handles_in_insert.
      * rewrite Hht1. by apply handles_in_app.
      * rewrite Hht1, length_app. simpl. lia.
    + intros j Hj. assert (Hji : i ≠ j) by (intros ->; done).
      destruct (Hrel j) as [Hxj Hdj]; [by right|].
      rewrite Hx1, Hxt1, !list_lookup_insert_ne by done.
      split; [done|]. intros p Hp.
      rewrite Hh1, Hht1, !deref_app; [by apply Hdj| |].
      * by eapply handles_in_lookup.
      * rewrite <- Hxj in Hp. by eapply handles_in_lookup.
Qed.

(** C10: when [forward] completes in inference on tensor objects of the
    heap, it also completes in training on the same input, and the list the
    inference call returns next to the predictions has, entry by entry, the
    values the training call returns; for each scale this value is the raw
    tensor of the scale (the convolution output viewed and permuted, before
    any sigmoid), so the decoding has written to none of them. *)
Theorem inference_returns_raw_tensors d x (h : heap T) hp xs d1 h1 :
  det_training d = false →
  handles_in h x →
  forward d x h = Ok (Inference hp xs, d1, h1) →
  ∃ xs' d2 h2,
    forward (set_training true d) x h = Ok (Training xs', d2, h2) ∧
    length xs = length x ∧ length xs' = length x ∧
    ∀ (j : nat) p, xs !! j = Some p →
      ∃ p' t,
        xs' !! j = Some p' ∧ deref h1 p = Ok t ∧ deref h2 p' = Ok t ∧
        ((j < det_nl d)%nat →
           ∃ xj vin, x !! j = Some xj ∧ deref h xj = Ok vin ∧
                     raw_scale d j vin = Ok t).
Proof.
  intros Htr Hin H. unfold forward in H.
  apply bind_Ok in H as (st & Hst & H). rewrite Htr in H. cbv zeta in H.
  apply bind_Ok in H as (zs & _ & (pred & _ & H)%bind_Ok).
  unfold alloc in H. injection H as <- <- <- <-.
  set (st0 := mkFwd h x [] (det_grid d) (det_anchor_grid d)) in *.
  assert (Hnd : NoDup (seq 0 (det_nl d))) by apply NoDup_seq.
  destruct (forward_scales_training_runs d _ st0 st st0 Hst Hnd Hin Hin) as [st_t Ht];
    [done|].
  exists (f_x st_t),
    (mkDetect (det_no d) (det_nl d) (det_na d) (det_anchors d) (det_m d)
       (det_stride d) (det_inplace d) true (det_onnx_dynamic d)
       (f_grid st_t) (f_anchor_grid st_t)),
    (f_heap st_t).
  split.
  { unfold forward.
    change (det_nl (set_training true d)) with (det_nl d).
    change (det_grid (set_training true d)) with (det_grid d).
    change (det_anchor_grid (set_training true d)) with (det_anchor_grid d).
    fold st0. by rewrite Ht. }
  destruct (forward_scales_x d _ _ _ Hst Hnd Hin)
    as ((cells_i & Hh_i) & Hlen_i & Hin_i & Hout_i & Hins_i).
  destruct (forward_scales_x _ _ _ _ Ht Hnd Hin)
    as ((cells_t & Hh_t) & Hlen_t & Hin_t & Hout_t & Hins_t).
  split; [done|]. split; [done|].
  intros j p Hp.
  destruct (decide (j < det_nl d)%nat) as [Hj|Hj].
  - assert (Hjs : j ∈ seq 0 (det_nl d)) by (apply elem_of_seq; lia).
    destruct (Hins_i j Hjs) as (xj & vin & r & p0 & Hxj & Hvin & Hraw & Hp0 & Hd0).
    destruct (Hins_t j Hjs) as (xj' & vin' & r' & p' & Hxj' & Hvin' & Hraw' & Hp' & Hd').
    rewrite Hp in Hp0. injection Hp0 as <-.
    simpl in Hxj, Hxj', Hvin, Hvin'.
    rewrite Hxj in Hxj'. injection Hxj' as <-.
    rewrite Hvin in Hvin'. injection Hvin' as <-.
    rewrite raw_scale_set_training, Hraw in Hraw'. injection Hraw' as <-.
    exists p', r. split; [done|]. split; [|split; [done|]].
    + rewrite deref_app; [done|]. by eapply handles_in_lookup.
    + intros _. by exists xj, vin.
  - assert (Hjs : j ∉ seq 0 (det_nl d)) by (rewrite elem_of_seq; lia).
    rewrite (Hout_i j Hjs) in Hp. simpl in Hp.
    pose proof (handles_in_lookup _ _ _ _ Hin Hp) as Hv.
    destruct (lookup_lt_is_Some_2 h (h_loc p) Hv) as [dp Hdp].
    exists p, (mkTensor (h_shape p) dp).
    split; [by rewrite (Hout_t j Hjs)|].
    split; [|split; [|lia]].
    + rewrite Hh_i, <- app_assoc, deref_app by done. by apply deref_lookup.
    + rewrite Hh_t, deref_app by done. by apply deref_lookup.
Qed.

End raw_output_facts.

Lemma inference_returns_raw_tensors_witness :
  ∃ hp xs d1 h1,
    forward (toy_detect false true) toy_x toy_heap = Ok (Inference hp xs, d1, h1) ∧
    ∃ xs' d2 h2,
      forward (set_training true (toy_detect false true)) toy_x toy_heap
        = Ok (Training xs', d2, h2) ∧
      length xs = length toy_x ∧ length xs' = length toy_x ∧
      ∀ (j : nat) p, xs !! j = Some p →
        ∃ p' t,
          xs' !! j = Some p' ∧ deref h1 p = Ok t ∧ deref h2 p' = Ok t ∧
          ((j < det_nl (toy_detect false true))%nat →
             ∃ xj vin, toy_x !! j = Some xj ∧ deref toy_heap xj = Ok vin ∧
                       raw_scale (toy_detect false true) j vin = Ok t).
Proof.
  assert (E : ∃ hp xs d1 h1,
    forward (toy_detect false true) toy_x toy_heap = Ok (Inference hp xs, d1, h1)).
  { do 4 eexists. vm_compute. reflexivity. }
  destruct E as (hp & xs & d1 & h1 & E). exists hp, xs, d1, h1. split; [exact E|].
  apply (inference_returns_raw_tensors (toy_detect false true) toy_x toy_heap
           hp xs d1 h1); [reflexivity| |exact E].
  repeat constructor.
Defined.

(** ** The decoded predictions *)

Section decoded_facts.
Context {T : Type} `{!Scalar T}.
Implicit Types (d : Detect T) (st : fwd T) (r : tensor T).

(** What the loop leaves in [z] in inference: one view per scale, onto a
    storage that holds the decoded copy of the raw tensor of the scale. *)
Lemma forward_scales_z d scales : ∀ st st',
  det_training d = false →
  forward_scales d scales st = Ok st' →
  NoDup scales →
  handles_in (f_heap st) (f_x st) →
  ∃ zs, f_z st' = f_z st ++ zs ∧ length zs = length scales ∧
    ∀ (k i : nat), scales !! k = Some i →
      ∃ xi vin r gi ai si y zi bs ny nx,
        f_x st !! i = Some xi ∧ deref (f_heap st) xi = Ok vin ∧
        raw_scale d i vin = Ok r ∧
        shape r = [bs; det_na d; ny; nx; det_no d] ∧
        f_grid st' !! i = Some gi ∧ f_anchor_grid st' !! i = Some ai ∧
        stride_at d i = Ok si ∧
        zs !! k = Some zi ∧
        f_heap st' !! h_loc zi = Some (data y) ∧
        h_shape zi = [bs; (numel (shape r) / (bs * det_no d))%nat; det_no d] ∧
        (bs * det_no d)%nat ≠ 0%nat ∧
        shape y = shape r ∧
        ∀ idx, in_range (shape r) idx → y.[idx] = decoded r gi ai si idx.
Proof.
  induction scales as [|i scales IH]; intros st st' Htr H Hnd Hin; simpl in H.
  - injection H as <-. exists []. rewrite app_nil_r. split; [done|]. split; [done|].
    intros k i Hk. done.
  - apply bind_Ok in H as (st1 & H1 & H).
    apply NoDup_cons in Hnd as [Hi Hnd].
    apply forward_scale_inference in H1
      as (xi & vin & c & r & bs & ch & ny & nx & stale & gi & ai & si & y & zi & cells &
          Hxi & Hvin & Hraw & (mi & Hmi & Hc) & Hsc & _ & _ & Hgi & Hai & Hsi &
          Hh1 & Hx1 & Hz1 & Hzy & Hzs & Hne & _ & Sy & Ry); [|done].
    assert (Hsr : shape r = [bs; det_na d; ny; nx; det_no d]).
    { destruct (raw_scale_Ok _ _ _ _ Hraw)
        as (mi' & c' & bs' & ch' & ny' & nx' & Hmi' & Hc' & Hsc' & Hsr & _).
      rewrite Hmi in Hmi'. injection Hmi' as <-.
      rewrite Hc in Hc'. injection Hc' as <-.
      rewrite Hsc in Hsc'. by injection Hsc' as <- <- <- <-. }
    assert (Hin1 : handles_in (f_heap st1) (f_x st1)).
    { rewrite Hx1. apply handles_in_insert.
      - rewrite Hh1. by apply handles_in_app.
      - rewrite Hh1, length_app. simpl. lia. }
    destruct (IH _ _ Htr H Hnd Hin1) as (zs & Hz & Hlen & Hk).
    destruct (forward_scales_x _ _ _ _ H Hnd Hin1) as ((cells' & Hh') & _).
    destruct (forward_scales_other_grid _ _ _ _ i H Hi) as [Hg' Ha'].
    exists (zi :: zs). split; [by rewrite Hz, Hz1, <- app_assoc|].
    split; [simpl; by rewrite Hlen|].
    intros [|k] j Hj; simpl in Hj.
    + injection Hj as <-.
      exists xi, vin, r, gi, ai, si, y, zi, bs, ny, nx.
      do 4 (split; [done|]). split; [by rewrite Hg'|]. split; [by rewrite Ha'|].
      do 2 (split; [done|]). split; [|done].
      rewrite Hh'. rewrite lookup_app_l; [done|]. by eapply lookup_lt_Some.
    + destruct (Hk k j Hj)
        as (xj & vj & rj & gj & aj & sj & yj & zj & bsj & nyj & nxj &
            Hxj & Hvj & Hrest).
      assert (Hji : i ≠ j).
      { intros ->. apply Hi. by eapply list_elem_of_lookup_2. }
      rewrite Hx1, list_lookup_insert_ne in Hxj by done.
      exists xj, vj, rj, gj, aj, sj, yj, zj, bsj, nyj, nxj.
      split; [done|]. split; [|done].
      rewrite Hh1, deref_app in Hvj; [done|]. by eapply handles_in_lookup.
Qed.

(** ** Concatenation along the prediction axis *)

Lemma cat_pick1_at (zs : list (tensor T)) (b : nat) (l : list nat) : ∀ (i : nat) z p,
  zs !! i = Some z → (p < dim1 (shape z))%nat →
  cat_pick1 zs b (sum_list (dim1 ∘ shape <$> take i zs) + p) l = z.[b :: p :: l].
Proof.
  induction zs as [|z0 zs IH]; intros i z p Hz Hp; [done|].
  destruct i as [|i]; simpl in Hz.
  - injection Hz as ->. simpl. by rewrite bool_decide_eq_true_2 by done.
  - change (take (S i) (z0 :: zs)) with (z0 :: take i zs). rewrite fmap_cons.
    change (sum_list ((dim1 ∘ shape) z0 :: (dim1 ∘ shape <$> take i zs)))
      with (dim1 (shape z0) + sum_list (dim1 ∘ shape <$> take i zs))%nat.
    cbn [cat_pick1]. rewrite bool_decide_eq_false_2 by lia.
    replace (dim1 (shape z0) + sum_list (dim1 ∘ shape <$> take i zs) + p
             - dim1 (shape z0))%nat
      with (sum_list (dim1 ∘ shape <$> take i zs) + p)%nat by lia.
    by apply IH.
Qed.

Lemma sum_list_take_le (l : list nat) (i : nat) n :
  l !! i = Some n → (sum_list (take i l) + n ≤ sum_list l)%nat.
Proof.
  revert i. induction l as [|a l IH]; intros i Hi; [done|].
  destruct i as [|i]; simpl in *.
  - injection Hi as ->. lia.
  - specialize (IH i Hi). lia.
Qed.

Lemma cat1_Ok (zs : list (tensor T)) out :
  cat1 zs = Ok out →
  ∃ z0, zs !! 0%nat = Some z0 ∧
    shape out = <[1%nat := sum_list (dim1 ∘ shape <$> zs)]> (shape z0) ∧
    Forall (λ t, (2 ≤ length (shape t))%nat ∧
                 <[1%nat := 0%nat]> (shape t) = <[1%nat := 0%nat]> (shape z0)) zs ∧
    ∀ (b p : nat) (l : list nat), in_range (shape out) (b :: p :: l) →
      out.[b :: p :: l] = cat_pick1 zs b p l.
Proof.
  unfold cat1. destruct zs as [|z0 zs]; [discriminate|].
  case_bool_decide as Hall; [|discriminate]. intros [= <-].
  exists z0. split; [done|]. split; [done|]. split; [done|].
  intros b p l Hi. by rewrite tref_tabulate.
Qed.

End decoded_facts.

Section decode_layout.
Context {T : Type} `{!Scalar T}.
Implicit Types (d : Detect T) (st : fwd T) (r : tensor T).

Lemma numel_5 (a b c e f : nat) : numel [a; b; c; e; f] = (b * c * e * (a * f))%nat.
Proof. simpl. lia. Qed.

(** A view (bs, -1, no) of a contiguous (bs, na, ny, nx, no) tensor lists
    the rows anchor by anchor, then row by row of the map. *)
Lemma tref_view_rows (dat : list T) (bs na ny nx no b a y x k : nat) :
  (b < bs)%nat → (a < na)%nat → (y < ny)%nat → (x < nx)%nat → (k < no)%nat →
  (mkTensor [bs; (na * ny * nx)%nat; no] dat).[[b; ((a * ny + y) * nx + x)%nat; k]]
  = (mkTensor [bs; na; ny; nx; no] dat).[[b; a; y; x; k]].
Proof.
  intros. unfold tref. cbn [shape data]. do 2 f_equal. simpl. lia.
Qed.

Lemma row_in_range (na ny nx a y x : nat) :
  (a < na)%nat → (y < ny)%nat → (x < nx)%nat →
  ((a * ny + y) * nx + x < na * ny * nx)%nat.
Proof.
  intros Ha Hy Hx.
  assert (H1 : (a * ny + y + 1 <= na * ny)%nat).
  { pose proof (Nat.mul_le_mono_r (a + 1) na ny). lia. }
  pose proof (Nat.mul_le_mono_r _ _ nx H1). lia.
Qed.

(** The value that decoding leaves at an entry, case by case. *)
Lemma decoded_cases r (g ag : tensor T) (s : T) (b a y x k : nat) :
  let v := s_sigmoid r.[[b; a; y; x; k]] in
  let p := decoded r g ag s [b; a; y; x; k] in
  ((k < 2)%nat →
   p = ((v * s_lit 2 - s_lit (1 # 2) + g.[bcast_index (shape g) [b; a; y; x; k]]) * s)%sc) ∧
  ((2 ≤ k < 4)%nat →
   p = ((v * s_lit 2) ^ 2 * ag.[bcast_index (shape ag) [b; a; y; x; (k - 2)%nat]])%sc) ∧
  ((4 ≤ k)%nat → p = v).
Proof.
  intros v p. subst v p. unfold decoded.
  change (pos_last [b; a; y; x; k]) with k.
  change (lead [b; a; y; x; k]) with [b; a; y; x].
  repeat split; intros Hk; repeat case_bool_decide; try lia; reflexivity.
Qed.

(** C3: in inference the predictions that [forward] returns hold, for every
    scale [i], image [b], anchor [a], position (y, x) and entry [k], at row
    [(a * ny + y) * nx + x] of the block of scale [i] (the blocks follow each
    other in the order of the scales), with [v] the sigmoid of the raw
    entry: [(v * 2 - 0.5 + grid_i) * stride_i] for k = 0, 1,
    [(v * 2) ** 2 * anchor_grid_i] for k = 2, 3, and [v] itself from k = 4
    on.  The raw entry is entry (b, a, k, y, x) of the output [c] of the
    convolution of the scale viewed as (bs, na, no, ny, nx); the stride is
    entry [i] of [self.stride]; the grids are the caches of the module
    after the call, read by broadcasting: the grid at entry [k], the anchor
    grid at entry [k - 2]. *)
Theorem detect_decode d x (h : heap T) hp xs d1 h1 :
  det_training d = false →
  handles_in h x →
  forward d x h = Ok (Inference hp xs, d1, h1) →
  ∃ pred bs ns,
    deref h1 hp = Ok pred ∧
    shape pred = [bs; sum_list ns; det_no d] ∧
    length ns = det_nl d ∧
    ∀ i : nat, (i < det_nl d)%nat →
      ∃ xi vin mi c ch gi ai s si ny nx,
        x !! i = Some xi ∧ deref h xi = Ok vin ∧
        det_m d !! i = Some mi ∧ mi vin = Ok c ∧ shape c = [bs; ch; ny; nx] ∧
        ns !! i = Some (det_na d * ny * nx)%nat ∧
        det_grid d1 !! i = Some gi ∧ det_anchor_grid d1 !! i = Some ai ∧
        det_stride d = Some s ∧ data s !! i = Some si ∧
        ∀ b a y x0 k,
          (b < bs)%nat → (a < det_na d)%nat → (y < ny)%nat → (x0 < nx)%nat →
          (k < det_no d)%nat →
          let v :=
            s_sigmoid
              (mkTensor [bs; det_na d; det_no d; ny; nx] (data c)).[[b; a; k; y; x0]] in
          let p :=
            pred.[[b; (sum_list (take i ns) + ((a * ny + y) * nx + x0))%nat; k]] in
          ((k < 2)%nat →
           p = ((v * s_lit 2 - s_lit (1 # 2)
                 + gi.[bcast_index (shape gi) [b; a; y; x0; k]]) * si)%sc) ∧
          ((2 ≤ k < 4)%nat →
           p = ((v * s_lit 2) ^ 2
                * ai.[bcast_index (shape ai) [b; a; y; x0; (k - 2)%nat]])%sc) ∧
          ((4 ≤ k)%nat → p = v).
Proof.
  intros Htr Hin H. unfold forward in H.
  apply bind_Ok in H as (st & Hst & H). rewrite Htr in H. cbv zeta in H.
  apply bind_Ok in H as (zv & Hzv & (pred & Hpred & H)%bind_Ok).
  unfold alloc in H. injection H as <- <- <- <-.
  set (st0 := mkFwd h x [] (det_grid d) (det_anchor_grid d)) in *.
  assert (Hnd : NoDup (seq 0 (det_nl d))) by apply NoDup_seq.
  destruct (forward_scales_z d _ st0 st Htr Hst Hnd Hin) as (zs & Hz & Hlen & Hk).
  simpl in Hz. rewrite length_seq in Hlen.
  pose proof (traverse_length _ _ _ Hzv) as Hlzv. rewrite Hz, Hlen in Hlzv.
  apply cat1_Ok in Hpred as (z0 & Hz0 & Spred & Hall & Rpred).
  (* the facts of one scale, with the value of its view *)
  assert (Hscale : ∀ i : nat, (i < det_nl d)%nat →
    ∃ xi vin r gi ai si y bs ny nx,
      x !! i = Some xi ∧ deref h xi = Ok vin ∧ raw_scale d i vin = Ok r ∧
      shape r = [bs; det_na d; ny; nx; det_no d] ∧
      f_grid st !! i = Some gi ∧ f_anchor_grid st !! i = Some ai ∧
      stride_at d i = Ok si ∧
      zv !! i = Some (mkTensor [bs; (det_na d * ny * nx)%nat; det_no d] (data y)) ∧
      shape y = shape r ∧
      ∀ idx, in_range (shape r) idx → y.[idx] = decoded r gi ai si idx).
  { intros i Hi.
    destruct (Hk i i) as (xi & vin & r & gi & ai & si & y & zi & bs & ny & nx &
      Hxi & Hvin & Hraw & Hsr & Hgi & Hai & Hsi & Hzi & Hzy & Hzs & Hne & Sy & Ry);
      [by apply lookup_seq_lt|].
    exists xi, vin, r, gi, ai, si, y, bs, ny, nx.
    do 7 (split; [done|]). split; [|done].
    rewrite <- Hz in Hzi.
    destruct (traverse_lookup _ _ _ _ _ Hzv Hzi) as (t & Ht & Hd).
    rewrite Ht. f_equal. unfold deref in Hd. rewrite Hzy in Hd.
    injection Hd as <-. rewrite Hzs. do 3 f_equal.
    rewrite Hsr, numel_5. apply Nat.div_mul. done. }
  (* all views have the batch size of the first *)
  assert (Hnl : (0 < det_nl d)%nat).
  { apply lookup_lt_Some in Hz0. lia. }
  destruct (Hscale 0%nat Hnl) as (xi0 & vin0 & r0 & g0 & a0 & s0 & y0 & bs & ny0 &
    nx0 & _ & _ & _ & _ & _ & _ & _ & Hzv0 & _).
  rewrite Hz0 in Hzv0. injection Hzv0 as ->.
  assert (Hbs : ∀ (i : nat) bs' n' dat,
            zv !! i = Some (mkTensor [bs'; n'; det_no d] dat) → bs' = bs).
  { intros i bs' n' dat Hi. rewrite Forall_lookup in Hall.
    destruct (Hall _ _ Hi) as [_ Heq]. simpl in Heq. by injection Heq. }
  exists (mkTensor (shape pred) (data pred)), bs, (dim1 ∘ shape <$> zv).
  split.
  { unfold deref. simpl h_loc. rewrite lookup_app_r by lia.
    by rewrite Nat.sub_diag. }
  rewrite tensor_eta. split; [by rewrite Spred|].
  split; [by rewrite length_fmap|].
  intros i Hi.
  destruct (Hscale i Hi) as (xi & vin & r & gi & ai & si & y & bs' & ny & nx &
    Hxi & Hvin & Hraw & Hsr & Hgi & Hai & Hsi & Hzi & Sy & Ry).
  pose proof (Hbs _ _ _ _ Hzi) as ->.
  destruct (raw_scale_Ok _ _ _ _ Hraw)
    as (mi & c & bs' & ch & ny' & nx' & Hmi & Hc & Hsc & Hsr' & _ & Hel).
  rewrite Hsr in Hsr'. injection Hsr' as <- <- <-.
  assert (Hstr : ∃ s, det_stride d = Some s ∧ data s !! i = Some si).
  { unfold stride_at in Hsi. destruct (det_stride d) as [s|]; [|discriminate].
    exists s. split; [done|]. by apply item_Ok. }
  destruct Hstr as (s & Hs & Hsi').
  exists xi, vin, mi, c, ch, gi, ai, s, si, ny, nx.
  do 5 (split; [done|]).
  assert (Hns : (dim1 ∘ shape <$> zv) !! i = Some (det_na d * ny * nx)%nat).
  { by rewrite list_lookup_fmap, Hzi. }
  split; [done|]. do 4 (split; [done|]).
  intros b a yy xx k Hb Ha Hy Hx Hk0.
  rewrite <- (Hel b a yy xx k) by done.
  pose proof (row_in_range _ _ _ _ _ _ Ha Hy Hx) as Hrow.
  pose proof (sum_list_take_le _ _ _ Hns) as Hle.
  assert (Hp : pred.[[b; (sum_list (take i (dim1 ∘ shape <$> zv))
                           + ((a * ny + yy) * nx + xx))%nat; k]]
               = decoded r gi ai si [b; a; yy; xx; k]).
  { rewrite Rpred.
    - rewrite <- fmap_take.
      rewrite (cat_pick1_at zv b [k] i _ _ Hzi) by done.
      rewrite tref_view_rows by done.
      rewrite <- Ry by (rewrite Hsr; apply in_range_5; lia).
      unfold tref. by rewrite Sy, Hsr.
    - rewrite Spred. simpl. apply in_range_3; lia. }
  cbv zeta. rewrite Hp. apply decoded_cases.
Qed.

End decode_layout.

Lemma detect_decode_witness :
  ∃ hp xs d1 h1,
    forward (toy_detect false true) toy_x toy_heap = Ok (Inference hp xs, d1, h1) ∧
    ∃ pred bs ns,
      deref h1 hp = Ok pred ∧
      shape pred = [bs; sum_list ns; det_no (toy_detect false true)] ∧
      length ns = det_nl (toy_detect false true) ∧
      ∀ i : nat, (i < det_nl (toy_detect false true))%nat →
        ∃ xi vin mi c ch gi ai s si ny nx,
          toy_x !! i = Some xi ∧ deref toy_heap xi = Ok vin ∧
          det_m (toy_detect false true) !! i = Some mi ∧ mi vin = Ok c ∧
          shape c = [bs; ch; ny; nx] ∧
          ns !! i = Some (det_na (toy_detect false true) * ny * nx)%nat ∧
          det_grid d1 !! i = Some gi ∧ det_anchor_grid d1 !! i = Some ai ∧
          det_stride (toy_detect false true) = Some s ∧ data s !! i = Some si ∧
          ∀ b a y x0 k,
            (b < bs)%nat → (a < det_na (toy_detect false true))%nat →
            (y < ny)%nat → (x0 < nx)%nat →
            (k < det_no (toy_detect false true))%nat →
            let v :=
              s_sigmoid
                (mkTensor [bs; det_na (toy_detect false true);
                           det_no (toy_detect false true); ny; nx]
                   (data c)).[[b; a; k; y; x0]] in
            let p :=
              pred.[[b; (sum_list (take i ns) + ((a * ny + y) * nx + x0))%nat; k]] in
            ((k < 2)%nat →
             p = ((v * s_lit 2 - s_lit (1 # 2)
                   + gi.[bcast_index (shape gi) [b; a; y; x0; k]]) * si)%sc) ∧
            ((2 ≤ k < 4)%nat →
             p = ((v * s_lit 2) ^ 2
                  * ai.[bcast_index (shape ai) [b; a; y; x0; (k - 2)%nat]])%sc) ∧
            ((4 ≤ k)%nat → p = v).
Proof.
  assert (E : ∃ hp xs d1 h1,
    forward (toy_detect false true) toy_x toy_heap = Ok (Inference hp xs, d1, h1)).
  { do 4 eexists. vm_compute. reflexivity. }
  destruct E as (hp & xs & d1 & h1 & E). exists hp, xs, d1, h1. split; [exact E|].
  apply (detect_decode (toy_detect false true) toy_x toy_heap hp xs d1 h1);
    [reflexivity| |exact E].
  repeat constructor.
Defined.

(** * Further properties of the builder *)

(** ** The loop, layer by layer *)

Lemma parse_layer_Ok no gd gw i sp st st' :
  parse_layer no gd gw i sp st = Ok st' →
  ∃ args c2 n refs,
    resolve_layer no gw (spec_m sp) (spec_f sp) (depth_gain gd (spec_n sp))
      (spec_args sp) (st_ch st) (st_c2 st) = Ok (args, c2, n) ∧
    save_refs i (spec_f sp) = Ok refs ∧
    st' = mkState (st_layers st ++ [mkBuilt i (spec_f sp) (spec_m sp) args n])
            (st_save st ++ refs) c2 ((if i =? 0 then [] else st_ch st) ++ [c2]).
Proof.
  unfold parse_layer.
  intros ([[args c2] n] & Hr & (refs & Hs & [= <-])%bind_Ok)%bind_Ok.
  by exists args, c2, n, refs.
Qed.

Lemma py_index_neg1 {A} (l : list A) a : py_index l (-1) = Ok a → last l = Some a.
Proof.
  intros H. destruct l as [|x l _] using rev_ind.
  - discriminate.
  - rewrite py_index_last in H. injection H as ->. by rewrite last_snoc.
Qed.

(** From layer 1 on: the layers and the channel counts that the loop adds,
    and the call of the chain that produced each of them. *)
Lemma parse_layers_trace no gd gw specs : ∀ i0 st st',
  0 < i0 → Z.of_nat (length (st_ch st)) = i0 →
  last (st_ch st) = Some (st_c2 st) →
  parse_layers no gd gw i0 specs st = Ok st' →
  ∃ bs cs,
    st_layers st' = st_layers st ++ bs ∧ st_ch st' = st_ch st ++ cs ∧
    length bs = length specs ∧ length cs = length specs ∧
    ∀ (k : nat) sp, specs !! k = Some sp →
      ∃ args c2 n c2prev,
        last (st_ch st ++ take k cs) = Some c2prev ∧
        resolve_layer no gw (spec_m sp) (spec_f sp) (depth_gain gd (spec_n sp))
          (spec_args sp) (st_ch st ++ take k cs) c2prev = Ok (args, c2, n) ∧
        bs !! k = Some (mkBuilt (i0 + Z.of_nat k) (spec_f sp) (spec_m sp) args n) ∧
        cs !! k = Some c2.
Proof.
  induction specs as [|sp0 specs IH]; intros i0 st st' Hi0 Hlen Hlast; simpl.
  - intros [= <-]. exists [], []. rewrite !app_nil_r. by repeat split.
  - intros (st1 & H1 & Hrest)%bind_Ok.
    apply parse_layer_Ok in H1 as (args & c2 & n & refs & Hres & _ & ->).
    destruct (i0 =? 0) eqn:E; [lia|]. clear E.
    apply IH in Hrest as (bs & cs & Hbs & Hcs & Hlb & Hlc & Hk); simpl in *;
      [|lia|rewrite length_app; simpl; lia|by rewrite last_snoc].
    exists (mkBuilt i0 (spec_f sp0) (spec_m sp0) args n :: bs), (c2 :: cs).
    rewrite Hbs, Hcs, <- !app_assoc. simpl.
    repeat split; [lia|lia|].
    intros [|k] sp Hsp; simpl in Hsp.
    + injection Hsp as <-. exists args, c2, n, (st_c2 st).
      rewrite app_nil_r, Z.add_0_r. by repeat split.
    + destruct (Hk k sp Hsp) as (args' & c2' & n' & c2p & Hl & Hr & Hb & Hc).
      exists args', c2', n', c2p. rewrite <- app_assoc in Hl, Hr. simpl in *.
      repeat split; [done|done| |done].
      rewrite Hb. do 2 f_equal. lia.
Qed.

(** The whole build: the channel trace has one entry per layer, and each
    layer results from the chain applied to the trace before it. *)
Lemma parse_model_trace d ch layers save :
  parse_model d ch = Ok (layers, save) →
  ∃ na chs,
    number_of_anchors (anchors d) = Ok na ∧
    channel_trace d ch = Ok chs ∧
    length layers = length (backbone d ++ head d) ∧
    (backbone d ++ head d ≠ [] → length chs = length (backbone d ++ head d)) ∧
    ∀ (k : nat) sp, (backbone d ++ head d) !! k = Some sp →
      ∃ args c2 n c2prev,
        last (trace_before ch chs k) = Some c2prev ∧
        resolve_layer (na * (nc d + 5)) (width_multiple d) (spec_m sp) (spec_f sp)
          (depth_gain (depth_multiple d) (spec_n sp)) (spec_args sp)
          (trace_before ch chs k) c2prev = Ok (args, c2, n) ∧
        layers !! k = Some (mkBuilt (Z.of_nat k) (spec_f sp) (spec_m sp) args n) ∧
        chs !! k = Some c2.
Proof.
  unfold parse_model, channel_trace.
  intros (na & Hna & (c0 & Hc0 & (st & Hst & [= <- <-])%bind_Ok)%bind_Ok)%bind_Ok.
  exists na, (st_ch st). rewrite Hna, Hc0. simpl. rewrite Hst. simpl.
  split; [done|]. split; [done|].
  apply py_index_neg1 in Hc0.
  destruct (backbone d ++ head d) as [|sp0 specs]; simpl in Hst.
  - injection Hst as <-. simpl. by repeat split.
  - apply bind_Ok in Hst as (st1 & H1 & Hrest).
    apply parse_layer_Ok in H1 as (args & c2 & n & refs & Hres & _ & ->).
    simpl in *.
    apply parse_layers_trace in Hrest as (bs & cs & Hbs & Hcs & Hlb & Hlc & Hk);
      simpl in *; [|lia|done|done].
    rewrite Hbs, Hcs. simpl. repeat split; [lia|intros _; lia|].
    intros [|k] sp Hsp; simpl in Hsp.
    + injection Hsp as <-. by exists args, c2, n, c0.
    + destruct (Hk k sp Hsp) as (args' & c2' & n' & c2p & Hl & Hr & Hb & Hc).
      exists args', c2', n', c2p.
      unfold trace_before.
      replace (take (S k) (c2 :: cs)) with (c2 :: take k cs) by done.
      repeat split; [done|done| |done].
      change ((?x :: bs) !! S k) with (bs !! k).
      rewrite Hb. do 2 f_equal. lia.
Qed.

(** ** The save list *)

Lemma save_refs_range i f refs :
  0 ≤ i → save_refs i f = Ok refs → ∀ x, x ∈ refs → 0 ≤ x < i.
Proof.
  unfold save_refs. intros Hi. generalize (filter (λ x, x ≠ -1) (source_list f)).
  intros l. revert refs. induction l as [|a l IH]; intros refs; simpl.
  - intros [= <-] x Hx. by apply elem_of_nil in Hx.
  - intros (b & Hb & (bs & Hbs & [= <-])%bind_Ok)%bind_Ok x Hx.
    apply elem_of_cons in Hx as [->|Hx]; [|by eapply IH].
    unfold py_mod in Hb. destruct (i =? 0) eqn:E; [discriminate|].
    injection Hb as <-. apply Z.mod_pos_bound. lia.
Qed.

Lemma parse_layers_save_range no gd gw specs : ∀ i0 st st',
  0 ≤ i0 →
  parse_layers no gd gw i0 specs st = Ok st' →
  (∀ x, x ∈ st_save st → 0 ≤ x < i0 + Z.of_nat (length specs) - 1) →
  ∀ x, x ∈ st_save st' → 0 ≤ x < i0 + Z.of_nat (length specs) - 1.
Proof.
  induction specs as [|sp0 specs IH]; intros i0 st st' Hi0; simpl.
  - by intros [= <-].
  - intros (st1 & H1 & Hrest)%bind_Ok Hst.
    apply parse_layer_Ok in H1 as (args & c2 & n & refs & _ & Hrefs & ->).
    intros x Hx.
    pose proof (IH (i0 + 1) _ _ ltac:(lia) Hrest) as Hind. simpl in Hind.
    assert (Hgoal : 0 ≤ x < i0 + 1 + Z.of_nat (length specs) - 1); [|lia].
    apply Hind; [|done].
    intros z [Hz|Hz]%elem_of_app.
    + apply Hst in Hz. lia.
    + apply (save_refs_range _ _ _ Hi0 Hrefs) in Hz. lia.
Qed.

(** X1: every entry of the save list that a successful build returns is
    the index of a layer before the last one: it lies between 0 and the
    number of layers minus 2. *)
Theorem save_entries_name_earlier_layers d ch layers save :
  parse_model d ch = Ok (layers, save) →
  ∀ x, x ∈ save → 0 ≤ x < Z.of_nat (length layers) - 1.
Proof.
  intros H x Hx.
  destruct (parse_model_trace _ _ _ _ H) as (_ & _ & _ & _ & -> & _).
  unfold parse_model in H.
  apply bind_Ok in H as (na & _ & (c0 & _ & (st & Hst & [= _ <-])%bind_Ok)%bind_Ok).
  unfold sorted in Hx. rewrite merge_sort_Permutation in Hx.
  apply (parse_layers_save_range _ _ _ _ 0 _ _ ltac:(lia) Hst); [|done].
  intros z Hz. by apply elem_of_nil in Hz.
Qed.

Lemma save_entries_name_earlier_layers_witness :
  ∃ layers,
    parse_model cfg_two_concats [3] = Ok (layers, [0; 0]) ∧
    0 ≤ 0 < Z.of_nat (length layers) - 1.
Proof.
  eexists. split; [vm_compute; reflexivity|].
  apply (save_entries_name_earlier_layers cfg_two_concats [3] _ [0; 0]);
    [vm_compute; reflexivity|constructor].
Defined.

(** X2: a successful build returns one module per entry of
    backbone + head, in order, and the module at position [k] carries [k]
    as its attribute [i] and the entry's [from] field as its attribute
    [f]. *)
Theorem built_layers_follow_specs d ch layers save :
  parse_model d ch = Ok (layers, save) →
  length layers = length (backbone d ++ head d) ∧
  ∀ (k : nat) sp, (backbone d ++ head d) !! k = Some sp →
    ∃ b, layers !! k = Some b ∧
      built_i b = Z.of_nat k ∧ built_f b = spec_f sp.
Proof.
  intros H.
  destruct (parse_model_trace _ _ _ _ H) as (na & chs & _ & _ & Hlen & _ & Hk).
  split; [done|]. intros k sp Hsp.
  destruct (Hk k sp Hsp) as (args & c2 & n & c2p & _ & _ & Hb & _).
  eexists. by split.
Qed.

Lemma built_layers_follow_specs_witness :
  ∃ layers save,
    parse_model cfg_small [3] = Ok (layers, save) ∧
    length layers = length (backbone cfg_small ++ head cfg_small) ∧
    ∀ (k : nat) sp, (backbone cfg_small ++ head cfg_small) !! k = Some sp →
      ∃ b, layers !! k = Some b ∧
        built_i b = Z.of_nat k ∧ built_f b = spec_f sp.
Proof.
  do 2 eexists. split; [vm_compute; reflexivity|].
  eapply (built_layers_follow_specs cfg_small [3]). vm_compute. reflexivity.
Defined.

(** ** The arms of the chain, class by class *)

(** [H : isin m l = true] or [H : is_ m c = true] for a literal list or
    name: one goal per class, with [m] replaced by its name. *)
Ltac class_cases H :=
  apply bool_decide_eq_true in H;
  lazymatch type of H with
  | _ = _ => subst
  | _ => repeat (apply elem_of_cons in H as [->|H]); [..|by apply elem_of_nil in H]
  end.

(** Evaluate the tests of the chain that are closed. *)
Ltac eval_tests H :=
  repeat match type of H with
  | context [if ?b then _ else _] =>
      let v := eval vm_compute in b in
      first [ change b with v in H | fail 2 ];
      cbv iota in H
  end.

Lemma takes_input_width_cases m :
  takes_input_width m = true →
  isin m standard_modules = true ∨ isin m research_modules = true ∨
  isin m light_modules = true ∨ isin m yolov4_modules = true ∨
  isin m attention_modules = true ∨ is_ m "MobileOne" = true.
Proof.
  unfold takes_input_width, width_scaled. intros H.
  repeat (apply orb_true_iff in H as [H|H]); auto 10.
Qed.

Lemma scaled_channels_c1 no gw ch f args c1 c2 :
  scaled_channels no gw ch f args = Ok (c1, c2) → ch_at ch f = Ok c1.
Proof.
  unfold scaled_channels.
  by intros (c & Hc & (? & _ & [= <- _])%bind_Ok)%bind_Ok.
Qed.

(** The arms that put the input width first read it from the trace at the
    integer source. *)
Lemma resolve_layer_input_width no gw m f n args ch c2p args' c2' n' :
  takes_input_width m = true →
  resolve_layer no gw m f n args ch c2p = Ok (args', c2', n') →
  ∃ c1, ch_at ch f = Ok c1 ∧ args' !! 0%nat = Some (VInt c1).
Proof.
  intros Hm H. apply takes_input_width_cases in Hm.
  unfold resolve_layer in H.
  destruct Hm as [Hm|[Hm|[Hm|[Hm|[Hm|Hm]]]]]; class_cases Hm; eval_tests H;
    (lazymatch type of H with
     | (scaled_channels _ _ _ _ _ ≫= _) = _ =>
         apply bind_Ok in H as ([c1 c2] & Hsc%scaled_channels_c1 & H)
     | (ch_at _ _ ≫= _) = _ => apply bind_Ok in H as (c1 & Hsc & H)
     end);
    exists c1; (split; [done|]); cbv zeta in H;
    repeat match type of H with
    | (if ?b then _ else _) = _ => destruct b
    | (_ ≫= _) = _ => apply bind_Ok in H as (? & _ & H)
    end;
    by injection H as <- _ _.
Qed.

Lemma resolve_layer_keeps_width no gw m f n args ch c2p args' c2' n' :
  keeps_running_width m = true →
  resolve_layer no gw m f n args ch c2p = Ok (args', c2', n') →
  c2' = c2p.
Proof.
  intros Hm H. unfold keeps_running_width in Hm.
  repeat (apply orb_true_iff in Hm as [Hm|Hm]);
    unfold resolve_layer in H; class_cases Hm; eval_tests H;
    apply bind_Ok in H as (? & _ & H); by injection H as _ <- _.
Qed.

Lemma resolve_layer_repeat_count no gw m f n args ch c2p args' c2' n' :
  takes_repeat_count m = true →
  resolve_layer no gw m f n args ch c2p = Ok (args', c2', n') →
  n' = 1 ∧ args' !! 2%nat = Some (VInt n).
Proof.
  intros Hm H. unfold takes_repeat_count in Hm.
  repeat (apply orb_true_iff in Hm as [Hm|Hm]);
    unfold resolve_layer in H; class_cases Hm; eval_tests H;
    apply bind_Ok in H as ([c1 c2] & _ & H); cbv zeta in H;
    by injection H as <- _ <-.
Qed.

Lemma py_index_take {A} (chs : list A) (k : nat) j c :
  (0 < k ≤ length chs)%nat →
  py_index (take k chs) j = Ok c →
  - Z.of_nat k ≤ j < Z.of_nat k ∧ chs !! Z.to_nat (j mod Z.of_nat k) = Some c.
Proof.
  intros Hk H. apply py_index_Ok in H as (n & Hn & Hj).
  rewrite length_take, Nat.min_l in Hj by lia.
  pose proof (lookup_lt_Some _ _ _ Hn) as Hlt.
  rewrite length_take in Hlt.
  rewrite lookup_take_lt in Hn by lia.
  destruct (j <? 0) eqn:E.
  - apply Z.ltb_lt in E. split; [lia|].
    replace j with (Z.of_nat n + (-1) * Z.of_nat k) by lia.
    rewrite Z_mod_plus_full, Z.mod_small, Nat2Z.id by lia. done.
  - apply Z.ltb_ge in E. split; [lia|].
    rewrite Z.mod_small, <- Hj, Nat2Z.id by lia. done.
Qed.

(** X3: in a successful build, every layer of a class whose arm puts the
    input width first (the width-scaled classes and MobileOne) has an
    integer source [j], and the first argument it is constructed with is
    the output width recorded for the layer that [j] names, counted from
    the layer itself when [j] is negative; for layer 0 it is the entry [j]
    of the input channels. *)
Theorem input_width_is_source_width d ch layers save chs (k : nat) sp :
  parse_model d ch = Ok (layers, save) →
  channel_trace d ch = Ok chs →
  (backbone d ++ head d) !! k = Some sp →
  takes_input_width (spec_m sp) = true →
  ∃ j b c1,
    spec_f sp = FInt j ∧ layers !! k = Some b ∧
    built_args b !! 0%nat = Some (VInt c1) ∧
    match k with
    | O => py_index ch j = Ok c1
    | S _ => - Z.of_nat k ≤ j < Z.of_nat k ∧
             chs !! Z.to_nat (j mod Z.of_nat k) = Some c1
    end.
Proof.
  intros H Hchs Hsp Hm.
  destruct (parse_model_trace _ _ _ _ H) as (na & chs' & _ & Hchs' & _ & Hlen & Hk).
  rewrite Hchs in Hchs'. injection Hchs' as <-.
  destruct (Hk k sp Hsp) as (args & c2 & n & c2p & _ & Hr & Hb & _).
  destruct (resolve_layer_input_width _ _ _ _ _ _ _ _ _ _ _ Hm Hr) as (c1 & Hc1 & Ha).
  destruct (spec_f sp) as [j|js] eqn:Hf; [|discriminate].
  exists j, (mkBuilt (Z.of_nat k) (FInt j) (spec_m sp) args n), c1.
  do 3 (split; [done|]). simpl in Hc1.
  destruct k as [|k]; [done|].
  apply py_index_take; [|done].
  apply lookup_lt_Some in Hsp. rewrite Hlen; [lia|].
  intros E. rewrite E in Hsp. simpl in Hsp. lia.
Qed.

Lemma input_width_is_source_width_witness :
  ∃ layers save chs j b c1,
    parse_model cfg_small [3] = Ok (layers, save) ∧
    channel_trace cfg_small [3] = Ok chs ∧
    FInt (-1) = FInt j ∧ layers !! 1%nat = Some b ∧
    built_args b !! 0%nat = Some (VInt c1) ∧
    (-1 ≤ j < 1 ∧ chs !! Z.to_nat (j mod 1) = Some c1).
Proof.
  assert (E : ∃ layers save chs,
             parse_model cfg_small [3] = Ok (layers, save) ∧
             channel_trace cfg_small [3] = Ok chs).
  { do 3 eexists. split; vm_compute; reflexivity. }
  destruct E as (layers & save & chs & E1 & E2).
  destruct (input_width_is_source_width cfg_small [3] layers save chs 1
              (mkSpec (FInt (-1)) 1 "Conv" [VInt 32; VInt 3]) E1 E2)
    as (j & b & c1 & H); [reflexivity|vm_compute; reflexivity|].
  exists layers, save, chs, j, b, c1. tauto.
Defined.

(** X4: a layer of batch normalisation or of a detection head records as
    its output width the width recorded for the layer just before it (for
    layer 0, the last of the input channels), whatever its source names:
    its arm assigns nothing to [c2]. *)
Theorem running_width_is_kept d ch layers save chs (k : nat) sp :
  parse_model d ch = Ok (layers, save) →
  channel_trace d ch = Ok chs →
  (backbone d ++ head d) !! k = Some sp →
  keeps_running_width (spec_m sp) = true →
  chs !! k = match k with
             | O => last ch
             | S k' => chs !! k'
             end.
Proof.
  intros H Hchs Hsp Hm.
  destruct (parse_model_trace _ _ _ _ H) as (na & chs' & _ & Hchs' & _ & Hlen & Hk).
  rewrite Hchs in Hchs'. injection Hchs' as <-.
  destruct (Hk k sp Hsp) as (args & c2 & n & c2p & Hl & Hr & _ & Hc).
  apply (resolve_layer_keeps_width _ _ _ _ _ _ _ _ _ _ _ Hm) in Hr as ->.
  rewrite Hc, <- Hl. destruct k as [|k]; [done|].
  unfold trace_before. rewrite last_lookup.
  assert (S k < length chs)%nat.
  { apply lookup_lt_Some in Hsp. rewrite Hlen; [lia|].
    intros E. rewrite E in Hsp. simpl in Hsp. lia. }
  rewrite length_take, Nat.min_l by lia. simpl.
  rewrite lookup_take_lt by lia. done.
Qed.

Lemma running_width_is_kept_witness :
  ∃ chs, channel_trace cfg_small [3] = Ok chs ∧ chs !! 3%nat = chs !! 2%nat.
Proof.
  assert (E : ∃ layers save chs,
             parse_model cfg_small [3] = Ok (layers, save) ∧
             channel_trace cfg_small [3] = Ok chs).
  { do 3 eexists. split; vm_compute; reflexivity. }
  destruct E as (layers & save & chs & E1 & E2).
  exists chs. split; [done|].
  apply (running_width_is_kept cfg_small [3] layers save chs 3
           (mkSpec (FInt 0) 1 "nn.BatchNorm2d" []) E1 E2);
    [reflexivity|vm_compute; reflexivity].
Defined.

(** ** Python's rounding and floats *)

(** [round(q)] is an integer nearest to [q], the even one of the two at a
    tie. *)
Lemma py_round_spec (q : Q) :
  (Qabs (inject_Z (py_round q) - q) <= 1 # 2)%Q ∧
  ((Qabs (inject_Z (py_round q) - q) == 1 # 2)%Q → Z.even (py_round q) = true).
Proof.
  unfold py_round.
  pose proof (Qfloor_le q) as Hlo. pose proof (Qlt_floor q) as Hhi.
  rewrite inject_Z_plus in Hhi. change (inject_Z 1) with 1%Q in Hhi.
  set (f := Qfloor q) in *.
  destruct (Qcompare_spec (q - inject_Z f) (1 # 2)) as [E|E|E].
  - destruct (Z.even f) eqn:Ev.
    + split; [|done]. apply Qabs_Qle_condition. split; lra.
    + split.
      * rewrite inject_Z_plus. change (inject_Z 1) with 1%Q.
        apply Qabs_Qle_condition. split; lra.
      * intros _. rewrite Z.even_add, Ev. done.
  - split; [apply Qabs_Qle_condition; split; lra|].
    intros Habs. rewrite Qabs_neg in Habs by lra. lra.
  - rewrite inject_Z_plus. change (inject_Z 1) with 1%Q.
    split; [apply Qabs_Qle_condition; split; lra|].
    intros Habs. rewrite Qabs_pos in Habs by lra. lra.
Qed.

Lemma Qpower_2_pos (z : Z) : (0 < 2 ^ z)%Q.
Proof. apply Qpower_0_lt. reflexivity. Qed.

Lemma Qpower_2_plus (n m : Z) : (2 ^ (n + m) == 2 ^ n * 2 ^ m)%Q.
Proof. apply Qpower_plus. discriminate. Qed.

Lemma Qpower_2_Z (n : Z) : 0 ≤ n → (2 ^ n == inject_Z (2 ^ n))%Q.
Proof. intros Hn. by rewrite Zpower_Qpower. Qed.

(** [Qlog2 q] is the exponent of the leading binary digit of [q]. *)
Lemma Qlog2_spec (q : Q) :
  (0 < q)%Q → (2 ^ Qlog2 q <= q ∧ q < 2 ^ (Qlog2 q + 1))%Q.
Proof.
  intros Hq. destruct q as [a b].
  assert (Ha : 0 < a).
  { unfold Qlt in Hq. simpl in Hq. lia. }
  unfold Qlog2. cbn [Qnum Qden].
  set (la := Z.log2 a). set (lb := Z.log2 (Z.pos b)).
  destruct (Z.log2_spec a Ha) as [Ha1 Ha2]. fold la in Ha1, Ha2.
  destruct (Z.log2_spec (Z.pos b)) as [Hb1 Hb2]; [lia|]. fold lb in Hb1, Hb2.
  assert (Hla : 0 ≤ la) by apply Z.log2_nonneg.
  assert (Hlb : 0 ≤ lb) by apply Z.log2_nonneg.
  set (A := inject_Z a). set (B := inject_Z (Z.pos b)).
  assert (HB : (0 < B)%Q) by (unfold B; rewrite <- (Zlt_Qlt 0); lia).
  assert (Hq' : (a # b) * B == A).
  { unfold A, B. rewrite (Qmake_Qdiv a b). field. unfold B in HB. lra. }
  assert (QA1 : (2 ^ la <= A)%Q).
  { rewrite Qpower_2_Z by done. unfold A. by rewrite <- Zle_Qle. }
  assert (QA2 : (A < 2 ^ (la + 1))%Q).
  { rewrite Qpower_2_Z by lia. unfold A. rewrite <- Zlt_Qlt. exact Ha2. }
  assert (QB1 : (2 ^ lb <= B)%Q).
  { rewrite Qpower_2_Z by done. unfold B. by rewrite <- Zle_Qle. }
  assert (QB2 : (B < 2 ^ (lb + 1))%Q).
  { rewrite Qpower_2_Z by lia. unfold B. rewrite <- Zlt_Qlt. exact Hb2. }
  destruct (Qle_bool (2 ^ (la - lb)) (a # b)) eqn:E.
  - apply Qle_bool_iff in E. split; [done|].
    apply (Qmult_lt_r _ _ B HB). rewrite Hq'.
    eapply Qlt_le_trans; [exact QA2|].
    replace (la + 1) with ((la - lb + 1) + lb) by lia.
    rewrite Qpower_2_plus.
    apply Qmult_le_l; [apply Qpower_2_pos|done].
  - assert (E' : (a # b < 2 ^ (la - lb))%Q).
    { apply Qnot_le_lt. intros Hle. apply Qle_bool_iff in Hle. congruence. }
    replace (la - lb - 1 + 1) with (la - lb) by lia. split; [|done].
    apply (Qmult_le_r _ _ B HB). rewrite Hq'.
    eapply Qle_trans; [|exact QA1].
    replace la with ((la - lb - 1) + (lb + 1)) at 2 by lia.
    rewrite Qpower_2_plus.
    apply Qmult_le_l; [apply Qpower_2_pos|]. by apply Qlt_le_weak.
Qed.

Lemma Z_le_of_Q_lt_half (a b : Z) : (inject_Z a < inject_Z b + (1 # 2))%Q → a ≤ b.
Proof.
  intros H. destruct (Z_le_gt_dec a b) as [|Hgt]; [done|exfalso].
  assert (H1 : (inject_Z (b + 1) <= inject_Z a)%Q) by (rewrite <- Zle_Qle; lia).
  rewrite inject_Z_plus in H1. change (inject_Z 1) with 1%Q in H1. lra.
Qed.

(** [to_float q] is the float nearest to [q]: a multiple [m * 2^e] of the
    last digit kept, with at most 53 digits, within half a unit of [q], and
    with [m] even when [q] lies half-way between two floats. *)
Lemma to_float_spec (q : Q) :
  ¬ (q == 0)%Q →
  let e := Z.max (Qlog2 (Qabs q) - 52) (-1074) in
  ∃ m : Z,
    (to_float q == inject_Z m * 2 ^ e)%Q ∧ Z.abs m ≤ 2 ^ 53 ∧
    (Qabs (to_float q - q) <= 2 ^ e / 2)%Q ∧
    ((Qabs (to_float q - q) == 2 ^ e / 2)%Q → Z.even m = true).
Proof.
  intros Hq e. unfold to_float.
  destruct (Qeq_bool q 0) eqn:E0; [by apply Qeq_bool_iff in E0|].
  cbv zeta. unfold float_ulp. fold e.
  set (x := (q * 2 ^ (- e))%Q). set (m := py_round x).
  destruct (py_round_spec x) as [Hnear Htie]. fold m in Hnear, Htie.
  pose proof (Qpower_2_pos e) as Hpe.
  assert (Hx : (x * 2 ^ e == q)%Q).
  { unfold x. rewrite <- Qmult_assoc, <- Qpower_2_plus.
    replace (- e + e) with 0 by lia. change (2 ^ 0)%Q with 1%Q. ring. }
  assert (Hd : (inject_Z m * 2 ^ e - q == (inject_Z m - x) * 2 ^ e)%Q).
  { rewrite <- Hx at 1. ring. }
  assert (Habs : (Qabs (inject_Z m * 2 ^ e - q)
                  == Qabs (inject_Z m - x) * 2 ^ e)%Q).
  { rewrite Hd, Qabs_Qmult. by rewrite (Qabs_pos (2 ^ e)) by lra. }
  exists m. split; [apply Qred_correct|]. split; [|split].
  - (* the digits *)
    assert (Hqa : (0 < Qabs q)%Q).
    { pose proof (Qabs_nonneg q) as Hn. apply Qle_lteq in Hn as [Hn|Hn]; [done|].
      exfalso. apply Hq. symmetry in Hn. revert Hn.
      apply Qabs_case; intros; lra. }
    destruct (Qlog2_spec _ Hqa) as [_ Hup].
    assert (Hxa : (Qabs x < 2 ^ 53)%Q).
    { unfold x. rewrite Qabs_Qmult, (Qabs_pos (2 ^ (- e))) by (pose proof (Qpower_2_pos (- e)); lra).
      eapply Qlt_le_trans.
      - apply Qmult_lt_r; [apply Qpower_2_pos|exact Hup].
      - rewrite <- Qpower_2_plus. apply Qpower_le_compat_l; [lia|lra]. }
    apply Z_le_of_Q_lt_half.
    rewrite <- Qpower_2_Z by lia.
    change (inject_Z (Z.abs m)) with (Qabs (inject_Z m)).
    pose proof (Qabs_triangle (inject_Z m - x) x) as Htri.
    assert (Hsum : (Qabs (inject_Z m - x + x) == Qabs (inject_Z m))%Q)
      by (apply Qabs_wd; ring).
    lra.
  - rewrite Qred_correct, Habs.
    apply (Qmult_le_r _ _ (2 ^ e)) in Hnear; [|done].
    assert (Hh : (2 ^ e / 2 == (1 # 2) * 2 ^ e)%Q) by field.
    by rewrite Hh.
  - rewrite Qred_correct, Habs. intros Ht. apply Htie.
    apply (Qmult_inj_r _ _ (2 ^ e)); [lra|]. rewrite Ht. field.
Qed.

(** The depth gain, written out. *)
Lemma depth_gain_unfold (gd : Q) (n : Z) :
  depth_gain gd n =
  if 1 <? n
  then Z.max (py_round (to_float (to_float (inject_Z n) * to_float gd))) 1
  else n.
Proof. reflexivity. Qed.

(** As floats, 45 * 0.7 is 31.499999999999996 and not the tie 31.5, which
    would round to 32; 5 * 0.5 is the tie 2.5, which rounds to the even 2. *)
Lemma depth_gain_float_product :
  depth_gain (7 # 10) 45 = 31 ∧ depth_gain (1 # 2) 5 = 2 ∧
  (to_float (7 # 10) == 3152519739159347 # 4503599627370496)%Q.
Proof. by vm_compute. Qed.

(** X5: a layer of a class that takes a repeat count (the C3 family and
    the other classes listed with it) is constructed once, with the
    depth-gained count as its third argument: [max(round(n * gd), 1)],
    where [n * gd] is the float product of [float(n)] and the float [gd],
    or [n] itself when [n] is at most 1. *)
Theorem repeat_count_goes_to_arguments d ch layers save (k : nat) sp :
  parse_model d ch = Ok (layers, save) →
  (backbone d ++ head d) !! k = Some sp →
  takes_repeat_count (spec_m sp) = true →
  ∃ b, layers !! k = Some b ∧ built_n b = 1 ∧
    built_args b !! 2%nat =
      Some (VInt (if 1 <? spec_n sp
        then Z.max (py_round (to_float (to_float (inject_Z (spec_n sp))
                                        * to_float (depth_multiple d)))) 1
        else spec_n sp)).
Proof.
  intros H Hsp Hm. rewrite <- depth_gain_unfold.
  destruct (parse_model_trace _ _ _ _ H) as (na & chs & _ & _ & _ & _ & Hk).
  destruct (Hk k sp Hsp) as (args & c2 & n & c2p & _ & Hr & Hb & _).
  apply (resolve_layer_repeat_count _ _ _ _ _ _ _ _ _ _ _ Hm) in Hr as [-> Ha].
  eexists. by split.
Qed.

Lemma repeat_count_goes_to_arguments_witness :
  ∃ layers save b,
    parse_model cfg_c3 [3] = Ok (layers, save) ∧
    layers !! 1%nat = Some b ∧ built_n b = 1 ∧
    built_args b !! 2%nat = Some (VInt 2).
Proof.
  assert (E : ∃ layers save, parse_model cfg_c3 [3] = Ok (layers, save)).
  { do 2 eexists. vm_compute. reflexivity. }
  destruct E as (layers & save & E).
  destruct (repeat_count_goes_to_arguments cfg_c3 [3] layers save 1
              (mkSpec (FInt (-1)) 5 "C3" [VInt 128]) E) as (b & H);
    [reflexivity|vm_compute; reflexivity|].
  by exists layers, save, b.
Defined.

Lemma resolve_layer_repblock no gw f n args ch c2p args' c2' n' :
  resolve_layer no gw "RepBlock" f n args ch c2p = Ok (args', c2', n') →
  n' = n ∧ ∃ c1, args' = VInt c1 :: VInt c2' :: drop 1 args.
Proof.
  intros H. unfold resolve_layer in H. eval_tests H.
  apply bind_Ok in H as ([c1 c2] & _ & H). cbv zeta in H.
  injection H as <- <- <-. eauto.
Qed.

(** X6: a RepBlock layer goes through the arm of the width-scaled
    lightweight classes, which comes first in the chain: its arguments are
    the input width, the scaled output width and the declared arguments
    after the first, and the module is repeated the depth-gained number of
    times: [max(round(n * gd), 1)], where [n * gd] is the float product of
    [float(n)] and the float [gd], or [n] itself when [n] is at most 1.
    The arm written for RepBlock further down, which would insert the
    count as third argument and construct the module once, is never
    taken. *)
Theorem repblock_is_repeated d ch layers save (k : nat) sp :
  parse_model d ch = Ok (layers, save) →
  (backbone d ++ head d) !! k = Some sp →
  spec_m sp = "RepBlock" →
  ∃ b c1 c2, layers !! k = Some b ∧
    built_n b =
      (if 1 <? spec_n sp
        then Z.max (py_round (to_float (to_float (inject_Z (spec_n sp))
                                        * to_float (depth_multiple d)))) 1
        else spec_n sp) ∧
    built_args b = VInt c1 :: VInt c2 :: drop 1 (spec_args sp).
Proof.
  intros H Hsp Hm. rewrite <- depth_gain_unfold.
  destruct (parse_model_trace _ _ _ _ H) as (na & chs & _ & _ & _ & _ & Hk).
  destruct (Hk k sp Hsp) as (args & c2 & n & c2p & _ & Hr & Hb & _).
  rewrite Hm in Hr. apply resolve_layer_repblock in Hr as [-> [c1 ->]].
  eexists _, c1, c2. by split.
Qed.

Lemma repblock_is_repeated_witness :
  ∃ layers save b c1 c2,
    parse_model cfg_repblock [3] = Ok (layers, save) ∧
    layers !! 1%nat = Some b ∧
    built_n b = 3 ∧
    built_args b = VInt c1 :: VInt c2 :: drop 1 [VInt 128; VInt 3].
Proof.
  assert (E : ∃ layers save, parse_model cfg_repblock [3] = Ok (layers, save)).
  { do 2 eexists. vm_compute. reflexivity. }
  destruct E as (layers & save & E).
  destruct (repblock_is_repeated cfg_repblock [3] layers save 1
              (mkSpec (FInt (-1)) 3 "RepBlock" [VInt 128; VInt 3]) E)
    as (b & c1 & c2 & H); [reflexivity|reflexivity|].
  by exists layers, save, b, c1, c2.
Defined.

Lemma resolve_layer_merge no gw m f n args ch c2p args' c2' n' :
  m ∈ ["Concat"; "ADD"; "Concat_bifpn"] →
  resolve_layer no gw m f n args ch c2p = Ok (args', c2', n') →
  ∃ cs, ch_all ch f = Ok cs ∧
    (m = "Concat" ∧ c2' = py_sum cs ∨
     m = "ADD" ∧ c2' = py_sum cs / 2 ∨
     m = "Concat_bifpn" ∧ py_max cs = Ok c2').
Proof.
  intros Hm H. unfold resolve_layer in H.
  repeat (apply elem_of_cons in Hm as [->|Hm]); [..|by apply elem_of_nil in Hm];
    eval_tests H; apply bind_Ok in H as (cs & Hcs & H); exists cs; (split; [done|]).
  - injection H as _ <- _. by left.
  - injection H as _ <- _. right. by left.
  - apply bind_Ok in H as (c & Hc & H). injection H as _ <- _. right. by right.
Qed.

(** X7: a Concat layer has a list of sources and records as its output
    width the sum of the widths recorded for the layers it names (-1 being
    the layer before it); an ADD layer records half that sum, rounded
    down, and a Concat_bifpn layer the largest of these widths. *)
Theorem merge_width_from_sources d ch layers save chs (k : nat) sp :
  parse_model d ch = Ok (layers, save) →
  channel_trace d ch = Ok chs →
  (backbone d ++ head d) !! k = Some sp →
  spec_m sp ∈ ["Concat"; "ADD"; "Concat_bifpn"] →
  ∃ js cs c,
    spec_f sp = FList js ∧
    Forall2 (λ j cj, py_index (trace_before ch chs k) j = Ok cj) js cs ∧
    chs !! k = Some c ∧
    (spec_m sp = "Concat" ∧ c = py_sum cs ∨
     spec_m sp = "ADD" ∧ c = py_sum cs / 2 ∨
     spec_m sp = "Concat_bifpn" ∧ py_max cs = Ok c).
Proof.
  intros H Hchs Hsp Hm.
  destruct (parse_model_trace _ _ _ _ H) as (na & chs' & _ & Hchs' & _ & Hlen & Hk).
  rewrite Hchs in Hchs'. injection Hchs' as <-.
  destruct (Hk k sp Hsp) as (args & c2 & n & c2p & _ & Hr & _ & Hc).
  destruct (resolve_layer_merge _ _ _ _ _ _ _ _ _ _ _ Hm Hr) as (cs & Hcs & Hw).
  destruct (spec_f sp) as [j|js] eqn:Hf; [discriminate|].
  exists js, cs, c2. split; [done|]. split; [|by split].
  simpl in Hcs. eapply traverse_Forall2; [|exact Hcs]. done.
Qed.

Lemma merge_width_from_sources_witness :
  ∃ chs js cs c,
    channel_trace cfg_small [3] = Ok chs ∧
    FList [-1; 0] = FList js ∧
    Forall2 (λ j cj, py_index (trace_before [3] chs 2) j = Ok cj) js cs ∧
    chs !! 2%nat = Some c ∧
    ("Concat" = "Concat" ∧ c = py_sum cs ∨
     "Concat" = "ADD" ∧ c = py_sum cs / 2 ∨
     "Concat" = "Concat_bifpn" ∧ py_max cs = Ok c).
Proof.
  assert (E : ∃ layers save chs,
             parse_model cfg_small [3] = Ok (layers, save) ∧
             channel_trace cfg_small [3] = Ok chs).
  { do 3 eexists. split; vm_compute; reflexivity. }
  destruct E as (layers & save & chs & E1 & E2).
  destruct (merge_width_from_sources cfg_small [3] layers save chs 2
              (mkSpec (FList [-1; 0]) 1 "Concat" [VInt 1]) E1 E2)
    as (js & cs & c & H); [reflexivity|constructor|].
  by exists chs, js, cs, c.
Defined.

(** * Further properties of the engine *)

Section engine_sources.
Context {St T : Type}.
Implicit Types (m : Module St T) (x : pyval T) (y : list (pyval T)).

Lemma py_index_outside {A} (l : list A) (j : Z) :
  j < - Z.of_nat (length l) ∨ Z.of_nat (length l) ≤ j → is_Err (py_index l j).
Proof.
  intros Hj. unfold py_index.
  destruct (j <? 0) eqn:E; [apply Z.ltb_lt in E|apply Z.ltb_ge in E].
  - destruct (0 <=? Z.of_nat (length l) + j) eqn:E1; [apply Z.leb_le in E1; lia|].
    by eexists.
  - destruct (j <? Z.of_nat (length l)) eqn:E1; [apply Z.ltb_lt in E1; lia|].
    rewrite andb_false_r. by eexists.
Qed.

Lemma layer_input_outside m x y :
  names_no_earlier_layer (m_f m) (length y) → is_Err (layer_input m x y).
Proof.
  intros (j & Hj & Hne & Hout). unfold layer_input.
  destruct (m_f m) as [f|fs]; simpl in Hj.
  - apply list_elem_of_singleton in Hj as ->.
    destruct (f =? -1) eqn:E; [lia|]. by apply py_index_outside.
  - assert (H : is_Err (traverse (λ j, if j =? -1 then Ok x else py_index y j) fs)).
    { eapply traverse_Err; [exact Hj|]. simpl.
      destruct (j =? -1) eqn:E; [lia|]. by apply py_index_outside. }
    destruct H as [e ->]. by exists e.
Qed.

Lemma run_layers_outside save (ms : list (Module St T)) : ∀ x y log s (k : nat) m,
  ms !! k = Some m →
  names_no_earlier_layer (m_f m) (length y + k) →
  is_Err (run_layers save ms x y log s).
Proof.
  induction ms as [|m0 ms IH]; intros x y log s k m Hk Hout; [done|].
  simpl. destruct k as [|k]; simpl in Hk.
  - injection Hk as ->. rewrite Nat.add_0_r in Hout.
    apply bind_Err_l. by apply layer_input_outside.
  - destruct (layer_input m0 x y) as [xin|e]; [|by exists e]. simpl.
    destruct (m_forward m0 xin s) as [[xout s']|e]; [|by exists e]. simpl.
    apply (IH _ _ _ _ k m Hk). rewrite length_app. simpl.
    by replace (length y + 1 + k)%nat with (length y + S k)%nat by lia.
Qed.

(** X8: a forward pass over a model in which some layer has a source other
    than -1 that lies outside the layers before it (at or beyond its own
    position, or further back than layer 0) raises, whatever the layers
    compute: the history holds exactly one slot per layer already run. *)
Theorem forward_once_needs_earlier_sources (model : list (Module St T)) save x s
    (k : nat) m :
  model !! k = Some m →
  names_no_earlier_layer (m_f m) k →
  is_Err (_forward_once model save x s).
Proof.
  intros Hk Hout. unfold _forward_once. apply bind_Err_l.
  by apply (run_layers_outside save model x [] [] s k m).
Qed.

(** What a layer of a built model reads at one of its sources. *)
Lemma built_source_read d ch layers save x0 (ys : list (pyval T)) cs
    (k : nat) sp j v :
  parse_model d ch = Ok (layers, save) →
  length ys = length layers →
  (∀ (n : nat) b, layers !! n = Some b →
     ∃ c, cs !! n = Some c ∧
       ys !! n = Some (if bool_decide (built_i b ∈ save) then call_output c else PNone)) →
  (backbone d ++ head d) !! k = Some sp →
  j ∈ source_list (spec_f sp) →
  (if bool_decide (j = -1) then v = previous_output x0 cs k
   else py_index (take k ys) j = Ok v) →
  source_value x0 cs k j = Some v.
Proof.
  intros H Hlen Hys Hsp Hj Hv. unfold source_value.
  case_bool_decide as Hm1; [by subst v|].
  pose proof (lookup_lt_Some _ _ _ Hsp) as Hklt.
  destruct (parse_model_trace _ _ _ _ H) as (na & chs & _ & _ & Hll & _ & Htr).
  destruct k as [|k].
  { apply py_index_Ok in Hv as (n & Hn & _). by rewrite take_0 in Hn. }
  apply py_index_take in Hv as [Hrange Hn]; [|lia].
  rewrite bool_decide_true by done.
  set (n := Z.to_nat (j mod Z.of_nat (S k))) in *.
  assert (Hnk : (n < S k)%nat).
  { pose proof (Z.mod_pos_bound j (Z.of_nat (S k))). lia. }
  destruct ((backbone d ++ head d) !! n) as [spn|] eqn:Hspn;
    [|apply lookup_ge_None in Hspn; lia].
  destruct (Htr n spn Hspn) as (args & c2 & nn & c2p & _ & _ & Hb & _).
  destruct (Hys n _ Hb) as (c & Hc & Hy). simpl in Hy.
  rewrite Hn in Hy. rewrite Hc. simpl.
  rewrite bool_decide_true in Hy; [done|].
  rewrite (parse_model_save _ _ _ _ H). unfold sorted.
  rewrite merge_sort_Permutation.
  replace (Z.of_nat n) with (j mod (0 + Z.of_nat (S k))).
  - by eapply normalized_refs_elem.
  - pose proof (Z.mod_pos_bound j (Z.of_nat (S k))). subst n.
    rewrite Z.add_0_l, Z2Nat.id; lia.
Qed.

(** X9: in a forward pass that completes over the modules of a built
    model, with the save list that the build returned, every layer is fed
    the outputs of the layers its sources name: the previous output for
    -1, and for any other source [j] of the layer at position [k] the
    output of layer [j mod k], never the [None] that stands in the history
    for the layers that are not saved. *)
Theorem built_model_reads_layer_outputs
    (instantiate : BuiltLayer → pyval T → St → result (pyval T * St))
    (nl_of : BuiltLayer → Z) d ch layers save x0 s0 xf yf log sf :
  parse_model d ch = Ok (layers, save) →
  run_layers save (as_module instantiate nl_of <$> layers) x0 [] [] s0
    = Ok (xf, yf, log, sf) →
  ∀ (k : nat) b, layers !! k = Some b →
    ∃ c, log !! k = Some c ∧ reads_outputs (built_f b) x0 log k (call_input c).
Proof.
  intros H Hrun.
  apply run_layers_inv in Hrun as (ys & cs & -> & -> & Hlys & Hlcs & _ & Hinv).
  simpl. rewrite length_fmap in Hlys.
  assert (Hys : ∀ (n : nat) b, layers !! n = Some b →
     ∃ c, cs !! n = Some c ∧
       ys !! n = Some (if bool_decide (built_i b ∈ save) then call_output c else PNone)).
  { intros n b Hb.
    destruct (Hinv n (as_module instantiate nl_of b)) as (c & Hc & _ & _ & Hy).
    - by rewrite list_lookup_fmap, Hb.
    - by exists c. }
  intros k b Hb.
  destruct (Hinv k (as_module instantiate nl_of b)) as (c & Hc & Hfed & _).
  { by rewrite list_lookup_fmap, Hb. }
  exists c. split; [done|]. simpl in Hfed.
  destruct (parse_model_trace _ _ _ _ H) as (na & chs & _ & _ & Hll & _ & Htr).
  destruct ((backbone d ++ head d) !! k) as [sp|] eqn:Hsp;
    [|apply lookup_ge_None in Hsp; apply lookup_lt_Some in Hb; lia].
  destruct (Htr k sp Hsp) as (args & c2 & nn & c2p & _ & _ & Hb' & _).
  rewrite Hb in Hb'. injection Hb' as ->. simpl in *.
  unfold reads_outputs, fed_from in *.
  destruct (spec_f sp) as [j|js] eqn:Hf.
  - apply (built_source_read d ch layers save x0 ys cs k sp j _ H Hlys Hys Hsp);
      [rewrite Hf; simpl; constructor|done].
  - destruct Hfed as (l & -> & Hall). exists l. split; [done|].
    apply Forall2_same_length_lookup. split; [by eapply Forall2_length|].
    intros i j v Hj Hv.
    apply (built_source_read d ch layers save x0 ys cs k sp j _ H Hlys Hys Hsp).
    + rewrite Hf. simpl. by eapply list_elem_of_lookup_2.
    + by apply (Forall2_lookup_lr _ _ _ _ _ _ Hall Hj Hv).
Qed.

End engine_sources.

Lemma forward_once_needs_earlier_sources_witness :
  is_Err (_forward_once (toy_built_model cfg_forward_mobilenet) [0] (PTensor 7) ()).
Proof.
  eapply (forward_once_needs_earlier_sources
            (toy_built_model cfg_forward_mobilenet) [0] (PTensor 7) () 1).
  - vm_compute. reflexivity.
  - exists 5. simpl. split; [constructor|]. split; lia.
Defined.

Lemma built_model_reads_layer_outputs_witness :
  ∃ layers save xf yf log,
    parse_model cfg_small [3] = Ok (layers, save) ∧
    run_layers save (as_module toy_instantiate toy_nl_of <$> layers)
      (PTensor 7) [] [] () = Ok (xf, yf, log, ()) ∧
    ∀ (k : nat) b, layers !! k = Some b →
      ∃ c, log !! k = Some c ∧
        reads_outputs (built_f b) (PTensor 7) log k (call_input c).
Proof.
  assert (E : ∃ layers save xf yf log,
    parse_model cfg_small [3] = Ok (layers, save) ∧
    run_layers save (as_module toy_instantiate toy_nl_of <$> layers)
      (PTensor 7) [] [] () = Ok (xf, yf, log, ())).
  { do 5 eexists. split; vm_compute; reflexivity. }
  destruct E as (layers & save & xf & yf & log & E1 & E2).
  exists layers, save, xf, yf, log. split; [exact E1|]. split; [exact E2|].
  exact (built_model_reads_layer_outputs toy_instantiate toy_nl_of cfg_small [3]
           layers save (PTensor 7) () xf yf log () E1 E2).
Defined.

(** * Further properties of the detection head *)

Section detect_frame.
Context {T : Type} `{!Scalar T}.
Implicit Types (d : Detect T) (st : fwd T) (r : tensor T).

(** The loop only adds storages; in training it touches neither [z] nor
    the caches. *)
Lemma forward_scales_heap d scales : ∀ st st',
  forward_scales d scales st = Ok st' →
  (∃ cells, f_heap st' = f_heap st ++ cells) ∧
  (det_training d = true →
     f_z st' = f_z st ∧ f_grid st' = f_grid st ∧
     f_anchor_grid st' = f_anchor_grid st).
Proof.
  induction scales as [|i scales IH]; intros st st' H; simpl in H.
  - injection H as <-. split; [exists []; by rewrite app_nil_r|done].
  - apply bind_Ok in H as (st1 & H1 & H).
    apply forward_scale_prefix in H1
      as (xi & vin & c & r & _ & _ & _ & _ & _ & cells1 & Hh1 & Htr1).
    destruct (IH _ _ H) as ((cells & Hh) & Htr). split.
    + exists (data c :: data r :: cells1 ++ cells). by rewrite Hh, Hh1, <- app_assoc.
    + intros E. destruct (Htr1 E) as (_ & Hz1 & Hg1 & Ha1).
      destruct (Htr E) as (Hz & Hg & Ha). by rewrite Hz, Hg, Ha.
Qed.

(** X10: a call of [forward] that returns has written into no tensor that
    existed before it: every tensor object keeps the value it had, the
    storages made by the call coming after the existing ones.  In training
    the call returns the list [x] alone and leaves the grid and
    anchor-grid caches as they were. *)
Theorem forward_preserves_existing_tensors d x (h : heap T) res d1 h1 :
  forward d x h = Ok (res, d1, h1) →
  (∃ cells, h1 = h ++ cells) ∧
  (∀ p t, deref h p = Ok t → deref h1 p = Ok t) ∧
  (det_training d = true →
     (∃ xs, res = Training xs) ∧
     det_grid d1 = det_grid d ∧ det_anchor_grid d1 = det_anchor_grid d).
Proof.
  intros H. unfold forward in H. apply bind_Ok in H as (st & Hst & H).
  destruct (forward_scales_heap _ _ _ _ Hst) as ((cells & Hh) & Htr).
  simpl in Hh.
  assert (Hext : ∃ cells', h1 = h ++ cells').
  { destruct (det_training d).
    - injection H as _ _ <-. by exists cells.
    - apply bind_Ok in H as (zs & _ & (pred & _ & H)%bind_Ok).
      unfold alloc in H. injection H as _ _ <-.
      exists (cells ++ [data pred]). by rewrite Hh, <- app_assoc. }
  split; [done|]. split.
  - destruct Hext as [cells' ->]. intros p t Hp.
    rewrite deref_app; [done|]. apply deref_Ok in Hp as [Hp _].
    by eapply lookup_lt_Some.
  - intros E. rewrite E in H. injection H as <- <- _.
    destruct (Htr E) as (_ & Hg & Ha). simpl in *. eauto.
Qed.

(** ** The caches over a whole call *)

Lemma make_grid_shapes d nx ny i g a :
  _make_grid d nx ny i = Ok (g, a) →
  shape g = [1%nat; det_na d; ny; nx; 2%nat] ∧
  shape a = [1%nat; det_na d; ny; nx; 2%nat].
Proof.
  unfold _make_grid.
  intros (ai & _ & H)%bind_Ok. destruct (meshgrid _ _) as [yv xv].
  apply bind_Ok in H as (s & _ & (grid & Hg & (si & _ & (a' & _ &
    (ag & Ha & [= <- <-])%bind_Ok)%bind_Ok)%bind_Ok)%bind_Ok).
  apply expand_Ok in Hg as [Hg _]. apply expand_Ok in Ha as [Ha _]. done.
Qed.

(** In inference, for every scale the loop goes through: the cached grid it
    leaves has the spatial size of the scale, and it is the one that was
    there when that one had this size and dynamic shapes are off. *)
Lemma forward_scales_caches d scales : ∀ st st',
  det_training d = false →
  forward_scales d scales st = Ok st' →
  NoDup scales →
  handles_in (f_heap st) (f_x st) →
  ∀ i : nat, i ∈ scales →
    ∃ xi vin r bs ny nx gi ai,
      f_x st !! i = Some xi ∧ deref (f_heap st) xi = Ok vin ∧
      raw_scale d i vin = Ok r ∧
      shape r = [bs; det_na d; ny; nx; det_no d] ∧
      f_grid st' !! i = Some gi ∧ f_anchor_grid st' !! i = Some ai ∧
      take 2 (drop 2 (shape gi)) = [ny; nx] ∧
      (det_onnx_dynamic d = false →
       (∃ g, f_grid st !! i = Some g ∧ take 2 (drop 2 (shape g)) = [ny; nx]) →
       f_grid st' !! i = f_grid st !! i ∧
       f_anchor_grid st' !! i = f_anchor_grid st !! i).
Proof.
  induction scales as [|i0 scales IH]; intros st st' Htr H Hnd Hin i Hi; simpl in H.
  - by apply elem_of_nil in Hi.
  - apply bind_Ok in H as (st1 & H1 & H).
    apply NoDup_cons in Hnd as [Hi0 Hnd].
    pose proof H1 as Hstep.
    apply forward_scale_inference in H1
      as (xi & vin & c & r & bs & ch & ny & nx & stale & gi & ai & si & y & zi & cells &
          Hxi & Hvin & Hraw & (mi & Hmi & Hc) & Hsc & Hstale & Hcache & Hgi & Hai & _ &
          Hh1 & Hx1 & _); [|done].
    assert (Hsr : shape r = [bs; det_na d; ny; nx; det_no d]).
    { destruct (raw_scale_Ok _ _ _ _ Hraw)
        as (mi' & c' & bs' & ch' & ny' & nx' & Hmi' & Hc' & Hsc' & Hsr & _).
      rewrite Hmi in Hmi'. injection Hmi' as <-.
      rewrite Hc in Hc'. injection Hc' as <-.
      rewrite Hsc in Hsc'. by injection Hsc' as <- <- <- <-. }
    assert (Hin1 : handles_in (f_heap st1) (f_x st1)).
    { rewrite Hx1. apply handles_in_insert.
      - rewrite Hh1. by apply handles_in_app.
      - rewrite Hh1, length_app. simpl. lia. }
    apply elem_of_cons in Hi as [->|Hi].
    + destruct (forward_scales_other_grid _ _ _ _ i0 H Hi0) as [Hg' Ha'].
      exists xi, vin, r, bs, ny, nx, gi, ai.
      do 4 (split; [done|]). split; [by rewrite Hg'|]. split; [by rewrite Ha'|].
      destruct (grid_stale_Ok _ _ _ _ _ _ _ _ _ _ Hsr Hstale) as [Hiff Hex].
      destruct stale.
      * destruct Hcache as (g & a & Hmk & Hg1 & Ha1).
        apply make_grid_shapes in Hmk as [Sg _].
        assert (gi = g) as ->.
        { rewrite Hg1 in Hgi. apply lookup_lt_Some in Hgi as Hlt.
          rewrite length_insert in Hlt.
          rewrite list_lookup_insert_eq in Hgi by done. by injection Hgi. }
        split; [by rewrite Sg|].
        intros Hdyn (g0 & Hg0 & Sg0). exfalso.
        destruct (proj1 Hiff eq_refl) as [E|(g1 & Hg1' & Sg1)]; [congruence|].
        rewrite Hg0 in Hg1'. injection Hg1' as <-. done.
      * destruct Hcache as [Hg1 Ha1]. rewrite Hg', Ha', Hg1, Ha1.
        split; [|done].
        destruct (det_onnx_dynamic d) eqn:Hdyn.
        { assert (false = true) by (apply Hiff; by left). done. }
        destruct (Hex eq_refl) as [g0 Hg0].
        rewrite Hg1, Hg0 in Hgi. injection Hgi as ->.
        destruct (decide (take 2 (drop 2 (shape gi)) = [ny; nx])) as [E|E]; [done|].
        assert (false = true) by (apply Hiff; right; by exists gi). done.
    + assert (Hji : i0 ≠ i) by (intros ->; done).
      destruct (IH _ _ Htr H Hnd Hin1 i Hi)
        as (xj & vj & rj & bsj & nyj & nxj & gj & aj & Hxj & Hvj & Hrj & Hsj &
            Hgj & Haj & Sgj & Hkeep).
      rewrite Hx1, list_lookup_insert_ne in Hxj by done.
      exists xj, vj, rj, bsj, nyj, nxj, gj, aj.
      split; [done|]. split.
      { rewrite Hh1, deref_app in Hvj; [done|]. by eapply handles_in_lookup. }
      do 5 (split; [done|]).
      destruct (forward_scale_other_grid d i0 st st1 i Hstep Hji) as [Hg1 Ha1].
      rewrite <- Hg1, <- Ha1. done.
Qed.


(** X11: after an inference call that returns, the cached grid of every
    scale has, at its axes 2 and 3, the height and width of the output
    convolution of that scale, so that a further call on inputs of these
    sizes finds every grid in place. *)
Theorem inference_caches_fit_inputs d x (h : heap T) res d1 h1 :
  det_training d = false →
  handles_in h x →
  forward d x h = Ok (res, d1, h1) →
  ∀ i : nat, (i < det_nl d)%nat →
    ∃ xi vin r bs ny nx gi ai,
      x !! i = Some xi ∧ deref h xi = Ok vin ∧ raw_scale d i vin = Ok r ∧
      shape r = [bs; det_na d; ny; nx; det_no d] ∧
      det_grid d1 !! i = Some gi ∧ det_anchor_grid d1 !! i = Some ai ∧
      take 2 (drop 2 (shape gi)) = [ny; nx].
Proof.
  intros Htr Hin H i Hi. unfold forward in H.
  apply bind_Ok in H as (st & Hst & H). rewrite Htr in H.
  apply bind_Ok in H as (zs & _ & (pred & _ & H)%bind_Ok).
  unfold alloc in H. injection H as _ <- _.
  destruct (forward_scales_caches d _ _ _ Htr Hst (NoDup_seq 0 (det_nl d)) Hin i)
    as (xi & vin & r & bs & ny & nx & gi & ai & H1 & H2 & H3 & H4 & H5 & H6 & H7 & _).
  { apply elem_of_seq. lia. }
  by exists xi, vin, r, bs, ny, nx, gi, ai.
Qed.

(** X12: with dynamic shapes off, an inference call that finds, for every
    scale, a cached grid of the height and width of the scale returns with
    both caches exactly as they were: no grid and no anchor grid is
    rebuilt. *)
Theorem cache_hit_keeps_grids d x (h : heap T) res d1 h1 :
  det_training d = false →
  det_onnx_dynamic d = false →
  handles_in h x →
  forward d x h = Ok (res, d1, h1) →
  (∀ (i : nat) xi vin r,
     (i < det_nl d)%nat → x !! i = Some xi → deref h xi = Ok vin →
     raw_scale d i vin = Ok r →
     ∃ g, det_grid d !! i = Some g ∧
          take 2 (drop 2 (shape g)) = take 2 (drop 2 (shape r))) →
  det_grid d1 = det_grid d ∧ det_anchor_grid d1 = det_anchor_grid d.
Proof.
  intros Htr Hdyn Hin H Hfit. unfold forward in H.
  apply bind_Ok in H as (st & Hst & H). rewrite Htr in H.
  apply bind_Ok in H as (zs & _ & (pred & _ & H)%bind_Ok).
  unfold alloc in H. injection H as _ <- _. simpl.
  assert (Hj : ∀ j : nat,
            f_grid st !! j = det_grid d !! j ∧
            f_anchor_grid st !! j = det_anchor_grid d !! j).
  { intros j. destruct (decide (j < det_nl d)%nat) as [Hlt|Hge].
    - destruct (forward_scales_caches d _ _ _ Htr Hst (NoDup_seq 0 (det_nl d)) Hin j)
        as (xi & vin & r & bs & ny & nx & gi & ai & H1 & H2 & H3 & H4 & _ & _ & _ & Hkeep).
      { apply elem_of_seq. lia. }
      simpl in *. apply Hkeep; [done|].
      destruct (Hfit j xi vin r Hlt H1 H2 H3) as (g & Hg & Sg).
      exists g. split; [done|]. by rewrite Sg, H4.
    - apply (forward_scales_other_grid _ _ _ _ j Hst).
      rewrite elem_of_seq. lia. }
  split; apply list_eq; intros j; by destruct (Hj j).
Qed.

(** ** What makes [forward] raise *)

(** X13: in inference, a module whose [stride] is still [None] (as it is
    until the model has computed the strides) raises on its first scale:
    [self.stride[i]] is read for the decoding and for a new anchor grid. *)
Theorem inference_needs_stride d x (h : heap T) :
  det_training d = false →
  det_stride d = None →
  (0 < det_nl d)%nat →
  is_Err (forward d x h).
Proof.
  intros Htr Hs Hnl. destruct (forward d x h) as [r|e] eqn:E; [exfalso|by exists e].
  unfold forward in E. apply bind_Ok in E as (st & Hst & _).
  destruct (det_nl d) as [|n]; [lia|]. simpl in Hst.
  apply bind_Ok in Hst as (st1 & H1 & _).
  apply forward_scale_inference in H1
    as (xi & vin & c & r0 & bs & ch & ny & nx & stale & gi & ai & si & y & zi & cells &
        _ & _ & _ & _ & _ & _ & _ & _ & _ & Hsi & _); [|done].
  unfold stride_at in Hsi. by rewrite Hs in Hsi.
Qed.

Lemma forward_scales_inputs d scales : ∀ st st',
  forward_scales d scales st = Ok st' →
  ∀ i : nat, i ∈ scales → (i < length (f_x st))%nat ∧ (i < length (det_m d))%nat.
Proof.
  induction scales as [|i0 scales IH]; intros st st' H i Hi; simpl in H.
  - by apply elem_of_nil in Hi.
  - apply bind_Ok in H as (st1 & H1 & H).
    apply forward_scale_prefix in H1
      as (xi & vin & c & r & Hxi & _ & _ & (mi & Hmi & _) & Hx1 & _).
    apply elem_of_cons in Hi as [->|Hi].
    + split; by eapply lookup_lt_Some.
    + destruct (IH _ _ H i Hi) as [Hlt Hm]. rewrite Hx1, length_insert in Hlt. done.
Qed.

(** X14: [forward] raises when the list [x] has fewer entries than the
    module has scales, or when the module has fewer output convolutions
    than scales. *)
Theorem forward_needs_every_scale d x (h : heap T) :
  (length x < det_nl d)%nat ∨ (length (det_m d) < det_nl d)%nat →
  is_Err (forward d x h).
Proof.
  intros Hlen. destruct (forward d x h) as [r|e] eqn:E; [exfalso|by exists e].
  unfold forward in E. apply bind_Ok in E as (st & Hst & _).
  destruct Hlen as [Hlen|Hlen].
  - destruct (forward_scales_inputs _ _ _ _ Hst (length x)) as [Hlt _]; simpl in *; [|lia].
    apply elem_of_seq. lia.
  - destruct (forward_scales_inputs _ _ _ _ Hst (length (det_m d))) as [_ Hlt]; [|lia].
    apply elem_of_seq. lia.
Qed.

Lemma raw_scale_channels d i vin r :
  raw_scale d i vin = Ok r →
  ∃ mi c bs ch ny nx,
    det_m d !! i = Some mi ∧ mi vin = Ok c ∧ shape c = [bs; ch; ny; nx] ∧
    ((bs * ny * nx)%nat ≠ 0%nat → ch = (det_na d * det_no d)%nat).
Proof.
  unfold raw_scale.
  intros (mi & Hmi%item_Ok & (c & Hc & ([[bs ny] nx] & Hu &
    (v & Hv & _)%bind_Ok)%bind_Ok)%bind_Ok)%bind_Ok.
  apply unpack4_Ok in Hu as [ch Hsc].
  exists mi, c, bs, ch, ny, nx. do 3 (split; [done|]).
  unfold view in Hv. case_bool_decide as Hn; [|discriminate].
  rewrite Hsc in Hn. simpl in Hn. intros Hne. nia.
Qed.

(** X15: [forward] returns only if, at every scale, the output convolution
    answers with a four-dimensional tensor whose channel count is
    [na * no] (or which has no element at all): any other output makes the
    view as (bs, na, no, ny, nx) raise. *)
Theorem forward_checks_conv_outputs d x (h : heap T) res d1 h1 :
  handles_in h x →
  forward d x h = Ok (res, d1, h1) →
  ∀ i : nat, (i < det_nl d)%nat →
    ∃ xi vin mi c bs ch ny nx,
      x !! i = Some xi ∧ deref h xi = Ok vin ∧
      det_m d !! i = Some mi ∧ mi vin = Ok c ∧ shape c = [bs; ch; ny; nx] ∧
      ((bs * ny * nx)%nat ≠ 0%nat → ch = (det_na d * det_no d)%nat).
Proof.
  intros Hin H i Hi. unfold forward in H. apply bind_Ok in H as (st & Hst & _).
  destruct (forward_scales_x _ _ _ _ Hst (NoDup_seq 0 (det_nl d)) Hin)
    as (_ & _ & _ & _ & Hins).
  destruct (Hins i) as (xi & vin & r & p & Hxi & Hvin & Hraw & _).
  { apply elem_of_seq. lia. }
  destruct (raw_scale_channels _ _ _ _ Hraw) as (mi & c & bs & ch & ny & nx & Hrest).
  by exists xi, vin, mi, c, bs, ch, ny, nx.
Qed.

End detect_frame.

Lemma forward_preserves_existing_tensors_witness :
  ∃ res d1 h1,
    forward (toy_detect true true) toy_x toy_heap = Ok (res, d1, h1) ∧
    (∃ cells, h1 = toy_heap ++ cells) ∧
    (∀ p t, deref toy_heap p = Ok t → deref h1 p = Ok t) ∧
    (det_training (toy_detect true true) = true →
       (∃ xs, res = Training xs) ∧
       det_grid d1 = det_grid (toy_detect true true) ∧
       det_anchor_grid d1 = det_anchor_grid (toy_detect true true)).
Proof.
  assert (E : ∃ res d1 h1,
             forward (toy_detect true true) toy_x toy_heap = Ok (res, d1, h1)).
  { do 3 eexists. vm_compute. reflexivity. }
  destruct E as (res & d1 & h1 & E). exists res, d1, h1. split; [exact E|].
  exact (forward_preserves_existing_tensors (toy_detect true true) toy_x toy_heap
           res d1 h1 E).
Defined.

Lemma inference_caches_fit_inputs_witness :
  ∃ res d1 h1,
    forward (toy_detect false true) toy_x toy_heap = Ok (res, d1, h1) ∧
    ∀ i : nat, (i < det_nl (toy_detect false true))%nat →
      ∃ xi vin r bs ny nx gi ai,
        toy_x !! i = Some xi ∧ deref toy_heap xi = Ok vin ∧
        raw_scale (toy_detect false true) i vin = Ok r ∧
        shape r = [bs; det_na (toy_detect false true); ny; nx;
                   det_no (toy_detect false true)] ∧
        det_grid d1 !! i = Some gi ∧ det_anchor_grid d1 !! i = Some ai ∧
        take 2 (drop 2 (shape gi)) = [ny; nx].
Proof.
  assert (E : ∃ res d1 h1,
             forward (toy_detect false true) toy_x toy_heap = Ok (res, d1, h1)).
  { do 3 eexists. vm_compute. reflexivity. }
  destruct E as (res & d1 & h1 & E). exists res, d1, h1. split; [exact E|].
  apply (inference_caches_fit_inputs (toy_detect false true) toy_x toy_heap res d1 h1);
    [reflexivity|repeat constructor|exact E].
Defined.

Lemma cache_hit_keeps_grids_witness :
  ∃ res d1 h1,
    forward toy_detect_warm toy_x toy_heap = Ok (res, d1, h1) ∧
    det_grid d1 = det_grid toy_detect_warm ∧
    det_anchor_grid d1 = det_anchor_grid toy_detect_warm.
Proof.
  assert (E : ∃ res d1 h1,
             forward toy_detect_warm toy_x toy_heap = Ok (res, d1, h1)).
  { do 3 eexists. vm_compute. reflexivity. }
  destruct E as (res & d1 & h1 & E). exists res, d1, h1. split; [exact E|].
  apply (cache_hit_keeps_grids toy_detect_warm toy_x toy_heap res d1 h1);
    [reflexivity|reflexivity|repeat constructor|exact E|].
  intros i xi vin r Hi Hx Hv Hr. destruct i as [|i]; [|simpl in Hi; lia].
  injection Hx as <-. vm_compute in Hv. injection Hv as <-.
  vm_compute in Hr. injection Hr as <-.
  eexists. split; vm_compute; reflexivity.
Defined.

Lemma inference_needs_stride_witness :
  is_Err (forward toy_detect_unbuilt toy_x toy_heap).
Proof.
  apply (inference_needs_stride toy_detect_unbuilt toy_x toy_heap);
    [reflexivity|reflexivity|simpl; lia].
Defined.

Lemma forward_needs_every_scale_witness :
  is_Err (forward (toy_detect false true) [] toy_heap).
Proof.
  apply (forward_needs_every_scale (toy_detect false true) [] toy_heap).
  left. simpl. lia.
Defined.

Lemma forward_checks_conv_outputs_witness :
  ∃ res d1 h1,
    forward (toy_detect false true) toy_x toy_heap = Ok (res, d1, h1) ∧
    ∀ i : nat, (i < det_nl (toy_detect false true))%nat →
      ∃ xi vin mi c bs ch ny nx,
        toy_x !! i = Some xi ∧ deref toy_heap xi = Ok vin ∧
        det_m (toy_detect false true) !! i = Some mi ∧ mi vin = Ok c ∧
        shape c = [bs; ch; ny; nx] ∧
        ((bs * ny * nx)%nat ≠ 0%nat →
         ch = (det_na (toy_detect false true) * det_no (toy_detect false true))%nat).
Proof.
  assert (E : ∃ res d1 h1,
             forward (toy_detect false true) toy_x toy_heap = Ok (res, d1, h1)).
  { do 3 eexists. vm_compute. reflexivity. }
  destruct E as (res & d1 & h1 & E). exists res, d1, h1. split; [exact E|].
  apply (forward_checks_conv_outputs (toy_detect false true) toy_x toy_heap res d1 h1);
    [repeat constructor|exact E].
Defined.

(** * Further properties of the augmentation decoder *)

(** [sum(4 ** x for x in range(n))] is [(4 ** n - 1) / 3]. *)
Lemma grid_points_closed (n : nat) : 3 * grid_points (Z.of_nat n) + 1 = 4 ^ Z.of_nat n.
Proof.
  unfold grid_points, py_sum, py_range. rewrite Nat2Z.id.
  induction n as [|n IH]; [reflexivity|].
  rewrite seq_S, !fmap_app, foldl_app. simpl.
  rewrite Nat2Z.inj_succ, Z.pow_succ_r by lia. lia.
Qed.

Lemma grid_points_pos (n : nat) :
  (1 ≤ n)%nat →
  0 < grid_points (Z.of_nat n) ∧ 4 ^ (Z.of_nat n - 1) ≤ grid_points (Z.of_nat n).
Proof.
  intros Hn. pose proof (grid_points_closed n) as H.
  replace (Z.of_nat n) with (Z.succ (Z.of_nat n - 1)) in H at 2 by lia.
  rewrite Z.pow_succ_r in H by lia.
  assert (0 < 4 ^ (Z.of_nat n - 1)) by (apply Z.pow_pos_nonneg; lia).
  lia.
Qed.

Section clip_general.
Context {T : Type} `{!Scalar T}.
Implicit Types (t a c : tensor T).

(** [t[:, :0]], which is what [t[:, :-i]] is for [i = 0], keeps nothing. *)
Lemma slice1_to_zero t d0 n r :
  shape t = d0 :: n :: r →
  ∃ t', slice1 None (Some 0) t = Ok t' ∧ shape t' = d0 :: 0%nat :: r.
Proof.
  intros Hsh. unfold slice1. rewrite Hsh.
  assert (Hr : slice_range n None (Some 0) = (0, 0)%nat).
  { unfold slice_range, slice_bound. simpl. f_equal. lia. }
  rewrite Hr. eexists. split; [reflexivity|done].
Qed.

(** The two cuts of [_clip_augmented], for a list of at least two passes. *)
Lemma clip_augmented_steps (nl : Z) a (mid : list (tensor T)) c d0 n0 r0 d2 n2 r2 a' c' :
  grid_points nl ≠ 0 →
  shape a = d0 :: n0 :: r0 →
  shape c = d2 :: n2 :: r2 →
  slice1 None (Some (- (Z.of_nat n0 / grid_points nl * 1))) a = Ok a' →
  slice1 (Some (Z.of_nat n2 / grid_points nl * 4 ^ (nl - 1))) None c = Ok c' →
  _clip_augmented nl (a :: mid ++ [c]) = Ok (a' :: mid ++ [c']).
Proof.
  intros Hg Ha Hc Ha' Hc'. unfold _clip_augmented.
  change (py_index (a :: mid ++ [c]) 0) with (Ok a). rewrite bind_Ok_l. cbv beta.
  rewrite (shape_at_1 a d0 n0 r0 Ha), bind_Ok_l. cbv beta.
  unfold py_floordiv. destruct (grid_points nl =? 0) eqn:E; [lia|].
  rewrite bind_Ok_l. cbv beta zeta.
  change (py_sum ((λ x : Z, 4 ^ x) <$> py_range 1)) with 1.
  rewrite Ha', bind_Ok_l. cbv beta.
  change (<[0%nat:=a']> (a :: mid ++ [c])) with ((a' :: mid) ++ [c]).
  rewrite py_index_last, bind_Ok_l. cbv beta.
  rewrite (shape_at_1 c d2 n2 r2 Hc), bind_Ok_l. cbv beta.
  rewrite bind_Ok_l. cbv beta zeta.
  assert (Hs : py_sum ((λ x : Z, 4 ^ (nl - 1 - x)) <$> py_range 1) = 4 ^ (nl - 1)).
  { unfold py_sum, py_range. simpl. by rewrite Z.sub_0_r. }
  rewrite Hs, Hc', bind_Ok_l. f_equal.
  replace (length ((a' :: mid) ++ [c]) - 1)%nat with (length (a' :: mid) + 0)%nat
    by (rewrite length_app; simpl; lia).
  by rewrite insert_app_r.
Qed.

(** X16: for any number [nl >= 1] of detection layers and any list of at
    least two passes whose first pass holds at least
    [g = (4 ** nl - 1) / 3] predictions, clipping removes the last
    [n0 // g] predictions of the first pass and the first
    [(n2 // g) * 4 ** (nl - 1)] predictions of the last pass, and returns
    every pass in between as it is. *)
Theorem clip_augmented_any_scales (nl : nat) a (mid : list (tensor T)) c
    d0 n0 r0 d2 n2 r2 :
  (1 ≤ nl)%nat →
  shape a = d0 :: n0 :: r0 →
  shape c = d2 :: n2 :: r2 →
  (Z.to_nat (grid_points (Z.of_nat nl)) ≤ n0)%nat →
  let g := Z.to_nat (grid_points (Z.of_nat nl)) in
  let i0 := (n0 / g)%nat in
  let i2 := (n2 / g * 4 ^ (nl - 1))%nat in
  ∃ a' c',
    _clip_augmented (Z.of_nat nl) (a :: mid ++ [c]) = Ok (a' :: mid ++ [c']) ∧
    shape a' = d0 :: (n0 - i0)%nat :: r0 ∧
    (∀ i p idx, in_range (shape a') (i :: p :: idx) →
       a'.[i :: p :: idx] = a.[i :: p :: idx]) ∧
    shape c' = d2 :: (n2 - i2)%nat :: r2 ∧
    (∀ i p idx, in_range (shape c') (i :: p :: idx) →
       c'.[i :: p :: idx] = c.[i :: (p + i2)%nat :: idx]).
Proof.
  intros Hnl Ha Hc Hn0 g i0 i2.
  destruct (grid_points_pos nl Hnl) as [Hgpos Hgle].
  assert (Hgz : Z.of_nat g = grid_points (Z.of_nat nl)) by (subst g; lia).
  assert (Hg1 : (1 ≤ g)%nat) by lia.
  assert (Hp : Z.of_nat (4 ^ (nl - 1)) = 4 ^ (Z.of_nat nl - 1)).
  { rewrite Nat2Z.inj_pow. f_equal. lia. }
  assert (Hi0 : (1 ≤ i0 ≤ n0)%nat).
  { subst i0. split.
    - apply Nat.div_le_lower_bound; lia.
    - apply Nat.Div0.div_le_upper_bound. nia. }
  assert (Hi2 : (i2 ≤ n2)%nat).
  { subst i2. pose proof (Nat.Div0.mul_div_le n2 g).
    assert (4 ^ (nl - 1) ≤ g)%nat by lia. nia. }
  destruct (slice1_drop_tail a d0 n0 r0 i0 Ha Hi0) as (a' & Ha' & Hsa & Hra).
  destruct (slice1_drop_head c d2 n2 r2 i2 Hc Hi2) as (c' & Hc' & Hsc & Hrc).
  exists a', c'. split; [|rewrite Hsa, Hsc; by repeat split].
  apply (clip_augmented_steps _ a mid c d0 n0 r0 d2 n2 r2); [lia|done|done| |].
  - rewrite <- Ha'. do 3 f_equal. subst i0.
    by rewrite Z.mul_1_r, Nat2Z.inj_div, Hgz.
  - rewrite <- Hc'. do 2 f_equal. subst i2.
    by rewrite Nat2Z.inj_mul, Nat2Z.inj_div, Hgz, Hp.
Qed.

(** X17: when the first pass holds fewer than [g = (4 ** nl - 1) / 3]
    predictions, the count to cut from its end is 0 and the slice [:-0]
    keeps nothing: clipping returns the first pass with no prediction
    left. *)
Theorem clip_augmented_empties_short_first_pass (nl : nat) a (mid : list (tensor T)) c
    d0 n0 r0 d2 n2 r2 :
  (1 ≤ nl)%nat →
  shape a = d0 :: n0 :: r0 →
  shape c = d2 :: n2 :: r2 →
  (n0 < Z.to_nat (grid_points (Z.of_nat nl)))%nat →
  ∃ a' c',
    _clip_augmented (Z.of_nat nl) (a :: mid ++ [c]) = Ok (a' :: mid ++ [c']) ∧
    shape a' = d0 :: 0%nat :: r0.
Proof.
  intros Hnl Ha Hc Hn0.
  destruct (grid_points_pos nl Hnl) as [Hgpos Hgle].
  set (g := Z.to_nat (grid_points (Z.of_nat nl))) in *.
  assert (Hgz : Z.of_nat g = grid_points (Z.of_nat nl)) by (subst g; lia).
  assert (Hp : Z.of_nat (4 ^ (nl - 1)) = 4 ^ (Z.of_nat nl - 1)).
  { rewrite Nat2Z.inj_pow. f_equal. lia. }
  assert (Hi2 : (n2 / g * 4 ^ (nl - 1) ≤ n2)%nat).
  { pose proof (Nat.Div0.mul_div_le n2 g).
    assert (4 ^ (nl - 1) ≤ g)%nat by lia. nia. }
  destruct (slice1_to_zero a d0 n0 r0 Ha) as (a' & Ha' & Hsa).
  destruct (slice1_drop_head c d2 n2 r2 _ Hc Hi2) as (c' & Hc' & _).
  exists a', c'. split; [|done].
  apply (clip_augmented_steps _ a mid c d0 n0 r0 d2 n2 r2); [lia|done|done| |].
  - rewrite <- Ha'. do 3 f_equal.
    rewrite <- Hgz, <- Nat2Z.inj_div, Nat.div_small by lia. done.
  - rewrite <- Hc'. do 2 f_equal.
    by rewrite Nat2Z.inj_mul, Nat2Z.inj_div, Hgz, Hp.
Qed.

End clip_general.

Lemma clip_augmented_any_scales_witness :
  ∃ a' c',
    _clip_augmented 2 ([iota [1; 10; 1]%nat] ++ [iota [1; 10; 1]%nat])
      = Ok ([a'] ++ [c']) ∧
    shape a' = [1; 10 - 10 / 5; 1]%nat ∧
    (∀ i p idx, in_range (shape a') (i :: p :: idx) →
       a'.[i :: p :: idx] = (iota [1; 10; 1]%nat).[i :: p :: idx]) ∧
    shape c' = [1; 10 - 10 / 5 * 4 ^ (2 - 1); 1]%nat ∧
    (∀ i p idx, in_range (shape c') (i :: p :: idx) →
       c'.[i :: p :: idx]
       = (iota [1; 10; 1]%nat).[i :: (p + 10 / 5 * 4 ^ (2 - 1))%nat :: idx]).
Proof.
  apply (clip_augmented_any_scales 2 (iota [1; 10; 1]%nat) [] (iota [1; 10; 1]%nat)
           1%nat 10%nat [1%nat] 1%nat 10%nat [1%nat]).
  - lia.
  - reflexivity.
  - reflexivity.
  - vm_compute. lia.
Defined.

Lemma clip_augmented_empties_short_first_pass_witness :
  ∃ a' c',
    _clip_augmented 3
      (iota [1; 20; 1]%nat :: [iota [1; 20; 1]%nat] ++ [iota [1; 20; 1]%nat])
      = Ok (a' :: [iota [1; 20; 1]%nat] ++ [c']) ∧
    shape a' = [1; 0; 1]%nat.
Proof.
  apply (clip_augmented_empties_short_first_pass 3 (iota [1; 20; 1]%nat)
           [iota [1; 20; 1]%nat] (iota [1; 20; 1]%nat)
           1%nat 20%nat [1%nat] 1%nat 20%nat [1%nat]).
  - lia.
  - reflexivity.
  - reflexivity.
  - vm_compute. lia.
Defined.

(** ** Tensors with the same elements *)

Lemma in_range_unravel sh : ∀ j,
  (j < numel sh)%nat → in_range sh (unravel sh j) ∧ ravel sh (unravel sh j) = j.
Proof.
  induction sh as [|d sh IH]; intros j Hj; simpl in *.
  - split; [constructor|lia].
  - fold (numel sh) in *.
    assert (Hn : numel sh ≠ 0%nat) by (intros E; rewrite E in Hj; lia).
    destruct (IH (j mod numel sh)%nat) as [Hin Hrav].
    { by apply Nat.mod_upper_bound. }
    split.
    + constructor; [|done]. apply Nat.Div0.div_lt_upper_bound. lia.
    + rewrite Hrav. pose proof (Nat.div_mod_eq j (numel sh)). lia.
Qed.

Section tensor_ext.
Context {T : Type} `{!Scalar T}.

(** Two well-formed tensors of one shape with the same element at every
    index are the same tensor. *)
Lemma tensor_ext (t1 t2 : tensor T) :
  wf_tensor t1 → wf_tensor t2 → shape t1 = shape t2 →
  (∀ idx, in_range (shape t1) idx → t1.[idx] = t2.[idx]) →
  t1 = t2.
Proof.
  destruct t1 as [sh d1], t2 as [sh2 d2]. unfold wf_tensor. simpl.
  intros W1 W2 <- Hel. f_equal.
  apply list_eq_same_length with (numel sh); [done|done|].
  intros j x y Hj Hx Hy.
  destruct (in_range_unravel sh j Hj) as [Hin Hrav].
  specialize (Hel _ Hin). unfold tref in Hel. simpl in Hel.
  rewrite Hrav, Hx, Hy in Hel. done.
Qed.

Lemma cat_last_runs (t0 : tensor T) ts :
  Forall (λ t, shape t ≠ [] ∧ lead (shape t) = lead (shape t0)) (t0 :: ts) →
  ∃ out, cat_last (t0 :: ts) = Ok out ∧ wf_tensor out.
Proof.
  intros H. unfold cat_last. rewrite bool_decide_eq_true_2 by done.
  eexists. split; [done|]. apply wf_tabulate.
Qed.

Lemma descaled_ext (p : tensor T) flips scale h w h' w' idx :
  (flips = Some 2 → h = h') → (flips = Some 3 → w = w') →
  descaled p flips scale h w idx = descaled p flips scale h' w' idx.
Proof.
  intros Hh Hw. unfold descaled.
  repeat case_bool_decide; try done.
  - destruct H0 as [F _]. by rewrite (Hw F).
  - destruct H1 as [F _]. by rewrite (Hh F).
Qed.

Lemma descale_pred_inplace_wf (p : tensor T) flips scale img_sh y :
  _descale_pred true p flips scale img_sh = Ok y → wf_tensor y.
Proof.
  unfold _descale_pred. intros (p1 & Hp1 & H)%bind_Ok.
  assert (W1 : wf_tensor p1).
  { unfold map_last in Hp1. apply bind_Ok in Hp1 as (? & _ & [= <-]).
    apply wf_tabulate. }
  assert (Hat : ∀ k (g : T → T) q, map_at_last k g p1 = Ok q → wf_tensor q).
  { intros k g q Hq. unfold map_at_last in Hq. apply bind_Ok in Hq as (n & _ & Hq).
    case_bool_decide; [|discriminate]. injection Hq as <-. apply wf_tabulate. }
  case_bool_decide; [|case_bool_decide].
  - apply bind_Ok in H as (h & _ & H). by eapply Hat.
  - apply bind_Ok in H as (w & _ & H). by eapply Hat.
  - by injection H as <-.
Qed.

Lemma descale_pred_copy_wf (p : tensor T) flips scale img_sh y :
  _descale_pred false p flips scale img_sh = Ok y → wf_tensor y.
Proof.
  unfold _descale_pred.
  intros (x & _ & (y0 & _ & (wh & _ & H)%bind_Ok)%bind_Ok)%bind_Ok. cbv zeta in H.
  apply bind_Ok in H as ([x' y'] & _ & (rest & _ & H)%bind_Ok).
  unfold cat_last in H. case_bool_decide; [|discriminate].
  injection H as <-. apply wf_tabulate.
Qed.

(** Both variants, when they return, return the same tensor. *)
Lemma descale_pred_same (p : tensor T) flips scale img_sh y1 y2 :
  _descale_pred true p flips scale img_sh = Ok y1 →
  _descale_pred false p flips scale img_sh = Ok y2 →
  y1 = y2.
Proof.
  intros H1 H2.
  pose proof (descale_pred_inplace_wf _ _ _ _ _ H1) as W1.
  pose proof (descale_pred_copy_wf _ _ _ _ _ H2) as W2.
  apply descale_pred_inplace in H1 as (h & w & Hh & Hw & S1 & R1).
  apply descale_pred_copy in H2 as (h' & w' & Hh' & Hw' & S2 & R2).
  apply tensor_ext; [done|done|congruence|].
  intros idx Hi. rewrite S1 in Hi. rewrite R1, R2 by done.
  apply descaled_ext.
  - intros F. specialize (Hh F). specialize (Hh' F). congruence.
  - intros F. specialize (Hw F). specialize (Hw' F). congruence.
Qed.

Lemma descale_pred_copy_runs (p : tensor T) flips scale img_sh sh n :
  shape p = sh ++ [n] →
  (flips = Some 2 → ∃ h, img_size_at img_sh 0 = Ok h) →
  (flips = Some 3 → ∃ w, img_size_at img_sh 1 = Ok w) →
  ∃ y, _descale_pred false p flips scale img_sh = Ok y.
Proof.
  intros Hsh Hh Hw. unfold _descale_pred.
  destruct (slice_last_nat p sh n 0 1 Hsh) as (x0 & Ex & _ & Sx & _); [lia|].
  change (Z.of_nat 0) with 0 in Ex. change (Z.of_nat 1) with 1 in Ex.
  destruct (slice_last_nat p sh n 1 2 Hsh) as (y0 & Ey & _ & Sy & _); [lia|].
  change (Z.of_nat 1) with 1 in Ey. change (Z.of_nat 2) with 2 in Ey.
  destruct (slice_last_nat p sh n 2 4 Hsh) as (wh0 & Ew & _ & Sw & _); [lia|].
  change (Z.of_nat 2) with 2 in Ew. change (Z.of_nat 4) with 4 in Ew.
  destruct (slice_last_from p sh n 4 Hsh) as (rest & Er & _ & Sr & _).
  change (Z.of_nat 4) with 4 in Er.
  rewrite Ex, bind_Ok_l, Ey, bind_Ok_l, Ew, bind_Ok_l. cbv zeta.
  assert (Hcat : ∀ x y : tensor T, shape x = shape x0 → shape y = shape y0 →
            ∃ out, ('(x, y) ← Ok (x, y);
                    rest ← slice_last (Some 4) None p;
                    cat_last [x; y; tmap (λ v, (v / s_lit scale)%sc) wh0; rest])
                   = Ok out).
  { intros x y Hx Hy. rewrite bind_Ok_l, Er, bind_Ok_l.
    destruct (cat_last_runs x [y; tmap (λ v, (v / s_lit scale)%sc) wh0; rest])
      as (out & Hout & _); [|by exists out].
    rewrite Hx, Sx, lead_app.
    repeat constructor; rewrite ?shape_tmap, ?Hx, ?Hy, ?Sx, ?Sy, ?Sw, ?Sr, ?lead_app;
      done || by destruct sh. }
  case_bool_decide as F2; [|case_bool_decide as F3].
  - destruct (Hh F2) as [h Eh]. rewrite Eh, bind_Ok_l. by apply Hcat.
  - destruct (Hw F3) as [w Ew']. rewrite Ew', bind_Ok_l. by apply Hcat.
  - by apply Hcat.
Qed.

Lemma descale_pred_inplace_runs (p : tensor T) flips scale img_sh sh n :
  shape p = sh ++ [n] → (2 ≤ n)%nat →
  (flips = Some 2 → ∃ h, img_size_at img_sh 0 = Ok h) →
  (flips = Some 3 → ∃ w, img_size_at img_sh 1 = Ok w) →
  ∃ y, _descale_pred true p flips scale img_sh = Ok y.
Proof.
  intros Hsh Hn Hh Hw. unfold _descale_pred, map_last.
  rewrite Hsh, last_dim_snoc, !bind_Ok_l.
  assert (Hat : ∀ k (g : T → T) (q : tensor T), shape q = sh ++ [n] → (k < n)%nat →
            ∃ y, map_at_last k g q = Ok y).
  { intros k g q Hq Hk. unfold map_at_last. rewrite Hq, last_dim_snoc, bind_Ok_l.
    rewrite bool_decide_eq_true_2 by done. by eexists. }
  case_bool_decide as F2; [|case_bool_decide as F3].
  - destruct (Hh F2) as [h Eh]. rewrite Eh, bind_Ok_l. apply Hat; [|lia].
    by rewrite <- Hsh.
  - destruct (Hw F3) as [w Ew']. rewrite Ew', bind_Ok_l. apply Hat; [|lia].
    by rewrite <- Hsh.
  - by eexists.
Qed.

(** X18: on predictions with at least two entries each, the in-place
    variant of [_descale_pred] ([self.inplace] set) and the copying variant
    return in the same cases, and then return the same tensor. *)
Theorem descale_pred_modes_agree (p : tensor T) flips scale img_sh sh n y :
  shape p = sh ++ [n] → (2 ≤ n)%nat →
  _descale_pred true p flips scale img_sh = Ok y ↔
  _descale_pred false p flips scale img_sh = Ok y.
Proof.
  intros Hsh Hn. split; intros H.
  - destruct (descale_pred_inplace _ _ _ _ _ H) as (h & w & Hh & Hw & _).
    destruct (descale_pred_copy_runs p flips scale img_sh sh n Hsh) as [y2 H2]; eauto.
    by rewrite (descale_pred_same _ _ _ _ _ _ H H2).
  - destruct (descale_pred_copy _ _ _ _ _ H) as (h & w & Hh & Hw & _).
    destruct (descale_pred_inplace_runs p flips scale img_sh sh n Hsh Hn) as [y1 H1];
      eauto.
    by rewrite <- (descale_pred_same _ _ _ _ _ _ H1 H).
Qed.

End tensor_ext.

Lemma descale_pred_modes_agree_witness :
  ∃ y,
    _descale_pred true (iota [1; 2; 6]%nat) (Some 3) (83 # 100) [1; 3; 4; 4]%nat = Ok y ∧
    _descale_pred false (iota [1; 2; 6]%nat) (Some 3) (83 # 100) [1; 3; 4; 4]%nat = Ok y.
Proof.
  assert (E : ∃ y, _descale_pred true (iota [1; 2; 6]%nat) (Some 3) (83 # 100)
                     [1; 3; 4; 4]%nat = Ok y).
  { eexists. vm_compute. reflexivity. }
  destruct E as [y E]. exists y. split; [exact E|].
  apply (descale_pred_modes_agree (iota [1; 2; 6]%nat) (Some 3) (83 # 100)
           [1; 3; 4; 4]%nat [1; 2]%nat 6%nat y); [reflexivity|lia|exact E].
Defined.

(** * Further properties of the bias initialisation *)

Section bias_more.
Context {T : Type} `{!Scalar T}.
Implicit Types (bias b cf : tensor T).

Lemma initialize_bias_short na nc cfo bias s :
  (na = 0 ∨ numel (shape bias) mod na ≠ 0 ∨ numel (shape bias) / na < 5)%nat →
  is_Err (initialize_bias na nc cfo bias s).
Proof.
  intros Hbad. unfold initialize_bias, view_rows.
  case_bool_decide as Hna; [|by eexists].
  rewrite bind_Ok_l. unfold add_to_column. cbn [shape].
  rewrite bool_decide_eq_false_2 by lia. by eexists.
Qed.

(** X19: bias initialisation raises when one of the biases that has a
    stride cannot be viewed as [na] rows (its length is no multiple of
    [na], or [na] is 0) or has fewer than five entries per row, so that
    there is no entry 4 to offset. *)
Theorem initialize_biases_needs_five_entries na nc cfo (biases : list (tensor T))
    stride (i : nat) bias s :
  biases !! i = Some bias → stride !! i = Some s →
  (na = 0 ∨ numel (shape bias) mod na ≠ 0 ∨ numel (shape bias) / na < 5)%nat →
  is_Err (_initialize_biases na nc cfo biases stride).
Proof.
  intros Hb Hs Hbad. unfold _initialize_biases. apply bind_Err_l.
  apply (traverse_Err _ _ (bias, s)).
  - apply (list_elem_of_lookup_2 _ i). rewrite lookup_zip_with. by rewrite Hb, Hs.
  - by apply initialize_bias_short.
Qed.

(** What the statements of the auxiliary head leave in one bias. *)
Lemma initialize_aux_bias_Ok na nc cfo bias s b' :
  (∀ cf, cfo = Some cf → wf_tensor cf ∧ ∃ m, shape cf = [m]) →
  initialize_aux_bias na nc cfo bias s = Ok b' →
  let no := (numel (shape bias) / na)%nat in
  length (data b') = (na * no)%nat ∧
  ∀ a k v, (a < na)%nat → (k < no)%nat →
    data bias !! (a * no + k)%nat = Some v →
    data b' !! (a * no + k)%nat =
      Some (match bias_offset_aux nc cfo s k with
            | Some o => (v + o)%sc
            | None => v
            end).
Proof.
  intros Hcf H no. unfold initialize_aux_bias in H.
  apply bind_Ok in H as (b0 & H0 & (b1 & H1 & (b2 & H2 & [= <-])%bind_Ok)%bind_Ok).
  unfold view_rows in H0. case_bool_decide as Hna; [|discriminate].
  injection H0 as <-. fold no in H1.
  unfold add_to_column in H1. cbn [shape] in H1.
  case_bool_decide as H4; [|discriminate]. injection H1 as <-.
  unfold add_to_columns_from in H2. cbn [shape timap tabulate] in H2.
  destruct (broadcastable_to _ _) eqn:Hbc; [|discriminate]. injection H2 as <-.
  cbn [data]. split.
  { unfold timap, tabulate. cbn [data shape]. rewrite length_fmap, length_seq.
    simpl. lia. }
  intros a k v Ha Hk Hv.
  pose proof (in_range_2 na no a k Ha Hk) as Hin.
  rewrite (lookup_timap_2 _ _ na no) by done.
  f_equal. rewrite tref_timap by done.
  assert (Hb : (mkTensor [na; no] (data bias)).[[a; k]] = v).
  { unfold tref. cbn [shape data]. by rewrite ravel_2, Hv. }
  rewrite Hb. change ([a; k] !! 1%nat) with (Some k). unfold bias_offset_aux.
  destruct (decide (k = 4%nat)) as [->|K4].
  { rewrite (bool_decide_eq_true_2 (Some 4%nat = Some 4%nat)) by done.
    rewrite (bool_decide_eq_false_2 (5 ≤ 4)%nat) by lia.
    by rewrite (bool_decide_eq_true_2 (4%nat = 4%nat)). }
  rewrite (bool_decide_eq_false_2 (Some k = Some 4%nat)) by congruence.
  rewrite (bool_decide_eq_false_2 (k = 4%nat)) by done.
  case_bool_decide as K5; [|done]. do 2 f_equal.
  destruct cfo as [cf|].
  - destruct (Hcf cf eq_refl) as (Hwf & m & Hm).
    assert (Hsh : shape (class_frequency_prior cf) = [m]) by done.
    rewrite Hsh. rewrite Hsh in Hbc.
    unfold broadcastable_to in Hbc. apply bool_decide_eq_true in Hbc as [_ Hbc].
    simpl in Hbc. apply Forall2_cons_1 in Hbc as [Hbc _].
    unfold bcast_index. simpl.
    rewrite tref_class_frequency_prior with (m := m); [|done|done|].
    + rewrite Hm. repeat case_bool_decide; congruence.
    + case_bool_decide; lia.
  - unfold bcast_index, scalar_tensor, tref. by simpl.
Qed.

(** The offsets of the auxiliary head, entry by entry. *)
Lemma bias_offset_aux_cases nc cfo (s : T) (k : nat) (v : T) :
  let v' := match bias_offset_aux nc cfo s k with
            | Some o => (v + o)%sc
            | None => v
            end in
  (k = 4%nat → v' = (v + s_log (s_lit 8 / (s_lit 640 / s) ^ 2))%sc) ∧
  ((5 ≤ k)%nat → cfo = None →
   v' = (v + s_log (s_lit (6 # 10)
                        / (s_lit (inject_Z nc) - s_lit (99 # 100))))%sc) ∧
  ((5 ≤ k)%nat → ∀ cf, cfo = Some cf →
   v' = (v + s_log (cf.[[if bool_decide (shape cf = [1%nat]) then 0%nat
                         else (k - 5)%nat]]
                    / foldl s_add (s_lit 0) (data cf)))%sc) ∧
  ((k < 4)%nat → v' = v).
Proof.
  intros v'. subst v'. unfold bias_offset_aux, objectness_prior, class_prior_aux, tsum.
  repeat split; intros; subst; repeat case_bool_decide; try lia; done.
Qed.

(** X20: the initialisation of the auxiliary head, when it completes,
    offsets the biases of both lists of output convolutions ([old] is the
    bias before, [new] the bias after) in the same way, for each scale and
    anchor: entry 4 by [log(8 / (640/stride)^2)]
    and each entry from 5 on by [log(0.6 / (nc - 0.99))], or by
    [log(cf / cf.sum())] of its class when class frequencies are given;
    the other entries stay, and so do the biases past the shortest of the
    two lists and the strides. *)
Theorem initialize_aux_biases_offsets na nc cfo (biases biases2 : list (tensor T))
    stride out out2 :
  (∀ cf, cfo = Some cf → wf_tensor cf ∧ ∃ m, shape cf = [m]) →
  _initialize_aux_biases na nc cfo biases biases2 stride = Ok (out, out2) →
  (∀ (i : nat) bias bias2 s,
     biases !! i = Some bias → biases2 !! i = Some bias2 → stride !! i = Some s →
     ∃ b' b2', out !! i = Some b' ∧ out2 !! i = Some b2' ∧
       ∀ old new, (old, new) = (bias, b') ∨ (old, new) = (bias2, b2') →
         ∀ a k v, (a < na)%nat → (k < numel (shape old) / na)%nat →
           data old !! (a * (numel (shape old) / na) + k)%nat = Some v →
           ∃ v', data new !! (a * (numel (shape old) / na) + k)%nat = Some v' ∧
             (k = 4%nat → v' = (v + s_log (s_lit 8 / (s_lit 640 / s) ^ 2))%sc) ∧
             ((5 ≤ k)%nat → cfo = None →
              v' = (v + s_log (s_lit (6 # 10)
                                   / (s_lit (inject_Z nc) - s_lit (99 # 100))))%sc) ∧
             ((5 ≤ k)%nat → ∀ cf, cfo = Some cf →
              v' = (v + s_log (cf.[[if bool_decide (shape cf = [1%nat]) then 0%nat
                                    else (k - 5)%nat]]
                               / foldl s_add (s_lit 0) (data cf)))%sc) ∧
             ((k < 4)%nat → v' = v)) ∧
  (∀ i : nat,
     (Nat.min (Nat.min (length biases) (length biases2)) (length stride) ≤ i)%nat →
     out !! i = biases !! i ∧ out2 !! i = biases2 !! i).
Proof.
  intros Hcf. unfold _initialize_aux_biases.
  intros (new & Hnew & [= <- <-])%bind_Ok.
  pose proof (traverse_length _ _ _ Hnew) as Hlen.
  rewrite !length_zip in Hlen.
  split.
  - intros i bias bias2 s Hb Hb2 Hs.
    assert (Hz : zip (zip biases biases2) stride !! i = Some (bias, bias2, s)).
    { rewrite !lookup_zip_with. by rewrite Hb, Hb2, Hs. }
    destruct (traverse_lookup _ _ _ _ _ Hnew Hz) as ([b' b2'] & Hb' & Hinit).
    apply bind_Ok in Hinit as (b1 & Hi1 & (b2 & Hi2 & [= <- <-])%bind_Ok).
    pose proof (lookup_lt_Some _ _ _ Hb') as Hlt.
    exists b1, b2.
    split; [by rewrite lookup_app_l, list_lookup_fmap, Hb' by by rewrite length_fmap|].
    split; [by rewrite lookup_app_l, list_lookup_fmap, Hb' by by rewrite length_fmap|].
    intros b0 b0' Hon a k v Ha Hk Hv.
    assert (Hinit : initialize_aux_bias na nc cfo b0 s = Ok b0').
    { destruct Hon as [[= -> ->]|[= -> ->]]; done. }
    destruct (initialize_aux_bias_Ok _ _ _ _ _ _ Hcf Hinit) as [_ Hval].
    eexists. split; [by apply Hval|]. apply bias_offset_aux_cases.
  - intros i Hi. split.
    + destruct (decide (i < length biases)%nat) as [Hlt|Hge].
      * rewrite lookup_app_r by (rewrite length_fmap; lia).
        rewrite length_fmap, lookup_drop. f_equal. lia.
      * rewrite !lookup_ge_None_2; [done|lia|].
        rewrite length_app, length_fmap, length_drop. lia.
    + destruct (decide (i < length biases2)%nat) as [Hlt|Hge].
      * rewrite lookup_app_r by (rewrite length_fmap; lia).
        rewrite length_fmap, lookup_drop. f_equal. lia.
      * rewrite !lookup_ge_None_2; [done|lia|].
        rewrite length_app, length_fmap, length_drop. lia.
Qed.

End bias_more.

Lemma initialize_biases_needs_five_entries_witness :
  is_Err (_initialize_biases 2 1 None [iota [8%nat]] toy_strides).
Proof.
  apply (initialize_biases_needs_five_entries 2 1 None [iota [8%nat]] toy_strides
           0 (iota [8%nat]) (SLit 8)); [reflexivity|reflexivity|].
  right. right. vm_compute. lia.
Defined.

Lemma initialize_aux_biases_offsets_witness :
  ∃ out out2,
    _initialize_aux_biases 2 1 None toy_biases toy_biases2 toy_strides = Ok (out, out2) ∧
    (∀ (i : nat) bias bias2 s,
       toy_biases !! i = Some bias → toy_biases2 !! i = Some bias2 →
       toy_strides !! i = Some s →
       ∃ b' b2', out !! i = Some b' ∧ out2 !! i = Some b2' ∧
         ∀ old new, (old, new) = (bias, b') ∨ (old, new) = (bias2, b2') →
           ∀ a k v, (a < 2)%nat → (k < numel (shape old) / 2)%nat →
             data old !! (a * (numel (shape old) / 2) + k)%nat = Some v →
             ∃ v', data new !! (a * (numel (shape old) / 2) + k)%nat = Some v' ∧
               (k = 4%nat → v' = (v + s_log (s_lit 8 / (s_lit 640 / s) ^ 2))%sc) ∧
               ((5 ≤ k)%nat → (@None (tensor sexpr)) = None →
                v' = (v + s_log (s_lit (6 # 10)
                                     / (s_lit (inject_Z 1) - s_lit (99 # 100))))%sc) ∧
               ((5 ≤ k)%nat → ∀ cf, (@None (tensor sexpr)) = Some cf →
                v' = (v + s_log (cf.[[if bool_decide (shape cf = [1%nat]) then 0%nat
                                      else (k - 5)%nat]]
                                 / foldl s_add (s_lit 0) (data cf)))%sc) ∧
               ((k < 4)%nat → v' = v)) ∧
    (∀ i : nat,
       (Nat.min (Nat.min (length toy_biases) (length toy_biases2)) (length toy_strides) ≤ i)%nat →
       out !! i = toy_biases !! i ∧ out2 !! i = toy_biases2 !! i).
Proof.
  assert (E : ∃ out out2,
    _initialize_aux_biases 2 1 None toy_biases toy_biases2 toy_strides = Ok (out, out2)).
  { do 2 eexists. vm_compute. reflexivity. }
  destruct E as (out & out2 & E). exists out, out2. split; [exact E|].
  apply (initialize_aux_biases_offsets 2 1 None toy_biases toy_biases2 toy_strides
           out out2); [|exact E].
  intros cf Hcf. discriminate.
Defined.

(** * The number of augmented predictions *)

Section augment_count.
Context {T St : Type} `{!Scalar T}.
Context (scale_img : tensor T → Q → Z → tensor T).

Lemma cat1_runs (t0 : tensor T) ts :
  Forall (λ t, (2 ≤ length (shape t))%nat ∧
               <[1%nat := 0%nat]> (shape t) = <[1%nat := 0%nat]> (shape t0)) (t0 :: ts) →
  ∃ out, cat1 (t0 :: ts) = Ok out ∧
    shape out = <[1%nat := sum_list (dim1 ∘ shape <$> t0 :: ts)]> (shape t0).
Proof.
  intros H. unfold cat1. rewrite bool_decide_eq_true_2 by done.
  eexists. split; [done|]. apply shape_tabulate.
Qed.

(** The two cuts for three detection layers, whatever the first pass
    holds. *)
Lemma clip_augmented_3 (a b c : tensor T) d1 n1 r1 d3 n3 r3 :
  shape a = d1 :: n1 :: r1 →
  shape c = d3 :: n3 :: r3 →
  ∃ a' c',
    _clip_augmented 3 [a; b; c] = Ok [a'; b; c'] ∧
    shape a' = d1 :: kept_before_tail n1 (n1 / 21) :: r1 ∧
    shape c' = d3 :: (n3 - n3 / 21 * 16)%nat :: r3.
Proof.
  intros Ha Hc.
  assert (Hi3 : (n3 / 21 * 16 ≤ n3)%nat).
  { pose proof (Nat.Div0.mul_div_le n3 21). lia. }
  destruct (slice1_drop_head c d3 n3 r3 _ Hc Hi3) as (c' & Hc' & Hsc & _).
  assert (Ha' : ∃ a', slice1 None (Some (- (Z.of_nat n1 / 21 * 1))) a = Ok a' ∧
                      shape a' = d1 :: kept_before_tail n1 (n1 / 21) :: r1).
  { rewrite Z.mul_1_r. change 21 with (Z.of_nat 21). rewrite <- Nat2Z.inj_div.
    destruct (n1 / 21)%nat as [|q] eqn:Eq.
    - destruct (slice1_to_zero a d1 n1 r1 Ha) as (a' & E & S). by exists a'.
    - destruct (slice1_drop_tail a d1 n1 r1 (S q) Ha) as (a' & E & S & _).
      + pose proof (Nat.Div0.mul_div_le n1 21). lia.
      + by exists a'. }
  destruct Ha' as (a' & Ea & Sa). exists a', c'. split; [|done].
  apply (clip_augmented_steps 3 a [b] c d1 n1 r1 d3 n3 r3 a' c'); [done|done|done|done|].
  rewrite <- Hc'. do 2 f_equal.
  change (4 ^ (3 - 1)) with (Z.of_nat 16). change (grid_points 3) with (Z.of_nat 21).
  by rewrite <- Nat2Z.inj_div, <- Nat2Z.inj_mul.
Qed.

(** X21: when the three passes of augmented inference have returned
    de-scaled predictions of shapes (d, n1, ...), (d, n2, ...) and
    (d, n3, ...) and the model ends in a head with three detection layers,
    [_forward_augment] returns, with [None] as its second component, a
    tensor that holds [n1 - n1 // 21] (nothing when [n1 < 21]) plus [n2]
    plus [n3 - 16 * (n3 // 21)] predictions. *)
Theorem forward_augment_prediction_count (mdl : Model T St) x st y1 y2 y3 st' last_m
    d n1 n2 n3 r :
  augment_passes scale_img mdl x
    (zip [1; 83 # 100; 67 # 100]%Q [None; Some 3; None]) st = Ok ([y1; y2; y3], st') →
  py_index (model mdl) (-1) = Ok last_m →
  m_nl last_m = 3 →
  shape y1 = d :: n1 :: r → shape y2 = d :: n2 :: r → shape y3 = d :: n3 :: r →
  ∃ out,
    _forward_augment scale_img mdl x st = Ok (out, PNone, st') ∧
    shape out =
      d :: (kept_before_tail n1 (n1 / 21) + n2 + (n3 - n3 / 21 * 16))%nat :: r.
Proof.
  intros Hp Hl Hnl S1 S2 S3. unfold _forward_augment.
  rewrite Hp, bind_Ok_l. cbv beta iota. rewrite Hl, bind_Ok_l, Hnl.
  destruct (clip_augmented_3 y1 y2 y3 d n1 r d n3 r S1 S3) as (a' & c' & Hc & Sa & Sc).
  rewrite Hc, bind_Ok_l.
  destruct (cat1_runs a' [y2; c']) as (out & Ho & So).
  { repeat constructor; rewrite ?Sa, ?S2, ?Sc; simpl; done || lia. }
  rewrite Ho, bind_Ok_l. exists out. split; [done|].
  rewrite So, Sa. simpl. unfold dim1. rewrite Sa, S2, Sc. simpl.
  do 2 f_equal. lia.
Qed.

End augment_count.

Lemma forward_augment_prediction_count_witness :
  ∃ out,
    _forward_augment toy_scale_img toy_detector toy_image () = Ok (out, PNone, ()) ∧
    shape out = [1; kept_before_tail 21 (21 / 21) + 21 + (21 - 21 / 21 * 16); 6]%nat.
Proof.
  assert (E : ∃ y1 y2 y3,
    augment_passes toy_scale_img toy_detector toy_image
      (zip [1; 83 # 100; 67 # 100]%Q [None; Some 3; None]) () = Ok ([y1; y2; y3], ()) ∧
    shape y1 = [1; 21; 6]%nat ∧ shape y2 = [1; 21; 6]%nat ∧ shape y3 = [1; 21; 6]%nat).
  { do 3 eexists. split; [vm_compute; reflexivity|]. repeat split. }
  destruct E as (y1 & y2 & y3 & E & S1 & S2 & S3).
  apply (forward_augment_prediction_count toy_scale_img toy_detector toy_image ()
           y1 y2 y3 () (mkModule 0 (FInt (-1)) 3 toy_head) 1%nat 21%nat 21%nat 21%nat
           [6%nat] E); [reflexivity|reflexivity|exact S1|exact S2|exact S3].
Defined.

(** * When the detection head returns *)

Lemma traverse_runs {A B} (g : A → result B) (l : list A) :
  (∀ a, a ∈ l → ∃ b, g a = Ok b) → ∃ r, traverse g l = Ok r.
Proof.
  induction l as [|a l IH]; intros H; simpl; [by eexists|].
  destruct (H a) as [b Hb]; [by left|]. rewrite Hb, bind_Ok_l.
  destruct IH as [r Hr]; [intros a' Ha'; apply H; by right|].
  rewrite Hr, bind_Ok_l. by eexists.
Qed.

(** A shape stretches to a target of the same length when each size is 1
    or the target's. *)
Ltac stretch :=
  unfold broadcastable_to; apply bool_decide_eq_true_2; simpl;
  split; [lia|];
  repeat (apply List.Forall2_cons; [first [left; simpl; lia | right; simpl; lia]|]);
  apply List.Forall2_nil.

Section detect_runs.
Context {T : Type} `{!Scalar T}.
Implicit Types (d : Detect T) (st : fwd T) (r g a y : tensor T).

Lemma broadcast_grid (b na ny nx k : nat) :
  broadcastable_to [1; na; ny; nx; k]%nat [b; na; ny; nx; k]%nat = true.
Proof.
  stretch.
Qed.

Lemma expand_runs (target : list nat) (t : tensor T) :
  broadcastable_to (shape t) target = true → ∃ t', expand target t = Ok t'.
Proof. intros Hb. unfold expand. rewrite Hb. by eexists. Qed.

Lemma make_grid_runs d nx ny i n si :
  shape (det_anchors d) = [n; det_na d; 2%nat] → (i < n)%nat →
  stride_at d i = Ok si →
  ∃ g a, _make_grid d nx ny i = Ok (g, a).
Proof.
  intros Hsa Hi Hsi. unfold _make_grid, select0. rewrite Hsa.
  rewrite bool_decide_eq_true_2 by done. rewrite bind_Ok_l.
  unfold meshgrid, stack2. cbn [shape tabulate arange].
  rewrite bool_decide_eq_true_2 by done. rewrite bind_Ok_l.
  match goal with
  | |- context [expand ?tg ?t ≫= _] =>
      destruct (expand_runs tg t) as [grid Hg]; [rewrite shape_tabulate; stretch|];
      rewrite Hg, bind_Ok_l
  end.
  rewrite Hsi, bind_Ok_l.
  unfold view. cbn [shape tmap tabulate].
  rewrite bool_decide_eq_true_2 by (simpl; lia). rewrite bind_Ok_l.
  match goal with
  | |- context [expand ?tg ?t ≫= _] =>
      destruct (expand_runs tg t) as [ag Ha]; [cbn [shape]; stretch|];
      rewrite Ha, bind_Ok_l
  end.
  by do 2 eexists.
Qed.

Lemma assign_last_runs (lo hi : nat) (f : T → T → T) g y sh n :
  shape y = sh ++ [n] → (lo ≤ hi)%nat →
  broadcastable_to (shape g) (sh ++ [(Nat.min hi n - Nat.min lo n)%nat]) = true →
  ∃ y', assign_last lo hi f g y = Ok y' ∧ shape y' = shape y.
Proof.
  intros Hsh Hle Hb. unfold assign_last.
  rewrite Hsh, last_dim_snoc, bind_Ok_l, slice_range_nat by done.
  unfold lead. rewrite lead_snoc, Hb. eexists. split; [done|].
  unfold timap. by rewrite shape_tabulate.
Qed.

Lemma zip_bcast_runs (f : T → T → T) g y :
  broadcastable_to (shape g) (shape y) = true →
  ∃ y', zip_bcast f g y = Ok y'.
Proof. intros Hb. unfold zip_bcast. rewrite Hb. by eexists. Qed.

Lemma view_infer_handle_runs (bs na ny nx no loc : nat) :
  (0 < bs)%nat → (0 < no)%nat →
  ∃ z, view_infer_handle bs no (mkHandle loc [bs; na; ny; nx; no]) = Ok z.
Proof.
  intros Hbs Hno. unfold view_infer_handle. cbn [h_shape h_loc].
  rewrite bool_decide_eq_true_2; [by eexists|]. split; [lia|].
  rewrite numel_5. apply Nat.Div0.mod_mul.
Qed.

(** Rebuilding or keeping the caches succeeds on a usable cache, and leaves
    entries of the shape of the scale. *)
Lemma grid_refresh_runs d i n si st r bs ny nx :
  shape (det_anchors d) = [n; det_na d; 2%nat] → (i < n)%nat →
  stride_at d i = Ok si →
  shape r = [bs; det_na d; ny; nx; det_no d] →
  cache_usable d (f_grid st) (f_anchor_grid st) i ny nx →
  ∃ (stale : bool) grid agrid gi ai,
    grid_stale d (f_grid st) i r = Ok stale ∧
    (if stale
     then '(g, a) ← _make_grid d nx ny i;
          Ok (<[i := g]> (f_grid st), <[i := a]> (f_anchor_grid st))
     else Ok (f_grid st, f_anchor_grid st)) = Ok (grid, agrid) ∧
    grid !! i = Some gi ∧ agrid !! i = Some ai ∧
    shape gi = [1%nat; det_na d; ny; nx; 2%nat] ∧
    shape ai = [1%nat; det_na d; ny; nx; 2%nat].
Proof.
  intros Hsa Hi Hsi Hsr (g0 & a0 & Hg0 & Ha0 & Hcase).
  destruct (make_grid_runs d nx ny i n si Hsa Hi Hsi) as (g & a & Hmk).
  destruct (make_grid_shapes _ _ _ _ _ _ Hmk) as [Sg Sa].
  assert (Hrebuild :
    ∃ grid agrid gi ai,
      ('(g, a) ← _make_grid d nx ny i;
       Ok (<[i := g]> (f_grid st), <[i := a]> (f_anchor_grid st))) = Ok (grid, agrid) ∧
      grid !! i = Some gi ∧ agrid !! i = Some ai ∧
      shape gi = [1%nat; det_na d; ny; nx; 2%nat] ∧
      shape ai = [1%nat; det_na d; ny; nx; 2%nat]).
  { rewrite Hmk, bind_Ok_l. eexists _, _, g, a. split; [done|].
    split; [apply list_lookup_insert_eq; by eapply lookup_lt_Some|].
    split; [apply list_lookup_insert_eq; by eapply lookup_lt_Some|]. done. }
  unfold grid_stale.
  destruct (det_onnx_dynamic d) eqn:Hdyn.
  { destruct Hrebuild as (grid & agrid & gi & ai & Hr).
    by exists true, grid, agrid, gi, ai. }
  apply item_Ok in Hg0 as Hg0'. rewrite Hg0', bind_Ok_l, Hsr.
  change (take 2 (drop 2 [bs; det_na d; ny; nx; det_no d])) with [ny; nx].
  case_bool_decide as Hdims.
  - destruct Hrebuild as (grid & agrid & gi & ai & Hr).
    by exists true, grid, agrid, gi, ai.
  - destruct Hcase as [?|[?|[Sg0 Sa0]]]; [done|done|].
    by exists false, (f_grid st), (f_anchor_grid st), g0, a0.
Qed.

(** One iteration of the loop returns in inference when the scale is fed a
    convolution output of [na * no] channels and finds a usable cache. *)
Lemma forward_scale_runs d i st n s bs xi vin mi c ny nx :
  det_training d = false → (0 < bs)%nat → (4 ≤ det_no d)%nat →
  shape (det_anchors d) = [n; det_na d; 2%nat] → (i < n)%nat →
  det_stride d = Some s → (i < length (data s))%nat →
  f_x st !! i = Some xi → deref (f_heap st) xi = Ok vin →
  det_m d !! i = Some mi → mi vin = Ok c →
  shape c = [bs; (det_na d * det_no d)%nat; ny; nx] →
  cache_usable d (f_grid st) (f_anchor_grid st) i ny nx →
  ∃ st', forward_scale d i st = Ok st'.
Proof.
  intros Htr Hbs Hno Hsa Hi Hs Hsl Hxi Hvin Hmi Hc Hsc Hcache.
  assert (Hsi : ∃ si, stride_at d i = Ok si).
  { unfold stride_at. rewrite Hs. destruct (data s !! i) as [si|] eqn:E.
    - exists si. by apply item_Ok.
    - apply lookup_ge_None in E. lia. }
  destruct Hsi as [si Hsi].
  unfold forward_scale. cbv beta iota zeta delta [alloc].
  apply item_Ok in Hmi, Hxi.
  rewrite Hmi, bind_Ok_l, Hxi, bind_Ok_l, Hvin, bind_Ok_l, Hc, bind_Ok_l.
  rewrite Hsc. cbn [unpack4]. rewrite bind_Ok_l.
  unfold view. rewrite Hsc.
  rewrite bool_decide_eq_true_2 by (simpl; lia). rewrite bind_Ok_l.
  cbn [permute_01342 shape]. rewrite bind_Ok_l, Htr.
  set (r := tabulate [bs; det_na d; ny; nx; det_no d] _).
  assert (Hsr : shape r = [bs; det_na d; ny; nx; det_no d]) by done.
  clearbody r.
  destruct (grid_refresh_runs d i n si st r bs ny nx Hsa Hi Hsi Hsr Hcache)
    as (stale & grid & agrid & gi & ai & Hstale & Hrefresh & Hgi & Hai & Sg & Sa).
  rewrite Hstale, bind_Ok_l, Hrefresh, bind_Ok_l.
  apply item_Ok in Hgi, Hai.
  rewrite Hgi, bind_Ok_l, Hai, bind_Ok_l, Hsi, bind_Ok_l.
  rewrite !length_app. simpl length.
  rewrite <- !app_assoc. simpl app.
  replace (length (f_heap st) + 1 + 1)%nat with (length (f_heap st) + 2)%nat by lia.
  change (shape (tmap s_sigmoid r)) with (shape r).
  rewrite deref_third, !bind_Ok_l.
  change (data (tmap s_sigmoid r)) with (s_sigmoid <$> data r).
  set (y0 := mkTensor (shape r) (s_sigmoid <$> data r)).
  assert (Sy0 : shape y0 = [bs; det_na d; ny; nx] ++ [det_no d]) by done.
  assert (M2 : ([bs; det_na d; ny; nx]
                ++ [(Nat.min 2 (det_no d) - Nat.min 0 (det_no d))%nat])
               = [bs; det_na d; ny; nx; 2%nat]).
  { rewrite (Nat.min_l 2), (Nat.min_l 0) by lia. done. }
  assert (M4 : ([bs; det_na d; ny; nx]
                ++ [(Nat.min 4 (det_no d) - Nat.min 2 (det_no d))%nat])
               = [bs; det_na d; ny; nx; 2%nat]).
  { rewrite (Nat.min_l 4), (Nat.min_l 2) by lia. done. }
  destruct (det_inplace d).
  - destruct (assign_last_runs 0 2 (decode_xy si) gi y0 _ _ Sy0) as (y1 & Hy1 & S1);
      [lia|rewrite M2, Sg; apply broadcast_grid|].
    rewrite Hy1, bind_Ok_l, !store_third, deref_third, bind_Ok_l.
    destruct (assign_last_runs 2 4 decode_wh ai (mkTensor (shape r) (data y1))
                [bs; det_na d; ny; nx] (det_no d)) as (y2 & Hy2 & S2);
      [done|lia|rewrite M4, Sa; apply broadcast_grid|].
    rewrite Hy2, bind_Ok_l, Hsr.
    destruct (view_infer_handle_runs bs (det_na d) ny nx (det_no d)
                (length (f_heap st) + 2)) as [z Hz]; [lia|lia|].
    rewrite Hz, bind_Ok_l. by eexists.
  - destruct (slice_last_nat y0 _ _ 0 2 Sy0) as (sxy & Exy & _ & Sxy & _); [lia|].
    change (Z.of_nat 0) with 0 in Exy. change (Z.of_nat 2) with 2 in Exy.
    rewrite Exy, bind_Ok_l.
    destruct (zip_bcast_runs (decode_xy si) gi sxy) as [xy Hxy];
      [rewrite Sxy, M2, Sg; apply broadcast_grid|].
    rewrite Hxy, bind_Ok_l.
    destruct (slice_last_nat y0 _ _ 2 4 Sy0) as (swh & Ewh & _ & Swh & _); [lia|].
    change (Z.of_nat 2) with 2 in Ewh. change (Z.of_nat 4) with 4 in Ewh.
    rewrite Ewh, bind_Ok_l.
    destruct (zip_bcast_runs decode_wh ai swh) as [wh Hwh];
      [rewrite Swh, M4, Sa; apply broadcast_grid|].
    rewrite Hwh, bind_Ok_l.
    destruct (slice_last_from y0 _ _ 4 Sy0) as (rest & Er & _ & Sr & _).
    change (Z.of_nat 4) with 4 in Er.
    rewrite Er, bind_Ok_l.
    apply zip_bcast_Ok in Hxy as (Sxy' & _ & _).
    apply zip_bcast_Ok in Hwh as (Swh' & _ & _).
    destruct (cat_last_runs xy [wh; rest]) as (y & Hy & _).
    { rewrite Sxy', Sxy, lead_app.
      repeat (apply List.Forall_cons);
        rewrite ?Sxy', ?Swh', ?Sxy, ?Swh, ?Sr, ?lead_app; try done;
        try (split; [by destruct nx|done]). }
    rewrite Hy, bind_Ok_l.
    apply cat_last_Ok in Hy as [Sy _].
    assert (Sy' : shape y = [bs; det_na d; ny; nx; det_no d]).
    { rewrite Sy, Sxy', Sxy, lead_app. simpl.
      rewrite Sxy', Swh', Sxy, Swh, Sr, !pos_last_app.
      rewrite (Nat.min_l 4), (Nat.min_l 2), (Nat.min_l 0) by lia.
      do 4 f_equal. f_equal. lia. }
    rewrite Sy'.
    destruct (view_infer_handle_runs bs (det_na d) ny nx (det_no d)
                (length (f_heap st ++ [data c; data r; data y0]))) as [z Hz]; [lia|lia|].
    match goal with
    | |- context [view_infer_handle bs (det_no d) (mkHandle ?l _)] =>
        replace l with (length (f_heap st ++ [data c; data r; data y0]))
          by (rewrite !length_app; simpl; lia)
    end.
    rewrite Hz, bind_Ok_l. by eexists.
Qed.

(** The loop returns when every scale still to do is ready. *)
Lemma forward_scales_runs d scales n s bs : ∀ st,
  det_training d = false → (0 < bs)%nat → (4 ≤ det_no d)%nat →
  shape (det_anchors d) = [n; det_na d; 2%nat] →
  det_stride d = Some s →
  NoDup scales →
  handles_in (f_heap st) (f_x st) →
  (∀ i : nat, i ∈ scales →
     (i < n)%nat ∧ (i < length (data s))%nat ∧
     ∃ xi vin mi c ny nx,
       f_x st !! i = Some xi ∧ deref (f_heap st) xi = Ok vin ∧
       det_m d !! i = Some mi ∧ mi vin = Ok c ∧
       shape c = [bs; (det_na d * det_no d)%nat; ny; nx] ∧
       cache_usable d (f_grid st) (f_anchor_grid st) i ny nx) →
  ∃ st', forward_scales d scales st = Ok st'.
Proof.
  induction scales as [|i scales IH]; intros st Htr Hbs Hno Hsa Hs Hnd Hin Hready;
    simpl; [by eexists|].
  apply NoDup_cons in Hnd as [Hi Hnd].
  destruct (Hready i) as (Hin_n & Hin_s & xi & vin & mi & c & ny & nx &
    Hxi & Hvin & Hmi & Hc & Hsc & Hcache); [by left|].
  destruct (forward_scale_runs d i st n s bs xi vin mi c ny nx) as [st1 H1]; try done.
  rewrite H1, bind_Ok_l.
  pose proof H1 as Hstep.
  apply forward_scale_prefix in H1
    as (xi' & vin' & c' & r & _ & _ & _ & _ & Hx1 & cells1 & Hh1 & _).
  apply IH; try done.
  - rewrite Hx1. apply handles_in_insert.
    + rewrite Hh1. by apply handles_in_app.
    + rewrite Hh1, length_app. simpl. lia.
  - intros j Hj. assert (Hij : i ≠ j) by (intros ->; done).
    destruct (Hready j) as (Hjn & Hjs & xj & vj & mj & cj & nyj & nxj &
      Hxj & Hvj & Hmj & Hcj & Hscj & (g & a & Hg & Ha & Hcase)); [by right|].
    split; [done|]. split; [done|].
    exists xj, vj, mj, cj, nyj, nxj.
    split; [by rewrite Hx1, list_lookup_insert_ne|].
    split.
    { rewrite Hh1, deref_app; [done|]. by eapply handles_in_lookup. }
    do 3 (split; [done|]).
    destruct (forward_scale_other_grid d i st st1 j Hstep Hij) as [Hg1 Ha1].
    exists g, a. by rewrite Hg1, Ha1.
Qed.

(** Once the loop over the scales has returned, the rest of an inference
    call returns: the views in [z] have the shape (bs, _, no) and are
    concatenated. *)
Lemma forward_after_scales d x (h : heap T) bs st :
  det_training d = false → (0 < det_nl d)%nat →
  handles_in h x →
  forward_scales d (seq 0 (det_nl d))
    (mkFwd h x [] (det_grid d) (det_anchor_grid d)) = Ok st →
  (∀ i : nat, (i < det_nl d)%nat →
     ∃ xi vin mi c ny nx,
       x !! i = Some xi ∧ deref h xi = Ok vin ∧
       det_m d !! i = Some mi ∧ mi vin = Ok c ∧
       shape c = [bs; (det_na d * det_no d)%nat; ny; nx]) →
  ∃ hp xs d1 h1, forward d x h = Ok (Inference hp xs, d1, h1).
Proof.
  intros Htr Hnl Hin Hst Hready.
  set (st0 := mkFwd h x [] (det_grid d) (det_anchor_grid d)) in *.
  unfold forward. fold st0. rewrite Hst, bind_Ok_l, Htr. cbv zeta.
  destruct (forward_scales_z d _ st0 st Htr Hst (NoDup_seq 0 (det_nl d)) Hin)
    as (zs & Hz & Hlen & Hk).
  simpl in Hz. rewrite length_seq in Hlen.
  (* every view of [z] has the shape (bs, _, no) *)
  assert (Hzs : ∀ (k : nat) zi, zs !! k = Some zi →
            ∃ m dat, deref (f_heap st) zi = Ok (mkTensor [bs; m; det_no d] dat)).
  { intros k zi Hzi.
    assert (Hk' : seq 0 (det_nl d) !! k = Some k).
    { apply lookup_seq_lt. apply lookup_lt_Some in Hzi. lia. }
    destruct (Hk k k Hk') as (xi & vin & r & gi & ai & si & y & zi' & bs' & ny & nx &
      Hxi & Hvin & Hraw & Hsr & _ & _ & _ & Hzi' & Hzy & Hzsh & _).
    rewrite Hzi in Hzi'. injection Hzi' as <-.
    destruct (Hready k) as (xi' & vin' & mi & c & ny' & nx' &
      Hxi' & Hvin' & Hmi & Hc & Hsc).
    { apply lookup_lt_Some in Hzi. lia. }
    simpl in Hxi, Hvin. rewrite Hxi in Hxi'. injection Hxi' as <-.
    rewrite Hvin in Hvin'. injection Hvin' as <-.
    destruct (raw_scale_Ok _ _ _ _ Hraw)
      as (mi' & c' & bs'' & ch' & ny'' & nx'' & Hmi' & Hc' & Hsc' & Hsr' & _).
    rewrite Hmi in Hmi'. injection Hmi' as <-.
    rewrite Hc in Hc'. injection Hc' as <-.
    rewrite Hsc in Hsc'. injection Hsc' as <- <- <- <-.
    rewrite Hsr in Hsr'. injection Hsr' as -> _ _.
    eexists _, _. rewrite (deref_lookup _ _ _ Hzy), Hzsh. done. }
  destruct (traverse_runs (deref (f_heap st)) (f_z st)) as [zv Hzv].
  { rewrite Hz. intros zi [k Hzi]%list_elem_of_lookup_1.
    destruct (Hzs k zi Hzi) as (m & dat & E). by eexists. }
  rewrite Hzv, bind_Ok_l.
  assert (Hshapes : ∀ (k : nat) t, zv !! k = Some t → ∃ m, shape t = [bs; m; det_no d]).
  { intros k t Ht.
    destruct (f_z st !! k) as [zi|] eqn:Hzi.
    - destruct (traverse_lookup _ _ _ _ _ Hzv Hzi) as (t' & Ht' & Hd).
      rewrite Ht in Ht'. injection Ht' as <-.
      rewrite Hz in Hzi. destruct (Hzs k zi Hzi) as (m & dat & E).
      rewrite Hd in E. injection E as ->. by exists m.
    - apply lookup_ge_None in Hzi. apply lookup_lt_Some in Ht.
      rewrite (traverse_length _ _ _ Hzv) in Ht. lia. }
  destruct zv as [|z0 zv].
  { apply traverse_length in Hzv. rewrite Hz, Hlen in Hzv. simpl in Hzv. lia. }
  destruct (Hshapes 0%nat z0 eq_refl) as [m0 S0].
  destruct (cat1_runs z0 zv) as (pred & Hpred & _).
  { apply Forall_lookup. intros k t Ht.
    destruct (Hshapes k t Ht) as [m St]. rewrite St, S0. split; [simpl; lia|done]. }
  rewrite Hpred, bind_Ok_l. unfold alloc. by do 4 eexists.
Qed.

(** X22: in inference, [forward] returns its pair (predictions, x)
    whenever the module has at least one scale, at least four outputs per
    anchor, its strides and an anchor buffer of shape (n, na, 2) with
    [nl <= n], and every scale is fed by its convolution a tensor of shape
    (bs, na * no, ny, nx) with the same [bs > 0] and finds a usable cache:
    one that is due to be rebuilt (dynamic shapes, or a grid of another
    size, as the placeholder of a new module is) or one that holds a grid
    and an anchor grid of shape (1, na, ny, nx, 2). *)
Theorem inference_returns d x (h : heap T) bs n s :
  det_training d = false →
  (0 < det_nl d)%nat → (0 < bs)%nat → (4 ≤ det_no d)%nat →
  handles_in h x →
  shape (det_anchors d) = [n; det_na d; 2%nat] → (det_nl d ≤ n)%nat →
  det_stride d = Some s → (det_nl d ≤ length (data s))%nat →
  (∀ i : nat, (i < det_nl d)%nat →
     ∃ xi vin mi c ny nx,
       x !! i = Some xi ∧ deref h xi = Ok vin ∧
       det_m d !! i = Some mi ∧ mi vin = Ok c ∧
       shape c = [bs; (det_na d * det_no d)%nat; ny; nx] ∧
       cache_usable d (det_grid d) (det_anchor_grid d) i ny nx) →
  ∃ hp xs d1 h1, forward d x h = Ok (Inference hp xs, d1, h1).
Proof.
  intros Htr Hnl Hbs Hno Hin Hsa Hn Hs Hsl Hready.
  set (st0 := mkFwd h x [] (det_grid d) (det_anchor_grid d)).
  destruct (forward_scales_runs d (seq 0 (det_nl d)) n s bs st0) as [st Hst];
    try done.
  { apply NoDup_seq. }
  { intros i Hi. apply elem_of_seq in Hi.
    split; [lia|]. split; [lia|]. apply Hready. lia. }
  apply (forward_after_scales d x h bs st Htr Hnl Hin Hst).
  intros i Hi.
  destruct (Hready i Hi) as (xi & vin & mi & c & ny & nx & H1 & H2 & H3 & H4 & H5 & _).
  by exists xi, vin, mi, c, ny, nx.
Qed.

End detect_runs.

Lemma inference_returns_witness :
  ∃ hp xs d1 h1,
    forward (toy_detect false true) toy_x toy_heap = Ok (Inference hp xs, d1, h1).
Proof.
  apply (inference_returns (toy_detect false true) toy_x toy_heap 1 1
           (mkTensor [1%nat] [SLit 8])).
  - reflexivity.
  - simpl. lia.
  - lia.
  - simpl. lia.
  - repeat constructor.
  - reflexivity.
  - simpl. lia.
  - reflexivity.
  - simpl. lia.
  - intros i Hi. destruct i as [|i]; [|simpl in Hi; lia].
    exists (mkHandle 0 [1; 6; 2; 2]%nat), (iota [1; 6; 2; 2]%nat), toy_conv,
      (iota [1; 6; 2; 2]%nat), 2%nat, 2%nat.
    split; [reflexivity|]. split; [reflexivity|]. split; [reflexivity|].
    split; [reflexivity|]. split; [reflexivity|].
    exists zeros1, zeros1. split; [reflexivity|]. split; [reflexivity|].
    right. left. simpl. discriminate.
Defined.

(** * The in-place flag of the detection head *)

Section inplace_flag.
Context {T : Type} `{!Scalar T}.
Implicit Types (st : fwd T) (y t : tensor T).

Lemma tabulate_ext sh (f g : list nat → T) :
  (∀ idx, in_range sh idx → f idx = g idx) → tabulate sh f = tabulate sh g.
Proof.
  intros H. unfold tabulate. f_equal. apply list_eq. intros j.
  rewrite !list_lookup_fmap.
  destruct (seq 0 (numel sh) !! j) as [k|] eqn:E; [|done]. simpl. f_equal.
  apply lookup_seq in E as [-> Hj]. apply H. by apply in_range_unravel.
Qed.

(** A view of other sizes onto elements that agree at every index of the
    original shape agrees at every index of its own. *)
Lemma view_same_elements y y' sh3 :
  shape y = shape y' → numel sh3 = numel (shape y) →
  (∀ idx, in_range (shape y) idx → y.[idx] = y'.[idx]) →
  ∀ idx, in_range sh3 idx →
    (mkTensor sh3 (data y)).[idx] = (mkTensor sh3 (data y')).[idx].
Proof.
  intros Hs Hn Hel idx Hi. unfold tref. cbn [shape data].
  pose proof (ravel_lt _ _ Hi) as Hlt. rewrite Hn in Hlt.
  destruct (in_range_unravel _ _ Hlt) as [Hin Hrav].
  specialize (Hel _ Hin). unfold tref in Hel. rewrite <- Hs, Hrav in Hel. done.
Qed.

Lemma cat_pick1_ext (d0 : nat) (rest : list nat) (b : nat) (l : list nat) :
  (b < d0)%nat → in_range rest l →
  ∀ (zs zs' : list (tensor T)),
    Forall2 same_elements zs zs' →
    Forall (λ t, ∃ n, shape t = d0 :: n :: rest) zs →
    ∀ p, (p < sum_list (dim1 ∘ shape <$> zs))%nat →
      cat_pick1 zs b p l = cat_pick1 zs' b p l.
Proof.
  intros Hb Hl zs zs' H2. induction H2 as [|t t' zs zs' [Hs Hel] _ IH]; intros Hall p Hp.
  - done.
  - apply Forall_cons in Hall as [[n Hn] Hall].
    rewrite fmap_cons in Hp.
    change (sum_list ((dim1 ∘ shape) t :: (dim1 ∘ shape <$> zs)))
      with (dim1 (shape t) + sum_list (dim1 ∘ shape <$> zs))%nat in Hp.
    cbn [cat_pick1]. rewrite <- Hs.
    case_bool_decide as Hpn.
    + apply Hel. rewrite Hn. unfold dim1 in Hpn. rewrite Hn in Hpn. simpl in Hpn.
      apply List.Forall2_cons; [done|]. by apply List.Forall2_cons.
    + apply IH; [done|lia].
Qed.

Lemma cat1_ext (zs zs' : list (tensor T)) out out' :
  Forall2 same_elements zs zs' →
  cat1 zs = Ok out → cat1 zs' = Ok out' → out = out'.
Proof.
  intros H2 H H'. pose proof H2 as H2'.
  destruct H2 as [|t0 t0' zs zs' [Hs0 Hel0] Hrest]; [discriminate|].
  unfold cat1 in H.
  case_bool_decide as Hall; [|discriminate]. injection H as <-.
  unfold cat1 in H'.
  case_bool_decide as Hall'; [|discriminate]. injection H' as <-.
  assert (Hdims : dim1 ∘ shape <$> t0 :: zs = dim1 ∘ shape <$> t0' :: zs').
  { clear -H2'. induction H2' as [|t t' l l' [Hs _] _ IH]; [done|].
    rewrite !fmap_cons. f_equal; [unfold compose; by rewrite Hs|exact IH]. }
  rewrite !fmap_cons in Hdims. injection Hdims as Hd0 Hd. unfold compose in Hd0.
  change (list_fmap (tensor T) nat (dim1 ∘ shape) zs') with (dim1 ∘ shape <$> zs').
  change (list_fmap (tensor T) nat (dim1 ∘ shape) zs) with (dim1 ∘ shape <$> zs).
  rewrite <- Hd.
  replace (<[1%nat := (dim1 (shape t0') + sum_list (dim1 ∘ shape <$> zs))%nat]>
             (shape t0'))
    with (<[1%nat := (dim1 (shape t0) + sum_list (dim1 ∘ shape <$> zs))%nat]>
            (shape t0)) by (by rewrite Hd0, Hs0).
  apply Forall_cons in Hall as Hall0. destruct Hall0 as [[Hlen0 _] _].
  assert (∃ d0 n0 rest, shape t0 = d0 :: n0 :: rest) as (d0 & n0 & rest & Hsh0).
  { destruct (shape t0) as [|d0 [|n0 rest]]; simpl in Hlen0; [lia|lia|]. eauto. }
  apply tabulate_ext. intros idx Hi. rewrite Hsh0 in Hi. cbn [insert list_insert] in Hi.
  destruct idx as [|b [|p l]].
  { apply Forall2_length in Hi. discriminate. }
  { apply Forall2_length in Hi. discriminate. }
  apply Forall2_cons in Hi as [Hb Hi]. apply Forall2_cons in Hi as [Hp Hl].
  change (cat_pick1 (t0 :: zs) b p l = cat_pick1 (t0' :: zs') b p l).
  apply (cat_pick1_ext d0 rest b l Hb Hl); [done| |].
  - eapply Forall_impl; [exact Hall|]. intros t [Hlen Heq]. rewrite Hsh0 in Heq.
    destruct (shape t) as [|a [|n rest']]; simpl in Hlen; [lia|lia|].
    simpl in Heq. injection Heq as -> ->. by exists n.
  - rewrite fmap_cons.
    change (p < dim1 (shape t0) + sum_list (dim1 ∘ shape <$> zs))%nat.
    by rewrite Hsh0.
Qed.

Lemma raw_scale_set_inplace (b : bool) (d : Detect T) i vin :
  raw_scale (set_inplace b d) i vin = raw_scale d i vin.
Proof. done. Qed.

Lemma grid_stale_set_inplace (b : bool) (d : Detect T) grid i t :
  grid_stale (set_inplace b d) grid i t = grid_stale d grid i t.
Proof. done. Qed.

Lemma make_grid_set_inplace (b : bool) (d : Detect T) nx ny i :
  _make_grid (set_inplace b d) nx ny i = _make_grid d nx ny i.
Proof. done. Qed.

Lemma stride_at_set_inplace (b : bool) (d : Detect T) i :
  stride_at (set_inplace b d) i = stride_at d i.
Proof. done. Qed.

Lemma same_values_app (h1 h2 c1 c2 : list (list T)) z1 z2 :
  same_values h1 h2 z1 z2 → same_values (h1 ++ c1) (h2 ++ c2) z1 z2.
Proof.
  intros (Hs & dat1 & dat2 & H1 & H2 & Hel). split; [done|].
  exists dat1, dat2. split; [by apply lookup_app_l_Some|].
  split; [by apply lookup_app_l_Some|done].
Qed.

(** The two runs of the loop, with and without the flag, from states that
    agree on the caches, on the inputs still to be read and on the values
    in [z], end in states that agree on the caches and on the values in
    [z]. *)
Lemma forward_scales_inplace_copy (d : Detect T) scales : ∀ st1 st2 st1' st2',
  det_training d = false →
  forward_scales (set_inplace true d) scales st1 = Ok st1' →
  forward_scales (set_inplace false d) scales st2 = Ok st2' →
  NoDup scales →
  handles_in (f_heap st1) (f_x st1) → handles_in (f_heap st2) (f_x st2) →
  f_grid st1 = f_grid st2 → f_anchor_grid st1 = f_anchor_grid st2 →
  (∀ j : nat, j ∈ scales →
     f_x st1 !! j = f_x st2 !! j ∧
     ∀ p, f_x st1 !! j = Some p → deref (f_heap st1) p = deref (f_heap st2) p) →
  Forall2 (same_values (f_heap st1) (f_heap st2)) (f_z st1) (f_z st2) →
  f_grid st1' = f_grid st2' ∧ f_anchor_grid st1' = f_anchor_grid st2' ∧
  Forall2 (same_values (f_heap st1') (f_heap st2')) (f_z st1') (f_z st2').
Proof.
  induction scales as [|i scales IH];
    intros st1 st2 st1' st2' Htr H1 H2 Hnd Hin1 Hin2 Hg Ha Hrel Hz; simpl in H1, H2.
  - injection H1 as <-. injection H2 as <-. done.
  - apply bind_Ok in H1 as (s1 & E1 & H1). apply bind_Ok in H2 as (s2 & E2 & H2).
    apply NoDup_cons in Hnd as [Hi Hnd].
    apply forward_scale_inference in E1
      as (xi & vin & c & r & bs & ch & ny & nx & stale & gi & ai & si & y & zi & cells &
          Hxi & Hvin & Hraw & (mi & Hmi & Hc) & Hsc & Hstale & Hcache & Hgi & Hai & Hsi &
          Hh1 & Hx1 & Hz1 & Hzy & Hzs & Hne & Hmod & Sy & Ry); [|done].
    apply forward_scale_inference in E2
      as (xi' & vin' & c' & r' & bs' & ch' & ny' & nx' & stale' & gi' & ai' & si' & y' &
          zi' & cells' &
          Hxi' & Hvin' & Hraw' & (mi' & Hmi' & Hc') & Hsc' & Hstale' & Hcache' & Hgi' &
          Hai' & Hsi' & Hh2 & Hx2 & Hz2 & Hzy' & Hzs' & Hne' & Hmod' & Sy' & Ry'); [|done].
    rewrite raw_scale_set_inplace in Hraw, Hraw'.
    rewrite grid_stale_set_inplace in Hstale, Hstale'.
    rewrite make_grid_set_inplace in Hcache, Hcache'.
    rewrite stride_at_set_inplace in Hsi, Hsi'.
    cbn [set_inplace det_no det_na det_m] in *.
    destruct (Hrel i) as [Hxx Hdd]; [by left|].
    rewrite Hxi in Hxx. rewrite <- Hxx in Hxi'. injection Hxi' as <-.
    rewrite <- (Hdd _ Hxi), Hvin in Hvin'. injection Hvin' as <-.
    rewrite Hraw in Hraw'. injection Hraw' as <-.
    rewrite Hmi in Hmi'. injection Hmi' as <-.
    rewrite Hc in Hc'. injection Hc' as <-.
    rewrite Hsc in Hsc'. injection Hsc' as <- <- <- <-.
    rewrite <- Hg, Hstale in Hstale'. injection Hstale' as <-.
    rewrite Hsi in Hsi'. injection Hsi' as <-.
    assert (Hgrids : f_grid s1 = f_grid s2 ∧ f_anchor_grid s1 = f_anchor_grid s2).
    { destruct stale.
      - destruct Hcache as (g1 & a1 & Hmk & -> & ->).
        destruct Hcache' as (g2 & a2 & Hmk' & -> & ->).
        rewrite Hmk in Hmk'. injection Hmk' as <- <-. by rewrite Hg, Ha.
      - destruct Hcache as [-> ->]. destruct Hcache' as [-> ->]. done. }
    destruct Hgrids as [Hg1 Ha1].
    rewrite <- Hg1, Hgi in Hgi'. injection Hgi' as <-.
    rewrite <- Ha1, Hai in Hai'. injection Hai' as <-.
    apply (IH s1 s2 st1' st2'); try done.
    + rewrite Hx1. apply handles_in_insert.
      * rewrite Hh1. by apply handles_in_app.
      * rewrite Hh1, length_app. simpl. lia.
    + rewrite Hx2. apply handles_in_insert.
      * rewrite Hh2. by apply handles_in_app.
      * rewrite Hh2, length_app. simpl. lia.
    + intros j Hj. assert (Hij : i ≠ j) by (intros ->; done).
      destruct (Hrel j) as [Hxj Hdj]; [by right|].
      rewrite Hx1, Hx2, !list_lookup_insert_ne by done.
      split; [done|]. intros p Hp.
      rewrite Hh1, Hh2, !deref_app; [by apply Hdj| |].
      * rewrite Hxj in Hp. by eapply handles_in_lookup.
      * by eapply handles_in_lookup.
    + rewrite Hz1, Hz2. apply Forall2_app.
      * rewrite Hh1, Hh2. eapply Forall2_impl; [exact Hz|].
        intros z1 z2 Hzz. by apply same_values_app.
      * apply List.Forall2_cons; [|apply List.Forall2_nil].
        split; [by rewrite Hzs, Hzs'|].
        exists (data y), (data y'). split; [done|]. split; [done|].
        rewrite Hzs. apply view_same_elements.
        { by rewrite Sy, Sy'. }
        { rewrite Sy. simpl.
          pose proof (Nat.Div0.div_exact (numel (shape r)) (bs * det_no d)) as [_ Hex].
          specialize (Hex Hmod). lia. }
        { intros idx Hidx. rewrite Sy in Hidx. by rewrite Ry, Ry'. }
Qed.

(** X23: the flag [inplace] does not change what inference returns: when
    [forward] returns both with the flag set and with it cleared, on the
    same input, the two prediction tensors are equal and the two calls
    leave the same grid and anchor-grid caches. *)
Theorem inplace_flag_keeps_predictions (d : Detect T) x (h : heap T)
    hp xs d1 h1 hp' xs' d1' h1' :
  det_training d = false →
  handles_in h x →
  forward (set_inplace true d) x h = Ok (Inference hp xs, d1, h1) →
  forward (set_inplace false d) x h = Ok (Inference hp' xs', d1', h1') →
  (∃ pred, deref h1 hp = Ok pred ∧ deref h1' hp' = Ok pred) ∧
  det_grid d1 = det_grid d1' ∧ det_anchor_grid d1 = det_anchor_grid d1'.
Proof.
  intros Htr Hin H1 H2. unfold forward in H1, H2.
  apply bind_Ok in H1 as (st1 & Hst1 & H1). apply bind_Ok in H2 as (st2 & Hst2 & H2).
  cbn [set_inplace det_training det_nl det_grid det_anchor_grid] in *.
  rewrite Htr in H1, H2.
  apply bind_Ok in H1 as (zv1 & Hzv1 & (pred1 & Hp1 & H1)%bind_Ok).
  apply bind_Ok in H2 as (zv2 & Hzv2 & (pred2 & Hp2 & H2)%bind_Ok).
  unfold alloc in H1, H2. injection H1 as <- <- <- <-. injection H2 as <- <- <- <-.
  destruct (forward_scales_inplace_copy d _ _ _ _ _ Htr Hst1 Hst2 (NoDup_seq 0 (det_nl d)))
    as (Hg & Ha & Hz); [exact Hin|exact Hin|reflexivity|reflexivity|done|constructor|].
  assert (Hzv : Forall2 same_elements zv1 zv2).
  { apply Forall2_same_length_lookup. split.
    - rewrite (traverse_length _ _ _ Hzv1), (traverse_length _ _ _ Hzv2).
      by eapply Forall2_length.
    - intros k t1 t2 Ht1 Ht2.
      destruct (f_z st1 !! k) as [z1|] eqn:Hz1.
      2:{ apply lookup_ge_None in Hz1. apply lookup_lt_Some in Ht1.
          rewrite (traverse_length _ _ _ Hzv1) in Ht1. lia. }
      destruct (f_z st2 !! k) as [z2|] eqn:Hz2.
      2:{ apply lookup_ge_None in Hz2. apply lookup_lt_Some in Ht2.
          rewrite (traverse_length _ _ _ Hzv2) in Ht2. lia. }
      destruct (traverse_lookup _ _ _ _ _ Hzv1 Hz1) as (t1' & Ht1' & Hd1).
      destruct (traverse_lookup _ _ _ _ _ Hzv2 Hz2) as (t2' & Ht2' & Hd2).
      rewrite Ht1 in Ht1'. injection Ht1' as <-.
      rewrite Ht2 in Ht2'. injection Ht2' as <-.
      destruct (Forall2_lookup_lr _ _ _ _ _ _ Hz Hz1 Hz2)
        as (Hs & dat1 & dat2 & E1 & E2 & Hel).
      rewrite (deref_lookup _ _ _ E1) in Hd1. injection Hd1 as <-.
      rewrite (deref_lookup _ _ _ E2) in Hd2. injection Hd2 as <-.
      split; [done|]. intros idx Hidx. cbn [shape] in Hidx.
      rewrite <- Hs. by apply Hel. }
  rewrite (cat1_ext _ _ _ _ Hzv Hp1 Hp2).
  split; [|done]. exists pred2. unfold deref. simpl h_loc. simpl h_shape.
  rewrite !lookup_app_r, !Nat.sub_diag by lia. simpl.
  by rewrite !tensor_eta.
Qed.

End inplace_flag.

Lemma inplace_flag_keeps_predictions_witness :
  ∃ hp xs d1 h1 hp' xs' d1' h1',
    forward (set_inplace true (toy_detect false true)) toy_x toy_heap
      = Ok (Inference hp xs, d1, h1) ∧
    forward (set_inplace false (toy_detect false true)) toy_x toy_heap
      = Ok (Inference hp' xs', d1', h1') ∧
    (∃ pred, deref h1 hp = Ok pred ∧ deref h1' hp' = Ok pred) ∧
    det_grid d1 = det_grid d1' ∧ det_anchor_grid d1 = det_anchor_grid d1'.
Proof.
  assert (E : ∃ hp xs d1 h1 hp' xs' d1' h1',
    forward (set_inplace true (toy_detect false true)) toy_x toy_heap
      = Ok (Inference hp xs, d1, h1) ∧
    forward (set_inplace false (toy_detect false true)) toy_x toy_heap
      = Ok (Inference hp' xs', d1', h1')).
  { do 8 eexists. split; vm_compute; reflexivity. }
  destruct E as (hp & xs & d1 & h1 & hp' & xs' & d1' & h1' & E1 & E2).
  exists hp, xs, d1, h1, hp', xs', d1', h1'. split; [exact E1|]. split; [exact E2|].
  apply (inplace_flag_keeps_predictions (toy_detect false true) toy_x toy_heap
           hp xs d1 h1 hp' xs' d1' h1'); [reflexivity|repeat constructor|exact E1|exact E2].
Defined.

(** * The grids and the training mode of the detection head *)

Section grid_returns.
Context {T : Type} `{!Scalar T}.
Implicit Types (st : fwd T).

(** X24: with an anchor buffer of shape (n, na, 2), [_make_grid(nx, ny, i)]
    returns, for any sizes [nx] and [ny] (0 included), exactly when the
    scale [i] is below [n] and the module has a stride for it; the two
    tensors it returns have shape (1, na, ny, nx, 2).  It raises when [i]
    is not below [n] or [self.stride[i]] cannot be read. *)
Theorem make_grid_returns (d : Detect T) nx ny i n :
  shape (det_anchors d) = [n; det_na d; 2%nat] →
  ((i < n)%nat ∧ (∃ si, stride_at d i = Ok si) →
   ∃ g a, _make_grid d nx ny i = Ok (g, a) ∧
     shape g = [1%nat; det_na d; ny; nx; 2%nat] ∧
     shape a = [1%nat; det_na d; ny; nx; 2%nat]) ∧
  ((n ≤ i)%nat ∨ is_Err (stride_at d i) → is_Err (_make_grid d nx ny i)).
Proof.
  intros Hsa. split.
  - intros [Hi [si Hsi]].
    destruct (make_grid_runs d nx ny i n si Hsa Hi Hsi) as (g & a & Hmk).
    exists g, a. split; [done|]. by eapply make_grid_shapes.
  - intros Hbad.
    destruct (_make_grid d nx ny i) as [[g a]|e] eqn:E; [exfalso|by exists e].
    unfold _make_grid in E. apply bind_Ok in E as (ai & Hai & E).
    destruct (meshgrid _ _) as [yv xv].
    apply bind_Ok in E as (s & _ & (grid & _ & (si & Hsi & _)%bind_Ok)%bind_Ok).
    destruct Hbad as [Hge|[e He]]; [|congruence].
    unfold select0 in Hai. rewrite Hsa in Hai.
    case_bool_decide; [lia|discriminate].
Qed.

(** The raw tensor of a scale exists when its convolution answers with
    [na * no] channels. *)
Lemma raw_scale_runs (d : Detect T) i vin mi c bs ny nx :
  det_m d !! i = Some mi → mi vin = Ok c →
  shape c = [bs; (det_na d * det_no d)%nat; ny; nx] →
  ∃ r, raw_scale d i vin = Ok r.
Proof.
  intros Hmi Hc Hsc. unfold raw_scale. apply item_Ok in Hmi.
  rewrite Hmi, bind_Ok_l, Hc, bind_Ok_l, Hsc. cbn [unpack4]. rewrite bind_Ok_l.
  unfold view. rewrite Hsc. rewrite bool_decide_eq_true_2 by (simpl; lia).
  rewrite bind_Ok_l. cbn [permute_01342 shape]. by eexists.
Qed.

Lemma set_training_same (d : Detect T) :
  det_training d = true → set_training true d = d.
Proof. destruct d. simpl. by intros ->. Qed.

(** The loop returns in training when every scale still to do is fed a
    convolution output of [na * no] channels. *)
Lemma forward_scales_training (d : Detect T) scales : ∀ st,
  det_training d = true →
  NoDup scales →
  handles_in (f_heap st) (f_x st) →
  (∀ i : nat, i ∈ scales →
     ∃ xi vin mi c bs ny nx,
       f_x st !! i = Some xi ∧ deref (f_heap st) xi = Ok vin ∧
       det_m d !! i = Some mi ∧ mi vin = Ok c ∧
       shape c = [bs; (det_na d * det_no d)%nat; ny; nx]) →
  ∃ st', forward_scales d scales st = Ok st'.
Proof.
  induction scales as [|i scales IH]; intros st Htr Hnd Hin Hready; simpl;
    [by eexists|].
  apply NoDup_cons in Hnd as [Hi Hnd].
  destruct (Hready i) as (xi & vin & mi & c & bs & ny & nx &
    Hxi & Hvin & Hmi & Hc & Hsc); [by left|].
  destruct (raw_scale_runs d i vin mi c bs ny nx Hmi Hc Hsc) as [r Hraw].
  destruct (forward_scale_training_Ok d i st xi vin r Hxi Hvin Hraw) as [st1 H1].
  rewrite (set_training_same d Htr) in H1.
  rewrite H1, bind_Ok_l.
  apply forward_scale_prefix in H1
    as (xi' & vin' & c' & r' & _ & _ & _ & _ & Hx1 & cells1 & Hh1 & _).
  apply IH; try done.
  - rewrite Hx1. apply handles_in_insert.
    + rewrite Hh1. by apply handles_in_app.
    + rewrite Hh1, length_app. simpl. lia.
  - intros j Hj. assert (Hij : i ≠ j) by (intros ->; done).
    destruct (Hready j) as (xj & vj & mj & cj & bsj & nyj & nxj &
      Hxj & Hvj & Hmj & Hcj & Hscj); [by right|].
    exists xj, vj, mj, cj, bsj, nyj, nxj.
    split; [by rewrite Hx1, list_lookup_insert_ne|].
    split; [|done].
    rewrite Hh1, deref_app; [done|]. by eapply handles_in_lookup.
Qed.

(** X25: in training, [forward] returns the list [x] whenever each of the
    [nl] scales is fed by its convolution a four-dimensional tensor with
    [na * no] channels (the batch and map sizes may differ from scale to
    scale); the list keeps its length and its entry for scale [i] is the
    raw tensor of the scale, the convolution output viewed as
    (bs, na, no, ny, nx) and permuted to (bs, na, ny, nx, no). *)
Theorem training_returns (d : Detect T) x (h : heap T) :
  det_training d = true →
  handles_in h x →
  (∀ i : nat, (i < det_nl d)%nat →
     ∃ xi vin mi c bs ny nx,
       x !! i = Some xi ∧ deref h xi = Ok vin ∧
       det_m d !! i = Some mi ∧ mi vin = Ok c ∧
       shape c = [bs; (det_na d * det_no d)%nat; ny; nx]) →
  ∃ xs d1 h1,
    forward d x h = Ok (Training xs, d1, h1) ∧
    length xs = length x ∧
    ∀ i : nat, (i < det_nl d)%nat →
      ∃ xi vin r p,
        x !! i = Some xi ∧ deref h xi = Ok vin ∧ raw_scale d i vin = Ok r ∧
        xs !! i = Some p ∧ deref h1 p = Ok r.
Proof.
  intros Htr Hin Hready.
  set (st0 := mkFwd h x [] (det_grid d) (det_anchor_grid d)).
  destruct (forward_scales_training d (seq 0 (det_nl d)) st0 Htr) as [st Hst];
    [apply NoDup_seq|exact Hin| |].
  { intros i Hi. apply elem_of_seq in Hi. apply Hready. lia. }
  unfold forward. fold st0. rewrite Hst, bind_Ok_l, Htr.
  do 3 eexists. split; [done|].
  destruct (forward_scales_x _ _ _ _ Hst (NoDup_seq 0 (det_nl d)) Hin)
    as (_ & Hlen & _ & _ & Hins).
  split; [done|]. intros i Hi.
  destruct (Hins i) as (xi & vin & r & p & H1 & H2 & H3 & H4 & H5).
  { apply elem_of_seq. lia. }
  by exists xi, vin, r, p.
Qed.

End grid_returns.

Lemma make_grid_returns_witness :
  ∃ g a, _make_grid (toy_detect false true) 3 2 0 = Ok (g, a) ∧
    shape g = [1; det_na (toy_detect false true); 2; 3; 2]%nat ∧
    shape a = [1; det_na (toy_detect false true); 2; 3; 2]%nat.
Proof.
  apply (proj1 (make_grid_returns (toy_detect false true) 3 2 0 1 eq_refl)).
  split; [lia|]. by eexists.
Defined.

Lemma training_returns_witness :
  ∃ xs d1 h1,
    forward (toy_detect true true) toy_x toy_heap = Ok (Training xs, d1, h1) ∧
    length xs = length toy_x ∧
    ∀ i : nat, (i < det_nl (toy_detect true true))%nat →
      ∃ xi vin r p,
        toy_x !! i = Some xi ∧ deref toy_heap xi = Ok vin ∧
        raw_scale (toy_detect true true) i vin = Ok r ∧
        xs !! i = Some p ∧ deref h1 p = Ok r.
Proof.
  apply (training_returns (toy_detect true true) toy_x toy_heap).
  - reflexivity.
  - repeat constructor.
  - intros i Hi. destruct i as [|i]; [|simpl in Hi; lia].
    exists (mkHandle 0 [1; 6; 2; 2]%nat), (iota [1; 6; 2; 2]%nat), toy_conv,
      (iota [1; 6; 2; 2]%nat), 1%nat, 2%nat, 2%nat.
    repeat split.
Defined.

(** * The constructor of the detection head *)

Section init_facts.
Context {T : Type} `{!Scalar T} {A : Type}.
Variable float : A → T.
Variable Conv2d : nat → nat → nat → result (tensor T → result (tensor T)).

Lemma view_rows_pairs (nl L : nat) (dat : list T) :
  nl ≠ 0%nat →
  view_infer nl 2 (mkTensor [nl; L] dat) =
    if bool_decide ((L mod 2)%nat = 0%nat)
    then Ok (mkTensor [nl; (L / 2)%nat; 2%nat] dat) else Err RuntimeError.
Proof.
  intros Hnl. unfold view_infer. cbn [shape data numel foldr].
  rewrite Nat.mul_1_r.
  rewrite Nat.Div0.mul_mod_distr_l, Nat.Div0.div_mul_cancel_l by lia.
  repeat case_bool_decide; try done; exfalso; nia.
Qed.

(** The constructor, step by step. *)
Lemma Detect_init_Ok nc anchors ch inplace d :
  Detect_init float Conv2d nc anchors ch inplace = Ok d →
  ∃ a0 L m,
    anchors !! 0%nat = Some a0 ∧
    Forall (λ r, length r = (2 * L)%nat) anchors ∧
    traverse (λ x, Conv2d x ((nc + 5) * L)%nat 1%nat) ch = Ok m ∧
    d = mkDetect (nc + 5) (length anchors) L
          (mkTensor [length anchors; L; 2%nat] (float <$> concat anchors))
          m None inplace true false
          (replicate (length anchors) zeros1) (replicate (length anchors) zeros1).
Proof.
  unfold Detect_init. intros H0.
  destruct anchors as [|a0 rest]; [discriminate|].
  cbn [item lookup list_lookup] in H0. rewrite bind_Ok_l in H0.
  unfold torch_tensor in H0.
  case_bool_decide as Hrows; [|discriminate].
  rewrite bind_Ok_l, view_rows_pairs in H0 by done.
  case_bool_decide as Heven; [|discriminate].
  rewrite bind_Ok_l in H0.
  apply bind_Ok in H0 as (m & Hm & [= <-]).
  assert (HL : length a0 = (2 * (length a0 / 2))%nat)
    by by apply Nat.Div0.div_exact.
  exists a0, (length a0 / 2)%nat, m. split; [done|]. split; [|done].
  eapply Forall_impl; [exact Hrows|]. simpl. intros r ->. exact HL.
Qed.

(** X26: [Detect.__init__] raises IndexError for an empty [anchors] (the
    default of the parameter), ValueError when a row of [anchors] has not the
    length of the first row, and RuntimeError when the rows have one odd
    length.  When it returns, the rows have one even length [2 * L], and the
    new module has [nl = len(anchors)], [na = L], [no = nc + 5], the anchors
    as a buffer of shape (nl, L, 2) in the order of the rows, one
    convolution for each entry of [ch], no stride, the training mode, and
    [nl] placeholders [zeros(1)] in each cache.  It returns when [anchors]
    is not empty, its rows have one even length [2 * L], and every
    [Conv2d(x, no * L, 1)] for [x] in [ch] is built. *)
Theorem detect_init_cases nc anchors ch inplace :
  (anchors = [] →
   Detect_init float Conv2d nc anchors ch inplace = Err IndexError) ∧
  (∀ r0 r, anchors !! 0%nat = Some r0 → r ∈ anchors → length r ≠ length r0 →
   Detect_init float Conv2d nc anchors ch inplace = Err ValueError) ∧
  (∀ r0, anchors !! 0%nat = Some r0 →
   Forall (λ r, length r = length r0) anchors → (length r0 mod 2 = 1)%nat →
   Detect_init float Conv2d nc anchors ch inplace = Err RuntimeError) ∧
  (∀ d, Detect_init float Conv2d nc anchors ch inplace = Ok d →
   ∃ L, anchors ≠ [] ∧ Forall (λ r, length r = (2 * L)%nat) anchors ∧
     det_nl d = length anchors ∧ det_na d = L ∧ det_no d = (nc + 5)%nat ∧
     det_anchors d =
       mkTensor [length anchors; L; 2%nat] (float <$> concat anchors) ∧
     length (det_m d) = length ch ∧
     det_stride d = None ∧ det_training d = true ∧
     det_onnx_dynamic d = false ∧ det_inplace d = inplace ∧
     det_grid d = replicate (length anchors) zeros1 ∧
     det_anchor_grid d = replicate (length anchors) zeros1) ∧
  (∀ L, anchors ≠ [] → Forall (λ r, length r = (2 * L)%nat) anchors →
   (∀ x, x ∈ ch → ∃ f, Conv2d x ((nc + 5) * L)%nat 1%nat = Ok f) →
   ∃ d, Detect_init float Conv2d nc anchors ch inplace = Ok d).
Proof.
  split; [by intros ->|].
  split.
  { intros r0 r H0 Hr Hlen. destruct anchors as [|a0 rest]; [done|].
    injection H0 as ->. unfold Detect_init.
    cbn [item lookup list_lookup]. rewrite bind_Ok_l. unfold torch_tensor.
    rewrite bool_decide_eq_false_2; [done|].
    intros Hall. by apply (proj1 (Forall_forall _ _) Hall) in Hr. }
  split.
  { intros r0 H0 Hall Hodd. destruct anchors as [|a0 rest]; [done|].
    injection H0 as ->. unfold Detect_init.
    cbn [item lookup list_lookup]. rewrite bind_Ok_l. unfold torch_tensor.
    rewrite bool_decide_eq_true_2 by done.
    rewrite bind_Ok_l, view_rows_pairs by done.
    rewrite bool_decide_eq_false_2 by lia. done. }
  split.
  { intros d Hd.
    destruct (Detect_init_Ok _ _ _ _ _ Hd) as (a0 & L & m & H0 & Hall & Hm & ->).
    exists L. split; [by intros ->|]. split; [done|].
    simpl. repeat split. by apply traverse_length in Hm. }
  intros L Hne Hall Hconv.
  destruct anchors as [|a0 rest]; [done|].
  assert (Ha0 : length a0 = (2 * L)%nat).
  { apply (proj1 (Forall_forall _ _) Hall). by left. }
  unfold Detect_init. cbn [item lookup list_lookup]. rewrite bind_Ok_l.
  unfold torch_tensor. rewrite bool_decide_eq_true_2.
  2:{ eapply Forall_impl; [exact Hall|]. simpl. intros r ->. done. }
  rewrite bind_Ok_l, view_rows_pairs by done.
  rewrite bool_decide_eq_true_2.
  2:{ rewrite Ha0, Nat.mul_comm. apply Nat.Div0.mod_mul. }
  rewrite bind_Ok_l.
  replace (length a0 / 2)%nat with L.
  2:{ rewrite Ha0, Nat.mul_comm. by rewrite Nat.div_mul. }
  destruct (traverse_runs (λ x, Conv2d x ((nc + 5) * L)%nat 1%nat) ch Hconv)
    as [m Hm].
  rewrite Hm, bind_Ok_l. by eexists.
Qed.

End init_facts.

Lemma detect_init_cases_witness :
  ∃ d, Detect_init toy_float toy_Conv2d 1 toy_anchors [3%nat] true = Ok d.
Proof.
  apply (proj2 (proj2 (proj2 (proj2
    (detect_init_cases toy_float toy_Conv2d 1 toy_anchors [3%nat] true)))) 2%nat).
  - discriminate.
  - repeat constructor.
  - intros x _. by eexists.
Defined.

(** * A new head: its strides and its first inference *)

Lemma traverse_pointwise {A B} (g : A → result B) (P : nat → B → Prop) (l : list A) :
  (∀ (i : nat) a, l !! i = Some a → ∃ b, g a = Ok b ∧ P i b) →
  ∃ r, traverse g l = Ok r ∧ length r = length l ∧
    ∀ (i : nat) b, r !! i = Some b → P i b.
Proof.
  revert P. induction l as [|a l IH]; intros P Hg; simpl.
  - exists []. split; [done|]. split; [done|]. by intros i b Hb.
  - destruct (Hg 0%nat a eq_refl) as (b & Hb & Pb).
    destruct (IH (λ i, P (S i))) as (r & Hr & Hlen & HP).
    { intros i a' Ha'. apply (Hg (S i) a' Ha'). }
    rewrite Hb, bind_Ok_l, Hr, bind_Ok_l. exists (b :: r).
    split; [done|]. split; [simpl; lia|].
    intros [|i] b' Hb'; simpl in Hb'; [by injection Hb' as <-|by apply HP].
Qed.

Section new_head.
Context {T : Type} `{!Scalar T} {A : Type}.
Variable float : A → T.
Variable Conv2d : nat → nat → nat → result (tensor T → result (tensor T)).
Hypothesis Hconv : pointwise_convs Conv2d.

(** Training leaves the caches alone. *)
Lemma forward_scales_training_caches (d : Detect T) scales : ∀ st st',
  det_training d = true → forward_scales d scales st = Ok st' →
  f_grid st' = f_grid st ∧ f_anchor_grid st' = f_anchor_grid st.
Proof.
  induction scales as [|i scales IH]; intros st st' Htr H0; simpl in H0.
  - by injection H0 as <-.
  - apply bind_Ok in H0 as (st1 & H1 & H2).
    apply forward_scale_prefix in H1
      as (xi & vin & c & r & _ & _ & _ & _ & _ & cells & _ & Hc).
    destruct (Hc Htr) as (_ & _ & Hg & Ha).
    destruct (IH _ _ Htr H2) as [Hg' Ha']. by rewrite Hg', Ha'.
Qed.

(** The convolution that the constructor builds for scale [i] answers a
    map of [ch[i]] channels with [na * no] channels. *)
Lemma new_head_conv nc anchors ch inplace d (h : heap T) x (i : nat) xi c bs ny nx :
  Detect_init float Conv2d nc anchors ch inplace = Ok d →
  handles_in h x → x !! i = Some xi → ch !! i = Some c →
  h_shape xi = [bs; c; ny; nx] → nonempty_maps bs c ny nx →
  ∃ vin mi co,
    deref h xi = Ok vin ∧ det_m d !! i = Some mi ∧ mi vin = Ok co ∧
    shape co = [bs; (det_na d * det_no d)%nat; ny; nx].
Proof.
  intros Hd Hin Hxi Hc Hsh Hpos.
  destruct (Detect_init_Ok float Conv2d _ _ _ _ _ Hd)
    as (a0 & L & m & H0 & Hall & Hm & ->).
  destruct (lookup_lt_is_Some_2 h (h_loc xi)) as [dat Hdat];
    [by eapply handles_in_lookup|].
  destruct (traverse_lookup _ _ _ _ _ Hm Hc) as (mi & Hmi & Hbuilt).
  destruct (Hconv _ _ _ Hbuilt (mkTensor (h_shape xi) dat) bs ny nx Hsh Hpos)
    as (co & Hco & Hsco).
  exists (mkTensor (h_shape xi) dat), mi, co.
  split; [by apply deref_lookup|]. split; [done|]. split; [done|].
  simpl. by rewrite Hsco, Nat.mul_comm.
Qed.

(** X27: the stride pass of [Model.__init__] on a new head, whose
    convolutions answer a batch of maps with a batch of maps of the same
    sizes.  Fed one map of shape (bs, ch[i], ny, nx), no size being zero,
    for each of its [nl] scales, the
    new head (in training mode, as constructed) returns from [forward]
    with its caches untouched; the strides [s / x.shape[-2]] read off the
    outputs are [s / nx] for each scale, and
    [m.anchors /= m.stride.view(-1, 1, 1)] divides every anchor of scale
    [i] by the stride of scale [i] and keeps the shape of the buffer. *)
Theorem new_head_strides nc anchors ch inplace d x (h : heap T) s :
  Detect_init float Conv2d nc anchors ch inplace = Ok d →
  length x = length anchors →
  handles_in h x →
  (∀ (i : nat) xi, x !! i = Some xi →
     ∃ c bs ny nx, ch !! i = Some c ∧ h_shape xi = [bs; c; ny; nx] ∧
       nonempty_maps bs c ny nx) →
  ∃ xs h1 outs stride d2,
    forward d x h = Ok (Training xs, d, h1) ∧
    traverse (deref h1) xs = Ok outs ∧
    head_stride s outs = Ok stride ∧
    set_head_stride d stride = Ok d2 ∧
    shape stride = [length anchors] ∧
    (∀ (i : nat) xi bs c ny nx, x !! i = Some xi → h_shape xi = [bs; c; ny; nx] →
       data stride !! i = Some (s_lit (inject_Z s / inject_Z (Z.of_nat nx)))) ∧
    det_stride d2 = Some stride ∧
    shape (det_anchors d2) = shape (det_anchors d) ∧
    (∀ (i j c : nat) si,
       (i < det_nl d)%nat → (j < det_na d)%nat → (c < 2)%nat →
       data stride !! i = Some si →
       (det_anchors d2).[[i; j; c]] = ((det_anchors d).[[i; j; c]] / si)%sc).
Proof.
  intros Hd Hlen Hin Hx.
  pose proof (Detect_init_Ok float Conv2d _ _ _ _ _ Hd)
    as (a0 & L & m & H0 & Hall & Hm & Ed).
  assert (Htr : det_training d = true) by by rewrite Ed.
  assert (Hnl : det_nl d = length anchors) by by rewrite Ed.
  set (st0 := mkFwd h x [] (det_grid d) (det_anchor_grid d)).
  (* the loop *)
  destruct (forward_scales_training d (seq 0 (det_nl d)) st0 Htr) as [st Hst];
    [apply NoDup_seq|exact Hin| |].
  { intros i Hi. apply elem_of_seq in Hi.
    destruct (lookup_lt_is_Some_2 x i) as [xi Hxi]; [lia|].
    destruct (Hx i xi Hxi) as (c & bs & ny & nx & Hc & Hsh & Hpos).
    destruct (new_head_conv _ _ _ _ _ h x i xi c bs ny nx Hd Hin Hxi Hc Hsh Hpos)
      as (vin & mi & co & H1 & H2 & H3 & H4).
    by exists xi, vin, mi, co, bs, ny, nx. }
  destruct (forward_scales_training_caches d _ _ _ Htr Hst) as [Hg Ha].
  destruct (forward_scales_x _ _ _ _ Hst (NoDup_seq 0 (det_nl d)) Hin)
    as (_ & Hlenx & _ & _ & Hins).
  simpl in Hlenx, Hg, Ha.
  (* the outputs *)
  destruct (traverse_pointwise (deref (f_heap st))
              (λ i r, ∀ xi bs c ny nx, x !! i = Some xi →
                 h_shape xi = [bs; c; ny; nx] →
                 shape r = [bs; det_na d; ny; nx; det_no d]) (f_x st))
    as (outs & Houts & Hlo & Hshapes).
  { intros i p Hp.
    assert (Hi : (i < det_nl d)%nat).
    { apply lookup_lt_Some in Hp. lia. }
    destruct (Hins i) as (xi & vin & r & p' & Hxi & Hvin & Hraw & Hp' & Hr).
    { apply elem_of_seq. lia. }
    rewrite Hp in Hp'. injection Hp' as <-.
    exists r. split; [done|].
    intros xi' bs c ny nx Hxi' Hsh. simpl in Hxi, Hvin.
    rewrite Hxi in Hxi'. injection Hxi' as <-.
    destruct (Hx i xi Hxi) as (c' & bs' & ny' & nx' & Hc & Hsh' & Hpos).
    rewrite Hsh in Hsh'. injection Hsh' as <- <- <- <-.
    destruct (new_head_conv _ _ _ _ _ h x i xi c bs ny nx Hd Hin Hxi Hc Hsh Hpos)
      as (vin' & mi & co & H1 & H2 & H3 & H4).
    rewrite Hvin in H1. injection H1 as <-.
    destruct (raw_scale_Ok _ _ _ _ Hraw)
      as (mi' & co' & bs' & ch' & ny' & nx' & Hmi' & Hco' & Hsco' & Hsr & _).
    rewrite H2 in Hmi'. injection Hmi' as <-.
    rewrite H3 in Hco'. injection Hco' as <-.
    rewrite H4 in Hsco'. injection Hsco' as <- _ <- <-. done. }
  (* the strides *)
  destruct (traverse_pointwise
              (λ t : tensor T,
                 n ← py_index (shape t) (-2);
                 if bool_decide (n = 0%nat) then Err ZeroDivisionError
                 else Ok (s_lit (inject_Z s / inject_Z (Z.of_nat n))))
              (λ i v, ∀ xi bs c ny nx, x !! i = Some xi →
                 h_shape xi = [bs; c; ny; nx] →
                 v = s_lit (inject_Z s / inject_Z (Z.of_nat nx))) outs)
    as (vals & Hvals & Hlv & Hvs).
  { intros i r Hr.
    destruct (lookup_lt_is_Some_2 x i) as [xi Hxi].
    { apply lookup_lt_Some in Hr. lia. }
    destruct (Hx i xi Hxi) as (c & bs & ny & nx & Hc & Hsh & (_ & _ & _ & Hnx)).
    rewrite (Hshapes i r Hr xi bs c ny nx Hxi Hsh).
    exists (s_lit (inject_Z s / inject_Z (Z.of_nat nx))). split.
    - change (py_index [bs; det_na d; ny; nx; det_no d] (-2)) with (Ok nx).
      rewrite bind_Ok_l. by rewrite bool_decide_eq_false_2 by lia.
    - intros xi' bs' c' ny' nx' Hxi' Hsh'.
      rewrite Hxi in Hxi'. injection Hxi' as <-.
      rewrite Hsh in Hsh'. by injection Hsh' as <- <- <- <-. }
  assert (Hk : length vals = length anchors) by lia.
  set (stride := mkTensor [length vals] vals).
  assert (Hsa : shape (det_anchors d) = [length anchors; det_na d; 2%nat])
    by by rewrite Ed.
  assert (Hset : ∃ d2, set_head_stride d stride = Ok d2 ∧
            det_stride d2 = Some stride ∧
            det_anchors d2 =
              timap (λ idx v,
                (v / (mkTensor [length vals; 1%nat; 1%nat] vals).[
                       bcast_index [length vals; 1%nat; 1%nat] idx])%sc)
                (det_anchors d)).
  { unfold set_head_stride, view. cbn [shape data stride numel foldr].
    rewrite Nat.mul_1_r.
    rewrite bool_decide_eq_true_2 by (simpl; lia).
    rewrite bind_Ok_l. unfold zip_bcast. cbn [shape]. rewrite Hsa.
    unfold broadcastable_to. rewrite bool_decide_eq_true_2.
    2:{ split; [simpl; lia|]. simpl. rewrite Hk.
        repeat first [apply List.Forall2_cons|apply List.Forall2_nil];
          first [right; lia|left; lia]. }
    rewrite bind_Ok_l, ?Nat.mul_1_r. by eexists. }
  destruct Hset as (d2 & Hd2 & Hs2 & Ha2).
  exists (f_x st), (f_heap st), outs, stride, d2.
  split.
  { unfold forward. fold st0. rewrite Hst, bind_Ok_l, Htr, Hg, Ha.
    by rewrite Ed. }
  split; [done|]. split; [by unfold head_stride; rewrite Hvals, bind_Ok_l|].
  split; [done|]. split; [by simpl; rewrite Hk|].
  split.
  { intros i xi bs c ny nx Hxi Hsh.
    destruct (lookup_lt_is_Some_2 vals i) as [v Hv].
    { apply lookup_lt_Some in Hxi. lia. }
    simpl. rewrite Hv. f_equal. by eapply Hvs. }
  split; [done|]. split; [by rewrite Ha2|].
  intros i j c si Hi Hj Hc Hsi. rewrite Ha2, tref_timap.
  2:{ rewrite Hsa. apply in_range_3; lia. }
  f_equal. unfold tref. cbn [shape data]. simpl in Hsi.
  assert (Eb : bcast_index [length vals; 1%nat; 1%nat] [i; j; c] =
          [(if bool_decide (length vals = 1%nat) then 0 else i)%nat; 0%nat; 0%nat])
    by done.
  rewrite Eb.
  replace (ravel _ _) with i; [by rewrite Hsi|].
  case_bool_decide; simpl; lia.
Qed.

(** X28: the first inference of a new head, whose convolutions answer a
    batch of maps with a batch of maps of the same sizes.  A head built by
    the constructor, given strides read off as many outputs as it has
    scales and switched to inference, returns predictions on every list of
    maps of shapes (bs, ch[i], ny, nx) with one batch size and no size
    zero: the placeholders [zeros(1)] in its caches make it build the grid
    of every scale. *)
Theorem new_head_infers nc anchors ch inplace d s outs stride d2 x (h : heap T) bs :
  Detect_init float Conv2d nc anchors ch inplace = Ok d →
  length outs = length anchors →
  head_stride s outs = Ok stride →
  set_head_stride d stride = Ok d2 →
  handles_in h x →
  (∀ i : nat, (i < length anchors)%nat →
     ∃ xi c ny nx, x !! i = Some xi ∧ ch !! i = Some c ∧
       h_shape xi = [bs; c; ny; nx] ∧ nonempty_maps bs c ny nx) →
  ∃ hp xs d3 h3,
    forward (set_training false d2) x h = Ok (Inference hp xs, d3, h3).
Proof.
  intros Hd Hlo Hstride Hd2 Hin Hx.
  pose proof (Detect_init_Ok float Conv2d _ _ _ _ _ Hd)
    as (a0 & L & m & H0 & Hall & Hm & Ed).
  assert (Hne : (0 < length anchors)%nat).
  { destruct anchors; [done|simpl; lia]. }
  assert (Hbs : (0 < bs)%nat).
  { destruct (Hx 0%nat Hne) as (x0 & c0 & ny0 & nx0 & _ & _ & _ & Hpos).
    apply Hpos. }
  unfold head_stride in Hstride.
  apply bind_Ok in Hstride as (vals & Hvals & [= <-]).
  apply traverse_length in Hvals.
  unfold set_head_stride in Hd2.
  apply bind_Ok in Hd2 as (sv & Hsv & (a & Ha & [= <-])%bind_Ok).
  assert (Hsa : shape a = [length anchors; L; 2%nat]).
  { unfold zip_bcast in Ha. destruct (broadcastable_to _ _); [|discriminate].
    injection Ha as <-. by rewrite Ed. }
  set (d3 := set_training false _).
  assert (Hnl3 : det_nl d3 = length anchors) by (subst d3; by rewrite Ed).
  assert (Hna3 : det_na d3 = det_na d) by done.
  assert (Hno3 : det_no d3 = det_no d) by done.
  assert (Hno : det_no d = (nc + 5)%nat) by by rewrite Ed.
  assert (Hm3 : det_m d3 = det_m d) by done.
  assert (Hg3 : det_grid d3 = replicate (length anchors) zeros1)
    by (subst d3; by rewrite Ed).
  assert (Hag3 : det_anchor_grid d3 = replicate (length anchors) zeros1)
    by (subst d3; by rewrite Ed).
  assert (Hsa3 : shape (det_anchors d3) = [length anchors; det_na d3; 2%nat]).
  { rewrite Hna3. subst d3. simpl. by rewrite Hsa, Ed. }
  assert (Hs3 : det_stride d3 = Some (mkTensor [length vals] vals)) by done.
  assert (Htr3 : det_training d3 = false) by done.
  clearbody d3.
  assert (Hready : ∀ i : nat, (i < det_nl d3)%nat →
     ∃ xi vin mi c ny nx,
       x !! i = Some xi ∧ deref h xi = Ok vin ∧
       det_m d3 !! i = Some mi ∧ mi vin = Ok c ∧
       shape c = [bs; (det_na d3 * det_no d3)%nat; ny; nx] ∧
       cache_usable d3 (det_grid d3) (det_anchor_grid d3) i ny nx).
  { intros i Hi. rewrite Hnl3 in Hi.
    destruct (Hx i Hi) as (xi & c & ny & nx & Hxi & Hc & Hsh & Hpos).
    destruct (new_head_conv _ _ _ _ _ h x i xi c bs ny nx Hd Hin Hxi Hc Hsh Hpos)
      as (vin & mi & co & H1 & H2 & H3 & H4).
    exists xi, vin, mi, co, ny, nx. split; [done|]. split; [done|].
    split; [by rewrite Hm3|]. split; [done|].
    split; [by rewrite Hna3, Hno3|].
    exists zeros1, zeros1. rewrite Hg3, Hag3.
    split; [by apply lookup_replicate_2|]. split; [by apply lookup_replicate_2|].
    right. by left. }
  destruct (forward_scales_runs d3 (seq 0 (det_nl d3)) (length anchors)
              (mkTensor [length vals] vals) bs
              (mkFwd h x [] (det_grid d3) (det_anchor_grid d3)))
    as [st Hst]; try done.
  { rewrite Hno3, Hno. lia. }
  { apply NoDup_seq. }
  { intros i Hi. apply elem_of_seq in Hi. rewrite Hnl3 in Hi.
    split; [lia|]. split; [simpl; lia|]. apply Hready. lia. }
  apply (forward_after_scales d3 x h bs st); try done.
  - lia.
  - intros i Hi.
    destruct (Hready i Hi) as (xi & vin & mi & c & ny & nx & H1 & H2 & H3 & H4 & H5 & _).
    by exists xi, vin, mi, c, ny, nx.
Qed.

End new_head.

Lemma toy_Conv2d_pointwise : pointwise_convs toy_Conv2d.
Proof.
  intros c1 c2 f [= <-] v bs ny nx Hs _. rewrite Hs.
  rewrite bool_decide_eq_true_2 by done. by eexists.
Qed.

Lemma new_head_strides_witness :
  ∃ xs h1 outs stride d2,
    forward toy_new_head toy_maps toy_maps_heap = Ok (Training xs, toy_new_head, h1) ∧
    traverse (deref h1) xs = Ok outs ∧
    head_stride 256 outs = Ok stride ∧
    set_head_stride toy_new_head stride = Ok d2 ∧
    shape stride = [length toy_anchors] ∧
    (∀ (i : nat) xi bs c ny nx, toy_maps !! i = Some xi →
       h_shape xi = [bs; c; ny; nx] →
       data stride !! i = Some (s_lit (inject_Z 256 / inject_Z (Z.of_nat nx)))) ∧
    det_stride d2 = Some stride ∧
    shape (det_anchors d2) = shape (det_anchors toy_new_head) ∧
    (∀ (i j c : nat) si,
       (i < det_nl toy_new_head)%nat → (j < det_na toy_new_head)%nat → (c < 2)%nat →
       data stride !! i = Some si →
       (det_anchors d2).[[i; j; c]] =
         ((det_anchors toy_new_head).[[i; j; c]] / si)%sc).
Proof.
  apply (new_head_strides toy_float toy_Conv2d toy_Conv2d_pointwise
           1 toy_anchors [3%nat] true toy_new_head toy_maps toy_maps_heap 256).
  - reflexivity.
  - reflexivity.
  - repeat constructor.
  - intros [|i] xi Hxi; [|destruct i; discriminate].
    injection Hxi as <-. exists 3%nat, 1%nat, 2%nat, 2%nat.
    split; [reflexivity|]. split; [reflexivity|]. unfold nonempty_maps. lia.
Defined.

Lemma new_head_infers_witness :
  ∃ hp xs d3 h3,
    forward (set_training false toy_configured_head) toy_maps toy_maps_heap =
      Ok (Inference hp xs, d3, h3).
Proof.
  apply (new_head_infers toy_float toy_Conv2d toy_Conv2d_pointwise
           1 toy_anchors [3%nat] true toy_new_head 256
           [iota [1; 2; 2; 2; 6]%nat] toy_stride toy_configured_head
           toy_maps toy_maps_heap 1).
  - reflexivity.
  - reflexivity.
  - reflexivity.
  - reflexivity.
  - repeat constructor.
  - intros [|i] Hi; [|simpl in Hi; lia].
    exists (mkHandle 0 [1; 3; 2; 2]%nat), 3%nat, 2%nat, 2%nat.
    unfold nonempty_maps. repeat split; lia.
Defined.
